(** * The autograd engine of torch/csrc/autograd/engine.cpp

    A shallow embedding of the scheduler of the reverse-mode engine:
    gradient validation ([validate_outputs]), dependency analysis
    ([compute_dependencies], [init_to_execute]), the worker loop
    ([thread_main], [evaluate_function]), the completion protocol
    ([set_exception], [mark_graph_task_completed]) and the engine life cycle
    ([execute], [execute_with_graph_task], the destructor).

    Pointers to nodes are natural numbers; [None] stands for [nullptr].
    Hash maps keyed by node pointers are [gmap]s, the [seen] sets are [gset]s.
    C++ exceptions are values of [Exception] carried by [Result]. *)

From Stdlib Require Import ZArith Lia.
From stdpp Require Import base option list gmap sets strings.

Local Open Scope Z_scope.
Set Warnings "-clear-no-such-hyp".

(** ** Exceptions *)

Inductive Exception : Type :=
  | runtime_error (what : string)
  | invalid_number_of_gradients (expected got : nat)
  | invalid_gradient_shape (index : nat) (got expected : list Z)
  | torch_check_failed
  | invalid_gradient_type (index : nat)
  | invalid_gradient_device (index : nat)
  | dependency_not_found (fn : nat)
  | returned_nan (fn : nat) (index : nat)
  | out_of_range
  | internal_assert_failed.

(** The exception of [graph_task_exec_post_processing]. *)
Definition could_not_compute : Exception :=
  runtime_error "could not compute gradients for some functions".

Inductive Result (A : Type) : Type :=
  | Ok (a : A)
  | Throw (e : Exception).
Arguments Ok {A} a.
Arguments Throw {A} e.

#[global] Instance Result_bind : MBind Result := λ A B k r,
  match r with
  | Ok a => k a
  | Throw e => Throw e
  end.

Definition is_throw {A : Type} (r : Result A) : bool :=
  match r with Ok _ => false | Throw _ => true end.

(** ** Devices, edges and nodes *)

(** [c10::DeviceType] as its enumeration value; [kCPU] is the first one. *)
Definition DeviceType : Type := nat.
Definition kCPU : DeviceType := 0%nat.
Definition kCUDA : DeviceType := 1%nat.

Record Device : Type := mkDevice { dev_type : DeviceType; dev_index : Z }.

#[global] Instance Device_eq_dec : EqDecision Device.
Proof. solve_decision. Defined.

Definition NO_DEVICE : Z := -2.
Definition CPU_DEVICE : Z := -1.

(** [std::numeric_limits<int>::max()] for the 32-bit [int] of the engine. *)
Definition INT_MAX : Z := 2147483647.

Definition Node : Type := nat.
Abbreviation NodePtr := (option Node).

Record Edge : Type := mkEdge { function : NodePtr; input_nr : nat }.

(** [Edge::is_valid]: the edge names a function. *)
Definition is_valid (e : Edge) : bool :=
  match function e with Some _ => true | None => false end.

(** ** The tensor library the engine is written against

    Tensors, their options and the ATen helpers called by the engine are
    declared outside this file; they are taken as an interface. *)

Class TensorLib : Type := {
  ScalarType : Type;
  ScalarType_eq_dec :: EqDecision ScalarType;
  isFloatingType : ScalarType → bool;
  TensorOptions : Type;
  options_dtype : TensorOptions → ScalarType;
  options_device : TensorOptions → Device;
  options_is_sparse : TensorOptions → bool;
  type_equal : TensorOptions → TensorOptions → bool;
  Tensor : Type;
  undefined_tensor : Tensor;
  defined : Tensor → bool;
  sizes : Tensor → list Z;
  scalar_type : Tensor → ScalarType;
  device : Tensor → Device;
  options : Tensor → TensorOptions;
  is_expandable_to : list Z → list Z → bool;
  sum_to : Tensor → list Z → Tensor;
  to : Tensor → ScalarType → Tensor;
  accumulate : Tensor → Tensor → Tensor;
  isnan_any : Tensor → bool
}.

(** What the engine relies on: reducing a tensor keeps its element type and
    its device, converting its element type keeps its device. *)
Class TensorLibLaws (L : TensorLib) : Prop := {
  sum_to_scalar_type : ∀ t s, scalar_type (sum_to t s) = scalar_type t;
  sum_to_device : ∀ t s, device (sum_to t s) = device t;
  to_device : ∀ t d, device (to t d) = device t
}.

Abbreviation variable_list := (list Tensor).
Abbreviation edge_list := (list Edge).

Section Validate.
Context {L : TensorLib}.

Record InputMetadata : Type := mkInputMetadata {
  shape : list Z;
  md_options : TensorOptions;
  md_device : Device
}.

(** [Node::input_metadata]. *)
Variable input_metadata : Node → nat → InputMetadata.

Definition is_compatible_type (expected actual : TensorOptions) : bool :=
  type_equal expected actual
  || (options_is_sparse actual
      && bool_decide (dev_type (options_device expected)
                      = dev_type (options_device actual))).

(** The shape step of the loop body: [grads[i]] after the step, or the
    exception. *)
Definition validate_shape (i : nat) (metadata : InputMetadata) (g : Tensor)
  : Result Tensor :=
  if bool_decide (sizes g = shape metadata) then Ok g
  else if is_expandable_to (shape metadata) (sizes g)
       then Ok (sum_to g (shape metadata))
       else Throw (invalid_gradient_shape i (sizes g) (shape metadata)).

(** The element-type step. *)
Definition validate_dtype (metadata : InputMetadata) (g : Tensor)
  : Result Tensor :=
  if isFloatingType (scalar_type g) then
    if bool_decide (options_dtype (md_options metadata) = scalar_type g)
    then Ok g
    else Ok (to g (options_dtype (md_options metadata)))
  else Throw torch_check_failed.

(** One iteration of the loop of [validate_outputs] for a valid edge and a
    defined gradient.  [output] aliases [grads[i]], so the device that is
    compared is the one of the gradient after the two rewrites. *)
Definition validate_defined (i : nat) (metadata : InputMetadata) (g : Tensor)
  : Result Tensor :=
  g1 ← validate_shape i metadata g;
  g2 ← validate_dtype metadata g1;
  if is_compatible_type (md_options metadata) (options g2) then
    if bool_decide (device g2 = md_device metadata) then Ok g2
    else Throw (invalid_gradient_device i)
  else Throw (invalid_gradient_type i).

(** The body of the loop at index [i]. *)
Definition validate_at (i : nat) (edge : Edge) (g : Tensor) : Result Tensor :=
  match function edge with
  | None => Ok g
  | Some fn =>
      if defined g then validate_defined i (input_metadata fn (input_nr edge)) g
      else Ok g
  end.

(** [for (size_t i = 0; i < grads.size(); i++)], with [n] iterations left. *)
Fixpoint validate_loop (n i : nat) (edges : edge_list) (grads : variable_list)
  : Result variable_list :=
  match n with
  | O => Ok grads
  | S n' =>
      match edges !! i, grads !! i with
      | Some edge, Some g =>
          g' ← validate_at i edge g;
          validate_loop n' (S i) edges (<[i := g']> grads)
      | _, _ => Throw out_of_range
      end
  end.

Definition validate_outputs (edges : edge_list) (grads : variable_list)
  : Result variable_list :=
  if bool_decide (length grads ≠ length edges) then
    Throw (invalid_number_of_gradients (length edges) (length grads))
  else validate_loop (length grads) 0 edges grads.

(** The gradient after the shape step, when the step passes. *)
Definition reduce_to_expected (metadata : InputMetadata) (g : Tensor)
  : Tensor :=
  if bool_decide (sizes g = shape metadata) then g
  else sum_to g (shape metadata).

(** The gradient after the element-type step, when the step passes. *)
Definition cast_to_expected (metadata : InputMetadata) (g : Tensor) : Tensor :=
  if bool_decide (options_dtype (md_options metadata) = scalar_type g) then g
  else to g (options_dtype (md_options metadata)).

End Validate.

(** ** Outcomes of the loops of the engine

    A loop of the engine either returns, throws, blocks in
    [ReadyQueue::pop] on an empty queue or in [Future::wait] on a pending
    future, or dereferences a null pointer.  [OutOfFuel] is the only outcome
    that belongs to the model and not to the program. *)

Inductive Outcome (A : Type) : Type :=
  | Ret (a : A)
  | Exn (e : Exception)
  | Blocked
  | Undefined
  | OutOfFuel.
Arguments Ret {A} a.
Arguments Exn {A} e.
Arguments Blocked {A}.
Arguments Undefined {A}.
Arguments OutOfFuel {A}.

(** ** Streams *)

Record Stream : Type := mkStream { stream_device : Device; stream_id : Z }.

#[global] Instance Stream_eq_dec : EqDecision Stream.
Proof. solve_decision. Defined.

(** ** Input buffers *)

Section Buffers.
Context {L : TensorLib}.

(** Modelled from the spec: [InputBuffer] (input_buffer.h is not part of the
    sources) is a fixed-length sequence of optional tensors, one slot per
    input of the node. *)
Definition InputBuffer : Type := list (option Tensor).

(** [InputBuffer(size)]: every slot empty. *)
Definition InputBuffer_new (size : nat) : InputBuffer := replicate size None.

(** Modelled from the spec: [add] places the value in an empty slot and
    accumulates the sum into a filled one.  The stream arguments only order
    the accumulation and are left out. *)
Definition InputBuffer_add (buffer : InputBuffer) (pos : nat) (var : Tensor)
  : InputBuffer :=
  match buffer !! pos with
  | Some (Some old_var) => <[pos := Some (accumulate old_var var)]> buffer
  | _ => <[pos := Some var]> buffer
  end.

(** Modelled from the spec: [operator[]] reads a slot, and an empty slot
    reads as the undefined tensor. *)
Definition InputBuffer_get (buffer : InputBuffer) (pos : nat) : Tensor :=
  match buffer !! pos with
  | Some (Some var) => var
  | _ => undefined_tensor
  end.

(** Modelled from the spec: [InputBuffer::variables] drains the buffer into a
    list; empty slots become undefined tensors. *)
Definition InputBuffer_variables (buffer : InputBuffer) : variable_list :=
  map (λ slot, default undefined_tensor slot) buffer.

End Buffers.

(** ** Execution info, node tasks and graph tasks *)

Record Capture : Type := mkCapture { input_idx_ : nat; output_idx_ : nat }.

(** [captures_] is a [unique_ptr] to a vector: [None] is the null pointer. *)
Record ExecInfo : Type := mkExecInfo {
  needed_ : bool;
  captures_ : option (list Capture)
}.

(** The value [operator[]] of [exec_info_] inserts for a missing key. *)
Definition ExecInfo_default : ExecInfo :=
  {| needed_ := false; captures_ := None |}.

(** Modelled from the spec: [should_execute := needed || captures.non_empty]
    (engine.h is not part of the sources). *)
Definition should_execute (info : ExecInfo) : bool :=
  needed_ info
  || match captures_ info with
     | Some (_ :: _) => true
     | _ => false
     end.

Definition set_needed (needed : bool) (info : ExecInfo) : ExecInfo :=
  {| needed_ := needed; captures_ := captures_ info |}.

(** [info.captures_->emplace_back(input_nr, output_idx)], allocating the
    vector when the pointer is null. *)
Definition add_capture (c : Capture) (info : ExecInfo) : ExecInfo :=
  {| needed_ := needed_ info;
     captures_ := Some (default [] (captures_ info) ++ [c]) |}.

(** [exec_info_.find(ptr)] followed by [should_execute()], false when the key
    is missing.  The key is a raw pointer and may be null. *)
Definition lookup_should_execute (exec_info : gmap NodePtr ExecInfo)
    (ptr : NodePtr) : bool :=
  match exec_info !! ptr with
  | Some info => should_execute info
  | None => false
  end.

Inductive Future (A : Type) : Type :=
  | Pending
  | Completed (value : A)
  | Errored (e : Exception).
Arguments Pending {A}.
Arguments Completed {A} value.
Arguments Errored {A} e.

Definition completed {A : Type} (f : Future A) : bool :=
  match f with Pending => false | _ => true end.

Definition hasError {A : Type} (f : Future A) : bool :=
  match f with Errored _ => true | _ => false end.

(** Identifiers of the shared objects: a [shared_ptr<GraphTask>] or a
    [shared_ptr<ReadyQueue>] is the identifier of the object in the store of
    the engine state. *)
Definition GraphTaskId : Type := nat.
Definition QueueId : Type := nat.

Section Tasks.
Context {L : TensorLib}.

(** Modelled from the spec: the fields of [NodeTask] and [GraphTask]
    (engine.h is not part of the sources), with the names the code of
    engine.cpp uses.  [base_] is a weak pointer: [None] is the empty one of
    a shutdown task. *)
Record NodeTask : Type := mkNodeTask {
  base_ : option GraphTaskId;
  fn_ : NodePtr;
  inputs_ : InputBuffer;
  isShutdownTask_ : bool
}.

Record GraphTask : Type := mkGraphTask {
  outstanding_tasks_ : Z;
  keep_graph_ : bool;
  grad_mode_ : bool;
  has_error_ : bool;
  exit_on_error_ : bool;
  future_result_ : Future variable_list;
  not_ready_ : gmap Node InputBuffer;
  dependencies_ : gmap Node Z;
  exec_info_ : gmap NodePtr ExecInfo;
  captured_vars_ : variable_list;
  leaf_streams : list Stream;
  reentrant_depth_ : Z;
  owner_ : Z;
  cpu_ready_queue_ : option QueueId
}.

Definition with_outstanding_tasks (v : Z) (g : GraphTask) : GraphTask :=
  mkGraphTask v (keep_graph_ g) (grad_mode_ g) (has_error_ g)
    (exit_on_error_ g) (future_result_ g) (not_ready_ g) (dependencies_ g)
    (exec_info_ g) (captured_vars_ g) (leaf_streams g) (reentrant_depth_ g)
    (owner_ g) (cpu_ready_queue_ g).

Definition with_has_error (v : bool) (g : GraphTask) : GraphTask :=
  mkGraphTask (outstanding_tasks_ g) (keep_graph_ g) (grad_mode_ g) v
    (exit_on_error_ g) (future_result_ g) (not_ready_ g) (dependencies_ g)
    (exec_info_ g) (captured_vars_ g) (leaf_streams g) (reentrant_depth_ g)
    (owner_ g) (cpu_ready_queue_ g).

Definition with_future_result (v : Future variable_list) (g : GraphTask)
  : GraphTask :=
  mkGraphTask (outstanding_tasks_ g) (keep_graph_ g) (grad_mode_ g)
    (has_error_ g) (exit_on_error_ g) v (not_ready_ g) (dependencies_ g)
    (exec_info_ g) (captured_vars_ g) (leaf_streams g) (reentrant_depth_ g)
    (owner_ g) (cpu_ready_queue_ g).

Definition with_not_ready (v : gmap Node InputBuffer) (g : GraphTask)
  : GraphTask :=
  mkGraphTask (outstanding_tasks_ g) (keep_graph_ g) (grad_mode_ g)
    (has_error_ g) (exit_on_error_ g) (future_result_ g) v (dependencies_ g)
    (exec_info_ g) (captured_vars_ g) (leaf_streams g) (reentrant_depth_ g)
    (owner_ g) (cpu_ready_queue_ g).

Definition with_dependencies (v : gmap Node Z) (g : GraphTask) : GraphTask :=
  mkGraphTask (outstanding_tasks_ g) (keep_graph_ g) (grad_mode_ g)
    (has_error_ g) (exit_on_error_ g) (future_result_ g) (not_ready_ g) v
    (exec_info_ g) (captured_vars_ g) (leaf_streams g) (reentrant_depth_ g)
    (owner_ g) (cpu_ready_queue_ g).

Definition with_exec_info (v : gmap NodePtr ExecInfo) (g : GraphTask)
  : GraphTask :=
  mkGraphTask (outstanding_tasks_ g) (keep_graph_ g) (grad_mode_ g)
    (has_error_ g) (exit_on_error_ g) (future_result_ g) (not_ready_ g)
    (dependencies_ g) v (captured_vars_ g) (leaf_streams g) (reentrant_depth_
    g) (owner_ g) (cpu_ready_queue_ g).

Definition with_captured_vars (v : variable_list) (g : GraphTask)
  : GraphTask :=
  mkGraphTask (outstanding_tasks_ g) (keep_graph_ g) (grad_mode_ g)
    (has_error_ g) (exit_on_error_ g) (future_result_ g) (not_ready_ g)
    (dependencies_ g) (exec_info_ g) v (leaf_streams g) (reentrant_depth_ g)
    (owner_ g) (cpu_ready_queue_ g).

Definition with_leaf_streams (v : list Stream) (g : GraphTask) : GraphTask :=
  mkGraphTask (outstanding_tasks_ g) (keep_graph_ g) (grad_mode_ g)
    (has_error_ g) (exit_on_error_ g) (future_result_ g) (not_ready_ g)
    (dependencies_ g) (exec_info_ g) (captured_vars_ g) v (reentrant_depth_ g)
    (owner_ g) (cpu_ready_queue_ g).

Definition with_owner (v : Z) (g : GraphTask) : GraphTask :=
  mkGraphTask (outstanding_tasks_ g) (keep_graph_ g) (grad_mode_ g)
    (has_error_ g) (exit_on_error_ g) (future_result_ g) (not_ready_ g)
    (dependencies_ g) (exec_info_ g) (captured_vars_ g) (leaf_streams g)
    (reentrant_depth_ g) v (cpu_ready_queue_ g).

(** Modelled from the spec: the constructor of [GraphTask] (engine.h), called
    by [execute] with [keep_graph], [create_graph] as the gradient mode, the
    reentrant depth and the CPU queue; [exit_on_error] is off and the owner
    is [NO_DEVICE] until a thread takes the task. *)
Definition GraphTask_new (keep_graph grad_mode : bool) (reentrant_depth : Z)
    (cpu_ready_queue : option QueueId) : GraphTask :=
  {| outstanding_tasks_ := 0; keep_graph_ := keep_graph;
     grad_mode_ := grad_mode; has_error_ := false; exit_on_error_ := false;
     future_result_ := Pending; not_ready_ := ∅; dependencies_ := ∅;
     exec_info_ := ∅; captured_vars_ := []; leaf_streams := [];
     reentrant_depth_ := reentrant_depth; owner_ := NO_DEVICE;
     cpu_ready_queue_ := cpu_ready_queue |}.

End Tasks.

(** ** Dependency analysis *)

Section Analysis.
Context {L : TensorLib}.

(** [Node::next_edges] of the node at each address. *)
Variable next_edges : Node → edge_list.

(** The body of the [for] loop of [compute_dependencies] for one edge.
    The worklist is a vector used as a stack: its back is the head of the
    list. *)
Definition compute_dependencies_edge
    (st : list Node * gset Node * gmap Node Z) (edge : Edge)
  : list Node * gset Node * gmap Node Z :=
  let '(queue, seen, dependencies) := st in
  match function edge with
  | Some next_ptr =>
      let dependencies :=
        <[next_ptr := default 0 (dependencies !! next_ptr) + 1]> dependencies in
      if decide (next_ptr ∈ seen) then (queue, seen, dependencies)
      else (next_ptr :: queue, {[next_ptr]} ∪ seen, dependencies)
  | None => st
  end.

(** [while (!queue.empty())], with at most [fuel] iterations. *)
Fixpoint compute_dependencies_loop (fuel : nat) (queue : list Node)
    (seen : gset Node) (dependencies : gmap Node Z) : option (gmap Node Z) :=
  match queue with
  | [] => Some dependencies
  | fn :: queue =>
      match fuel with
      | O => None
      | S fuel =>
          let '(queue, seen, dependencies) :=
            foldl compute_dependencies_edge (queue, seen, dependencies)
                  (next_edges fn) in
          compute_dependencies_loop fuel queue seen dependencies
      end
  end.

Definition compute_dependencies (fuel : nat) (root : Node) (task : GraphTask)
  : option GraphTask :=
  dependencies ← compute_dependencies_loop fuel [root] ∅ (dependencies_ task);
  Some (with_dependencies dependencies task).

(** The frames of the explicit stack of [init_to_execute]. *)
Record Frame : Type := mkFrame { frame_fn_ : NodePtr; next_next_fn_ : nat }.

(** The loop of [Frame::get_next_fn] over the edges from [next_next_fn_] on:
    the first non-null function and the index after it, or null and the
    number of edges. *)
Fixpoint get_next_fn_scan (rest : edge_list) (next_next_fn : nat)
  : NodePtr * nat :=
  match rest with
  | [] => (None, next_next_fn)
  | edge :: rest =>
      match function edge with
      | Some fn => (Some fn, S next_next_fn)
      | None => get_next_fn_scan rest (S next_next_fn)
      end
  end.

Definition get_next_fn (fn : Node) (next_next_fn : nat) : NodePtr * nat :=
  get_next_fn_scan (drop next_next_fn (next_edges fn)) next_next_fn.

(** [std::any_of] over the edges of a popped frame. *)
Definition any_should_execute (exec_info : gmap NodePtr ExecInfo)
    (edges : edge_list) : bool :=
  existsb (λ edge, lookup_should_execute exec_info (function edge)) edges.

(** [exec_info_[fn].needed_ = needed], default-constructing the entry. *)
Definition assign_needed (fn : NodePtr) (needed : bool)
    (exec_info : gmap NodePtr ExecInfo) : gmap NodePtr ExecInfo :=
  <[fn := set_needed needed (default ExecInfo_default (exec_info !! fn))]>
    exec_info.

(** [while (!stack.empty())], with at most [fuel] iterations.  The top of
    the stack is the head of the list.  A frame built from a null pointer is
    dereferenced by [get_next_fn]. *)
Fixpoint init_to_execute_loop (fuel : nat) (stack : list Frame)
    (seen : gset Node) (exec_info : gmap NodePtr ExecInfo)
  : Outcome (gset Node * gmap NodePtr ExecInfo) :=
  match stack with
  | [] => Ret (seen, exec_info)
  | frame :: stack =>
      match fuel with
      | O => OutOfFuel
      | S fuel =>
          match frame_fn_ frame with
          | None => Undefined
          | Some fn =>
              let '(next_fn, idx) := get_next_fn fn (next_next_fn_ frame) in
              let frame := mkFrame (Some fn) idx in
              match next_fn with
              | Some next_fn =>
                  if decide (next_fn ∈ seen) then
                    init_to_execute_loop fuel (frame :: stack) seen exec_info
                  else
                    init_to_execute_loop fuel
                      (mkFrame (Some next_fn) 0 :: frame :: stack)
                      ({[next_fn]} ∪ seen) exec_info
              | None =>
                  let needed := any_should_execute exec_info (next_edges fn) in
                  init_to_execute_loop fuel stack seen
                    (assign_needed (Some fn) needed exec_info)
              end
          end
      end
  end.

(** [seen.count(ptr) > 0] for a possibly null pointer; null is never put in
    [seen]. *)
Definition seen_count (seen : gset Node) (ptr : NodePtr) : bool :=
  match ptr with
  | Some fn => bool_decide (fn ∈ seen)
  | None => false
  end.

(** [for (const auto & input : graph_root.next_edges())]. *)
Fixpoint init_to_execute_roots (fuel : nat) (inputs : edge_list)
    (seen : gset Node) (exec_info : gmap NodePtr ExecInfo)
  : Outcome (gmap NodePtr ExecInfo) :=
  match inputs with
  | [] => Ret exec_info
  | input :: inputs =>
      if seen_count seen (function input) then
        init_to_execute_roots fuel inputs seen exec_info
      else
        match init_to_execute_loop fuel [mkFrame (function input) 0]
                                   seen exec_info with
        | Ret (seen, exec_info) =>
            init_to_execute_roots fuel inputs seen exec_info
        | Exn e => Exn e
        | Blocked => Blocked
        | Undefined => Undefined
        | OutOfFuel => OutOfFuel
        end
  end.

(** The loop over the requested outputs: one capture per output edge. *)
Fixpoint init_captures (outputs : edge_list) (output_idx : nat)
    (exec_info : gmap NodePtr ExecInfo) : gmap NodePtr ExecInfo * nat :=
  match outputs with
  | [] => (exec_info, output_idx)
  | output_edge :: outputs =>
      let output := function output_edge in
      let info := default ExecInfo_default (exec_info !! output) in
      init_captures outputs (S output_idx)
        (<[output := add_capture (mkCapture (input_nr output_edge) output_idx)
                                 info]> exec_info)
  end.

(** [captured_vars_.resize(n)]. *)
Definition resize (n : nat) (vars : variable_list) : variable_list :=
  take n vars ++ replicate (n - length vars) undefined_tensor.

Definition init_to_execute (fuel : nat) (graph_root : Node)
    (outputs : edge_list) (task : GraphTask) : Outcome GraphTask :=
  let exec_info :=
    assign_needed (Some graph_root) true (exec_info_ task) in
  let '(exec_info, output_idx) := init_captures outputs 0 exec_info in
  let task := with_captured_vars (resize output_idx (captured_vars_ task))
                                 task in
  match init_to_execute_roots fuel (next_edges graph_root) ∅ exec_info with
  | Ret exec_info => Ret (with_exec_info exec_info task)
  | Exn e => Exn e
  | Blocked => Blocked
  | Undefined => Undefined
  | OutOfFuel => OutOfFuel
  end.

End Analysis.

(** ** Computations over a state

    [Comp S A] is a computation that updates a state [S] and ends in an
    [Outcome].  An exception keeps the state reached when it is thrown, as
    a [catch] handler finds it. *)

Definition Comp (S A : Type) : Type := S → S * Outcome A.

#[global] Instance Comp_ret {S : Type} : MRet (Comp S) := λ A a s, (s, Ret a).

#[global] Instance Comp_bind {S : Type} : MBind (Comp S) := λ A B k m s,
  match m s with
  | (s, Ret a) => k a s
  | (s, Exn e) => (s, Exn e)
  | (s, Blocked) => (s, Blocked)
  | (s, Undefined) => (s, Undefined)
  | (s, OutOfFuel) => (s, OutOfFuel)
  end.

Definition get_state {S : Type} : Comp S S := λ s, (s, Ret s).
Definition put_state {S : Type} (s : S) : Comp S unit := λ _, (s, Ret ()).
Definition modify {S : Type} (f : S → S) : Comp S unit := λ s, (f s, Ret ()).
Definition throw {S A : Type} (e : Exception) : Comp S A := λ s, (s, Exn e).
Definition block {S A : Type} : Comp S A := λ s, (s, Blocked).
Definition undefined_behaviour {S A : Type} : Comp S A := λ s, (s, Undefined).
Definition out_of_fuel {S A : Type} : Comp S A := λ s, (s, OutOfFuel).

Definition lift_result {S A : Type} (r : Result A) : Comp S A :=
  match r with
  | Ok a => mret a
  | Throw e => throw e
  end.

(** [TORCH_INTERNAL_ASSERT]. *)
Definition internal_assert {S : Type} (b : bool) : Comp S unit :=
  if b then mret () else throw internal_assert_failed.

(** [try { m } catch (std::exception& e) { handler e }]. *)
Definition try_catch {S A : Type} (m : Comp S A)
    (handler : Exception → Comp S A) : Comp S A := λ s,
  match m s with
  | (s, Exn e) => handler e s
  | r => r
  end.

(** A scope guard: [cleanup] runs when [m] returns and when it throws. *)
Definition finally {S A : Type} (m : Comp S A) (cleanup : S → S)
  : Comp S A := λ s,
  match m s with
  | (s, Ret a) => (cleanup s, Ret a)
  | (s, Exn e) => (cleanup s, Exn e)
  | r => r
  end.

(** Runs a computation on a component of the state. *)
Definition zoom {S T A : Type} (proj : S → T) (inj : T → S → S)
    (m : Comp T A) : Comp S A := λ s,
  let '(t, o) := m (proj s) in (inj t s, o).

(** [std::vector::at] with the index converted to [size_t]. *)
Definition vector_at {A : Type} (v : list A) (i : Z) : Result A :=
  if decide (0 ≤ i) then
    match v !! Z.to_nat i with
    | Some a => Ok a
    | None => Throw out_of_range
    end
  else Throw out_of_range.

(** Increment and decrement of the 64-bit unsigned counter
    [outstanding_tasks_]. *)
Definition uint64_incr (n : Z) : Z := (n + 1) mod 2 ^ 64.
Definition uint64_decr (n : Z) : Z := (n - 1) mod 2 ^ 64.

(** ** The state of the engine *)

Section EngineState.
Context {L : TensorLib}.

(** What the engine uses of the [Node] object at an address. *)
Record NodeImpl : Type := mkNodeImpl {
  node_next_edges : edge_list;
  node_num_inputs : nat;
  node_input_metadata : nat → InputMetadata;
  node_apply : variable_list → Result variable_list;
  node_pre_hooks : list (variable_list → Result variable_list);
  node_post_hooks :
    list (variable_list → variable_list → Result variable_list);
  node_stream : option Stream
}.

(** Modelled from the spec: [GraphRoot] (basic_ops.h is not part of the
    sources) is a synthetic node whose edges are the roots and whose [apply]
    returns the seed gradients. *)
Definition GraphRoot (roots : edge_list) (inputs : variable_list) : NodeImpl :=
  {| node_next_edges := roots;
     node_num_inputs := 0;
     node_input_metadata := λ _, mkInputMetadata [] (options undefined_tensor)
                                                 (mkDevice kCPU (-1));
     node_apply := λ _, Ok inputs;
     node_pre_hooks := [];
     node_post_hooks := [];
     node_stream := None |}.

(** The thread-local variables of engine.cpp. *)
Record ThreadLocals : Type := mkThreadLocals {
  worker_device : Z;
  checkpoint_valid : bool;
  current_depth : Z;
  total_depth : Z;
  local_ready_queue : option QueueId
}.

(** The initial values of the thread-locals of a thread. *)
Definition ThreadLocals_init : ThreadLocals :=
  {| worker_device := NO_DEVICE; checkpoint_valid := true;
     current_depth := 0; total_depth := 0; local_ready_queue := None |}.

Record ThreadPoolShared : Type := mkThreadPoolShared {
  graphtasks_queue_ : list GraphTaskId;
  num_workers_ : nat
}.

(** The threads the engine detaches. *)
Inductive Thread : Type :=
  | device_thread (device : Z) (ready_queue : QueueId)
  | reentrant_thread (parent_ready_queue : option QueueId).

(** What the ghost trace of the engine records: a task for a node pushed with
    [incrementOutstandingTasks] for a graph task, and a call of the [apply]
    of a node on behalf of a graph task. *)
Inductive Event : Type :=
  | ev_push (gid : GraphTaskId) (fn : NodePtr)
  | ev_apply (gid : GraphTaskId) (fn : Node).

#[global] Instance Event_eq_dec : EqDecision Event.
Proof. solve_decision. Defined.

(** The engine object together with the objects it shares with its threads:
    the node objects, the live graph tasks (a weak pointer to an identifier
    that is not in [graph_tasks] has expired) and the heaps of the ready
    queues.  [spawned_] and [trace_] are ghost fields; the most recent event
    of the trace comes last. *)
Record Engine : Type := mkEngine {
  max_recursion_depth_ : Z;
  start_device_threads_flag_ : bool;
  device_ready_queues_ : list QueueId;
  thread_pool_shared_ : option ThreadPoolShared;
  final_callbacks_ : list (Result unit);
  nodes : Node → NodeImpl;
  graph_tasks : gmap GraphTaskId GraphTask;
  next_graph_task : GraphTaskId;
  ready_queues : gmap QueueId (list NodeTask);
  next_ready_queue : QueueId;
  spawned_ : list Thread;
  trace_ : list Event
}.

(** [Engine::Engine() : max_recursion_depth_(100) {}], over the node objects
    of the process. *)
Definition Engine_new (node_objects : Node → NodeImpl) : Engine :=
  {| max_recursion_depth_ := 100;
     start_device_threads_flag_ := false;
     device_ready_queues_ := [];
     thread_pool_shared_ := None;
     final_callbacks_ := [];
     nodes := node_objects;
     graph_tasks := ∅;
     next_graph_task := 0%nat;
     ready_queues := ∅;
     next_ready_queue := 0%nat;
     spawned_ := [];
     trace_ := [] |}.

Definition with_start_device_threads_flag (v : bool) (e : Engine) : Engine :=
  mkEngine (max_recursion_depth_ e) v (device_ready_queues_ e)
    (thread_pool_shared_ e) (final_callbacks_ e) (nodes e) (graph_tasks e)
    (next_graph_task e) (ready_queues e) (next_ready_queue e) (spawned_ e)
    (trace_ e).

Definition with_device_ready_queues (v : list QueueId) (e : Engine)
  : Engine :=
  mkEngine (max_recursion_depth_ e) (start_device_threads_flag_ e) v
    (thread_pool_shared_ e) (final_callbacks_ e) (nodes e) (graph_tasks e)
    (next_graph_task e) (ready_queues e) (next_ready_queue e) (spawned_ e)
    (trace_ e).

Definition with_thread_pool_shared (v : option ThreadPoolShared) (e : Engine)
  : Engine :=
  mkEngine (max_recursion_depth_ e) (start_device_threads_flag_ e)
    (device_ready_queues_ e) v (final_callbacks_ e) (nodes e) (graph_tasks e)
    (next_graph_task e) (ready_queues e) (next_ready_queue e) (spawned_ e)
    (trace_ e).

Definition with_final_callbacks (v : list (Result unit)) (e : Engine)
  : Engine :=
  mkEngine (max_recursion_depth_ e) (start_device_threads_flag_ e)
    (device_ready_queues_ e) (thread_pool_shared_ e) v (nodes e) (graph_tasks
    e) (next_graph_task e) (ready_queues e) (next_ready_queue e) (spawned_ e)
    (trace_ e).

Definition with_nodes (v : Node → NodeImpl) (e : Engine) : Engine :=
  mkEngine (max_recursion_depth_ e) (start_device_threads_flag_ e)
    (device_ready_queues_ e) (thread_pool_shared_ e) (final_callbacks_ e) v
    (graph_tasks e) (next_graph_task e) (ready_queues e) (next_ready_queue e)
    (spawned_ e) (trace_ e).

Definition with_graph_tasks (v : gmap GraphTaskId GraphTask) (e : Engine)
  : Engine :=
  mkEngine (max_recursion_depth_ e) (start_device_threads_flag_ e)
    (device_ready_queues_ e) (thread_pool_shared_ e) (final_callbacks_ e)
    (nodes e) v (next_graph_task e) (ready_queues e) (next_ready_queue e)
    (spawned_ e) (trace_ e).

Definition with_next_graph_task (v : GraphTaskId) (e : Engine) : Engine :=
  mkEngine (max_recursion_depth_ e) (start_device_threads_flag_ e)
    (device_ready_queues_ e) (thread_pool_shared_ e) (final_callbacks_ e)
    (nodes e) (graph_tasks e) v (ready_queues e) (next_ready_queue e)
    (spawned_ e) (trace_ e).

Definition with_ready_queues (v : gmap QueueId (list NodeTask)) (e : Engine)
  : Engine :=
  mkEngine (max_recursion_depth_ e) (start_device_threads_flag_ e)
    (device_ready_queues_ e) (thread_pool_shared_ e) (final_callbacks_ e)
    (nodes e) (graph_tasks e) (next_graph_task e) v (next_ready_queue e)
    (spawned_ e) (trace_ e).

Definition with_next_ready_queue (v : QueueId) (e : Engine) : Engine :=
  mkEngine (max_recursion_depth_ e) (start_device_threads_flag_ e)
    (device_ready_queues_ e) (thread_pool_shared_ e) (final_callbacks_ e)
    (nodes e) (graph_tasks e) (next_graph_task e) (ready_queues e) v (spawned_
    e) (trace_ e).

Definition with_spawned (v : list Thread) (e : Engine) : Engine :=
  mkEngine (max_recursion_depth_ e) (start_device_threads_flag_ e)
    (device_ready_queues_ e) (thread_pool_shared_ e) (final_callbacks_ e)
    (nodes e) (graph_tasks e) (next_graph_task e) (ready_queues e)
    (next_ready_queue e) v (trace_ e).

Definition with_trace (v : list Event) (e : Engine) : Engine :=
  mkEngine (max_recursion_depth_ e) (start_device_threads_flag_ e)
    (device_ready_queues_ e) (thread_pool_shared_ e) (final_callbacks_ e)
    (nodes e) (graph_tasks e) (next_graph_task e) (ready_queues e)
    (next_ready_queue e) (spawned_ e) v.

(** The state a thread of the engine runs on: its own thread-locals and the
    shared engine. *)
Record State : Type := mkState { tls : ThreadLocals; engine : Engine }.

Definition with_tls (v : ThreadLocals) (s : State) : State :=
  mkState v (engine s).
Definition with_engine (v : Engine) (s : State) : State :=
  mkState (tls s) v.

Definition set_worker_device (v : Z) (t : ThreadLocals) : ThreadLocals :=
  mkThreadLocals v (checkpoint_valid t) (current_depth t) (total_depth t)
    (local_ready_queue t).
Definition set_checkpoint_valid (v : bool) (t : ThreadLocals) : ThreadLocals :=
  mkThreadLocals (worker_device t) v (current_depth t) (total_depth t)
    (local_ready_queue t).
Definition set_current_depth (v : Z) (t : ThreadLocals) : ThreadLocals :=
  mkThreadLocals (worker_device t) (checkpoint_valid t) v (total_depth t)
    (local_ready_queue t).
Definition set_total_depth (v : Z) (t : ThreadLocals) : ThreadLocals :=
  mkThreadLocals (worker_device t) (checkpoint_valid t) (current_depth t) v
    (local_ready_queue t).
Definition set_local_ready_queue (v : option QueueId) (t : ThreadLocals)
  : ThreadLocals :=
  mkThreadLocals (worker_device t) (checkpoint_valid t) (current_depth t)
    (total_depth t) v.

(** *** Weak pointers and the priority of node tasks *)

(** [weak_ptr::lock]. *)
Definition lock (tasks : gmap GraphTaskId GraphTask)
    (base : option GraphTaskId) : option GraphTask :=
  gid ← base; tasks !! gid.

Definition getReentrantDepth (tasks : gmap GraphTaskId GraphTask)
    (task : NodeTask) : Z :=
  match lock tasks (base_ task) with
  | Some graph_task => reentrant_depth_ graph_task
  | None => INT_MAX
  end.

(** Modelled from the spec: the order of the heap of a [ReadyQueue] (the
    comparator is declared in engine.h, which is not part of the sources) is
    keyed by (is_shutdown descending, reentrant_depth descending).
    [task_before t1 t2] holds when [t1] is strictly ahead of [t2]. *)
Definition task_before (tasks : gmap GraphTaskId GraphTask)
    (t1 t2 : NodeTask) : bool :=
  (isShutdownTask_ t1 && negb (isShutdownTask_ t2))
  || (eqb (isShutdownTask_ t1) (isShutdownTask_ t2)
      && (getReentrantDepth tasks t2 <? getReentrantDepth tasks t1)).

(** The position and the value of the top of the heap: the first task that
    no other task is strictly ahead of. *)
Fixpoint heap_top_from (tasks : gmap GraphTaskId GraphTask)
    (best : nat * NodeTask) (i : nat) (rest : list NodeTask)
  : nat * NodeTask :=
  match rest with
  | [] => best
  | t :: rest =>
      heap_top_from tasks
        (if task_before tasks t (snd best) then (i, t) else best) (S i) rest
  end.

(** [heap_.top()] and [heap_.pop()]; [None] on the empty heap, where
    [ReadyQueue::pop] waits. *)
Definition heap_pop (tasks : gmap GraphTaskId GraphTask)
    (heap : list NodeTask) : option (NodeTask * list NodeTask) :=
  match heap with
  | [] => None
  | t :: rest =>
      let '(i, top) := heap_top_from tasks (0%nat, t) 1%nat rest in
      Some (top, delete i heap)
  end.

End EngineState.

(** ** The operations of the engine *)

Section Operations.
Context {L : TensorLib}.

(** [GraphTask::can_checkpoint] (engine.h), [AnomalyMode::is_enabled],
    [InputBuffer::device] (input_buffer.h) and the largest [deviceCount] of
    the registered device types are taken as parameters. *)
Variable can_checkpoint : GraphTask → bool.
Variable anomaly_enabled : bool.
Variable InputBuffer_device : InputBuffer → Device.
Variable num_devices : nat.

(** *** Accessors of the shared objects *)

Definition get_graph_task (gid : GraphTaskId) : Comp State GraphTask := λ s,
  match graph_tasks (engine s) !! gid with
  | Some graph_task => (s, Ret graph_task)
  | None => (s, Undefined)
  end.

Definition put_graph_task (gid : GraphTaskId) (graph_task : GraphTask)
    (s : State) : State :=
  with_engine
    (with_graph_tasks (<[gid := graph_task]> (graph_tasks (engine s)))
                      (engine s)) s.

(** Runs a computation on the graph task behind a shared pointer. *)
Definition on_graph_task {A : Type} (gid : GraphTaskId)
    (m : Comp GraphTask A) : Comp State A := λ s,
  match graph_tasks (engine s) !! gid with
  | Some graph_task =>
      let '(graph_task, o) := m graph_task in
      (put_graph_task gid graph_task s, o)
  | None => (s, Undefined)
  end.

Definition get_tls : Comp State ThreadLocals := λ s, (s, Ret (tls s)).
Definition modify_tls (f : ThreadLocals → ThreadLocals) : Comp State unit :=
  modify (λ s, with_tls (f (tls s)) s).
Definition get_engine : Comp State Engine := λ s, (s, Ret (engine s)).
Definition modify_engine (f : Engine → Engine) : Comp State unit :=
  modify (λ s, with_engine (f (engine s)) s).

(** *** ReadyQueue *)

(** [heap_.push(item)] on the queue behind a shared pointer. *)
Definition heap_push (queue : QueueId) (item : NodeTask) (e : Engine)
  : Engine :=
  with_ready_queues
    (<[queue := default [] (ready_queues e !! queue) ++ [item]]>
       (ready_queues e)) e.

(** The effect of [ReadyQueue::push] on the graph task of the item when
    [incrementOutstandingTasks] is set. *)
Definition count_push (graph_task : GraphTask) : GraphTask :=
  with_outstanding_tasks (uint64_incr (outstanding_tasks_ graph_task))
                         graph_task.

Definition record_event (ev : Event) (e : Engine) : Engine :=
  with_trace (trace_ e ++ [ev]) e.

Definition ReadyQueue_push (queue : QueueId) (item : NodeTask)
    (incrementOutstandingTasks : bool) : Comp State unit :=
  (if incrementOutstandingTasks then
     e ← get_engine;
     match base_ item with
     | Some gid =>
         match graph_tasks e !! gid with
         | Some _ =>
             on_graph_task gid (modify count_push);;
             modify_engine (record_event (ev_push gid (fn_ item)))
         | None => throw internal_assert_failed
         end
     | None => throw internal_assert_failed
     end
   else mret ());;
  modify_engine (heap_push queue item).

Definition pushShutdownTask (queue : QueueId) (e : Engine) : Engine :=
  heap_push queue (mkNodeTask None None (InputBuffer_new 0) true) e.

Definition ReadyQueue_size (queue : QueueId) (e : Engine) : nat :=
  length (default [] (ready_queues e !! queue)).

Definition ReadyQueue_empty (queue : QueueId) (e : Engine) : bool :=
  match default [] (ready_queues e !! queue) with
  | [] => true
  | _ => false
  end.

(** [ReadyQueue::pop]: waits while the heap is empty. *)
Definition ReadyQueue_pop (queue : QueueId) : Comp State NodeTask := λ s,
  let e := engine s in
  match heap_pop (graph_tasks e) (default [] (ready_queues e !! queue)) with
  | Some (task, heap) =>
      (with_engine (with_ready_queues (<[queue := heap]> (ready_queues e)) e) s,
       Ret task)
  | None => (s, Blocked)
  end.

Definition graph_task_completed (graph_task : GraphTask) : bool :=
  bool_decide (outstanding_tasks_ graph_task = 0)
  || (exit_on_error_ graph_task && has_error_ graph_task).

(** *** The queue of a device *)

Definition ready_queue (device_ready_queues : list QueueId)
    (graph_task : GraphTask) (device : Device) : Result QueueId :=
  if decide (dev_type device = kCPU) then
    match cpu_ready_queue_ graph_task with
    | Some queue => Ok queue
    | None => Throw internal_assert_failed
    end
  else vector_at device_ready_queues (dev_index device).

Definition ready_queue_by_index (device_ready_queues : list QueueId)
    (graph_task : GraphTask) (device_index : Z) : Result QueueId :=
  if decide (device_index = CPU_DEVICE) then
    match cpu_ready_queue_ graph_task with
    | Some queue => Ok queue
    | None => Throw internal_assert_failed
    end
  else vector_at device_ready_queues device_index.

(** [Engine::set_device]: the device guards have no effect on the state of
    the engine. *)
Definition set_device (device : Z) : Comp State unit :=
  modify_tls (set_worker_device device).

Definition init_local_ready_queue (ready_queue : option QueueId)
  : Comp State unit :=
  t ← get_tls;
  internal_assert (bool_decide (local_ready_queue t = None));;
  modify_tls (set_local_ready_queue ready_queue).

(** *** Exceptions of a graph task *)

(** [GraphTask::set_exception]; printing the anomaly stack has no effect on
    the state.  The future keeps the exception in place of its message. *)
Definition set_exception (e : Exception) : Comp GraphTask unit :=
  graph_task ← get_state;
  if has_error_ graph_task then mret ()
  else
    modify (with_has_error true);;
    if negb (completed (future_result_ graph_task)) then
      modify (with_future_result (Errored e))
    else internal_assert (hasError (future_result_ graph_task)).

Definition thread_on_exception (gid : GraphTaskId) (e : Exception)
  : Comp State unit :=
  on_graph_task gid (set_exception e).

(** *** Calling a node *)

Fixpoint call_pre_hooks
    (hooks : list (variable_list → Result variable_list))
    (inputs : variable_list) : Result variable_list :=
  match hooks with
  | [] => Ok inputs
  | hook :: hooks => inputs ← hook inputs; call_pre_hooks hooks inputs
  end.

Fixpoint call_post_hooks
    (hooks : list (variable_list → variable_list → Result variable_list))
    (outputs inputs : variable_list) : Result variable_list :=
  match hooks with
  | [] => Ok outputs
  | hook :: hooks =>
      outputs ← hook outputs inputs; call_post_hooks hooks outputs inputs
  end.

(** [call_function].  Releasing the saved variables of the node and the
    debug-info guard have no effect on the state of the engine.  The call of
    the node is recorded in the ghost trace. *)
Definition call_function (gid : GraphTaskId) (func : Node)
    (inputBuffer : InputBuffer) : Comp State variable_list :=
  graph_task ← get_graph_task gid;
  t ← get_tls;
  let prev_checkpoint_valid_state := checkpoint_valid t in
  modify_tls (set_checkpoint_valid
                (can_checkpoint graph_task && prev_checkpoint_valid_state));;
  e ← get_engine;
  let fn := nodes e func in
  inputs ← lift_result
    (call_pre_hooks (node_pre_hooks fn) (InputBuffer_variables inputBuffer));
  let has_post_hooks :=
    match node_post_hooks fn with [] => false | _ => true end in
  modify_engine (record_event (ev_apply gid func));;
  outputs ← lift_result (node_apply fn inputs);
  outputs ← lift_result
    (validate_outputs (λ n, node_input_metadata (nodes e n))
                      (node_next_edges fn) outputs);
  modify_tls (set_checkpoint_valid prev_checkpoint_valid_state);;
  if has_post_hooks then
    lift_result (call_post_hooks (node_post_hooks fn) outputs inputs)
  else mret outputs.

(** *** Routing the outputs of a node *)

(** One iteration of the capture loop of [evaluate_function]:
    [captured_vars_[capture.output_idx_] = inputs[capture.input_idx_]].  The
    subscript of a vector is not checked: an index past the end is undefined
    behaviour, [None] here. *)
Definition write_capture (inputs : InputBuffer)
    (captured_vars : option variable_list) (capture : Capture)
  : option variable_list :=
  vars ← captured_vars;
  if decide (output_idx_ capture < length vars)%nat then
    Some (<[output_idx_ capture :=
              InputBuffer_get inputs (input_idx_ capture)]> vars)
  else None.

(** The capture loop of [evaluate_function]. *)
Definition write_captures (capture_vec : list Capture) (inputs : InputBuffer)
    (captured_vars : variable_list) : option variable_list :=
  foldl (write_capture inputs) (Some captured_vars) capture_vec.

(** The routing loop runs on the graph task and on the tasks it hands to
    the ready queues, in the order of the pushes. *)
Definition Routing : Type := GraphTask * list (QueueId * NodeTask).

Definition modify_task (f : GraphTask → GraphTask) : Comp Routing unit :=
  modify (λ st : Routing, (f (fst st), snd st)).

(** [queue.push(NodeTask(graph_task, next.function, input_buffer))]: the
    graph task is alive, so the push counts one more outstanding task. *)
Definition push_node_task (gid : GraphTaskId) (queue : QueueId) (fn : Node)
    (input_buffer : InputBuffer) : Comp Routing unit :=
  modify (λ st : Routing,
    (count_push (fst st),
     snd st ++ [(queue, mkNodeTask (Some gid) (Some fn) input_buffer false)])).

(** The lookup in [dependencies_] at the head of the loop body: the count is
    decremented, and the entry erased when it reaches zero. *)
Definition decrement_dependency (next_fn : Node) : Comp Routing bool :=
  st ← get_state;
  match dependencies_ (fst st) !! next_fn with
  | None => throw (dependency_not_found next_fn)
  | Some count =>
      if decide (count - 1 = 0) then
        modify_task (λ g, with_dependencies
                            (delete next_fn (dependencies_ g)) g);;
        mret true
      else
        modify_task (λ g, with_dependencies
                            (<[next_fn := count - 1]> (dependencies_ g)) g);;
        mret false
  end.

(** The body of the routing loop for one output and its edge. *)
Definition route_output (device_ready_queues : list QueueId)
    (num_inputs : Node → nat) (gid : GraphTaskId) (output : Tensor)
    (next : Edge) : Comp Routing unit :=
  match function next with
  | None => mret ()
  | Some next_fn =>
      is_ready ← decrement_dependency next_fn;
      st ← get_state;
      let graph_task := fst st in
      match not_ready_ graph_task !! next_fn with
      | None =>
          if negb (bool_decide (exec_info_ graph_task = ∅))
             && negb (lookup_should_execute (exec_info_ graph_task)
                                            (Some next_fn))
          then mret ()
          else
            let input_buffer :=
              InputBuffer_add (InputBuffer_new (num_inputs next_fn))
                              (input_nr next) output in
            if is_ready : bool then
              queue ← lift_result
                (ready_queue device_ready_queues graph_task
                             (InputBuffer_device input_buffer));
              push_node_task gid queue next_fn input_buffer
            else
              modify_task (λ g, with_not_ready
                                  (<[next_fn := input_buffer]> (not_ready_ g))
                                  g)
      | Some input_buffer =>
          let input_buffer :=
            InputBuffer_add input_buffer (input_nr next) output in
          modify_task (λ g, with_not_ready
                              (<[next_fn := input_buffer]> (not_ready_ g)) g);;
          if is_ready : bool then
            queue ← lift_result
              (ready_queue device_ready_queues graph_task
                           (InputBuffer_device input_buffer));
            push_node_task gid queue next_fn input_buffer;;
            modify_task (λ g, with_not_ready
                                (delete next_fn (not_ready_ g)) g)
          else mret ()
      end
  end.

(** [for (int i = 0; i < num_outputs; ++i)] over the outputs left, with the
    edges from index [i] on.  [fn.next_edge(i)] past the last edge is not
    defined. *)
Fixpoint route_outputs (device_ready_queues : list QueueId)
    (num_inputs : Node → nat) (gid : GraphTaskId) (outputs : variable_list)
    (edges : edge_list) : Comp Routing unit :=
  match outputs with
  | [] => mret ()
  | output :: outputs =>
      match edges with
      | [] => undefined_behaviour
      | next :: edges =>
          route_output device_ready_queues num_inputs gid output next;;
          route_outputs device_ready_queues num_inputs gid outputs edges
      end
  end.

(** The anomaly-mode scan of the outputs. *)
Fixpoint check_nan (func : Node) (i : nat) (outputs : variable_list)
  : Result unit :=
  match outputs with
  | [] => Ok ()
  | output :: outputs =>
      if defined output && isnan_any output then Throw (returned_nan func i)
      else check_nan func (S i) outputs
  end.

(** [leaf_streams.emplace(stream)] on the set of leaf streams. *)
Definition emplace_stream (stream : Stream) (streams : list Stream)
  : list Stream :=
  if decide (stream ∈ streams) then streams else stream :: streams.

(** Hands the tasks collected by the routing loop to their queues, and
    records them in the ghost trace. *)
Definition commit_pushes (gid : GraphTaskId)
    (pushes : list (QueueId * NodeTask)) (e : Engine) : Engine :=
  foldl (λ e p, record_event (ev_push gid (fn_ (snd p)))
                  (heap_push (fst p) (snd p) e)) e pushes.

(** The routing loop on the graph task behind [gid]. *)
Definition route (gid : GraphTaskId) (func : Node) (outputs : variable_list)
  : Comp State unit := λ s,
  let e := engine s in
  match graph_tasks e !! gid with
  | Some graph_task =>
      let '((graph_task, pushes), o) :=
        route_outputs (device_ready_queues_ e)
                      (λ n, node_num_inputs (nodes e n)) gid outputs
                      (node_next_edges (nodes e func)) (graph_task, []) in
      (with_engine (commit_pushes gid pushes
                      (with_graph_tasks (<[gid := graph_task]> (graph_tasks e))
                                        e)) s, o)
  | None => (s, Undefined)
  end.

(** The instrumented prologue of [evaluate_function]: copies the captured
    inputs and tells whether the node is to be skipped.
    [exec_info_.at(func)] throws when the node has no entry. *)
Definition capture_inputs (func : Node) (inputs : InputBuffer)
  : Comp GraphTask bool :=
  graph_task ← get_state;
  if bool_decide (exec_info_ graph_task = ∅) then mret false
  else
    match exec_info_ graph_task !! Some func with
    | None => throw out_of_range
    | Some fn_info =>
        match captures_ fn_info with
        | Some capture_vec =>
            match write_captures capture_vec inputs
                                 (captured_vars_ graph_task) with
            | Some captured_vars =>
                modify (with_captured_vars captured_vars)
            | None => undefined_behaviour
            end
        | None => mret ()
        end;;
        mret (negb (needed_ fn_info))
    end.

Definition evaluate_function (gid : GraphTaskId) (func : Node)
    (inputs : InputBuffer) : Comp State unit :=
  skip ← on_graph_task gid (capture_inputs func inputs);
  if skip : bool then mret ()
  else
    e ← get_engine;
    let opt_parent_stream := node_stream (nodes e func) in
    outputs ← call_function gid func inputs;
    match outputs with
    | [] =>
        match opt_parent_stream with
        | Some stream =>
            on_graph_task gid
              (modify (λ g, with_leaf_streams
                              (emplace_stream stream (leaf_streams g)) g))
        | None => mret ()
        end
    | _ =>
        (if anomaly_enabled then lift_result (check_nan func 0 outputs)
         else mret ());;
        route gid func outputs
    end.

End Operations.

(** ** The worker loop and the life cycle of the engine *)

Inductive LoopControl : Type := loop_continue | loop_break.

Section Lifecycle.
Context {L : TensorLib}.
Variable can_checkpoint : GraphTask → bool.
Variable anomaly_enabled : bool.
Variable InputBuffer_device : InputBuffer → Device.
Variable num_devices : nat.

(** The callbacks of [final_callbacks_] are kept as their results. *)
Fixpoint run_callbacks (callbacks : list (Result unit)) : Result unit :=
  match callbacks with
  | [] => Ok ()
  | callback :: callbacks => callback;; run_callbacks callbacks
  end.

(** [graph_task_exec_post_processing]; the synchronisation of the leaf
    streams has no effect on the state of the engine. *)
Definition graph_task_exec_post_processing (gid : GraphTaskId)
  : Comp State variable_list :=
  graph_task ← get_graph_task gid;
  if negb (bool_decide (not_ready_ graph_task = ∅)) then
    throw could_not_compute
  else
    e ← get_engine;
    lift_result (run_callbacks (final_callbacks_ e));;
    graph_task ← get_graph_task gid;
    mret (captured_vars_ graph_task).

Definition mark_graph_task_completed (gid : GraphTaskId) : Comp State unit :=
  graph_task ← get_graph_task gid;
  if completed (future_result_ graph_task) then mret ()
  else
    try_catch
      (val ← graph_task_exec_post_processing gid;
       on_graph_task gid (modify (with_future_result (Completed val))))
      (λ e, on_graph_task gid (modify (with_future_result (Errored e)))).

(** [Future::wait]: blocks on a pending future, returns the value of a
    completed one and throws the error of a failed one. *)
Definition future_wait (gid : GraphTaskId) : Comp State variable_list :=
  graph_task ← get_graph_task gid;
  match future_result_ graph_task with
  | Pending => block
  | Completed value => mret value
  | Errored e => throw e
  end.

(** The end of the body of the loop of [thread_main], after the counter of
    outstanding tasks is decremented: the completion check, the break of the
    CPU worker and the wake-up of the owner. *)
Definition thread_main_completion (gid : GraphTaskId)
  : Comp State LoopControl :=
  local_graph_task ← get_graph_task gid;
  let gt_completed := graph_task_completed local_graph_task in
  stop ← (if gt_completed then
            mark_graph_task_completed gid;;
            t ← get_tls;
            mret (bool_decide (worker_device t = CPU_DEVICE))
          else mret false);
  if stop : bool then mret loop_break
  else
    local_graph_task ← get_graph_task gid;
    let base_owner := owner_ local_graph_task in
    t ← get_tls;
    (if bool_decide (base_owner ≠ worker_device t) && gt_completed
     then
       e ← get_engine;
       queue ← lift_result
         (ready_queue_by_index (device_ready_queues_ e)
                               local_graph_task base_owner);
       ReadyQueue_push queue
         (mkNodeTask (Some gid) None (InputBuffer_new 0) false) true
     else mret ());;
    mret loop_continue.

(** [--local_graph_task->outstanding_tasks_]. *)
Definition decrement_outstanding_tasks (g : GraphTask) : GraphTask :=
  with_outstanding_tasks (uint64_decr (outstanding_tasks_ g)) g.

(** The body of the loop of [thread_main] once a task is popped. *)
Definition thread_main_task (reentrant_thread : bool) (task : NodeTask)
  : Comp State LoopControl :=
  if isShutdownTask_ task then mret loop_break
  else
    e ← get_engine;
    match base_ task with
    | Some gid =>
        match graph_tasks e !! gid with
        | Some local_graph_task =>
            match fn_ task with
            | Some fn =>
                if negb (has_error_ local_graph_task) then
                  try_catch
                    (evaluate_function can_checkpoint anomaly_enabled
                       InputBuffer_device gid fn (inputs_ task))
                    (thread_on_exception gid)
                else mret ()
            | None => mret ()
            end;;
            on_graph_task gid (modify decrement_outstanding_tasks);;
            thread_main_completion gid
        | None =>
            internal_assert (negb reentrant_thread);; mret loop_continue
        end
    | None => internal_assert (negb reentrant_thread);; mret loop_continue
    end.

(** [while (!reentrant_thread || graph_task->outstanding_tasks_ > 0)], with
    at most [fuel] iterations. *)
Fixpoint thread_main_loop (fuel : nat) (graph_task : option GraphTaskId)
    (reentrant_thread : bool) : Comp State unit :=
  match fuel with
  | O => out_of_fuel
  | S fuel =>
      again ← (if reentrant_thread then
                 match graph_task with
                 | Some gid =>
                     g ← get_graph_task gid; mret (0 <? outstanding_tasks_ g)
                 | None => undefined_behaviour
                 end
               else mret true);
      if again : bool then
        t ← get_tls;
        match local_ready_queue t with
        | Some queue =>
            task ← ReadyQueue_pop queue;
            control ← thread_main_task reentrant_thread task;
            match control with
            | loop_break => mret ()
            | loop_continue =>
                thread_main_loop fuel graph_task reentrant_thread
            end
        | None => undefined_behaviour
        end
      else mret ()
  end.

Definition thread_main (fuel : nat) (graph_task : option GraphTaskId)
    (reentrant_thread : bool) : Comp State unit :=
  internal_assert
    (negb (eqb reentrant_thread
               (match graph_task with None => true | Some _ => false end)));;
  t ← get_tls;
  internal_assert
    (match local_ready_queue t with Some _ => true | None => false end);;
  thread_main_loop fuel graph_task reentrant_thread.

Definition thread_init (fuel : nat) (device : Z) (ready_queue : QueueId)
  : Comp State unit :=
  internal_assert (bool_decide (device ≠ CPU_DEVICE));;
  set_device device;;
  init_local_ready_queue (Some ready_queue);;
  thread_main fuel None false.

(** [start_device_threads]: one fresh queue and one detached thread per
    device index, and the shared state of the reentrant thread pool. *)
Definition start_device_threads (e : Engine) : Engine :=
  let queues := seq (next_ready_queue e) num_devices in
  let e := with_ready_queues
             (foldl (λ m queue, <[queue := []]> m) (ready_queues e) queues) e in
  let e := with_next_ready_queue (next_ready_queue e + num_devices)%nat e in
  let e := with_device_ready_queues queues e in
  let e := with_thread_pool_shared (Some (mkThreadPoolShared [] 0)) e in
  with_spawned
    (spawned_ e ++ imap (λ i queue, device_thread (Z.of_nat i) queue) queues) e.

(** [std::call_once(start_device_threads_flag_, ...)]. *)
Definition call_once_start_device_threads : Comp State unit :=
  modify_engine (λ e,
    if start_device_threads_flag_ e then e
    else with_start_device_threads_flag true (start_device_threads e)).

Definition add_thread_pool_task (gid : GraphTaskId) : Comp State unit :=
  e ← get_engine;
  t ← get_tls;
  match thread_pool_shared_ e with
  | Some pool =>
      let create_thread :=
        bool_decide (num_workers_ pool ≤ length (graphtasks_queue_ pool))%nat in
      modify_engine
        (with_thread_pool_shared
           (Some (mkThreadPoolShared (graphtasks_queue_ pool ++ [gid])
                                     (num_workers_ pool))));;
      if create_thread then
        modify_engine (λ e, with_spawned
          (spawned_ e ++ [reentrant_thread (local_ready_queue t)]) e)
      else mret ()
  | None => undefined_behaviour
  end.

(** The device [at::kCPU]. *)
Definition cpu_device : Device := mkDevice kCPU (-1).

(** The three ways [execute_with_graph_task] drives a graph task.  The
    caller that is not a worker becomes the CPU worker of the task, and
    resets its thread-locals when the worker loop returns. *)
Definition drive_from_caller (fuel : nat) (gid : GraphTaskId)
  : Comp State variable_list :=
  set_device CPU_DEVICE;;
  t ← get_tls;
  on_graph_task gid (modify (with_owner (worker_device t)));;
  thread_main fuel None false;;
  modify_tls (set_worker_device NO_DEVICE);;
  modify_tls (set_local_ready_queue None);;
  future_wait gid.

(** A reentrant call at the maximum depth hands the task to the thread
    pool. *)
Definition drive_from_pool (gid : GraphTaskId) : Comp State variable_list :=
  add_thread_pool_task gid;;
  future_wait gid.

(** A reentrant call below the maximum depth runs the worker loop itself. *)
Definition drive_inline (fuel : nat) (gid : GraphTaskId)
  : Comp State variable_list :=
  modify_tls (λ t, set_total_depth (total_depth t + 1) t);;
  modify_tls (λ t, set_current_depth (current_depth t + 1) t);;
  thread_main fuel (Some gid) true;;
  modify_tls (λ t, set_current_depth (current_depth t - 1) t);;
  modify_tls (λ t, set_total_depth (total_depth t - 1) t);;
  graph_task ← get_graph_task gid;
  internal_assert (completed (future_result_ graph_task));;
  future_wait gid.

(** The head of [execute_with_graph_task]: the device threads are started
    once and the graph root is pushed on the CPU queue of the task. *)
Definition push_graph_root (gid : GraphTaskId) (graph_root : Node)
  : Comp State unit :=
  call_once_start_device_threads;;
  e ← get_engine;
  graph_task ← get_graph_task gid;
  queue ← lift_result
    (ready_queue (device_ready_queues_ e) graph_task cpu_device);
  ReadyQueue_push queue
    (mkNodeTask (Some gid) (Some graph_root) (InputBuffer_new 0) false) true.

Definition execute_with_graph_task (fuel : nat) (gid : GraphTaskId)
    (graph_root : Node) : Comp State variable_list :=
  push_graph_root gid graph_root;;
  t ← get_tls;
  e ← get_engine;
  if decide (worker_device t = NO_DEVICE) then drive_from_caller fuel gid
  else
    on_graph_task gid (modify (with_owner (worker_device t)));;
    if decide (max_recursion_depth_ e ≤ current_depth t) then
      drive_from_pool gid
    else drive_inline fuel gid.

(** [std::make_shared<ReadyQueue>()]. *)
Definition new_ready_queue : Comp State QueueId := λ s,
  let e := engine s in
  let queue := next_ready_queue e in
  (with_engine
     (with_next_ready_queue (S queue)
        (with_ready_queues (<[queue := []]> (ready_queues e)) e)) s,
   Ret queue).

(** [std::make_shared<GraphTask>(...)]. *)
Definition new_graph_task (graph_task : GraphTask) : Comp State GraphTaskId :=
  λ s,
  let e := engine s in
  let gid := next_graph_task e in
  (with_engine
     (with_next_graph_task (S gid)
        (with_graph_tasks (<[gid := graph_task]> (graph_tasks e)) e)) s,
   Ret gid).

(** The last shared pointer to the graph task goes away. *)
Definition release_graph_task (gid : GraphTaskId) (s : State) : State :=
  with_engine
    (with_graph_tasks (delete gid (graph_tasks (engine s))) (engine s)) s.

Definition clear_callbacks (s : State) : State :=
  with_engine (with_final_callbacks [] (engine s)) s.

(** The node object placed at an address. *)
Definition place_node (address : Node) (impl : NodeImpl)
    (node_objects : Node → NodeImpl) : Node → NodeImpl :=
  λ n, if decide (n = address) then impl else node_objects n.

(** The part of [execute] that picks the CPU queue and builds the graph
    task. *)
Definition make_graph_task (keep_graph create_graph : bool)
  : Comp State GraphTaskId :=
  t ← get_tls;
  let is_reentrant_call := bool_decide (worker_device t ≠ NO_DEVICE) in
  memorized_cpu_ready_queue ←
    (if is_reentrant_call then mret (local_ready_queue t)
     else
       queue ← new_ready_queue;
       init_local_ready_queue (Some queue);;
       t ← get_tls;
       mret (local_ready_queue t));
  t ← get_tls;
  new_graph_task
    (GraphTask_new keep_graph create_graph
       (if decide (worker_device t = NO_DEVICE) then 0 else total_depth t + 1)
       memorized_cpu_ready_queue).

(** The part of [execute] that allocates the graph root and analyses the
    graph. *)
Definition analyse_graph (fuel : nat) (gid : GraphTaskId) (graph_root : Node)
    (roots : edge_list) (inputs : variable_list) (outputs : edge_list)
  : Comp State unit :=
  modify_engine (λ e, with_nodes
    (place_node graph_root (GraphRoot roots inputs) (nodes e)) e);;
  e ← get_engine;
  let next_edges := λ n, node_next_edges (nodes e n) in
  graph_task ← get_graph_task gid;
  match compute_dependencies next_edges fuel graph_root graph_task with
  | Some graph_task =>
      modify (put_graph_task gid graph_task);;
      match outputs with
      | [] => mret ()
      | _ =>
          on_graph_task gid (λ g,
            match init_to_execute next_edges fuel graph_root outputs g with
            | Ret g => (g, Ret ())
            | Exn e => (g, Exn e)
            | Blocked => (g, Blocked)
            | Undefined => (g, Undefined)
            | OutOfFuel => (g, OutOfFuel)
            end)
      end
  | None => out_of_fuel
  end.

(** [Engine::execute].  [graph_root] is the address at which the
    [GraphRoot] of this call is allocated.  The callbacks are cleared on
    entry and on every exit; the graph task goes away with the call. *)
Definition execute (fuel : nat) (graph_root : Node) (roots : edge_list)
    (inputs : variable_list) (keep_graph create_graph : bool)
    (outputs : edge_list) : Comp State variable_list :=
  e ← get_engine;
  inputs ← lift_result
    (validate_outputs (λ n, node_input_metadata (nodes e n)) roots inputs);
  modify clear_callbacks;;
  finally
    (gid ← make_graph_task keep_graph create_graph;
     finally
       (analyse_graph fuel gid graph_root roots inputs outputs;;
        execute_with_graph_task fuel gid graph_root)
       (release_graph_task gid))
    clear_callbacks.


Definition queue_callback (callback : Result unit) (e : Engine) : Engine :=
  with_final_callbacks (final_callbacks_ e ++ [callback]) e.

Definition is_checkpoint_valid (t : ThreadLocals) : bool := checkpoint_valid t.

End Lifecycle.

Section Destructor.
Context {L : TensorLib}.

(** [Engine::~Engine]. *)
Definition Engine_destroy (e : Engine) : Engine :=
  let noBackward :=
    foldl (λ noBackward queue, noBackward && ReadyQueue_empty queue e)
          true (device_ready_queues_ e) in
  if noBackward then
    foldl (λ e queue, pushShutdownTask queue e) e (device_ready_queues_ e)
  else e.

End Destructor.

(** ** A concrete tensor library and a concrete graph

    Tensors that carry their metadata and one integer of data; they
    instantiate the interface where a statement is evaluated. *)

Module Simple.

Inductive Dtype : Type := Half | Float | Double | Int | Long.

#[global] Instance Dtype_eq_dec : EqDecision Dtype.
Proof. solve_decision. Defined.

Record SimpleTensor : Type := mkTensor {
  t_defined : bool;
  t_sizes : list Z;
  t_dtype : Dtype;
  t_device : Device;
  t_sparse : bool;
  t_data : Z
}.

Record SimpleOptions : Type := mkOptions {
  o_dtype : Dtype;
  o_device : Device;
  o_sparse : bool
}.

Definition is_floating (d : Dtype) : bool :=
  match d with Half | Float | Double => true | _ => false end.

(** [shape] can be broadcast to [desired]: aligned from the last dimension,
    every size of [shape] is the desired one or 1. *)
Fixpoint expandable_rev (shape desired : list Z) : bool :=
  match shape, desired with
  | [], _ => true
  | _ :: _, [] => false
  | size :: shape, target :: desired =>
      (bool_decide (size = target) || bool_decide (size = 1))
      && expandable_rev shape desired
  end.

Definition expandable_to (shape desired : list Z) : bool :=
  expandable_rev (rev shape) (rev desired).

Definition options_of (t : SimpleTensor) : SimpleOptions :=
  mkOptions (t_dtype t) (t_device t) (t_sparse t).

#[global] Instance tensors : TensorLib := {|
  ScalarType := Dtype;
  isFloatingType := is_floating;
  TensorOptions := SimpleOptions;
  options_dtype := o_dtype;
  options_device := o_device;
  options_is_sparse := o_sparse;
  type_equal := λ a b,
    bool_decide (o_dtype a = o_dtype b)
    && bool_decide (dev_type (o_device a) = dev_type (o_device b))
    && bool_decide (o_sparse a = o_sparse b);
  Tensor := SimpleTensor;
  undefined_tensor := mkTensor false [] Float (mkDevice kCPU (-1)) false 0;
  defined := t_defined;
  sizes := t_sizes;
  scalar_type := t_dtype;
  device := t_device;
  options := options_of;
  is_expandable_to := expandable_to;
  sum_to := λ t shape,
    mkTensor (t_defined t) shape (t_dtype t) (t_device t) (t_sparse t)
             (t_data t);
  to := λ t dtype,
    mkTensor (t_defined t) (t_sizes t) dtype (t_device t) (t_sparse t)
             (t_data t);
  accumulate := λ a b,
    mkTensor (t_defined a) (t_sizes a) (t_dtype a) (t_device a) (t_sparse a)
             (t_data a + t_data b);
  isnan_any := λ _, false
|}.

Definition cpu : Device := mkDevice kCPU (-1).
Definition cuda0 : Device := mkDevice kCUDA 0.

(** A dense CPU tensor of one [Float] element. *)
Definition scalar (data : Z) : SimpleTensor :=
  mkTensor true [1] Float cpu false data.

Definition scalar_metadata : InputMetadata :=
  mkInputMetadata [1] (mkOptions Float cpu false) cpu.

(** A node with one input that multiplies the incoming gradient by [k] for
    each of its edges. *)
Definition scaling_node (k : Z) (edges : edge_list) : NodeImpl :=
  {| node_next_edges := edges;
     node_num_inputs := 1;
     node_input_metadata := λ _, scalar_metadata;
     node_apply := λ inputs,
       Ok (map (λ _, scalar (k * t_data (default undefined_tensor
                                                  (inputs !! 0%nat))))
               edges);
     node_pre_hooks := [];
     node_post_hooks := [];
     node_stream := None |}.

Definition edge_to (fn : Node) : Edge := mkEdge (Some fn) 0.

(** The device of a buffer: the first tensor that is not on the CPU decides,
    the CPU otherwise. *)
Definition buffer_device (buffer : InputBuffer) : Device :=
  default cpu
    (head (omap (λ slot : option SimpleTensor,
                   match slot with
                   | Some t => if decide (dev_type (t_device t) = kCPU)
                               then None else Some (t_device t)
                   | None => None
                   end) buffer)).

Definition exec_info_empty (g : GraphTask) : bool :=
  bool_decide (exec_info_ g = ∅).

(** The graph A → B → {C, D}: the nodes A, B, C, D are at the addresses
    1, 2, 3, 4 and the graph root of a call at the address 0. *)
Definition A : Node := 1%nat.
Definition B : Node := 2%nat.
Definition C : Node := 3%nat.
Definition D : Node := 4%nat.

Definition chain_fork (n : Node) : NodeImpl :=
  if decide (n = A) then scaling_node 2 [edge_to B]
  else if decide (n = B) then scaling_node 3 [edge_to C; edge_to D]
  else scaling_node 1 [].

(** [execute] on a fresh engine without devices, from a thread that is not
    a worker. *)
Definition run_execute (node_objects : Node → NodeImpl) (fuel : nat)
    (roots : edge_list) (inputs : list SimpleTensor) (outputs : edge_list)
  : State * Outcome (list SimpleTensor) :=
  execute exec_info_empty false buffer_device 0 fuel 0%nat roots inputs
          false false outputs
          (mkState ThreadLocals_init (Engine_new node_objects)).

(** A node with two edges into [B] whose post hook drops the second
    output, so that the second input of [B] never arrives. *)
Definition truncating_node : NodeImpl :=
  {| node_next_edges := [mkEdge (Some B) 0; mkEdge (Some B) 1];
     node_num_inputs := 1;
     node_input_metadata := λ _, scalar_metadata;
     node_apply := λ _, Ok [scalar 1; scalar 2];
     node_pre_hooks := [];
     node_post_hooks := [λ outputs _, Ok (take 1 outputs)];
     node_stream := None |}.

Definition truncated (n : Node) : NodeImpl :=
  if decide (n = A) then truncating_node else scaling_node 1 [].



(** The graph A → {B, C} in which [B] throws. *)
Definition boom : Exception := runtime_error "boom".

Definition throwing_node : NodeImpl :=
  {| node_next_edges := [];
     node_num_inputs := 1;
     node_input_metadata := λ _, scalar_metadata;
     node_apply := λ _, Throw boom;
     node_pre_hooks := [];
     node_post_hooks := [];
     node_stream := None |}.

Definition failing (n : Node) : NodeImpl :=
  if decide (n = A) then scaling_node 2 [edge_to B; edge_to C]
  else if decide (n = B) then throwing_node
  else scaling_node 1 [].

(** The CPU driver of graph task 0 after an error: two tasks are left in
    its queue. *)
Definition failed_task : GraphTask :=
  with_outstanding_tasks 2
    (with_future_result (Errored boom)
       (with_has_error true (GraphTask_new false false 0 (Some 0%nat)))).

Definition failed_state : State :=
  mkState
    (set_local_ready_queue (Some 0%nat)
       (set_worker_device CPU_DEVICE ThreadLocals_init))
    (with_ready_queues
       {[ 0%nat := [mkNodeTask (Some 0%nat) (Some B) [Some (scalar 1)] false;
                    mkNodeTask (Some 0%nat) (Some C) [Some (scalar 1)] false] ]}
       (with_graph_tasks {[ 0%nat := failed_task ]} (Engine_new failing))).

End Simple.

(** ** Vocabulary of the properties *)

(** The nodes whose [apply] was called on behalf of a graph task, in the
    order of the calls. *)
Definition applied (gid : GraphTaskId) (trace : list Event) : list Node :=
  omap (λ ev, match ev with
              | ev_apply g fn => if decide (g = gid) then Some fn else None
              | ev_push _ _ => None
              end) trace.

(** The nodes for which a task was pushed on behalf of a graph task, in the
    order of the pushes. *)
Definition pushed (gid : GraphTaskId) (trace : list Event) : list Node :=
  omap (λ ev, match ev with
              | ev_push g (Some fn) => if decide (g = gid) then Some fn else None
              | _ => None
              end) trace.


Module SimpleReentrant.
Import Simple.

(** A worker of the CPU queue 0 that is inside [current] nested reentrant
    calls, of [total] across threads; the device threads are not started. *)
Definition worker_state (current total : Z) : State :=
  mkState
    (mkThreadLocals CPU_DEVICE true current total (Some 0%nat))
    (with_next_ready_queue 1%nat
       (with_ready_queues {[ 0%nat := [] ]} (Engine_new chain_fork))).

(** [execute] called from that worker; the graph root is allocated at the
    address 9. *)
Definition run_reentrant (current total : Z)
  : State * Outcome (list SimpleTensor) :=
  execute exec_info_empty false buffer_device 0 20 9%nat [edge_to A]
          [scalar 5] false false [edge_to B] (worker_state current total).

End SimpleReentrant.

(** *** Graphs *)

Section GraphVocabulary.
Variable next_edges : Node → edge_list.

(** The functions of the valid edges of a node, in the order of the edges. *)
Definition successors (n : Node) : list Node := omap function (next_edges n).

Definition reachable (root n : Node) : Prop :=
  rtc (λ n c, c ∈ successors n) root n.

(** The graph below [root] is acyclic: [rank] decreases along every edge
    that leaves a node reachable from [root]. *)
Definition acyclic (root : Node) (rank : Node → nat) : Prop :=
  ∀ n c, reachable root n → c ∈ successors n → (rank c < rank n)%nat.

(** The number of edges from [m] to [n]. *)
Definition edges_between (m n : Node) : nat :=
  length (filter (λ c, c = n) (successors m)).

(** The number of edges into [n] from the nodes of a list. *)
Definition edges_into (n : Node) (sources : list Node) : nat :=
  sum_list_with (λ m, edges_between m n) sources.

(** The nodes within [fuel] edges of [n]. *)
Fixpoint descendants (fuel : nat) (n : Node) : gset Node :=
  {[n]} ∪ match fuel with
          | O => ∅
          | S fuel => ⋃ (descendants fuel <$> successors n)
          end.

End GraphVocabulary.

(** The nodes of the tasks handed to the ready queues by the routing loop. *)
Definition pushed_nodes {L : TensorLib} (pushes : list (QueueId * NodeTask))
  : list Node :=
  omap (λ push, fn_ push.2) pushes.

(** No node was pushed twice for the graph task, and no pushed node has an
    entry in [dependencies_]. *)
Definition pushed_once (nodes : list Node)
    (dependencies : option (gmap Node Z)) : Prop :=
  NoDup nodes
  ∧ ∀ d n, dependencies = Some d → n ∈ nodes → d !! n = None.

Definition enqueued_once {L : TensorLib} (gid : GraphTaskId) (s : State)
  : Prop :=
  pushed_once (pushed gid (trace_ (engine s)))
              (dependencies_ <$> graph_tasks (engine s) !! gid).

(** One iteration of the worker loop of some thread of the engine: the
    thread has its own thread-locals and runs the body of the loop on a
    task. *)
Definition worker_step {L : TensorLib} (can_checkpoint : GraphTask → bool)
    (anomaly_enabled : bool) (InputBuffer_device : InputBuffer → Device)
    (s s' : State) : Prop :=
  ∃ t reentrant task o,
    thread_main_task can_checkpoint anomaly_enabled InputBuffer_device
                     reentrant task (with_tls t s) = (s', o).

(** The reading of "a successor is enqueued exactly when its count reaches
    zero" on one edge of the routing loop. *)
Definition enqueued_exactly_when_zero {L : TensorLib}
    (InputBuffer_device : InputBuffer → Device) : Prop :=
  ∀ queues num_inputs gid output next next_fn (g : GraphTask)
    (pushes : list (QueueId * NodeTask)) g' pushes' count,
    function next = Some next_fn →
    dependencies_ g !! next_fn = Some count →
    route_output InputBuffer_device queues num_inputs gid output next
                 (g, pushes) = ((g', pushes'), Ret ()) →
    (pushes' ≠ pushes ↔ count - 1 = 0).

Module SimpleMasked.
Import Simple.

(** [execute] on A → B → {C, D} with the output (C, 0) requested, stopped
    when the driver has run the graph root and A and is about to pop the
    task of B. *)
Definition before_B : State :=
  ((gid ← make_graph_task false false;
    analyse_graph 20 gid 0%nat [edge_to A] [scalar 5] [edge_to C];;
    push_graph_root 0 gid 0%nat;;
    set_device CPU_DEVICE;;
    thread_main_loop exec_info_empty false buffer_device 2 None false)
     (mkState ThreadLocals_init (Engine_new chain_fork))).1.

(** The graph task of that call. *)
Definition task_before_B : GraphTask :=
  default (GraphTask_new false false 0 None)
          (graph_tasks (engine before_B) !! 0%nat).

(** The routing of the first output of B, to C. *)
Definition after_C : Routing :=
  (route_output buffer_device [] (λ _, 1%nat) 0%nat (scalar 30) (edge_to C)
                (task_before_B, [])).1.

End SimpleMasked.

Module SimpleGraph.
Import Simple.

(** The edges of A → B → {C, D} under the graph root at the address 0, and
    a rank that decreases along them. *)
Definition next_edges (n : Node) : edge_list :=
  node_next_edges
    (place_node 0%nat (GraphRoot [edge_to A] [scalar 5]) chain_fork n).

Definition rank (n : Node) : nat :=
  match n with
  | 0 => 4
  | 1 => 3
  | 2 => 2
  | 3 | 4 => 1
  | _ => 0
  end%nat.

End SimpleGraph.

(** The entry of a node holds the flag computed from the entries of its
    successors. *)
Definition flag_computed (next_edges : Node → edge_list)
    (exec_info : gmap NodePtr ExecInfo) (n : Node) : Prop :=
  ∃ info, exec_info !! Some n = Some info
          ∧ needed_ info = any_should_execute exec_info (next_edges n).

(** The captures recorded for a pointer, null when it has no entry. *)
Definition captures_at (exec_info : gmap NodePtr ExecInfo) (ptr : NodePtr)
  : option (list Capture) :=
  exec_info !! ptr ≫= captures_.

(** The captures that the loop over the requested outputs appends for a
    pointer, the first output having the index [output_idx]. *)
Fixpoint requested_captures (outputs : edge_list) (output_idx : nat)
    (ptr : NodePtr) : list Capture :=
  match outputs with
  | [] => []
  | output_edge :: outputs =>
      (if decide (function output_edge = ptr)
       then [mkCapture (input_nr output_edge) output_idx] else [])
      ++ requested_captures outputs (S output_idx) ptr
  end.

(** A vector of captures after new ones were appended: the vector is
    allocated by the first one. *)
Definition extend_captures (captures : option (list Capture))
    (new : list Capture) : option (list Capture) :=
  match new with
  | [] => captures
  | _ => Some (default [] captures ++ new)
  end.

(** The pointer has a non-empty vector of captures. *)
Definition captured (exec_info : gmap NodePtr ExecInfo) (ptr : NodePtr)
  : bool :=
  match captures_at exec_info ptr with
  | Some (_ :: _) => true
  | _ => false
  end.

(** Some edge that leaves [n] or a node below it points to captures. *)
Definition leads_to_capture (next_edges : Node → edge_list)
    (exec_info : gmap NodePtr ExecInfo) (n : Node) : Prop :=
  ∃ m edge, reachable next_edges n m ∧ edge ∈ next_edges m
            ∧ captured exec_info (function edge) = true.

(** The graph task has a non-empty [exec_info_] that does not mark the node
    as needed, and the [apply] of the node has not been called for it. *)
Definition skipped {L : TensorLib} (gid : GraphTaskId) (fn : Node)
    (s : State) : Prop :=
  (∃ g, graph_tasks (engine s) !! gid = Some g
        ∧ exec_info_ g ≠ ∅
        ∧ needed_ <$> exec_info_ g !! Some fn ≠ Some true)
  ∧ fn ∉ applied gid (trace_ (engine s)).

Module SimplePruned.
Import Simple.

(** [execute] on A → B → {C, D} with the output (B, 0) requested, stopped
    when the driver has run the graph root and A and is about to pop the
    task of B. *)
Definition before_B : State :=
  ((gid ← make_graph_task false false;
    analyse_graph 20 gid 0%nat [edge_to A] [scalar 5] [edge_to B];;
    push_graph_root 0 gid 0%nat;;
    set_device CPU_DEVICE;;
    thread_main_loop exec_info_empty false buffer_device 2 None false)
     (mkState ThreadLocals_init (Engine_new chain_fork))).1.

(** The graph task of that call. *)
Definition task_before_B : GraphTask :=
  default (GraphTask_new false false 0 None)
          (graph_tasks (engine before_B) !! 0%nat).

(** The task of B in the queue of the driver: its buffer holds the output of
    A. *)
Definition task_of_B : NodeTask :=
  mkNodeTask (Some 0%nat) (Some B)
             (InputBuffer_add (InputBuffer_new 1) 0 (scalar 10)) false.

(** The iteration of the worker loop on the task of B. *)
Definition after_B : State :=
  (thread_main_task exec_info_empty false buffer_device false task_of_B
                    before_B).1.

End SimplePruned.

(** ** Further definitions

    Invariants of the counters and the queues, the threads of the pool and
    the states used by the further properties below. *)

(** What [validate_outputs] needs of the tensor library to accept its own
    result: reducing a tensor gives the requested shape, and converting its
    element type gives the requested type and keeps the shape. *)
Class TensorLibShapeLaws (L : TensorLib) : Prop := {
  sum_to_sizes : ∀ t s, sizes (sum_to t s) = s;
  to_sizes : ∀ t d, sizes (to t d) = sizes t;
  to_scalar_type : ∀ t d, scalar_type (to t d) = d
}.

(** Every count of [dependencies_] is positive. *)
Definition counts_positive {L : TensorLib} (g : GraphTask) : Prop :=
  ∀ n z, dependencies_ g !! n = Some z → 0 < z.

(** A node with a buffer in [not_ready_] has a count in [dependencies_]. *)
Definition buffers_counted {L : TensorLib} (g : GraphTask) : Prop :=
  ∀ n, is_Some (not_ready_ g !! n) → is_Some (dependencies_ g !! n).

(** A task that the worker loop accounts to a graph task: it names the graph
    task and is not a shutdown task. *)
Definition counts_for {L : TensorLib} (gid : GraphTaskId) (task : NodeTask)
  : bool :=
  bool_decide (base_ task = Some gid) && negb (isShutdownTask_ task).

(** The number of such tasks in a heap, and in all the ready queues. *)
Definition tasks_of {L : TensorLib} (gid : GraphTaskId)
    (heap : list NodeTask) : nat :=
  sum_list_with (λ task, if counts_for gid task then 1%nat else 0%nat) heap.

Definition queued {L : TensorLib} (gid : GraphTaskId) (e : Engine) : nat :=
  sum_list_with (λ entry, tasks_of gid entry.2) (map_to_list (ready_queues e)).

(** [outstanding_tasks_] of the graph task, if it is alive, and the number
    of its tasks in the queues are the same 64-bit unsigned number. *)
Definition balanced {L : TensorLib} (gid : GraphTaskId) (s : State) : Prop :=
  ∀ g, graph_tasks (engine s) !! gid = Some g →
       outstanding_tasks_ g mod 2 ^ 64
       = Z.of_nat (queued gid (engine s)) mod 2 ^ 64.

(** One iteration of the worker loop of a thread: the thread pops a task
    from a queue and runs the body of the loop on it. *)
Definition worker_iteration {L : TensorLib} (can_checkpoint : GraphTask → bool)
    (anomaly_enabled : bool) (InputBuffer_device : InputBuffer → Device)
    (queue : QueueId) (reentrant_thread : bool) : Comp State LoopControl :=
  task ← ReadyQueue_pop queue;
  thread_main_task can_checkpoint anomaly_enabled InputBuffer_device
                   reentrant_thread task.

(** [Engine::ready_queue_size], for a caller that holds the graph task. *)
Definition ready_queue_size {L : TensorLib} (graph_task : GraphTask)
    (device : Device) (e : Engine) : Result nat :=
  if bool_decide (device_ready_queues_ e = []) then Ok 0%nat
  else
    queue ← ready_queue (device_ready_queues_ e) graph_task device;
    Ok (ReadyQueue_size queue e).

Section ThreadPool.
Context {L : TensorLib}.
Variable can_checkpoint : GraphTask → bool.
Variable anomaly_enabled : bool.
Variable InputBuffer_device : InputBuffer → Device.

(** One turn of the loop of [reentrant_thread_init].  The thread counts
    itself in [num_workers_] while it waits for a graph task; [waiting]
    tells that the turn is resumed inside [work_.wait], where the thread is
    counted already.  A turn that finds no graph task leaves the thread
    waiting; a graph task that has expired is skipped. *)
Definition reentrant_thread_turn (fuel : nat)
    (parent_ready_queue : option QueueId) (waiting : bool)
  : Comp State unit :=
  e ← get_engine;
  match thread_pool_shared_ e with
  | Some pool =>
      let num_workers :=
        if waiting then num_workers_ pool else S (num_workers_ pool) in
      match graphtasks_queue_ pool with
      | [] =>
          modify_engine
            (with_thread_pool_shared
               (Some (mkThreadPoolShared [] num_workers)));;
          block
      | task :: graphtasks_queue =>
          modify_engine
            (with_thread_pool_shared
               (Some (mkThreadPoolShared graphtasks_queue
                                         (pred num_workers))));;
          match graph_tasks e !! task with
          | Some graph_task =>
              set_device (owner_ graph_task);;
              init_local_ready_queue parent_ready_queue;;
              modify_tls (set_total_depth (reentrant_depth_ graph_task));;
              thread_main can_checkpoint anomaly_enabled InputBuffer_device
                          fuel (Some task) true
          | None => mret ()
          end
      end
  | None => undefined_behaviour
  end.

(** [Engine::reentrant_thread_init], with at most [turns] turns of its
    loop. *)
Fixpoint reentrant_thread_init (turns fuel : nat)
    (parent_ready_queue : option QueueId) (waiting : bool)
  : Comp State unit :=
  match turns with
  | O => out_of_fuel
  | S turns =>
      reentrant_thread_turn fuel parent_ready_queue waiting;;
      reentrant_thread_init turns fuel parent_ready_queue false
  end.

End ThreadPool.

(** What a graph task keeps of its result from one state to a later one:
    a future that holds a result holds the same result, an error that is
    latched stays latched, and a latched error comes with a future that
    holds a result. *)
Definition latched {L : TensorLib} (g g' : GraphTask) : Prop :=
  (completed (future_result_ g) = true →
   future_result_ g' = future_result_ g)
  ∧ (has_error_ g = true → has_error_ g' = true)
  ∧ ((has_error_ g = true → completed (future_result_ g) = true) →
     has_error_ g' = true → completed (future_result_ g') = true).

Module SimpleAnomaly.
Import Simple.

(** The tensors of [Simple] read by a library in which a negative datum
    stands for a NaN. *)
Definition nan_tensors : TensorLib := {|
  ScalarType := Dtype;
  isFloatingType := is_floating;
  TensorOptions := SimpleOptions;
  options_dtype := o_dtype;
  options_device := o_device;
  options_is_sparse := o_sparse;
  type_equal := type_equal (TensorLib := tensors);
  Tensor := SimpleTensor;
  undefined_tensor := undefined_tensor (TensorLib := tensors);
  defined := t_defined;
  sizes := t_sizes;
  scalar_type := t_dtype;
  device := t_device;
  options := options_of;
  is_expandable_to := expandable_to;
  sum_to := sum_to (TensorLib := tensors);
  to := to (TensorLib := tensors);
  accumulate := accumulate (TensorLib := tensors);
  isnan_any := λ t, bool_decide (t_data t < 0)
|}.

(** A leaf-like node with two null edges whose second output holds a NaN. *)
Definition nan_node : NodeImpl (L := nan_tensors) :=
  mkNodeImpl (L := nan_tensors)
    [mkEdge None 0; mkEdge None 0] 1
    (λ _, mkInputMetadata (L := nan_tensors) [1] (mkOptions Float cpu false)
                          cpu)
    (λ _, Ok [scalar 1; scalar (-1)]) [] [] None.

(** A CPU worker with graph task 0, whose node A is [nan_node]. *)
Definition nan_state : State (L := nan_tensors) :=
  mkState
    (set_local_ready_queue (Some 0%nat)
       (set_worker_device CPU_DEVICE ThreadLocals_init))
    (with_graph_tasks
       {[ 0%nat := with_outstanding_tasks 1
                     (GraphTask_new false false 0 (Some 0%nat)) ]}
       (Engine_new (λ _, nan_node))).

End SimpleAnomaly.

(** The graph task returns [n] gradients: [captured_vars_] has [n] slots,
    and so has the value of the future once it is completed. *)
Definition returns_gradients {L : TensorLib} (n : nat) (g : GraphTask)
  : Prop :=
  length (captured_vars_ g) = n
  ∧ ∀ value, future_result_ g = Completed value → length value = n.

(** The number of tasks in the ready queues, each counted with its
    weight. *)
Definition weigh {L : TensorLib} (w : NodeTask → nat) (e : Engine) : nat :=
  sum_list_with (λ entry, sum_list_with w entry.2)
                (map_to_list (ready_queues e)).

(** One turn of some worker thread of the engine: the thread, with its own
    thread-locals, pops a task from a queue and runs the body of the worker
    loop on it, which returns. *)
Definition worker_turn {L : TensorLib} (can_checkpoint : GraphTask → bool)
    (anomaly_enabled : bool) (InputBuffer_device : InputBuffer → Device)
    (s s' : State) : Prop :=
  ∃ t queue reentrant_thread control,
    worker_iteration can_checkpoint anomaly_enabled InputBuffer_device
                     queue reentrant_thread (with_tls t s)
    = (s', Ret control).

(** The post hooks of a node keep the number of its outputs. *)
Definition hooks_keep_length {L : TensorLib} (impl : NodeImpl) : Prop :=
  ∀ hook outputs inputs outputs',
    hook ∈ node_post_hooks impl →
    hook outputs inputs = Ok outputs' →
    length outputs' = length outputs.

Module SimpleSchedule.
Import Simple.

(** [execute] on A → B → {C, D} with no output requested, stopped when the
    graph is analysed and the graph root is about to be pushed. *)
Definition analysed : State :=
  ((gid ← make_graph_task false false;
    analyse_graph 20 gid 0%nat [edge_to A] [scalar 5] [])
     (mkState ThreadLocals_init (Engine_new chain_fork))).1.

(** The graph task of that call. *)
Definition graph_task : GraphTask :=
  default (GraphTask_new false false 0 None)
          (graph_tasks (engine analysed) !! 0%nat).

Definition root_pushed : State := (push_graph_root 0 0%nat 0%nat analysed).1.

(** A turn of the CPU worker on the queue 0. *)
Definition turn (s : State) : State :=
  (worker_iteration exec_info_empty false buffer_device 0%nat false
     (with_tls (mkThreadLocals CPU_DEVICE true 0 0 (Some 0%nat)) s)).1.

(** The state after the five turns that run the graph root, A, B, C and
    D. *)
Definition after_D : State := turn (turn (turn (turn (turn root_pushed)))).

End SimpleSchedule.

(** * Properties *)

(** ** Validation of gradients *)

Section ValidateFacts.
Context {L : TensorLib}.
Variable input_metadata : Node → nat → InputMetadata.

Lemma validate_loop_ok n i edges grads grads' :
  validate_loop input_metadata n i edges grads = Ok grads' →
  length grads' = length grads ∧
  ∀ j g, grads !! j = Some g →
    if bool_decide (i ≤ j < i + n)%nat then
      ∃ edge g', edges !! j = Some edge ∧ grads' !! j = Some g'
                 ∧ validate_at input_metadata j edge g = Ok g'
    else grads' !! j = Some g.
Proof.
  revert i grads. induction n as [|n IH]; intros i grads; simpl.
  - intros [= <-]. split; [done|]. intros j g Hj.
    rewrite bool_decide_eq_false_2 by lia. done.
  - destruct (edges !! i) as [edge|] eqn:He; [|done].
    destruct (grads !! i) as [gi|] eqn:Hg; [|done].
    destruct (validate_at input_metadata i edge gi) as [g'|] eqn:Hv;
      simpl; [|done].
    intros Hloop. apply IH in Hloop as [Hlen Hall].
    rewrite length_insert in Hlen. split; [done|].
    intros j g Hj. destruct (decide (j = i)) as [->|Hne].
    + rewrite bool_decide_eq_true_2 by lia.
      assert (Hi : (i < length grads)%nat) by (eapply lookup_lt_Some; eauto).
      specialize (Hall i g'). rewrite list_lookup_insert_eq in Hall by done.
      specialize (Hall eq_refl). rewrite bool_decide_eq_false_2 in Hall by lia.
      exists edge, g'. replace g with gi by congruence. done.
    + specialize (Hall j g). rewrite list_lookup_insert_ne in Hall by done.
      specialize (Hall Hj).
      destruct (bool_decide (S i ≤ j < S i + n)%nat) eqn:Hb.
      * apply bool_decide_eq_true_1 in Hb.
        rewrite bool_decide_eq_true_2 by lia. done.
      * apply bool_decide_eq_false_1 in Hb.
        rewrite bool_decide_eq_false_2 by lia. done.
Qed.

Lemma validate_loop_throw n i edges grads e :
  validate_loop input_metadata n i edges grads = Throw e →
  (i + n ≤ length grads)%nat → (i + n ≤ length edges)%nat →
  ∃ j edge g, (i ≤ j < i + n)%nat ∧ edges !! j = Some edge
              ∧ grads !! j = Some g
              ∧ validate_at input_metadata j edge g = Throw e.
Proof.
  revert i grads. induction n as [|n IH]; intros i grads; simpl; [done|].
  intros Hloop Hg He.
  destruct (lookup_lt_is_Some_2 edges i) as [edge Hedge]; [lia|].
  destruct (lookup_lt_is_Some_2 grads i) as [gi Hgi]; [lia|].
  rewrite Hedge, Hgi in Hloop.
  destruct (validate_at input_metadata i edge gi) as [g'|e'] eqn:Hv;
    simpl in Hloop.
  - apply IH in Hloop as (j & edge' & g & Hj & He' & Hg' & Hv');
      [|rewrite length_insert; lia | lia].
    rewrite list_lookup_insert_ne in Hg' by lia.
    exists j, edge', g. repeat split; try done; lia.
  - injection Hloop as ->. exists i, edge, gi. repeat split; try done; lia.
Qed.

Lemma validate_loop_reaches n i edges grads j edge g e :
  (i ≤ j < i + n)%nat → edges !! j = Some edge → grads !! j = Some g →
  validate_at input_metadata j edge g = Throw e →
  is_throw (validate_loop input_metadata n i edges grads) = true.
Proof.
  revert i grads. induction n as [|n IH]; intros i grads Hj He Hg Hv; [lia|].
  simpl. destruct (edges !! i) as [edge'|] eqn:He'; [|done].
  destruct (grads !! i) as [gi|] eqn:Hgi; [|done].
  destruct (decide (j = i)) as [->|Hne].
  - replace edge' with edge by congruence. replace gi with g by congruence.
    rewrite Hv. done.
  - destruct (validate_at input_metadata i edge' gi) as [g'|] eqn:Hv';
      simpl; [|done].
    apply IH; try done; [lia|]. rewrite list_lookup_insert_ne by done. done.
Qed.

Lemma validate_outputs_ok edges grads grads' :
  validate_outputs input_metadata edges grads = Ok grads' →
  length grads = length edges ∧ length grads' = length grads ∧
  ∀ j g, grads !! j = Some g →
    ∃ edge g', edges !! j = Some edge ∧ grads' !! j = Some g'
               ∧ validate_at input_metadata j edge g = Ok g'.
Proof.
  unfold validate_outputs. case_bool_decide as Hlen; [done|].
  intros Hloop. apply validate_loop_ok in Hloop as [Hlen' Hall].
  split; [lia|]. split; [done|]. intros j g Hj.
  specialize (Hall j g Hj).
  assert (j < length grads)%nat by (eapply lookup_lt_Some; eauto).
  rewrite bool_decide_eq_true_2 in Hall by lia. done.
Qed.

Lemma validate_outputs_reaches edges grads j edge g e :
  edges !! j = Some edge → grads !! j = Some g →
  validate_at input_metadata j edge g = Throw e →
  is_throw (validate_outputs input_metadata edges grads) = true.
Proof.
  intros He Hg Hv. unfold validate_outputs. case_bool_decide; [done|].
  eapply validate_loop_reaches; eauto.
  apply lookup_lt_Some in Hg. lia.
Qed.

Lemma validate_outputs_throw edges grads e :
  validate_outputs input_metadata edges grads = Throw e →
  e = invalid_number_of_gradients (length edges) (length grads) ∨
  ∃ j edge g, edges !! j = Some edge ∧ grads !! j = Some g
              ∧ validate_at input_metadata j edge g = Throw e.
Proof.
  unfold validate_outputs. case_bool_decide as Hlen; [intros [= <-]; by left|].
  intros Hloop. right.
  assert (Hlen' : length grads = length edges)
    by (destruct (decide (length grads = length edges)); [done|tauto]).
  apply validate_loop_throw in Hloop as (j & edge & g & _ & H); [|lia..].
  by exists j, edge, g.
Qed.

Lemma validate_defined_ok `{!TensorLibLaws L} i metadata g g' :
  validate_defined i metadata g = Ok g' →
  (sizes g = shape metadata
   ∨ is_expandable_to (shape metadata) (sizes g) = true)
  ∧ isFloatingType (scalar_type g) = true
  ∧ device g = md_device metadata
  ∧ g' = cast_to_expected metadata (reduce_to_expected metadata g).
Proof.
  unfold validate_defined, validate_shape, validate_dtype,
    cast_to_expected, reduce_to_expected.
  intros Hv.
  destruct (bool_decide (sizes g = shape metadata)) eqn:Hshape; simpl in Hv.
  - apply bool_decide_eq_true_1 in Hshape.
    destruct (isFloatingType (scalar_type g)) eqn:Hfloat; [|done].
    destruct (bool_decide (options_dtype (md_options metadata)
                           = scalar_type g)); simpl in Hv;
      (destruct (is_compatible_type _ _); [|done]);
      case_bool_decide as Hdev; [|done| |done]; simplify_eq;
      rewrite ?to_device in Hdev; auto.
  - destruct (is_expandable_to (shape metadata) (sizes g)) eqn:Hexp;
      [|done]. simpl in Hv. rewrite sum_to_scalar_type in Hv.
    destruct (isFloatingType (scalar_type g)) eqn:Hfloat; [|done].
    rewrite sum_to_scalar_type.
    destruct (bool_decide (options_dtype (md_options metadata)
                           = scalar_type g)); simpl in Hv;
      (destruct (is_compatible_type _ _); [|done]);
      case_bool_decide as Hdev; [|done| |done]; simplify_eq;
      rewrite ?to_device, ?sum_to_device in Hdev; auto.
Qed.

Lemma validate_defined_throws `{!TensorLibLaws L} i metadata g :
  (sizes g ≠ shape metadata
   ∧ is_expandable_to (shape metadata) (sizes g) = false)
  ∨ isFloatingType (scalar_type g) = false
  ∨ device g ≠ md_device metadata →
  is_throw (validate_defined i metadata g) = true.
Proof.
  intros Hbad.
  destruct (validate_defined i metadata g) as [g'|] eqn:Hv; [|done].
  apply validate_defined_ok in Hv as (Hs & Hf & Hd & _).
  destruct Hbad as [[Hs' He']|[Hf'|Hd']]; [|congruence|done].
  destruct Hs; [done|congruence].
Qed.

(** C4: at a valid edge with a defined gradient, [validate_outputs] throws
    when the shape of the gradient is neither the expected shape nor reducible
    to it by summation, when its element type is not a floating-point type,
    and when its device is not the expected device; when it returns, the
    gradient at that index has been summed to the expected shape if the shapes
    differed and then converted to the expected element type if the types
    differed. *)
Theorem validate_outputs_checks `{!TensorLibLaws L} edges grads i edge fn g :
  edges !! i = Some edge → function edge = Some fn →
  grads !! i = Some g → defined g = true →
  let metadata := input_metadata fn (input_nr edge) in
  (sizes g ≠ shape metadata →
   is_expandable_to (shape metadata) (sizes g) = false →
   is_throw (validate_outputs input_metadata edges grads) = true)
  ∧ (isFloatingType (scalar_type g) = false →
     is_throw (validate_outputs input_metadata edges grads) = true)
  ∧ (device g ≠ md_device metadata →
     is_throw (validate_outputs input_metadata edges grads) = true)
  ∧ (∀ grads', validate_outputs input_metadata edges grads = Ok grads' →
       (sizes g = shape metadata
        ∨ is_expandable_to (shape metadata) (sizes g) = true)
       ∧ isFloatingType (scalar_type g) = true
       ∧ device g = md_device metadata
       ∧ grads' !! i
         = Some (cast_to_expected metadata (reduce_to_expected metadata g))).
Proof.
  intros Hedge Hfn Hg Hdef metadata.
  assert (Hat : validate_at input_metadata i edge g
                = validate_defined i metadata g).
  { unfold validate_at. rewrite Hfn, Hdef. done. }
  assert (Hbad : ∀ e, validate_defined i metadata g = Throw e →
            is_throw (validate_outputs input_metadata edges grads) = true).
  { intros e He. rewrite <- Hat in He.
    eapply validate_outputs_reaches; eauto. }
  assert (Hthrows : (sizes g ≠ shape metadata
             ∧ is_expandable_to (shape metadata) (sizes g) = false)
            ∨ isFloatingType (scalar_type g) = false
            ∨ device g ≠ md_device metadata →
            is_throw (validate_outputs input_metadata edges grads) = true).
  { intros H. apply (validate_defined_throws i) in H.
    destruct (validate_defined i metadata g) eqn:Hv; [done|]. eauto. }
  split; [auto|]. split; [auto|]. split; [auto|].
  intros grads' Hok. apply validate_outputs_ok in Hok as (_ & _ & Hall).
  destruct (Hall i g Hg) as (edge' & g' & He' & Hg' & Hv).
  replace edge' with edge in * by congruence. rewrite Hat in Hv.
  apply validate_defined_ok in Hv as (Hs & Hf & Hd & ->). done.
Qed.

(** C6: at an index whose gradient is undefined the loop body performs no
    check and raises nothing, whatever the edge; the gradient is still the
    same undefined tensor when [validate_outputs] returns, and an exception
    of [validate_outputs] is the count mismatch or comes from another index,
    one with a valid edge and a defined gradient. *)
Theorem validate_outputs_skips_undefined edges grads i g :
  grads !! i = Some g → defined g = false →
  (∀ edge, validate_at input_metadata i edge g = Ok g)
  ∧ (∀ grads', validate_outputs input_metadata edges grads = Ok grads' →
       grads' !! i = Some g)
  ∧ (∀ e, validate_outputs input_metadata edges grads = Throw e →
       e = invalid_number_of_gradients (length edges) (length grads)
       ∨ ∃ j edge g', j ≠ i ∧ edges !! j = Some edge ∧ grads !! j = Some g'
                      ∧ is_valid edge = true ∧ defined g' = true
                      ∧ validate_at input_metadata j edge g' = Throw e).
Proof.
  intros Hg Hdef.
  assert (Hat : ∀ edge, validate_at input_metadata i edge g = Ok g).
  { intros edge. unfold validate_at. rewrite Hdef. by destruct (function edge). }
  split; [done|]. split.
  - intros grads' Hok. apply validate_outputs_ok in Hok as (_ & _ & Hall).
    destruct (Hall i g Hg) as (edge & g' & _ & Hg' & Hv).
    rewrite Hat in Hv. congruence.
  - intros e Hthrow.
    apply validate_outputs_throw in Hthrow as [->|(j & edge & g' & He & Hg' & Hv)];
      [by left|right].
    exists j, edge, g'.
    assert (j ≠ i).
    { intros ->. replace g' with g in Hv by congruence.
      rewrite Hat in Hv. done. }
    unfold validate_at, is_valid in *.
    destruct (function edge); [|done]. destruct (defined g'); done.
Qed.

End ValidateFacts.

(** The concrete tensors satisfy the laws of the interface. *)
#[global] Instance Simple_tensors_laws : TensorLibLaws Simple.tensors.
Proof. split; reflexivity. Qed.

(** A gradient of shape [2; 1] and type [Double] against the expected shape
    [1] and type [Float] is summed and converted; a gradient without
    dimensions, which does not reduce to [1], an integer gradient and a gradient on another device make
    [validate_outputs] throw. *)
Lemma validate_outputs_checks_witness :
  let md := λ (_ : Node) (_ : nat), Simple.scalar_metadata in
  let edges := [Simple.edge_to Simple.A] in
  let g1 := Simple.mkTensor true [2; 1] Simple.Double Simple.cpu false 7 in
  let g2 := Simple.mkTensor true [] Simple.Float Simple.cpu false 7 in
  let g3 := Simple.mkTensor true [1] Simple.Int Simple.cpu false 7 in
  let g4 := Simple.mkTensor true [1] Simple.Float Simple.cuda0 false 7 in
  (edges !! 0%nat = Some (Simple.edge_to Simple.A)
   ∧ function (Simple.edge_to Simple.A) = Some Simple.A
   ∧ [g1] !! 0%nat = Some g1 ∧ defined g1 = true)
  ∧ (∀ grads', validate_outputs md edges [g1] = Ok grads' →
       grads' !! 0%nat
       = Some (Simple.mkTensor true [1] Simple.Float Simple.cpu false 7))
  ∧ validate_outputs md edges [g1]
    = Ok [Simple.mkTensor true [1] Simple.Float Simple.cpu false 7]
  ∧ is_throw (validate_outputs md edges [g2]) = true
  ∧ is_throw (validate_outputs md edges [g3]) = true
  ∧ is_throw (validate_outputs md edges [g4]) = true.
Proof.
  intros md edges g1 g2 g3 g4.
  split; [repeat split|]. split.
  { intros grads' Hok.
    apply (validate_outputs_checks md edges [g1] 0%nat
             (Simple.edge_to Simple.A) Simple.A g1
             eq_refl eq_refl eq_refl eq_refl) in Hok as (_ & _ & _ & Hok).
    exact Hok. }
  split; [reflexivity|].
  split; [|split].
  - destruct (validate_outputs_checks md edges [g2] 0%nat
                (Simple.edge_to Simple.A) Simple.A g2
                eq_refl eq_refl eq_refl eq_refl) as (Hshape & _).
    apply Hshape; [discriminate|reflexivity].
  - destruct (validate_outputs_checks md edges [g3] 0%nat
                (Simple.edge_to Simple.A) Simple.A g3
                eq_refl eq_refl eq_refl eq_refl) as (_ & Hfloat & _).
    apply Hfloat. reflexivity.
  - destruct (validate_outputs_checks md edges [g4] 0%nat
                (Simple.edge_to Simple.A) Simple.A g4
                eq_refl eq_refl eq_refl eq_refl) as (_ & _ & Hdevice & _).
    apply Hdevice. discriminate.
Defined.

(** An undefined gradient next to a valid one: the call returns and the
    undefined gradient is untouched, also against a valid edge whose metadata
    it does not match. *)
Lemma validate_outputs_skips_undefined_witness :
  let md := λ (_ : Node) (_ : nat), Simple.scalar_metadata in
  let edges := [Simple.edge_to Simple.A; Simple.edge_to Simple.B] in
  let u := Simple.mkTensor false [5; 5] Simple.Int Simple.cuda0 false 0 in
  let grads := [Simple.scalar 3; u] in
  (grads !! 1%nat = Some u ∧ defined u = false)
  ∧ validate_outputs md edges grads = Ok grads
  ∧ (∀ grads', validate_outputs md edges grads = Ok grads' →
       grads' !! 1%nat = Some u).
Proof.
  intros md edges u grads. split; [split; reflexivity|].
  split; [reflexivity|].
  apply (validate_outputs_skips_undefined md edges grads 1%nat u
           eq_refl eq_refl).
Defined.

(** ** Reasoning about computations *)

Ltac comp_unfold :=
  unfold mbind, Comp_bind, mret, Comp_ret, get_state, put_state, modify,
    throw, block, undefined_behaviour, out_of_fuel, get_tls, modify_tls,
    get_engine, modify_engine, get_graph_task, on_graph_task, lift_result,
    internal_assert, try_catch in *.

Section CompFacts.
Context {S A B : Type}.

Lemma bind_returns (m : Comp S A) (k : A → Comp S B) s s' b :
  (m ≫= k) s = (s', Ret b) →
  ∃ a s1, m s = (s1, Ret a) ∧ k a s1 = (s', Ret b).
Proof.
  unfold mbind, Comp_bind. destruct (m s) as [s1 [a| | | |]]; try done.
  intros H. by exists a, s1.
Qed.

Lemma bind_eq (m : Comp S A) (k : A → Comp S B) s s1 a :
  m s = (s1, Ret a) → (m ≫= k) s = k a s1.
Proof. unfold mbind, Comp_bind. by intros ->. Qed.

Lemma finally_returns (m : Comp S A) (cleanup : S → S) s s' a :
  finally m cleanup s = (s', Ret a) →
  ∃ s1, m s = (s1, Ret a) ∧ s' = cleanup s1.
Proof.
  unfold finally. destruct (m s) as [s1 [a'| | | |]]; try done.
  intros [= <- <-]. by exists s1.
Qed.

End CompFacts.

(** [preserves R m]: whatever the outcome of [m], the state it ends in is
    related by [R] to the state it started from. *)
Definition preserves {S A : Type} (R : relation S) (m : Comp S A) : Prop :=
  ∀ s s' o, m s = (s', o) → R s s'.

Section Preserves.
Context {S : Type} (R : relation S) `{!PreOrder R}.

Lemma preserves_ret {A : Type} (a : A) : preserves R (mret a).
Proof. intros s s' o [= <- <-]. done. Qed.

Lemma preserves_bind {A B : Type} (m : Comp S A) (k : A → Comp S B) :
  preserves R m → (∀ a, preserves R (k a)) → preserves R (m ≫= k).
Proof.
  intros Hm Hk s s' o. unfold mbind, Comp_bind.
  destruct (m s) as [s1 o1] eqn:Hms. specialize (Hm _ _ _ Hms).
  destruct o1; try (intros [= <- <-]; done).
  intros Hka. etrans; [exact Hm|]. eapply Hk. exact Hka.
Qed.

Lemma preserves_get_state : preserves R get_state.
Proof. intros s s' o [= <- <-]. done. Qed.

Lemma preserves_throw {A : Type} e : preserves R (throw (A := A) e).
Proof. intros s s' o [= <- <-]. done. Qed.

Lemma preserves_block {A : Type} : preserves R (block (A := A)).
Proof. intros s s' o [= <- <-]. done. Qed.

Lemma preserves_undefined {A : Type} :
  preserves R (undefined_behaviour (A := A)).
Proof. intros s s' o [= <- <-]. done. Qed.

Lemma preserves_out_of_fuel {A : Type} : preserves R (out_of_fuel (A := A)).
Proof. intros s s' o [= <- <-]. done. Qed.

Lemma preserves_lift_result {A : Type} (r : Result A) :
  preserves R (lift_result r).
Proof. destruct r; [apply preserves_ret | apply preserves_throw]. Qed.

Lemma preserves_internal_assert b : preserves R (internal_assert b).
Proof. destruct b; [apply preserves_ret | apply preserves_throw]. Qed.

Lemma preserves_modify (f : S → S) :
  (∀ s, R s (f s)) → preserves R (modify f).
Proof. intros Hf s s' o [= <- <-]. apply Hf. Qed.

Lemma preserves_try_catch {A : Type} (m : Comp S A) handler :
  preserves R m → (∀ e, preserves R (handler e)) →
  preserves R (try_catch m handler).
Proof.
  intros Hm Hh s s' o. unfold try_catch.
  destruct (m s) as [s1 o1] eqn:Hms. specialize (Hm _ _ _ Hms).
  destruct o1; try (intros [= <- <-]; done).
  intros He. etrans; [exact Hm|]. eapply Hh. exact He.
Qed.

Lemma preserves_finally {A : Type} (m : Comp S A) cleanup :
  preserves R m → (∀ s, R s (cleanup s)) → preserves R (finally m cleanup).
Proof.
  intros Hm Hc s s' o. unfold finally.
  destruct (m s) as [s1 o1] eqn:Hms. specialize (Hm _ _ _ Hms).
  destruct o1; intros [= <- <-]; try done; etrans; eauto.
Qed.

End Preserves.

(** [unchanged f]: the states agree on the projection [f]. *)
Definition unchanged {S T : Type} (f : S → T) : relation S :=
  λ s s', f s' = f s.

#[global] Instance unchanged_preorder {S T : Type} (f : S → T) :
  PreOrder (unchanged f).
Proof.
  split; [intros s; reflexivity|].
  intros s1 s2 s3 H12 H23. unfold unchanged in *. congruence.
Qed.

Section PreservesState.
Context {L : TensorLib}.
Context (R : relation State) `{!PreOrder R}.

Lemma preserves_get_tls : preserves R get_tls.
Proof. intros s s' o [= <- <-]. done. Qed.

Lemma preserves_get_engine : preserves R get_engine.
Proof. intros s s' o [= <- <-]. done. Qed.

Lemma preserves_get_graph_task gid : preserves R (get_graph_task gid).
Proof.
  intros s s' o. unfold get_graph_task.
  destruct (graph_tasks (engine s) !! gid); intros [= <- <-]; done.
Qed.

Lemma preserves_modify_tls f :
  (∀ s, R s (with_tls (f (tls s)) s)) → preserves R (modify_tls f).
Proof. intros H. by apply preserves_modify. Qed.

Lemma preserves_modify_engine f :
  (∀ s, R s (with_engine (f (engine s)) s)) → preserves R (modify_engine f).
Proof. intros H. by apply preserves_modify. Qed.

Lemma preserves_on_graph_task {A : Type} gid (m : Comp GraphTask A) :
  (∀ s g g' o, graph_tasks (engine s) !! gid = Some g → m g = (g', o) →
     R s (put_graph_task gid g' s)) →
  preserves R (on_graph_task gid m).
Proof.
  intros H s s' o. unfold on_graph_task.
  destruct (graph_tasks (engine s) !! gid) as [g|] eqn:Hg;
    [|intros [= <- <-]; done].
  destruct (m g) as [g' o'] eqn:Hm. intros [= <- <-]. eauto.
Qed.

End PreservesState.

(** Splits a goal [preserves R m] along the structure of [m]; the goals
    left are the updates of the state and the calls of other functions. *)
Ltac preserves_apply lem := apply lem; try typeclasses eauto.

Ltac preserves_step :=
  lazymatch goal with
  | |- preserves _ (mbind _ _) =>
      preserves_apply preserves_bind; [|intros ?]
  | |- preserves _ (mret _) => preserves_apply preserves_ret
  | |- preserves _ (throw _) => preserves_apply preserves_throw
  | |- preserves _ block => preserves_apply preserves_block
  | |- preserves _ undefined_behaviour => preserves_apply preserves_undefined
  | |- preserves _ out_of_fuel => preserves_apply preserves_out_of_fuel
  | |- preserves _ (lift_result _) => preserves_apply preserves_lift_result
  | |- preserves _ (internal_assert _) =>
      preserves_apply preserves_internal_assert
  | |- preserves _ get_tls => preserves_apply preserves_get_tls
  | |- preserves _ get_engine => preserves_apply preserves_get_engine
  | |- preserves _ get_state => preserves_apply preserves_get_state
  | |- preserves _ (get_graph_task _) =>
      preserves_apply preserves_get_graph_task
  | |- preserves _ (try_catch _ _) =>
      preserves_apply preserves_try_catch; [|intros ?]
  | |- preserves _ (finally _ _) => preserves_apply preserves_finally
  | |- preserves _ (modify_tls _) => preserves_apply preserves_modify_tls
  | |- preserves _ (modify_engine _) =>
      preserves_apply preserves_modify_engine
  | |- preserves _ (modify _) => preserves_apply preserves_modify
  | |- preserves _ (on_graph_task _ _) =>
      preserves_apply preserves_on_graph_task
  | |- preserves _ (match ?x with _ => _ end) => destruct x eqn:?
  end.

(** [inv_rel I]: the invariant [I] carries over. *)
Definition inv_rel {S : Type} (I : S → Prop) : relation S :=
  λ s s', I s → I s'.

#[global] Instance inv_rel_preorder {S : Type} (I : S → Prop) :
  PreOrder (inv_rel I).
Proof.
  split; [intros s H; exact H|]. intros s1 s2 s3 H12 H23 H. apply H23, H12, H.
Qed.

Lemma preserves_weaken {S A : Type} (R1 R2 : relation S) (m : Comp S A) :
  (∀ s s', R1 s s' → R2 s s') → preserves R1 m → preserves R2 m.
Proof. intros Hsub Hm s s' o Hrun. eauto. Qed.

(** ** The priority of tasks *)

Section PriorityFacts.
Context {L : TensorLib}.

(** C8: [getReentrantDepth] is the depth of the graph task while the weak
    pointer is alive and the largest [int] once it has expired.  The depths
    of the live graph tasks being [int]s, no task of a live graph task is
    ahead of an expired task in the order of the ready queue, the expired
    task is ahead of each of them whose depth is below the largest [int],
    and the tasks ahead of the expired task are exactly the shutdown
    tasks. *)
Theorem getReentrantDepth_expired_first
    (tasks : gmap GraphTaskId GraphTask) (expired : NodeTask) :
  (∀ gid graph_task, tasks !! gid = Some graph_task →
     reentrant_depth_ graph_task ≤ INT_MAX) →
  lock tasks (base_ expired) = None →
  isShutdownTask_ expired = false →
  getReentrantDepth tasks expired = INT_MAX
  ∧ ∀ other : NodeTask,
      (∀ graph_task, lock tasks (base_ other) = Some graph_task →
         getReentrantDepth tasks other = reentrant_depth_ graph_task
         ∧ (isShutdownTask_ other = false →
            task_before tasks other expired = false
            ∧ (reentrant_depth_ graph_task < INT_MAX →
               task_before tasks expired other = true)))
      ∧ (task_before tasks other expired = true
         ↔ isShutdownTask_ other = true).
Proof.
  intros Hint Hexp Hns.
  assert (Hdepth : getReentrantDepth tasks expired = INT_MAX).
  { unfold getReentrantDepth. by rewrite Hexp. }
  split; [done|]. intros other.
  assert (Hle : getReentrantDepth tasks other ≤ INT_MAX).
  { unfold getReentrantDepth.
    destruct (lock tasks (base_ other)) as [g|] eqn:Hl; [|done].
    unfold lock in Hl. destruct (base_ other) as [gid|]; [|done].
    simpl in Hl. eauto. }
  split.
  - intros g Hl.
    assert (Hd : getReentrantDepth tasks other = reentrant_depth_ g).
    { unfold getReentrantDepth. by rewrite Hl. }
    split; [done|]. intros Hns'. unfold task_before.
    rewrite Hns, Hns', Hdepth, Hd. simpl. split.
    + apply Z.ltb_ge. rewrite <- Hd. done.
    + intros Hlt. by apply Z.ltb_lt.
  - unfold task_before. rewrite Hns, Hdepth.
    destruct (isShutdownTask_ other); simpl; [done|].
    split; [|done]. intros Hlt. apply Z.ltb_lt in Hlt. lia.
Qed.

End PriorityFacts.

(** One live graph task of depth 3 and a task of a graph task that is gone:
    the task of the live one is behind. *)
Lemma getReentrantDepth_expired_first_witness :
  let tasks : gmap GraphTaskId (GraphTask (L := Simple.tensors)) :=
    {[ 0%nat := GraphTask_new false false 3 None ]} in
  let expired := mkNodeTask (Some 7%nat) (Some Simple.A) [] false in
  let live := mkNodeTask (Some 0%nat) (Some Simple.B) [] false in
  (lock tasks (base_ expired) = None ∧ isShutdownTask_ expired = false)
  ∧ getReentrantDepth tasks expired = INT_MAX
  ∧ getReentrantDepth tasks live = 3
  ∧ task_before tasks expired live = true
  ∧ task_before tasks live expired = false.
Proof.
  intros tasks expired live.
  assert (Hint : ∀ gid graph_task, tasks !! gid = Some graph_task →
            reentrant_depth_ graph_task ≤ INT_MAX).
  { intros gid g Hg. subst tasks.
    apply lookup_singleton_Some in Hg as [_ <-]. simpl. unfold INT_MAX. lia. }
  destruct (getReentrantDepth_expired_first tasks expired Hint
              eq_refl eq_refl) as [Hmax Hother].
  destruct (Hother live) as [Hlive _].
  destruct (Hlive (GraphTask_new false false 3 None) eq_refl)
    as [Hdepth Hnot_shutdown].
  destruct (Hnot_shutdown eq_refl) as [Hbehind Hahead].
  split; [split; reflexivity|].
  split; [exact Hmax|]. split; [exact Hdepth|].
  split; [apply Hahead; reflexivity | exact Hbehind].
Defined.

(** ** The destructor of the engine *)

Section DestructorFacts.
Context {L : TensorLib}.

Lemma noBackward_fold (e : Engine) (queues : list QueueId) (b : bool) :
  foldl (λ noBackward queue, noBackward && ReadyQueue_empty queue e) b queues
  = b && forallb (λ queue, ReadyQueue_empty queue e) queues.
Proof.
  revert b. induction queues as [|q queues IH]; intros b; simpl.
  - by rewrite andb_true_r.
  - rewrite IH. by rewrite andb_assoc.
Qed.

Lemma heap_push_other queue item (e : Engine) q :
  q ≠ queue → ready_queues (heap_push queue item e) !! q = ready_queues e !! q.
Proof. intros Hne. unfold heap_push. simpl. by rewrite lookup_insert_ne. Qed.

Lemma filter_eq_not_elem_of (queues : list QueueId) (q : QueueId) :
  q ∉ queues → filter (λ x, x = q) queues = [].
Proof.
  induction queues as [|q' queues IH]; [done|]. intros Hq.
  rewrite filter_cons. rewrite decide_False by set_solver.
  apply IH. set_solver.
Qed.

Lemma push_shutdown_fold_lookup (queues : list QueueId) (e : Engine) q :
  ready_queues (foldl (λ e queue, pushShutdownTask queue e) e queues) !! q
  = if decide (q ∈ queues) then
      Some (default [] (ready_queues e !! q)
            ++ replicate (length (filter (λ x, x = q) queues))
                         (mkNodeTask None None (InputBuffer_new 0) true))
    else ready_queues e !! q.
Proof.
  revert e. induction queues as [|q' queues IH]; intros e; cbn [foldl].
  - rewrite decide_False by set_solver. done.
  - rewrite IH. unfold pushShutdownTask, heap_push.
    cbn [ready_queues with_ready_queues].
    rewrite filter_cons. destruct (decide (q' = q)) as [->|Hne].
    + rewrite lookup_insert_eq.
      rewrite (decide_True (P := q ∈ q :: queues)) by set_solver.
      destruct (decide (q ∈ queues)) as [Hin|Hin]; simpl.
      * by rewrite <- app_assoc.
      * rewrite filter_eq_not_elem_of; done.
    + rewrite lookup_insert_ne by done.
      destruct (decide (q ∈ queues)).
      * rewrite decide_True by set_solver. done.
      * rewrite decide_False by set_solver. done.
Qed.

(** C10: when every device queue is empty the destructor pushes a shutdown
    task on each of them, so that the heap of every device queue then holds
    shutdown tasks and nothing else; as soon as one device queue holds a task
    the destructor changes nothing, and no queue receives a shutdown task. *)
Theorem Engine_destroy_shutdown (e : Engine) :
  (Forall (λ queue, ReadyQueue_empty queue e = true) (device_ready_queues_ e) →
   Engine_destroy e
   = foldl (λ e queue, pushShutdownTask queue e) e (device_ready_queues_ e)
   ∧ ∀ queue, queue ∈ device_ready_queues_ e →
       ∃ n, (0 < n)%nat
            ∧ ready_queues (Engine_destroy e) !! queue
              = Some (replicate n (mkNodeTask None None (InputBuffer_new 0)
                                              true)))
  ∧ (Exists (λ queue, ReadyQueue_empty queue e = false)
            (device_ready_queues_ e) →
     Engine_destroy e = e).
Proof.
  unfold Engine_destroy. rewrite noBackward_fold. simpl. split.
  - intros Hall.
    assert (Hb : forallb (λ queue, ReadyQueue_empty queue e)
                   (device_ready_queues_ e) = true).
    { apply forallb_forall. intros q Hq. apply list_elem_of_In in Hq.
      rewrite Forall_forall in Hall. by apply Hall. }
    rewrite Hb. split; [done|]. intros queue Hin.
    rewrite push_shutdown_fold_lookup. rewrite decide_True by done.
    rewrite Forall_forall in Hall. specialize (Hall queue Hin).
    unfold ReadyQueue_empty in Hall.
    destruct (default [] (ready_queues e !! queue)); [|done]. simpl.
    exists (length (filter (λ x, x = queue) (device_ready_queues_ e))).
    split; [|done].
    destruct (filter (λ x, x = queue) (device_ready_queues_ e)) eqn:Hf;
      [|simpl; lia].
    exfalso. apply (filter_nil_not_elem_of _ _ queue Hf); done.
  - intros Hex.
    assert (Hb : forallb (λ queue, ReadyQueue_empty queue e)
                   (device_ready_queues_ e) = false).
    { apply not_true_is_false. intros Hb.
      rewrite Exists_exists in Hex. destruct Hex as (q & Hq & He).
      rewrite forallb_forall in Hb. apply list_elem_of_In in Hq.
      specialize (Hb q Hq). congruence. }
    by rewrite Hb.
Qed.

End DestructorFacts.

(** An engine with two devices: with both device queues empty the
    destructor leaves one shutdown task in each; with a task left in the
    queue of the second device it leaves both queues as they are. *)
Lemma Engine_destroy_shutdown_witness :
  let idle := start_device_threads 2 (Engine_new Simple.chain_fork) in
  let busy :=
    heap_push 1%nat (mkNodeTask (Some 0%nat) (Some Simple.A) [] false) idle in
  let shutdown := mkNodeTask None None (InputBuffer_new 0) true in
  (Forall (λ queue, ReadyQueue_empty queue idle = true)
          (device_ready_queues_ idle)
   ∧ Exists (λ queue, ReadyQueue_empty queue busy = false)
            (device_ready_queues_ busy))
  ∧ ready_queues (Engine_destroy idle) !! 0%nat = Some [shutdown]
  ∧ ready_queues (Engine_destroy idle) !! 1%nat = Some [shutdown]
  ∧ Engine_destroy busy = busy.
Proof.
  intros idle busy shutdown.
  assert (Hidle : Forall (λ queue, ReadyQueue_empty queue idle = true)
                         (device_ready_queues_ idle)).
  { repeat constructor. }
  assert (Hbusy : Exists (λ queue, ReadyQueue_empty queue busy = false)
                         (device_ready_queues_ busy)).
  { apply Exists_cons_tl. apply Exists_cons_hd. reflexivity. }
  split; [split; assumption|].
  destruct (Engine_destroy_shutdown idle) as [Hpush _].
  destruct (Hpush Hidle) as [Heq _].
  destruct (Engine_destroy_shutdown busy) as [_ Hkeep].
  split; [rewrite Heq; reflexivity|].
  split; [rewrite Heq; reflexivity|].
  exact (Hkeep Hbusy).
Defined.

(** ** Completion of a graph task *)

Section CompletionFacts.
Context {L : TensorLib}.

Lemma put_graph_task_lookup gid (g : GraphTask) (s : State) :
  graph_tasks (engine (put_graph_task gid g s)) !! gid = Some g.
Proof. unfold put_graph_task. simpl. apply lookup_insert_eq. Qed.


End CompletionFacts.


(** The same end to end: a node whose post hook drops an output leaves the
    buffer of its successor in [not_ready_], and [execute] raises. *)
Example execute_raises_could_not_compute :
  snd (Simple.run_execute Simple.truncated 20 [Simple.edge_to Simple.A]
         [Simple.scalar 5] [])
  = Exn could_not_compute.
Proof. vm_compute. reflexivity. Qed.

(** ** Errors in the worker loop *)

Section WorkerFacts.
Context {L : TensorLib}.
Variable can_checkpoint : GraphTask → bool.
Variable anomaly_enabled : bool.
Variable InputBuffer_device : InputBuffer → Device.

Lemma heap_top_from_lookup (tasks : gmap GraphTaskId GraphTask)
    (heap : list NodeTask) :
  ∀ best i (rest : list NodeTask) j top,
    heap_top_from tasks best i rest = (j, top) →
    heap !! best.1 = Some best.2 →
    (∀ k t, rest !! k = Some t → heap !! (i + k)%nat = Some t) →
    heap !! j = Some top.
Proof.
  intros best i rest. revert best i.
  induction rest as [|t rest IH]; intros best i j top; simpl.
  - intros -> Hbest _. done.
  - intros Htop Hbest Hrest. eapply IH; [exact Htop| |].
    + destruct (task_before tasks t best.2); [|done]. simpl.
      specialize (Hrest 0%nat t eq_refl). by rewrite Nat.add_0_r in Hrest.
    + intros k t' Hk. specialize (Hrest (S k) t' Hk).
      by replace (S i + k)%nat with (i + S k)%nat by lia.
Qed.

Lemma heap_pop_lookup (tasks : gmap GraphTaskId GraphTask)
    (heap : list NodeTask) task heap' :
  heap_pop tasks heap = Some (task, heap') →
  ∃ i, heap !! i = Some task ∧ heap' = delete i heap.
Proof.
  unfold heap_pop. destruct heap as [|t rest]; [done|].
  destruct (heap_top_from tasks (0%nat, t) 1 rest) as [i top] eqn:Htop.
  intros [= <- <-]. exists i. split; [|done].
  eapply heap_top_from_lookup; [exact Htop|done|]. intros k t' Hk. done.
Qed.

Lemma heap_pop_is_Some (tasks : gmap GraphTaskId GraphTask)
    (heap : list NodeTask) :
  heap ≠ [] → is_Some (heap_pop tasks heap).
Proof.
  unfold heap_pop. destruct heap as [|t rest]; [done|]. intros _.
  destruct (heap_top_from tasks (0%nat, t) 1 rest). eauto.
Qed.


(** [set_exception] after an error is latched changes nothing. *)
Lemma set_exception_latched e (g : GraphTask) :
  has_error_ g = true → set_exception e g = (g, Ret ()).
Proof. intros H. unfold set_exception. comp_unfold. by rewrite H. Qed.

Lemma applied_push gid gid' fn (trace : list Event) :
  applied gid' (trace ++ [ev_push gid fn]) = applied gid' trace.
Proof. unfold applied. rewrite omap_app. simpl. by rewrite app_nil_r. Qed.

(** The relation "the same calls were made on behalf of [gid']". *)
Local Abbreviation same_applied gid' :=
  (unchanged (λ s : State, applied gid' (trace_ (engine s)))).











End WorkerFacts.


(** The same end to end: [B] throws, the task of [C] is popped afterwards
    and not evaluated, and [execute] raises the exception of [B]. *)
Example execute_raises_first_error :
  let r := Simple.run_execute Simple.failing 20 [Simple.edge_to Simple.A]
             [Simple.scalar 5] [] in
  r.2 = Exn Simple.boom
  ∧ applied 0%nat (trace_ (engine r.1)) = [0%nat; Simple.A; Simple.B]
  ∧ pushed 0%nat (trace_ (engine r.1))
    = [0%nat; Simple.A; Simple.B; Simple.C].
Proof. vm_compute. repeat split; reflexivity. Qed.

(** ** What the worker loop leaves alone

    The worker loop updates the thread-locals, the graph tasks, the heaps of
    the ready queues and the trace; a projection of the engine that does not
    read those is the same after the loop. *)

Section WorkerFrame.
Context {L : TensorLib}.
Variable can_checkpoint : GraphTask → bool.
Variable anomaly_enabled : bool.
Variable InputBuffer_device : InputBuffer → Device.
Context {T : Type} (f : Engine → T).
Hypothesis f_graph_tasks : ∀ e m, f (with_graph_tasks m e) = f e.
Hypothesis f_ready_queues : ∀ e q, f (with_ready_queues q e) = f e.
Hypothesis f_trace : ∀ e t, f (with_trace t e) = f e.

Local Abbreviation same_f := (unchanged (λ s : State, f (engine s))).

Ltac same_f_solve :=
  intros; unfold unchanged, put_graph_task, heap_push, record_event;
  cbn [engine tls with_engine with_tls];
  rewrite ?f_graph_tasks, ?f_ready_queues, ?f_trace; done.

Lemma ReadyQueue_push_frame queue item inc :
  preserves same_f (ReadyQueue_push queue item inc).
Proof. unfold ReadyQueue_push. repeat preserves_step; same_f_solve. Qed.


Lemma call_function_frame gid func inputs :
  preserves same_f (call_function can_checkpoint gid func inputs).
Proof. unfold call_function. repeat preserves_step; same_f_solve. Qed.

Lemma commit_pushes_frame gid pushes (e : Engine) :
  f (commit_pushes gid pushes e) = f e.
Proof.
  revert e. induction pushes as [|p pushes IH]; intros e; [done|].
  simpl. rewrite IH. unfold record_event, heap_push.
  by rewrite f_trace, f_ready_queues.
Qed.

Lemma route_frame gid func outputs :
  preserves same_f (route InputBuffer_device gid func outputs).
Proof.
  intros s s' o. unfold route.
  destruct (graph_tasks (engine s) !! gid) as [g|]; [|intros [= <- <-]; done].
  destruct (route_outputs _ _ _ _ _ _) as [[g' pushes] o'].
  intros [= <- <-]. unfold unchanged. simpl.
  by rewrite commit_pushes_frame, f_graph_tasks.
Qed.

Lemma evaluate_function_frame gid func inputs :
  preserves same_f
    (evaluate_function can_checkpoint anomaly_enabled InputBuffer_device
                       gid func inputs).
Proof.
  unfold evaluate_function. repeat preserves_step;
    try apply call_function_frame; try apply route_frame; same_f_solve.
Qed.

Lemma mark_graph_task_completed_frame gid :
  preserves same_f (mark_graph_task_completed gid).
Proof.
  unfold mark_graph_task_completed, graph_task_exec_post_processing.
  repeat preserves_step; same_f_solve.
Qed.

Lemma thread_main_completion_frame gid :
  preserves same_f (thread_main_completion gid).
Proof.
  unfold thread_main_completion. repeat preserves_step;
    try apply mark_graph_task_completed_frame;
    try apply ReadyQueue_push_frame; same_f_solve.
Qed.

Lemma thread_main_task_frame reentrant task :
  preserves same_f
    (thread_main_task can_checkpoint anomaly_enabled InputBuffer_device
                      reentrant task).
Proof.
  unfold thread_main_task, thread_on_exception. repeat preserves_step;
    try apply evaluate_function_frame;
    try apply thread_main_completion_frame; same_f_solve.
Qed.





End WorkerFrame.

(** ** The thread-locals across [execute] *)

Section ExecuteFacts.
Context {L : TensorLib}.
Variable can_checkpoint : GraphTask → bool.
Variable anomaly_enabled : bool.
Variable InputBuffer_device : InputBuffer → Device.
Variable num_devices : nat.

(** The relations "the same thread-locals" and "the same worker device". *)
Local Abbreviation same_tls := (unchanged (λ s : State, tls s)).
Local Abbreviation same_worker :=
  (unchanged (λ s : State, worker_device (tls s))).

Ltac frame_solve :=
  intros; unfold unchanged; simpl; done.

Lemma new_ready_queue_tls : preserves same_tls new_ready_queue.
Proof. intros s s' o [= <- <-]. done. Qed.

Lemma new_graph_task_tls g : preserves same_tls (new_graph_task g).
Proof. intros s s' o [= <- <-]. done. Qed.

Lemma same_tls_worker {A : Type} (m : Comp State A) :
  preserves same_tls m → preserves same_worker m.
Proof. intros H s s' o Hm. unfold unchanged. by rewrite (H s s' o Hm). Qed.

Lemma ReadyQueue_push_tls queue item inc :
  preserves same_tls (ReadyQueue_push queue item inc).
Proof. unfold ReadyQueue_push. repeat preserves_step; frame_solve. Qed.

Lemma push_graph_root_tls gid graph_root :
  preserves same_tls (push_graph_root num_devices gid graph_root).
Proof.
  unfold push_graph_root, call_once_start_device_threads.
  repeat preserves_step; try apply ReadyQueue_push_tls; frame_solve.
Qed.

Lemma make_graph_task_worker keep_graph create_graph :
  preserves same_worker (make_graph_task keep_graph create_graph).
Proof.
  unfold make_graph_task, init_local_ready_queue.
  repeat preserves_step;
    try (apply same_tls_worker;
         first [apply new_ready_queue_tls | apply new_graph_task_tls]);
    frame_solve.
Qed.

Lemma analyse_graph_tls fuel gid graph_root roots inputs outputs :
  preserves same_tls (analyse_graph fuel gid graph_root roots inputs outputs).
Proof. unfold analyse_graph. repeat preserves_step; frame_solve. Qed.

Lemma future_wait_state gid (s s' : State) o :
  future_wait gid s = (s', o) → s' = s.
Proof.
  unfold future_wait. comp_unfold.
  destruct (graph_tasks (engine s) !! gid) as [g|]; [|by intros [= <-]].
  destruct (future_result_ g); by intros [= <-].
Qed.

(** The caller that drives a graph task has its thread-locals reset when
    [drive_from_caller] returns. *)
Lemma drive_from_caller_resets fuel gid (s s' : State) v :
  drive_from_caller can_checkpoint anomaly_enabled InputBuffer_device
                    fuel gid s = (s', Ret v) →
  worker_device (tls s') = NO_DEVICE ∧ local_ready_queue (tls s') = None.
Proof.
  intros Hrun. unfold drive_from_caller in Hrun.
  do 6 (apply bind_returns in Hrun as (? & ? & ? & Hrun)).
  apply future_wait_state in Hrun as ->.
  unfold modify_tls, modify in *. simplify_eq. done.
Qed.

Lemma execute_with_graph_task_resets fuel gid graph_root (s s' : State) v :
  worker_device (tls s) = NO_DEVICE →
  execute_with_graph_task can_checkpoint anomaly_enabled InputBuffer_device
    num_devices fuel gid graph_root s = (s', Ret v) →
  worker_device (tls s') = NO_DEVICE ∧ local_ready_queue (tls s') = None.
Proof.
  intros Hwd Hrun. unfold execute_with_graph_task in Hrun.
  apply bind_returns in Hrun as (? & s1 & Hpush & Hrun).
  apply push_graph_root_tls in Hpush. unfold unchanged in Hpush.
  apply bind_returns in Hrun as (t & s2 & Ht & Hrun).
  apply bind_returns in Hrun as (e & s3 & He & Hrun).
  unfold get_tls in Ht. injection Ht as <- <-.
  unfold get_engine in He. injection He as <- <-.
  rewrite Hpush in Hrun. rewrite decide_True in Hrun by done.
  by eapply drive_from_caller_resets.
Qed.

(** C7: when [execute] is entered by a thread that is not a worker
    ([worker_device] is [NO_DEVICE]) and returns, the thread-locals of the
    caller are reset: [worker_device] is [NO_DEVICE] and [local_ready_queue]
    is null, which is the state a next call of [execute] needs. *)
Theorem execute_resets_thread_locals fuel graph_root roots inputs keep_graph
    create_graph outputs (s s' : State) v :
  worker_device (tls s) = NO_DEVICE →
  execute can_checkpoint anomaly_enabled InputBuffer_device num_devices
          fuel graph_root roots inputs keep_graph create_graph outputs s
  = (s', Ret v) →
  worker_device (tls s') = NO_DEVICE ∧ local_ready_queue (tls s') = None.
Proof.
  intros Hwd Hrun. unfold execute in Hrun.
  apply bind_returns in Hrun as (e & s0 & He & Hrun).
  unfold get_engine in He. injection He as <- <-.
  apply bind_returns in Hrun as (inputs' & s1 & Hv & Hrun).
  assert (s1 = s) as ->.
  { unfold lift_result in Hv. destruct (validate_outputs _ _ _);
      comp_unfold; by simplify_eq. }
  apply bind_returns in Hrun as (? & s2 & Hclear & Hrun).
  unfold modify in Hclear. injection Hclear as <- _.
  apply finally_returns in Hrun as (s3 & Hrun & ->).
  apply bind_returns in Hrun as (gid & s4 & Hmake & Hrun).
  apply make_graph_task_worker in Hmake. unfold unchanged in Hmake.
  apply finally_returns in Hrun as (s5 & Hrun & ->).
  apply bind_returns in Hrun as (? & s6 & Han & Hrun).
  apply analyse_graph_tls in Han. unfold unchanged in Han.
  apply execute_with_graph_task_resets in Hrun; [done|].
  rewrite Han, Hmake. done.
Qed.





End ExecuteFacts.

(** The driver of a fresh engine calls [execute] twice: each call returns
    the captured gradient and leaves the thread-locals reset. *)
Lemma execute_resets_thread_locals_witness :
  let run := execute Simple.exec_info_empty false Simple.buffer_device 0 20
               0%nat [Simple.edge_to Simple.A] [Simple.scalar 5] false false
               [Simple.edge_to Simple.B] in
  let s0 := mkState ThreadLocals_init (Engine_new Simple.chain_fork) in
  worker_device (tls s0) = NO_DEVICE
  ∧ (run s0).2 = Ret [Simple.scalar 10]
  ∧ worker_device (tls (run s0).1) = NO_DEVICE
  ∧ local_ready_queue (tls (run s0).1) = None
  ∧ (run (run s0).1).2 = Ret [Simple.scalar 10].
Proof.
  intros run s0.
  assert (Hret : (run s0).2 = Ret [Simple.scalar 10])
    by (vm_compute; reflexivity).
  assert (Hrun : run s0 = ((run s0).1, Ret [Simple.scalar 10]))
    by (rewrite <- Hret; apply surjective_pairing).
  destruct (execute_resets_thread_locals _ _ _ _ _ _ _ _ _ _ _ _ _ _
              (eq_refl : worker_device (tls s0) = NO_DEVICE) Hrun)
    as [Hwd Hq].
  split; [reflexivity|]. split; [exact Hret|].
  split; [exact Hwd|]. split; [exact Hq|].
  vm_compute. reflexivity.
Defined.


(** ** Views of the state that the worker loop keeps

    A view pairs a projection [pt] of the trace with a projection [p] of
    one graph task.  The events outside [loud] do not show in [pt]; [p] does
    not read the fields of the graph task that the loop updates outside the
    routing of outputs. *)

Section WorkerView.
Context {L : TensorLib}.
Variable can_checkpoint : GraphTask → bool.
Variable anomaly_enabled : bool.
Variable InputBuffer_device : InputBuffer → Device.
Context {T V : Type}.
Variable gid : GraphTaskId.
Variable p : GraphTask → T.
Variable pt : list Event → V.
Variable loud : Event → Prop.
Hypothesis pt_quiet : ∀ trace ev, ¬ loud ev → pt (trace ++ [ev]) = pt trace.
Hypothesis p_outstanding : ∀ v g, p (with_outstanding_tasks v g) = p g.
Hypothesis p_has_error : ∀ v g, p (with_has_error v g) = p g.
Hypothesis p_future : ∀ v g, p (with_future_result v g) = p g.
Hypothesis p_captured : ∀ v g, p (with_captured_vars v g) = p g.
Hypothesis p_leaf_streams : ∀ v g, p (with_leaf_streams v g) = p g.
Hypothesis quiet_wakeup : ∀ gid0, ¬ loud (ev_push gid0 None).

Definition view (s : State) : V * option T :=
  (pt (trace_ (engine s)), p <$> graph_tasks (engine s) !! gid).

Variable R : relation State.
Context `{!PreOrder R}.
Hypothesis view_R : ∀ s s', view s' = view s → R s s'.

Lemma view_put_graph_task (s : State) gid0 g g' :
  graph_tasks (engine s) !! gid0 = Some g → p g' = p g →
  view (put_graph_task gid0 g' s) = view s.
Proof.
  intros Hg Hp. unfold view, put_graph_task. simpl. f_equal.
  destruct (decide (gid0 = gid)) as [->|Hne].
  - rewrite lookup_insert_eq, Hg. simpl. by rewrite Hp.
  - by rewrite lookup_insert_ne.
Qed.

Lemma view_record_event (s : State) ev :
  ¬ loud ev → view (with_engine (record_event ev (engine s)) s) = view s.
Proof. intros Hev. unfold view. simpl. by rewrite pt_quiet. Qed.

(** Computations on a graph task that keep [p]. *)
Local Abbreviation keeps_p := (preserves (unchanged p)).

Ltac keeps_p_solve :=
  intros; unfold unchanged, count_push, decrement_outstanding_tasks;
  rewrite ?p_outstanding, ?p_has_error, ?p_future, ?p_captured,
    ?p_leaf_streams; done.

Lemma capture_inputs_keeps func inputs :
  keeps_p (capture_inputs func inputs).
Proof. unfold capture_inputs. repeat preserves_step; keeps_p_solve. Qed.

Lemma set_exception_keeps e : keeps_p (set_exception e).
Proof. unfold set_exception. repeat preserves_step; keeps_p_solve. Qed.

Lemma on_graph_task_view {A : Type} gid0 (m : Comp GraphTask A) :
  keeps_p m → preserves R (on_graph_task gid0 m).
Proof.
  intros Hm. apply preserves_on_graph_task; [typeclasses eauto|].
  intros s g g' o Hg Hrun. apply view_R.
  apply (view_put_graph_task s gid0 g g' Hg). by apply Hm in Hrun.
Qed.

Lemma modify_keeps (h : GraphTask → GraphTask) :
  (∀ g, p (h g) = p g) → keeps_p (modify h).
Proof. intros Hh. apply preserves_modify. intros g. apply Hh. Qed.

Ltac view_close :=
  first
    [ apply view_R; unfold view; simpl; done
    | apply view_R; apply view_record_event; done
    | apply on_graph_task_view;
        first [ apply capture_inputs_keeps | apply set_exception_keeps
              | apply modify_keeps; keeps_p_solve ] ].

Ltac view_step :=
  lazymatch goal with
  | |- preserves _ (on_graph_task _ _) => view_close
  | _ => preserves_step
  end.

Lemma ReadyQueue_push_view queue item inc :
  (inc = true → ∀ gid0, base_ item = Some gid0 →
     ¬ loud (ev_push gid0 (fn_ item))) →
  preserves R (ReadyQueue_push queue item inc).
Proof.
  intros Hquiet. unfold ReadyQueue_push. repeat view_step;
    intros; try view_close.
  apply view_R. apply view_record_event. eauto.
Qed.

Lemma ReadyQueue_pop_view queue : preserves R (ReadyQueue_pop queue).
Proof.
  intros s s' o. unfold ReadyQueue_pop.
  destruct (heap_pop _ _) as [[task heap]|]; intros [= <- <-];
    [|reflexivity]. apply view_R. done.
Qed.

Lemma mark_graph_task_completed_view gid0 :
  preserves R (mark_graph_task_completed gid0).
Proof.
  unfold mark_graph_task_completed, graph_task_exec_post_processing.
  repeat view_step.
Qed.

Lemma thread_main_completion_view gid0 :
  preserves R (thread_main_completion gid0).
Proof.
  unfold thread_main_completion. repeat view_step;
    try apply mark_graph_task_completed_view.
  apply ReadyQueue_push_view. intros _ gid1 [= <-]. apply quiet_wakeup.
Qed.

Lemma call_function_view gid0 func inputs :
  ¬ loud (ev_apply gid0 func) →
  preserves R (call_function can_checkpoint gid0 func inputs).
Proof.
  intros Hquiet. unfold call_function. repeat view_step; intros;
    try view_close.
Qed.

Lemma commit_pushes_view gid0 pushes (s : State) :
  (∀ fn, ¬ loud (ev_push gid0 fn)) →
  view (with_engine (commit_pushes gid0 pushes (engine s)) s) = view s.
Proof.
  intros Hquiet. destruct s as [t e]. unfold view. simpl. revert e.
  induction pushes as [|push pushes IH]; intros e; [done|].
  unfold commit_pushes in *. cbn [foldl]. rewrite IH. simpl.
  rewrite pt_quiet by apply Hquiet. done.
Qed.

Lemma route_view gid0 func outputs :
  (∀ fn, ¬ loud (ev_push gid0 fn)) →
  (∀ queues num_inputs edges,
     preserves (unchanged (λ st : Routing, p st.1))
       (route_outputs InputBuffer_device queues num_inputs gid0 outputs
                      edges)) →
  preserves R (route InputBuffer_device gid0 func outputs).
Proof.
  intros Hquiet Hkeeps s s' o. unfold route.
  destruct (graph_tasks (engine s) !! gid0) as [g|] eqn:Hg;
    [|intros [= <- <-]; reflexivity].
  destruct (route_outputs _ _ _ _ _ _ _) as [[g' pushes] o'] eqn:Hroute.
  intros [= <- <-]. apply view_R.
  apply Hkeeps in Hroute. unfold unchanged in Hroute. simpl in Hroute.
  pose proof (commit_pushes_view gid0 pushes (put_graph_task gid0 g' s) Hquiet)
    as Hcommit.
  rewrite (view_put_graph_task s gid0 g g' Hg Hroute) in Hcommit.
  exact Hcommit.
Qed.

Lemma evaluate_function_view gid0 func inputs :
  ¬ loud (ev_apply gid0 func) →
  (∀ outputs, preserves R (route InputBuffer_device gid0 func outputs)) →
  preserves R
    (evaluate_function can_checkpoint anomaly_enabled InputBuffer_device
                       gid0 func inputs).
Proof.
  intros Hquiet Hroute. unfold evaluate_function. repeat view_step;
    try (by apply call_function_view); try apply Hroute.
Qed.

Hypothesis evaluate_function_R : ∀ gid0 func inputs,
  preserves R
    (evaluate_function can_checkpoint anomaly_enabled InputBuffer_device
                       gid0 func inputs).

Lemma thread_main_task_view reentrant task :
  preserves R
    (thread_main_task can_checkpoint anomaly_enabled InputBuffer_device
                      reentrant task).
Proof.
  unfold thread_main_task, thread_on_exception. repeat view_step;
    try apply evaluate_function_R; try apply thread_main_completion_view.
Qed.

Lemma thread_main_loop_view fuel graph_task reentrant :
  preserves R
    (thread_main_loop can_checkpoint anomaly_enabled InputBuffer_device
                      fuel graph_task reentrant).
Proof.
  induction fuel as [|fuel IH]; simpl; [preserves_step|].
  repeat view_step; try apply ReadyQueue_pop_view;
    try apply thread_main_task_view; try apply IH.
Qed.

End WorkerView.

(** ** Counting dependencies *)

Section DependencyFacts.
Variable next_edges : Node → edge_list.

Local Abbreviation successors := (successors next_edges).
Local Abbreviation reachable := (reachable next_edges).

Lemma reachable_successor root n c :
  reachable root n → c ∈ successors n → reachable root c.
Proof. intros Hn Hc. eapply rtc_r; eauto. Qed.

Lemma acyclic_rank_le root rank n :
  acyclic next_edges root rank → reachable root n →
  (rank n ≤ rank root)%nat.
Proof.
  intros Hacyclic Hn.
  apply (rtc_ind_r (R := λ n c, c ∈ successors n)
           (λ n, (rank n ≤ rank root)%nat) root); [done| |exact Hn].
  intros m c Hm Hc IH. specialize (Hacyclic m c Hm Hc). lia.
Qed.

Lemma acyclic_root_not_successor root rank n :
  acyclic next_edges root rank → reachable root n → root ∉ successors n.
Proof.
  intros Hacyclic Hn Hroot.
  pose proof (Hacyclic n root Hn Hroot).
  pose proof (acyclic_rank_le root rank n Hacyclic Hn). lia.
Qed.

Lemma descendants_reachable root rank :
  acyclic next_edges root rank →
  ∀ k n x, reachable root n → (rank n ≤ k)%nat →
    rtc (λ n c, c ∈ successors n) n x → x ∈ descendants next_edges k n.
Proof.
  intros Hacyclic. induction k as [|k IH]; intros n x Hn Hk Hx.
  - destruct Hx as [|n c x Hc Hx]; [set_solver|].
    specialize (Hacyclic n c Hn Hc). lia.
  - destruct Hx as [|n c x Hc Hx]; [set_solver|]. simpl.
    apply elem_of_union_r. apply elem_of_union_list.
    exists (descendants next_edges k c). split.
    + apply list_elem_of_fmap. eauto.
    + apply IH; [by eapply reachable_successor| |done].
      specialize (Hacyclic n c Hn Hc). lia.
Qed.

(** The effect of the [for] loop over the edges of a node. *)
Lemma compute_dependencies_edges (edges : edge_list) :
  ∀ queue seen (dependencies : gmap Node Z) queue' seen' dependencies',
    foldl compute_dependencies_edge (queue, seen, dependencies) edges
    = (queue', seen', dependencies') →
    (∀ n, default 0 (dependencies' !! n)
          = default 0 (dependencies !! n)
            + Z.of_nat (length (filter (λ c, c = n) (omap function edges))))
    ∧ (∀ n, n ∈ seen' ↔ n ∈ seen ∨ n ∈ omap function edges)
    ∧ ∃ new, queue' = new ++ queue ∧ NoDup new
             ∧ ∀ x, x ∈ new ↔ x ∈ omap function edges ∧ x ∉ seen.
Proof.
  induction edges as [|edge edges IH];
    intros queue seen deps queue' seen' deps'.
  - simpl. intros [= <- <- <-]. split; [intros n; simpl; lia|].
    split; [intros n; rewrite elem_of_nil; naive_solver|].
    exists []. split; [done|]. split; [constructor|].
    intros x. rewrite !elem_of_nil. naive_solver.
  - cbn [foldl]. unfold compute_dependencies_edge at 2.
    destruct (function edge) as [next_ptr|] eqn:Hfn; cycle 1.
    { intros Hfold. apply IH in Hfold. simpl. rewrite Hfn. done. }
    assert (Homap : omap function (edge :: edges)
                    = next_ptr :: omap function edges).
    { simpl. by rewrite Hfn. }
    rewrite Homap.
    set (deps1 := <[next_ptr := default 0 (deps !! next_ptr) + 1]> deps).
    assert (Hdeps1 : ∀ n, default 0 (deps1 !! n)
              = default 0 (deps !! n)
                + Z.of_nat (length (filter (λ c, c = n) [next_ptr]))).
    { intros n. unfold deps1. rewrite filter_cons, filter_nil.
      destruct (decide (next_ptr = n)) as [->|Hne].
      - rewrite lookup_insert_eq. simpl. lia.
      - rewrite lookup_insert_ne by done. simpl. lia. }
    assert (Hcount : ∀ n,
              Z.of_nat (length (filter (λ c, c = n)
                                       (next_ptr :: omap function edges)))
              = Z.of_nat (length (filter (λ c, c = n) [next_ptr]))
                + Z.of_nat (length (filter (λ c, c = n)
                                           (omap function edges)))).
    { intros n. rewrite (filter_cons _ next_ptr), filter_cons, filter_nil.
      destruct (decide (next_ptr = n)); simpl; lia. }
    destruct (decide (next_ptr ∈ seen)) as [Hseen|Hseen].
    + intros Hfold. apply IH in Hfold as (Hd & Hs & new & -> & Hnd & Hnew).
      split; [intros n; rewrite Hd, Hdeps1, Hcount; lia|].
      clear Hd Hdeps1 Hcount IH. split.
      { intros n. rewrite Hs, elem_of_cons. naive_solver. }
      exists new. split; [done|]. split; [done|].
      intros x. rewrite Hnew, elem_of_cons. naive_solver.
    + intros Hfold. apply IH in Hfold as (Hd & Hs & new & -> & Hnd & Hnew).
      split; [intros n; rewrite Hd, Hdeps1, Hcount; lia|].
      clear Hd Hdeps1 Hcount IH. split.
      { intros n. rewrite Hs, elem_of_union, elem_of_singleton, elem_of_cons.
        naive_solver. }
      exists (new ++ [next_ptr]). split; [by rewrite <- app_assoc|].
      split.
      { apply NoDup_app. split; [done|]. split; [|apply NoDup_singleton].
        intros x Hx. apply Hnew in Hx as [_ Hx].
        rewrite elem_of_union, elem_of_singleton in Hx.
        rewrite list_elem_of_singleton. naive_solver. }
      intros x. rewrite elem_of_app, Hnew, list_elem_of_singleton,
        elem_of_union, elem_of_singleton, elem_of_cons.
      destruct (decide (x = next_ptr)) as [->|]; naive_solver.
Qed.

Lemma compute_dependencies_edges_positive (edges : edge_list) :
  ∀ queue seen (dependencies : gmap Node Z) queue' seen' dependencies',
    foldl compute_dependencies_edge (queue, seen, dependencies) edges
    = (queue', seen', dependencies') →
    (∀ n z, dependencies !! n = Some z → 0 < z) →
    ∀ n z, dependencies' !! n = Some z → 0 < z.
Proof.
  induction edges as [|edge edges IH];
    intros queue seen deps queue' seen' deps'.
  - simpl. intros [= <- <- <-]. done.
  - cbn [foldl]. unfold compute_dependencies_edge at 2.
    destruct (function edge) as [next_ptr|] eqn:Hfn; [|by apply IH].
    intros Hfold Hpos.
    assert (Hpos1 : ∀ n z,
              <[next_ptr := default 0 (deps !! next_ptr) + 1]> deps !! n
              = Some z → 0 < z).
    { intros n z. destruct (decide (next_ptr = n)) as [->|Hne].
      - rewrite lookup_insert_eq. intros [= <-].
        destruct (deps !! n) as [z0|] eqn:Hz0; simpl; [|lia].
        specialize (Hpos n z0 Hz0). lia.
      - rewrite lookup_insert_ne by done. apply Hpos. }
    destruct (decide (next_ptr ∈ seen)); eapply IH; eauto.
Qed.

Section Worklist.
Variable root : Node.
Variable rank : Node → nat.
Hypothesis Hacyclic : acyclic next_edges root rank.

(** The invariant of the worklist loop: [visited] are the nodes popped so
    far. *)
Record worklist_inv (visited queue : list Node) (seen : gset Node)
    (dependencies : gmap Node Z) : Prop := {
  wl_count : ∀ n, default 0 (dependencies !! n)
                  = Z.of_nat (edges_into next_edges n visited);
  wl_positive : ∀ n z, dependencies !! n = Some z → 0 < z;
  wl_seen : ∀ c, c ∈ seen ↔ ∃ m, m ∈ visited ∧ c ∈ successors m;
  wl_nodup : NoDup (queue ++ visited);
  wl_members : ∀ x, x ∈ queue ++ visited ↔ x = root ∨ x ∈ seen;
  wl_reachable : ∀ x, x ∈ queue ++ visited → reachable root x
}.

Lemma worklist_inv_init : worklist_inv [] [root] ∅ ∅.
Proof.
  split.
  - intros n. by rewrite lookup_empty.
  - intros n z. by rewrite lookup_empty.
  - intros c. split; [by rewrite elem_of_empty|].
    intros (m & Hm & _). by apply elem_of_nil in Hm.
  - apply NoDup_singleton.
  - intros x. rewrite app_nil_r, list_elem_of_singleton, elem_of_empty.
    naive_solver.
  - intros x. rewrite app_nil_r, list_elem_of_singleton. intros ->.
    apply rtc_refl.
Qed.

Lemma worklist_inv_step visited fn queue seen dependencies
    queue' seen' dependencies' :
  worklist_inv visited (fn :: queue) seen dependencies →
  foldl compute_dependencies_edge (queue, seen, dependencies) (next_edges fn)
  = (queue', seen', dependencies') →
  worklist_inv (fn :: visited) queue' seen' dependencies'.
Proof.
  intros [Hcount Hpos Hseen Hnd Hmem Hreach] Hfold.
  pose proof (compute_dependencies_edges_positive _ _ _ _ _ _ _ Hfold Hpos)
    as Hpos'.
  apply compute_dependencies_edges in Hfold
    as (Hd & Hs & new & -> & Hnew_nd & Hnew).
  fold (successors fn) in Hd, Hs, Hnew.
  assert (Hfn : reachable root fn).
  { apply Hreach. rewrite elem_of_app, elem_of_cons. auto. }
  assert (Hroot : ∀ x, x ∈ new → x ≠ root).
  { intros x Hx ->. apply Hnew in Hx as [Hx _].
    by eapply acyclic_root_not_successor. }
  split.
  - intros n. rewrite Hd, Hcount. unfold edges_into, edges_between.
    simpl. lia.
  - done.
  - intros c. rewrite Hs, Hseen. split.
    + intros [(m & Hm & Hc)|Hc].
      * exists m. rewrite elem_of_cons. auto.
      * exists fn. rewrite elem_of_cons. auto.
    + intros (m & Hm & Hc). apply elem_of_cons in Hm as [->|Hm]; eauto.
  - assert (Hperm : (new ++ queue) ++ fn :: visited
                    ≡ₚ new ++ (fn :: queue) ++ visited).
    { rewrite <- app_assoc. apply Permutation_app_head.
      simpl. by rewrite Permutation_middle. }
    rewrite Hperm. apply NoDup_app. split; [done|]. split; [|done].
    intros x Hx Hx'. apply Hmem in Hx' as [->|Hx'].
    + by apply (Hroot root).
    + apply Hnew in Hx as [_ Hx]. done.
  - intros x.
    assert (Hperm : (new ++ queue) ++ fn :: visited
                    ≡ₚ new ++ (fn :: queue) ++ visited).
    { rewrite <- app_assoc. apply Permutation_app_head.
      simpl. by rewrite Permutation_middle. }
    rewrite Hperm, elem_of_app, Hmem, Hnew, Hs.
    destruct (decide (x ∈ seen)); naive_solver.
  - intros x Hx.
    assert (Hperm : (new ++ queue) ++ fn :: visited
                    ≡ₚ new ++ (fn :: queue) ++ visited).
    { rewrite <- app_assoc. apply Permutation_app_head.
      simpl. by rewrite Permutation_middle. }
    rewrite Hperm in Hx. apply elem_of_app in Hx as [Hx|Hx]; [|by apply Hreach].
    apply Hnew in Hx as [Hx _]. by eapply reachable_successor.
Qed.

Lemma worklist_inv_final visited seen dependencies :
  worklist_inv visited [] seen dependencies →
  NoDup visited
  ∧ (∀ n, n ∈ visited ↔ reachable root n)
  ∧ ∀ n, dependencies !! n
         = if decide (edges_into next_edges n visited = 0%nat) then None
           else Some (Z.of_nat (edges_into next_edges n visited)).
Proof.
  intros [Hcount Hpos Hseen Hnd Hmem Hreach]. simpl in *.
  split; [done|]. split.
  - intros n. split; [apply Hreach|]. intros Hn.
    apply (rtc_ind_r (R := λ n c, c ∈ successors n) (λ n, n ∈ visited) root);
      [apply Hmem; auto| |exact Hn].
    intros m c _ Hc Hm. apply Hmem. right. apply Hseen. eauto.
  - intros n. specialize (Hcount n).
    destruct (dependencies !! n) as [z|] eqn:Hz; simpl in Hcount.
    + specialize (Hpos n z Hz). rewrite decide_False by lia. by f_equal.
    + rewrite decide_True by lia. done.
Qed.

Lemma compute_dependencies_loop_terminates (universe : gset Node) :
  (∀ x, reachable root x → x ∈ universe) →
  ∀ fuel visited queue seen dependencies,
    worklist_inv visited queue seen dependencies →
    (size universe ≤ fuel + length visited)%nat →
    ∃ visited' seen' dependencies',
      compute_dependencies_loop next_edges fuel queue seen dependencies
      = Some dependencies'
      ∧ worklist_inv visited' [] seen' dependencies'.
Proof.
  intros Huniverse. induction fuel as [|fuel IH];
    intros visited queue seen deps Hinv Hfuel.
  - destruct queue as [|fn queue]; [simpl; eauto|]. exfalso.
    assert (Hlen : (length ((fn :: queue) ++ visited) ≤ size universe)%nat).
    { rewrite <- (size_list_to_set (C := gset Node)) by apply Hinv.
      apply subseteq_size. intros x Hx. apply elem_of_list_to_set in Hx.
      apply Huniverse. by apply Hinv. }
    rewrite length_app in Hlen. simpl in *. lia.
  - destruct queue as [|fn queue]; [simpl; eauto|]. simpl.
    destruct (foldl compute_dependencies_edge (queue, seen, deps)
                    (next_edges fn)) as [[queue' seen'] deps'] eqn:Hfold.
    eapply IH.
    + eapply worklist_inv_step; eauto.
    + simpl. lia.
Qed.

(** [compute_dependencies] on an acyclic graph: with enough fuel it returns,
    and the count of a node is the number of edges into it from the nodes
    reachable from the root. *)
Lemma compute_dependencies_counts :
  ∃ fuel0 visited,
    NoDup visited
    ∧ (∀ n, n ∈ visited ↔ reachable root n)
    ∧ ∀ (L : TensorLib) (fuel : nat) (task : GraphTask),
        (fuel0 ≤ fuel)%nat → dependencies_ task = ∅ →
        ∃ dependencies,
          compute_dependencies next_edges fuel root task
          = Some (with_dependencies dependencies task)
          ∧ ∀ n, dependencies !! n
                 = if decide (edges_into next_edges n visited = 0%nat)
                   then None
                   else Some (Z.of_nat (edges_into next_edges n visited)).
Proof.
  set (universe := descendants next_edges (rank root) root).
  assert (Huniverse : ∀ x, reachable root x → x ∈ universe).
  { intros x Hx. eapply descendants_reachable; eauto. apply rtc_refl. }
  destruct (compute_dependencies_loop_terminates universe Huniverse
              (size universe) [] [root] ∅ ∅ worklist_inv_init)
    as (visited & seen & deps & Hloop & Hinv); [simpl; lia|].
  apply worklist_inv_final in Hinv as (Hnd & Hvisited & Hdeps).
  exists (size universe), visited. split; [done|]. split; [done|].
  intros L fuel task Hfuel Hempty. exists deps. split; [|done].
  unfold compute_dependencies. rewrite Hempty.
  destruct (compute_dependencies_loop_terminates universe Huniverse
              fuel [] [root] ∅ ∅ worklist_inv_init)
    as (visited' & seen' & deps'' & Hloop' & Hinv'); [simpl; lia|].
  rewrite Hloop'. simpl.
  apply worklist_inv_final in Hinv' as (Hnd' & Hvisited' & Hdeps').
  f_equal. f_equal. apply map_eq. intros n. rewrite Hdeps, Hdeps'.
  assert (Hperm : visited' ≡ₚ visited).
  { apply NoDup_Permutation; [done..|]. intros x.
    by rewrite Hvisited, Hvisited'. }
  assert (Heq : edges_into next_edges n visited'
                = edges_into next_edges n visited).
  { unfold edges_into. by apply sum_list_with_Permutation_proper. }
  by rewrite Heq.
Qed.

End Worklist.

End DependencyFacts.

(** ** Every node is enqueued at most once *)

Section EnqueueOnce.
Context {L : TensorLib}.
Variable can_checkpoint : GraphTask → bool.
Variable anomaly_enabled : bool.
Variable InputBuffer_device : InputBuffer → Device.
Variable num_devices : nat.

(** One edge of the routing loop, case by case. *)
Lemma route_output_cases queues num_inputs gid output next
    (g : GraphTask) (pushes : list (QueueId * NodeTask)) g' pushes' o :
  route_output InputBuffer_device queues num_inputs gid output next
               (g, pushes) = ((g', pushes'), o) →
  match function next with
  | None => g' = g ∧ pushes' = pushes ∧ o = Ret ()
  | Some next_fn =>
      match dependencies_ g !! next_fn with
      | None =>
          g' = g ∧ pushes' = pushes ∧ o = Exn (dependency_not_found next_fn)
      | Some count =>
          dependencies_ g'
          = (if decide (count - 1 = 0) then delete next_fn (dependencies_ g)
             else <[next_fn := count - 1]> (dependencies_ g))
          ∧ exec_info_ g' = exec_info_ g
          ∧ (pushes' = pushes
             ∨ ∃ queue buffer,
                 pushes' = pushes
                           ++ [(queue, mkNodeTask (Some gid) (Some next_fn)
                                                  buffer false)]
                 ∧ count - 1 = 0)
          ∧ (count - 1 = 0 → o = Ret () →
             (pushes' ≠ pushes
              ↔ is_Some (not_ready_ g !! next_fn)
                ∨ exec_info_ g = ∅
                ∨ lookup_should_execute (exec_info_ g) (Some next_fn) = true))
      end
  end.
Proof.
  unfold route_output. destruct (function next) as [next_fn|];
    [|by intros [= <- <- <-]].
  unfold decrement_dependency, modify_task, push_node_task. comp_unfold.
  simpl. destruct (dependencies_ g !! next_fn) as [count|] eqn:Hcount;
    [|by intros [= <- <- <-]].
  assert (Hne : ∀ (x : QueueId * NodeTask), pushes ++ [x] ≠ pushes).
  { intros x Heq. apply (f_equal length) in Heq.
    rewrite length_app in Heq. simpl in Heq. lia. }
  destruct (decide (count - 1 = 0)) as [Hzero|Hpos]; simpl.
  - destruct (not_ready_ g !! next_fn) as [buffer|] eqn:Hbuf; simpl.
    + destruct (ready_queue _ _ _) as [queue|e]; simpl;
        intros [= <- <- <-]; simpl.
      * split; [done|]. split; [done|]. split; [eauto|].
        intros _ _. split; [eauto|]. intros _. apply Hne.
      * split; [done|]. split; [done|]. split; [auto|]. done.
    + destruct (bool_decide (exec_info_ g = ∅)) eqn:Hempty; simpl.
      * apply bool_decide_eq_true_1 in Hempty.
        destruct (ready_queue _ _ _) as [queue|e]; simpl;
          intros [= <- <- <-]; simpl.
        -- split; [done|]. split; [done|]. split; [eauto|].
           intros _ _. split; [auto|]. intros _. apply Hne.
        -- split; [done|]. split; [done|]. split; [auto|]. done.
      * apply bool_decide_eq_false_1 in Hempty.
        destruct (lookup_should_execute (exec_info_ g) (Some next_fn))
          eqn:Hshould; simpl.
        -- destruct (ready_queue _ _ _) as [queue|e]; simpl;
             intros [= <- <- <-]; simpl.
           ++ split; [done|]. split; [done|]. split; [eauto|].
              intros _ _. split; [auto|]. intros _. apply Hne.
           ++ split; [done|]. split; [done|]. split; [auto|]. done.
        -- intros [= <- <- <-]. simpl.
           split; [done|]. split; [done|]. split; [auto|].
           intros _ _. split; [done|].
           intros [[? [=]]|[?|?]]; done.
  - destruct (not_ready_ g !! next_fn) as [buffer|] eqn:Hbuf; simpl.
    + intros [= <- <- <-]. simpl. split; [done|]. split; [done|].
      split; [auto|]. done.
    + destruct (negb (bool_decide (exec_info_ g = ∅))
                && negb (lookup_should_execute (exec_info_ g) (Some next_fn)));
        simpl; intros [= <- <- <-]; simpl;
        (split; [done|]); (split; [done|]); (split; [auto|]); done.
Qed.

(** The routing loop keeps [pushed_once] over the nodes pushed before it
    ([old]) and by it. *)
Lemma route_output_once queues num_inputs gid output next old
    (g : GraphTask) (pushes : list (QueueId * NodeTask)) g' pushes' o :
  route_output InputBuffer_device queues num_inputs gid output next
               (g, pushes) = ((g', pushes'), o) →
  pushed_once (old ++ pushed_nodes pushes) (Some (dependencies_ g)) →
  pushed_once (old ++ pushed_nodes pushes') (Some (dependencies_ g')).
Proof.
  intros Hroute [Hnd Hnone]. apply route_output_cases in Hroute.
  destruct (function next) as [next_fn|];
    [|by destruct Hroute as (-> & -> & _)].
  destruct (dependencies_ g !! next_fn) as [count|] eqn:Hcount;
    [|by destruct Hroute as (-> & -> & _)].
  destruct Hroute as (Hdeps & _ & Hpushes & _).
  assert (Hfresh : next_fn ∉ old ++ pushed_nodes pushes).
  { intros Hin. specialize (Hnone _ next_fn eq_refl Hin). congruence. }
  assert (Hkept : ∀ n, n ∈ old ++ pushed_nodes pushes →
            dependencies_ g' !! n = None).
  { intros n Hin. assert (n ≠ next_fn) by (intros ->; done).
    rewrite Hdeps. destruct (decide (count - 1 = 0)).
    - rewrite lookup_delete_ne by done. eauto.
    - rewrite lookup_insert_ne by done. eauto. }
  destruct Hpushes as [->|(queue & buffer & -> & Hzero)].
  - split; [done|]. intros d n [= <-]. apply Hkept.
  - unfold pushed_nodes. rewrite omap_app. simpl.
    fold (pushed_nodes pushes). rewrite app_assoc. split.
    + apply NoDup_app. split; [done|]. split; [|apply NoDup_singleton].
      intros n Hn Hn'. apply list_elem_of_singleton in Hn' as ->. done.
    + intros d n [= <-] Hin. apply elem_of_app in Hin as [Hin|Hin];
        [by apply Hkept|].
      apply list_elem_of_singleton in Hin as ->.
      rewrite Hdeps. rewrite decide_True by done. apply lookup_delete_eq.
Qed.

Lemma route_outputs_once queues num_inputs gid old :
  ∀ outputs edges (g : GraphTask) (pushes : list (QueueId * NodeTask))
    g' pushes' o,
    route_outputs InputBuffer_device queues num_inputs gid outputs edges
                  (g, pushes) = ((g', pushes'), o) →
    pushed_once (old ++ pushed_nodes pushes) (Some (dependencies_ g)) →
    pushed_once (old ++ pushed_nodes pushes') (Some (dependencies_ g')).
Proof.
  induction outputs as [|output outputs IH];
    intros edges g pushes g' pushes' o; simpl.
  - by intros [= <- <- <-].
  - destruct edges as [|next edges]; [by intros [= <- <- <-]|].
    unfold mbind, Comp_bind.
    destruct (route_output _ _ _ _ _ _ _) as [[g1 pushes1] o1] eqn:Hone.
    intros Hrest Honce.
    pose proof (route_output_once _ _ _ _ _ _ _ _ _ _ _ Hone Honce) as Honce1.
    destruct o1; try (by injection Hrest as <- <- <-).
    eapply IH; eauto.
Qed.

Lemma pushed_app gid (trace1 trace2 : list Event) :
  pushed gid (trace1 ++ trace2) = pushed gid trace1 ++ pushed gid trace2.
Proof. unfold pushed. apply omap_app. Qed.

Lemma commit_pushes_trace gid0 pushes (e : Engine) :
  trace_ (commit_pushes gid0 pushes e)
  = trace_ e ++ map (λ push, ev_push gid0 (fn_ push.2)) pushes.
Proof.
  revert e. induction pushes as [|push pushes IH]; intros e.
  - simpl. by rewrite app_nil_r.
  - unfold commit_pushes in *. cbn [foldl]. rewrite IH. simpl.
    by rewrite <- app_assoc.
Qed.

Lemma pushed_commit gid gid0 (pushes : list (QueueId * NodeTask)) :
  pushed gid (map (λ push, ev_push gid0 (fn_ push.2)) pushes)
  = if decide (gid0 = gid) then pushed_nodes pushes else [].
Proof.
  induction pushes as [|push pushes IH]; [by destruct (decide _)|].
  simpl. unfold pushed in *. simpl. rewrite IH. unfold pushed_nodes.
  simpl. destruct (fn_ push.2); destruct (decide (gid0 = gid)); done.
Qed.

Lemma commit_pushes_graph_tasks gid0 pushes (e : Engine) :
  graph_tasks (commit_pushes gid0 pushes e) = graph_tasks e.
Proof. by apply commit_pushes_frame. Qed.

(** The routing of the outputs of a node keeps [enqueued_once]. *)
Lemma route_enqueued_once gid gid0 func outputs :
  preserves (inv_rel (enqueued_once gid))
            (route InputBuffer_device gid0 func outputs).
Proof.
  intros s s' o. unfold route.
  destruct (graph_tasks (engine s) !! gid0) as [g|] eqn:Hg;
    [|intros [= <- <-]; done].
  destruct (route_outputs _ _ _ _ _ _ _) as [[g' pushes] o'] eqn:Hroute.
  intros [= <- <-]. unfold inv_rel, enqueued_once. simpl.
  rewrite commit_pushes_trace, commit_pushes_graph_tasks. simpl.
  rewrite pushed_app, pushed_commit.
  destruct (decide (gid0 = gid)) as [->|Hne].
  - rewrite lookup_insert_eq, Hg. simpl. intros Honce.
    eapply (route_outputs_once _ _ _ _ _ _ _ [] _ _ _ Hroute).
    simpl. by rewrite app_nil_r.
  - rewrite lookup_insert_ne by done. by rewrite app_nil_r.
Qed.

Lemma evaluate_function_enqueued_once gid gid0 func inputs :
  preserves (inv_rel (enqueued_once gid))
    (evaluate_function can_checkpoint anomaly_enabled InputBuffer_device
                       gid0 func inputs).
Proof.
  apply (evaluate_function_view can_checkpoint anomaly_enabled
           InputBuffer_device gid dependencies_ (pushed gid)
           (λ ev, ∃ n, ev = ev_push gid (Some n))).
  - intros trace ev Hquiet. rewrite pushed_app. unfold pushed at 2. simpl.
    destruct ev as [g [n|]|g n]; simpl; rewrite ?app_nil_r; try done.
    destruct (decide (g = gid)) as [->|]; simpl; rewrite ?app_nil_r;
      [|done]. exfalso. apply Hquiet. eauto.
  - done.
  - done.
  - apply _.
  - intros s s' Hview Honce. unfold enqueued_once.
    unfold view in Hview. by injection Hview as -> ->.
  - intros (n & [=]).
  - intros outputs. apply route_enqueued_once.
Qed.

Lemma thread_main_task_enqueued_once gid reentrant task :
  preserves (inv_rel (enqueued_once gid))
    (thread_main_task can_checkpoint anomaly_enabled InputBuffer_device
                      reentrant task).
Proof.
  apply (thread_main_task_view can_checkpoint anomaly_enabled
           InputBuffer_device gid dependencies_ (pushed gid)
           (λ ev, ∃ n, ev = ev_push gid (Some n))).
  - intros trace ev Hquiet. rewrite pushed_app. unfold pushed at 2. simpl.
    destruct ev as [g [n|]|g n]; simpl; rewrite ?app_nil_r; try done.
    destruct (decide (g = gid)) as [->|]; simpl; rewrite ?app_nil_r;
      [|done]. exfalso. apply Hquiet. eauto.
  - done.
  - done.
  - done.
  - intros gid0 (n & [=]).
  - apply _.
  - intros s s' Hview Honce. unfold enqueued_once.
    unfold view in Hview. by injection Hview as -> ->.
  - intros gid0 func inputs. apply evaluate_function_enqueued_once.
Qed.

Lemma worker_steps_enqueued_once gid (s s' : State) :
  rtc (worker_step can_checkpoint anomaly_enabled InputBuffer_device) s s' →
  enqueued_once gid s → enqueued_once gid s'.
Proof.
  induction 1 as [|s1 s2 s3 Hstep _ IH]; [done|].
  destruct Hstep as (t & reentrant & task & o & Hstep).
  intros Honce. apply IH.
  apply (thread_main_task_enqueued_once gid) in Hstep. by apply Hstep.
Qed.

(** The push of the graph root for a graph task that has pushed nothing and
    has no count for the root. *)
Lemma push_graph_root_enqueued_once gid graph_root (s s1 : State) o :
  pushed gid (trace_ (engine s)) = [] →
  (∀ g, graph_tasks (engine s) !! gid = Some g →
     dependencies_ g !! graph_root = None) →
  push_graph_root num_devices gid graph_root s = (s1, o) →
  enqueued_once gid s1
  ∧ (o = Ret () → pushed gid (trace_ (engine s1)) = [graph_root]).
Proof.
  intros Hnone Hroot. unfold push_graph_root, call_once_start_device_threads,
    ReadyQueue_push. comp_unfold. simpl.
  set (e1 := if start_device_threads_flag_ (engine s) then engine s
             else with_start_device_threads_flag true
                    (start_device_threads num_devices (engine s))).
  assert (He1 : graph_tasks e1 = graph_tasks (engine s)
                ∧ trace_ e1 = trace_ (engine s)).
  { unfold e1. by destruct (start_device_threads_flag_ (engine s)). }
  destruct He1 as [Hgt Htr]. rewrite Hgt.
  assert (Hbase : ∀ s' : State,
            trace_ (engine s') = trace_ (engine s) →
            enqueued_once gid s').
  { intros s' Ht. unfold enqueued_once. rewrite Ht, Hnone. split.
    - constructor.
    - intros d n _ Hn. by apply elem_of_nil in Hn. }
  destruct (graph_tasks (engine s) !! gid) as [g|] eqn:Hg; cycle 1.
  { intros [= <- <-]. split; [by apply Hbase|done]. }
  destruct (ready_queue _ _ _) as [queue|e]; simpl; cycle 1.
  { intros [= <- <-]. split; [by apply Hbase|done]. }
  rewrite Hgt, Hg. simpl. rewrite Hgt, Hg. simpl.
  intros [= <- <-]. unfold enqueued_once. simpl. rewrite Htr.
  rewrite pushed_app, Hnone. unfold pushed. simpl.
  rewrite decide_True by done. simpl.
  rewrite lookup_insert_eq. simpl. split; [|done]. split.
  - apply NoDup_singleton.
  - intros d n [= <-] Hn. apply list_elem_of_singleton in Hn as ->. eauto.
Qed.

Lemma edges_into_root next_edges root rank (visited : list Node) :
  acyclic next_edges root rank →
  (∀ n, n ∈ visited → reachable next_edges root n) →
  edges_into next_edges root visited = 0%nat.
Proof.
  intros Hacyclic. induction visited as [|m visited IH]; intros Hreach;
    [done|].
  unfold edges_into in *. simpl. rewrite IH; cycle 1.
  { intros n Hn. apply Hreach. by right. }
  unfold edges_between.
  rewrite (proj2 (length_zero_iff_nil _)); [done|].
  destruct (filter (λ c, c = root) (successors next_edges m)) as [|c l]
    eqn:Hf; [done|]. exfalso.
  assert (Hc : c ∈ filter (λ c, c = root) (successors next_edges m))
    by (rewrite Hf; left).
  apply list_elem_of_filter in Hc as [-> Hc].
  eapply acyclic_root_not_successor; [exact Hacyclic| |exact Hc].
  apply Hreach. by left.
Qed.

(** C2, as amended: on an acyclic graph [compute_dependencies] returns with
    enough fuel, and the count of a node is the number of edges into it from
    the nodes reachable from the graph root (no entry when there is none, as
    for the root itself).  The routing of one output decrements the count of
    the successor by one and erases the entry when it reaches zero; it
    pushes at most one task, of that successor, and only when the count
    reaches zero; when the loop body returns, the task is pushed if and only
    if the count reaches zero and the successor has a buffer in
    [not_ready_], or [exec_info_] is empty, or the successor is marked
    [should_execute].  After the push of the graph root of a graph task that
    has no count for the root, whatever iterations of the worker loops follow,
    no node has been pushed twice for the graph task, and a pushed node has
    no entry in [dependencies_]. *)
Theorem dependencies_counted_and_enqueued_once :
  (∀ next_edges root rank,
     acyclic next_edges root rank →
     ∃ fuel0 visited,
       NoDup visited
       ∧ (∀ n, n ∈ visited ↔ reachable next_edges root n)
       ∧ ∀ (fuel : nat) (task : GraphTask),
           (fuel0 ≤ fuel)%nat → dependencies_ task = ∅ →
           ∃ dependencies,
             compute_dependencies next_edges fuel root task
             = Some (with_dependencies dependencies task)
             ∧ (∀ n, dependencies !! n
                     = if decide (edges_into next_edges n visited = 0%nat)
                       then None
                       else Some (Z.of_nat
                                    (edges_into next_edges n visited)))
             ∧ dependencies !! root = None)
  ∧ (∀ queues num_inputs gid output next next_fn (g : GraphTask)
       (pushes : list (QueueId * NodeTask)) g' pushes' o count,
       function next = Some next_fn →
       dependencies_ g !! next_fn = Some count →
       route_output InputBuffer_device queues num_inputs gid output next
                    (g, pushes) = ((g', pushes'), o) →
       dependencies_ g'
       = (if decide (count - 1 = 0) then delete next_fn (dependencies_ g)
          else <[next_fn := count - 1]> (dependencies_ g))
       ∧ (pushes' = pushes
          ∨ ∃ queue buffer,
              pushes' = pushes
                        ++ [(queue, mkNodeTask (Some gid) (Some next_fn)
                                               buffer false)])
       ∧ (pushes' ≠ pushes → count - 1 = 0)
       ∧ (o = Ret () →
          (pushes' ≠ pushes
           ↔ count - 1 = 0
             ∧ (is_Some (not_ready_ g !! next_fn)
                ∨ exec_info_ g = ∅
                ∨ lookup_should_execute (exec_info_ g) (Some next_fn)
                  = true))))
  ∧ (∀ gid graph_root (s s1 s' : State) o,
       pushed gid (trace_ (engine s)) = [] →
       (∀ g, graph_tasks (engine s) !! gid = Some g →
          dependencies_ g !! graph_root = None) →
       push_graph_root num_devices gid graph_root s = (s1, o) →
       rtc (worker_step can_checkpoint anomaly_enabled InputBuffer_device)
           s1 s' →
       NoDup (pushed gid (trace_ (engine s')))
       ∧ ∀ g n, graph_tasks (engine s') !! gid = Some g →
                n ∈ pushed gid (trace_ (engine s')) →
                dependencies_ g !! n = None).
Proof.
  split; [|split].
  - intros next_edges root rank Hacyclic.
    destruct (compute_dependencies_counts next_edges root rank Hacyclic)
      as (fuel0 & visited & Hnd & Hvisited & Hcount).
    exists fuel0, visited. split; [done|]. split; [done|].
    intros fuel task Hfuel Hempty.
    destruct (Hcount L fuel task Hfuel Hempty) as (deps & Hrun & Hdeps).
    exists deps. split; [done|]. split; [done|].
    rewrite Hdeps, (edges_into_root next_edges root rank); [done..|].
    intros n. apply Hvisited.
  - intros queues num_inputs gid output next next_fn g pushes g' pushes' o
      count Hfn Hcount Hroute.
    apply route_output_cases in Hroute. rewrite Hfn, Hcount in Hroute.
    destruct Hroute as (Hdeps & _ & Hpushes & Hiff).
    assert (Hne : ∀ (x : QueueId * NodeTask), pushes ++ [x] ≠ pushes).
    { intros x Heq. apply (f_equal length) in Heq.
      rewrite length_app in Heq. simpl in Heq. lia. }
    split; [done|]. split.
    { destruct Hpushes as [?|(queue & buffer & ? & _)]; eauto. }
    split.
    { destruct Hpushes as [?|(queue & buffer & ? & ?)]; done. }
    intros Hret. split.
    + intros Hpushed.
      destruct Hpushes as [?|(queue & buffer & _ & Hzero)]; [done|].
      split; [done|]. by apply (Hiff Hzero Hret).
    + intros [Hzero Hcond]. by apply (Hiff Hzero Hret).
  - intros gid graph_root s s1 s' o Hnone Hroot Hpush Hsteps.
    apply (push_graph_root_enqueued_once _ _ _ _ _ Hnone Hroot) in Hpush
      as [Honce _].
    apply (worker_steps_enqueued_once gid _ _ Hsteps) in Honce.
    destruct Honce as [Hnd Hdeps]. split; [done|].
    intros g n Hg Hn. eapply Hdeps; [|done]. by rewrite Hg.
Qed.

End EnqueueOnce.

(** With the output (C, 0) requested on A → B → {C, D}, the second output of
    B takes the count of D to zero and erases the entry, and no task is
    pushed for D: D is not marked [should_execute]. *)
Lemma enqueued_exactly_when_zero_fails :
  ¬ enqueued_exactly_when_zero Simple.buffer_device.
Proof.
  intros Hclaim.
  specialize (Hclaim [] (λ _, 1%nat) 0%nat (Simple.scalar 30)
                (Simple.edge_to Simple.D) Simple.D
                SimpleMasked.after_C.1 SimpleMasked.after_C.2
                (route_output Simple.buffer_device [] (λ _, 1%nat) 0%nat
                   (Simple.scalar 30) (Simple.edge_to Simple.D)
                   SimpleMasked.after_C).1.1
                SimpleMasked.after_C.2 1 eq_refl).
  assert (Hcount : dependencies_ SimpleMasked.after_C.1 !! Simple.D = Some 1)
    by (vm_compute; reflexivity).
  assert (Hrun : route_output Simple.buffer_device [] (λ _, 1%nat) 0%nat
                   (Simple.scalar 30) (Simple.edge_to Simple.D)
                   (SimpleMasked.after_C.1, SimpleMasked.after_C.2)
                 = ((route_output Simple.buffer_device [] (λ _, 1%nat) 0%nat
                       (Simple.scalar 30) (Simple.edge_to Simple.D)
                       SimpleMasked.after_C).1.1,
                    SimpleMasked.after_C.2, Ret ()))
    by (vm_compute; reflexivity).
  destruct (Hclaim Hcount Hrun) as [_ Hpush].
  by apply Hpush.
Qed.

Lemma SimpleGraph_acyclic :
  acyclic SimpleGraph.next_edges 0%nat SimpleGraph.rank.
Proof.
  intros n c _. unfold successors.
  destruct n as [|[|[|n]]]; vm_compute; intros Hc.
  - apply list_elem_of_singleton in Hc as ->. lia.
  - apply list_elem_of_singleton in Hc as ->. lia.
  - apply elem_of_cons in Hc as [->|Hc]; [lia|].
    apply list_elem_of_singleton in Hc as ->. lia.
  - by apply elem_of_nil in Hc.
Qed.

(** The graph A → B → {C, D} under its root is acyclic, and every node but
    the root has one incoming edge. *)
Lemma dependencies_counted_and_enqueued_once_witness :
  acyclic SimpleGraph.next_edges 0%nat SimpleGraph.rank
  ∧ (∃ fuel0 visited,
       NoDup visited
       ∧ (∀ n, n ∈ visited ↔ reachable SimpleGraph.next_edges 0%nat n)
       ∧ ∀ (fuel : nat) (task : GraphTask (L := Simple.tensors)),
           (fuel0 ≤ fuel)%nat → dependencies_ task = ∅ →
           ∃ dependencies,
             compute_dependencies SimpleGraph.next_edges fuel 0%nat task
             = Some (with_dependencies dependencies task)
             ∧ (∀ n, dependencies !! n
                     = if decide (edges_into SimpleGraph.next_edges n visited
                                  = 0%nat)
                       then None
                       else Some (Z.of_nat
                                    (edges_into SimpleGraph.next_edges n
                                                visited)))
             ∧ dependencies !! 0%nat = None)
  ∧ (map_to_list ∘ dependencies_)
      <$> compute_dependencies SimpleGraph.next_edges 20 0%nat
            (GraphTask_new (L := Simple.tensors) false false 0 None)
    = Some [(Simple.D, 1); (Simple.B, 1); (Simple.C, 1); (Simple.A, 1)].
Proof.
  split; [exact SimpleGraph_acyclic|]. split.
  - destruct (dependencies_counted_and_enqueued_once
                (L := Simple.tensors) Simple.exec_info_empty false
                Simple.buffer_device 0) as [Hcount _].
    exact (Hcount SimpleGraph.next_edges 0%nat SimpleGraph.rank
             SimpleGraph_acyclic).
  - vm_compute. reflexivity.
Defined.

(** End to end, with the output (C, 0) requested: the count of D reaches
    zero when the outputs of B are routed, and D is never pushed. *)
Example execute_does_not_enqueue_masked :
  let r := Simple.run_execute Simple.chain_fork 20 [Simple.edge_to Simple.A]
             [Simple.scalar 5] [Simple.edge_to Simple.C] in
  r.2 = Ret [Simple.scalar 30]
  ∧ pushed 0%nat (trace_ (engine r.1))
    = [0%nat; Simple.A; Simple.B; Simple.C]
  ∧ applied 0%nat (trace_ (engine r.1)) = [0%nat; Simple.A; Simple.B].
Proof. vm_compute. repeat split; reflexivity. Qed.

(** ** The needed flags and the nodes that are skipped *)

Section NeededFacts.
Variable next_edges : Node → edge_list.

Local Abbreviation successors_of := (successors next_edges).
Local Abbreviation below := (rtc (λ n c : Node, c ∈ successors_of n)).
Local Abbreviation computed := (flag_computed next_edges).

(** The flags of a node and of every node below it are computed. *)
Definition finished (exec_info : gmap NodePtr ExecInfo) (n : Node) : Prop :=
  ∀ m, below n m → computed exec_info m.

Lemma finished_successor (exec_info : gmap NodePtr ExecInfo) (n c : Node) :
  finished exec_info n → c ∈ successors_of n → finished exec_info c.
Proof. intros Hn Hc m Hm. apply Hn. by eapply rtc_l. Qed.

Lemma lookup_assign_needed_ne (fn : Node) (needed : bool)
    (exec_info : gmap NodePtr ExecInfo) (ptr : NodePtr) :
  ptr ≠ Some fn →
  assign_needed (Some fn) needed exec_info !! ptr = exec_info !! ptr.
Proof. intros Hne. unfold assign_needed. by rewrite lookup_insert_ne. Qed.

Lemma any_should_execute_assign (fn : Node) (needed : bool)
    (exec_info : gmap NodePtr ExecInfo) (m : Node) :
  fn ∉ successors_of m →
  any_should_execute (assign_needed (Some fn) needed exec_info) (next_edges m)
  = any_should_execute exec_info (next_edges m).
Proof.
  intros Hfn. unfold any_should_execute, successors in *.
  induction (next_edges m) as [|edge edges IH]; [done|].
  simpl in *. destruct (function edge) as [c|] eqn:Hc.
  - rewrite IH by (intros H; apply Hfn; by right). f_equal.
    unfold lookup_should_execute.
    rewrite lookup_assign_needed_ne; [done|].
    intros [= ->]. apply Hfn. left.
  - rewrite IH by done. f_equal. unfold lookup_should_execute.
    by rewrite lookup_assign_needed_ne.
Qed.

Lemma assign_needed_id (fn : Node) (exec_info : gmap NodePtr ExecInfo)
    (info : ExecInfo) :
  exec_info !! Some fn = Some info →
  assign_needed (Some fn) (needed_ info) exec_info = exec_info.
Proof.
  intros Hinfo. unfold assign_needed. rewrite Hinfo.
  apply insert_id. rewrite Hinfo. by destruct info.
Qed.

Lemma captures_at_assign_needed (fn : Node) (needed : bool)
    (exec_info : gmap NodePtr ExecInfo) (ptr : NodePtr) :
  captures_at (assign_needed (Some fn) needed exec_info) ptr
  = captures_at exec_info ptr.
Proof.
  unfold captures_at, assign_needed.
  destruct (decide (ptr = Some fn)) as [->|Hne].
  - rewrite lookup_insert_eq. simpl. by destruct (exec_info !! Some fn).
  - by rewrite lookup_insert_ne.
Qed.

(** The assignment at the end of a frame, when the nodes below are
    finished. *)
Lemma finished_assign (exec_info : gmap NodePtr ExecInfo) (fn : Node) :
  (∀ c, c ∈ successors_of fn → finished exec_info c) →
  let exec_info' :=
    assign_needed (Some fn)
      (any_should_execute exec_info (next_edges fn)) exec_info in
  finished exec_info' fn ∧ ∀ n, finished exec_info n → finished exec_info' n.
Proof.
  intros Hsucc exec_info'.
  assert (Hcases : computed exec_info fn ∨ ¬ computed exec_info fn).
  { unfold flag_computed.
    destruct (exec_info !! Some fn) as [info|]; [|right; naive_solver].
    destruct (decide (needed_ info
                      = any_should_execute exec_info (next_edges fn)));
      [left; eauto|right; naive_solver]. }
  assert (Hbelow : ∀ m, below fn m → m ≠ fn →
            ∃ c, c ∈ successors_of fn ∧ below c m).
  { intros m Hm Hne. destruct Hm as [|n c m Hc Hm]; [done|]. eauto. }
  destruct Hcases as [Hok|Hnot].
  - assert (exec_info' = exec_info) as ->.
    { destruct Hok as (info & Hinfo & Hneeded). subst exec_info'.
      rewrite <- Hneeded. by apply assign_needed_id. }
    split; [|done]. intros m Hm.
    destruct (decide (m = fn)) as [->|Hne]; [done|].
    destruct (Hbelow m Hm Hne) as (c & Hc & Hcm). by apply (Hsucc c).
  - assert (Hkeep : ∀ n, finished exec_info n → finished exec_info' n).
    { intros n Hn m Hm. pose proof (Hn m Hm) as (info & Hinfo & Hneeded).
      assert (m ≠ fn) by (intros ->; apply Hnot; by apply Hn).
      assert (fn ∉ successors_of m).
      { intros Hfn. apply Hnot. apply Hn. by eapply rtc_r. }
      exists info. subst exec_info'.
      rewrite lookup_assign_needed_ne by congruence.
      by rewrite any_should_execute_assign. }
    split; [|done]. intros m Hm.
    destruct (decide (m = fn)) as [->|Hne].
    + assert (fn ∉ successors_of fn).
      { intros Hfn. apply Hnot. by apply (Hsucc fn). }
      eexists. subst exec_info'. unfold assign_needed at 1.
      rewrite lookup_insert_eq. split; [done|]. simpl.
      by rewrite any_should_execute_assign.
    + destruct (Hbelow m Hm Hne) as (c & Hc & Hcm).
      by apply (Hkeep c); [apply Hsucc|].
Qed.

(** *** The frames of [init_to_execute] *)

Lemma get_next_fn_end (fn : Node) (idx : nat) :
  (length (next_edges fn) ≤ idx)%nat → get_next_fn next_edges fn idx = (None, idx).
Proof. intros Hidx. unfold get_next_fn. by rewrite drop_ge. Qed.

Lemma get_next_fn_null (fn : Node) (idx : nat) (edge : Edge) :
  next_edges fn !! idx = Some edge → function edge = None →
  get_next_fn next_edges fn idx = get_next_fn next_edges fn (S idx).
Proof.
  intros Hedge Hnull. unfold get_next_fn.
  rewrite (drop_S _ _ _ Hedge). simpl. by rewrite Hnull.
Qed.

Lemma get_next_fn_valid (fn : Node) (idx : nat) (edge : Edge) (c : Node) :
  next_edges fn !! idx = Some edge → function edge = Some c →
  get_next_fn next_edges fn idx = (Some c, S idx).
Proof.
  intros Hedge Hc. unfold get_next_fn.
  rewrite (drop_S _ _ _ Hedge). simpl. by rewrite Hc.
Qed.

Lemma successors_lookup (fn : Node) (idx : nat) (edge : Edge) (c : Node) :
  next_edges fn !! idx = Some edge → function edge = Some c →
  c ∈ successors_of fn.
Proof.
  intros Hedge Hc. unfold successors. apply list_elem_of_omap.
  exists edge. split; [|done]. by eapply list_elem_of_lookup_2.
Qed.

Lemma omap_take_S (fn : Node) (idx : nat) (edge : Edge) :
  next_edges fn !! idx = Some edge →
  omap function (take (S idx) (next_edges fn))
  = omap function (take idx (next_edges fn)) ++ option_list (function edge).
Proof.
  intros Hedge. rewrite (take_S_r _ _ _ Hedge), omap_app. simpl.
  by destruct (function edge).
Qed.

Variable root : Node.
Variable rank : Node → nat.
Hypothesis Hacyclic : acyclic next_edges root rank.

(** What the loop does to [seen] and [exec_info_] while it runs the frame of
    [fn] and the frames above it. *)
Definition frame_post (fn : Node) (seen : gset Node)
    (exec_info : gmap NodePtr ExecInfo) (seen' : gset Node)
    (exec_info' : gmap NodePtr ExecInfo) : Prop :=
  seen ⊆ seen'
  ∧ (∀ n, n ∈ seen' → n ∈ seen ∨ finished exec_info' n)
  ∧ (∀ n, finished exec_info n → finished exec_info' n)
  ∧ (∀ ptr, captures_at exec_info' ptr = captures_at exec_info ptr)
  ∧ (∀ ptr, exec_info' !! ptr = exec_info !! ptr
            ∨ ∃ x, ptr = Some x ∧ below fn x).

Lemma frame_post_trans fn c seen seen0 exec_info seen1 exec_info1 seen2
    exec_info2 :
  below fn c → seen ⊆ seen0 → (∀ n, n ∈ seen0 → n ∈ seen ∨ n = c) →
  frame_post c seen0 exec_info seen1 exec_info1 →
  finished exec_info1 c →
  frame_post fn seen1 exec_info1 seen2 exec_info2 →
  frame_post fn seen exec_info seen2 exec_info2.
Proof.
  intros Hc Hsub0 Hnew0 (Hsub1 & Hnew1 & Hkeep1 & Hcap1 & Hch1) Hfin
    (Hsub2 & Hnew2 & Hkeep2 & Hcap2 & Hch2).
  split; [set_solver|]. split.
  { intros n Hn. destruct (Hnew2 n Hn) as [Hn1|]; [|by right].
    destruct (Hnew1 n Hn1) as [Hn0|]; [|right; by apply Hkeep2].
    destruct (Hnew0 n Hn0) as [?| ->]; [by left|right; by apply Hkeep2]. }
  split; [intros n Hn; by apply Hkeep2, Hkeep1|].
  split; [intros ptr; by rewrite Hcap2, Hcap1|].
  intros ptr. destruct (Hch2 ptr) as [->|]; [|by right].
  destruct (Hch1 ptr) as [->|(x & -> & Hx)]; [by left|].
  right. exists x. split; [done|]. by etrans.
Qed.

Local Abbreviation loop := (init_to_execute_loop next_edges).

Lemma loop_null (fn : Node) (idx : nat) (edge : Edge) rest seen exec_info :
  next_edges fn !! idx = Some edge → function edge = None →
  ∀ fuel, loop fuel (mkFrame (Some fn) idx :: rest) seen exec_info
          = loop fuel (mkFrame (Some fn) (S idx) :: rest) seen exec_info.
Proof.
  intros Hedge Hnull [|fuel]; [done|]. simpl.
  by rewrite (get_next_fn_null fn idx edge).
Qed.

(** The loop runs the frame of a node to its end: it leaves the stack below
    the frame as it was, and the node finished. *)
Lemma frame_runs (r : nat) :
  ∀ fn, (rank fn < r)%nat → reachable next_edges root fn →
  ∀ (j idx : nat) seen exec_info rest,
    (length (next_edges fn) - idx = j)%nat →
    (∀ n, n ∈ seen → (rank n < rank fn)%nat → finished exec_info n) →
    (∀ c, c ∈ omap function (take idx (next_edges fn)) →
          finished exec_info c) →
    ∃ (k : nat) seen' exec_info',
      (∀ fuel, loop (k + fuel) (mkFrame (Some fn) idx :: rest) seen exec_info
               = loop fuel rest seen' exec_info')
      ∧ frame_post fn seen exec_info seen' exec_info'
      ∧ finished exec_info' fn.
Proof.
  induction r as [|r IHr]; intros fn Hrank Hfn; [lia|].
  induction j as [|j IHj]; intros idx seen exec_info rest Hj Hseen Htaken.
  - exists 1%nat, seen,
      (assign_needed (Some fn)
         (any_should_execute exec_info (next_edges fn)) exec_info).
    rewrite take_ge in Htaken by lia.
    destruct (finished_assign exec_info fn Htaken) as [Hfinished Hkeep].
    split; [|split; [|done]].
    + intros fuel. simpl. by rewrite get_next_fn_end by lia.
    + split; [done|]. split; [by left|]. split; [done|].
      split; [apply captures_at_assign_needed|].
      intros ptr. destruct (decide (ptr = Some fn)) as [->|Hne].
      * right. by exists fn.
      * left. by apply lookup_assign_needed_ne.
  - destruct (next_edges fn !! idx) as [edge|] eqn:Hedge;
      [|apply lookup_ge_None in Hedge; lia].
    pose proof (omap_take_S fn idx edge Hedge) as Htake.
    destruct (function edge) as [c|] eqn:Hc; cycle 1.
    { destruct (IHj (S idx) seen exec_info rest) as (k & seen' & e' & Hrun & H);
        [lia|done| |].
      { rewrite Htake. simpl. by rewrite app_nil_r. }
      exists k, seen', e'. split; [|done]. intros fuel.
      by rewrite (loop_null fn idx edge). }
    assert (Hsucc : c ∈ successors_of fn) by by eapply successors_lookup.
    assert (Hlt : (rank c < rank fn)%nat) by by apply Hacyclic.
    assert (Htaken' : ∀ exec_info', 
              (∀ n, finished exec_info n → finished exec_info' n) →
              finished exec_info' c →
              ∀ c', c' ∈ omap function (take (S idx) (next_edges fn)) →
                    finished exec_info' c').
    { intros e' Hkeep Hfin c'. rewrite Htake. simpl.
      rewrite elem_of_app, list_elem_of_singleton. intros [Hc'| ->]; auto. }
    destruct (decide (c ∈ seen)) as [Hin|Hout].
    + destruct (IHj (S idx) seen exec_info rest) as (k & seen' & e' & Hrun & H);
        [lia|done|by apply Htaken'; auto|].
      exists (S k), seen', e'. split; [|done]. intros fuel. simpl.
      rewrite (get_next_fn_valid fn idx edge c) by done.
      rewrite decide_True by done. apply Hrun.
    + destruct (IHr c) with (j := length (next_edges c)) (idx := 0%nat)
          (seen := {[c]} ∪ seen) (exec_info := exec_info)
          (rest := mkFrame (Some fn) (S idx) :: rest)
        as (k1 & seen1 & e1 & Hrun1 & Hpost1 & Hfin1);
        [lia|by eapply rtc_r|lia| |by intros c' ?%elem_of_nil|].
      { intros n [->%elem_of_singleton|Hn]%elem_of_union Hn'; [lia|].
        apply Hseen; [done|lia]. }
      destruct (IHj (S idx) seen1 e1 rest)
        as (k2 & seen2 & e2 & Hrun2 & Hpost2 & Hfin2); [lia| | |].
      { intros n Hn Hn'. destruct Hpost1 as (_ & Hnew1 & Hkeep1 & _).
        destruct (Hnew1 n Hn) as [[->%elem_of_singleton|Hn0]%elem_of_union|];
          [done| |done].
        by apply Hkeep1, Hseen. }
      { apply Htaken'; [|done]. by destruct Hpost1 as (_ & _ & Hkeep1 & _). }
      exists (S (k1 + k2)), seen2, e2. split; [|split; [|done]].
      * intros fuel. simpl.
        rewrite (get_next_fn_valid fn idx edge c) by done.
        rewrite decide_False by done.
        replace (k1 + k2 + fuel)%nat with (k1 + (k2 + fuel))%nat by lia.
        rewrite Hrun1. apply Hrun2.
      * apply (frame_post_trans fn c seen ({[c]} ∪ seen) exec_info seen1 e1);
          [by apply rtc_once|set_solver|set_solver|done..].
Qed.

Lemma acyclic_rank_below (n m : Node) :
  reachable next_edges root n → below n m → (rank m ≤ rank n)%nat.
Proof.
  intros Hn Hm. induction Hm as [|n c m Hc Hm IH]; [done|].
  pose proof (Hacyclic n c Hn Hc).
  assert (reachable next_edges root c) by by eapply rtc_r.
  specialize (IH ltac:(done)). lia.
Qed.

(** The loop over the edges of the graph root. *)
Lemma roots_run (inputs : edge_list) :
  Forall (λ edge, ∃ c, function edge = Some c ∧ c ∈ successors_of root) inputs →
  ∀ seen exec_info,
    (∀ n, n ∈ seen → finished exec_info n) →
    ∃ (k : nat) exec_info',
      (∀ fuel, (k ≤ fuel)%nat →
         init_to_execute_roots next_edges fuel inputs seen exec_info
         = Ret exec_info')
      ∧ (∀ c, c ∈ omap function inputs → finished exec_info' c)
      ∧ (∀ n, finished exec_info n → finished exec_info' n)
      ∧ (∀ ptr, captures_at exec_info' ptr = captures_at exec_info ptr)
      ∧ (∀ ptr, exec_info' !! ptr = exec_info !! ptr
                ∨ ∃ c x, c ∈ successors_of root ∧ ptr = Some x ∧ below c x).
Proof.
  induction 1 as [|edge inputs (c & Hc & Hsucc) _ IH]; intros seen e Hseen.
  { exists 0%nat, e. split; [done|]. split; [by intros c ?%elem_of_nil|].
    repeat split; eauto. }
  assert (Hmember : ∀ e', finished e' c →
            (∀ c', c' ∈ omap function inputs → finished e' c') →
            ∀ c', c' ∈ omap function (edge :: inputs) → finished e' c').
  { intros e' Hfin Hrest c'. simpl. rewrite Hc.
    intros [->|?]%elem_of_cons; auto. }
  destruct (decide (c ∈ seen)) as [Hin|Hout].
  - destruct (IH seen e Hseen) as (k & e' & Hrun & Hfin & Hkeep & Hcap & Hch).
    exists k, e'. split; [|split; [|done]].
    + intros fuel Hfuel. simpl. rewrite Hc. simpl.
      rewrite bool_decide_eq_true_2 by done. by apply Hrun.
    + apply Hmember; [|done]. by apply Hkeep, Hseen.
  - destruct (frame_runs (S (rank c)) c) with (j := length (next_edges c))
        (idx := 0%nat) (seen := seen) (exec_info := e) (rest := @nil Frame)
      as (k1 & seen1 & e1 & Hrun1 & Hpost1 & Hfin1);
      [lia|by apply rtc_once|lia|by auto|by intros c' ?%elem_of_nil|].
    destruct Hpost1 as (Hsub1 & Hnew1 & Hkeep1 & Hcap1 & Hch1).
    destruct (IH seen1 e1) as (k2 & e2 & Hrun2 & Hfin2 & Hkeep2 & Hcap2 & Hch2).
    { intros n Hn. destruct (Hnew1 n Hn); auto. }
    exists (k1 `max` k2)%nat, e2. split; [|split; [|split; [|split]]].
    + intros fuel Hfuel. simpl. rewrite Hc. simpl.
      rewrite bool_decide_eq_false_2 by done.
      replace fuel with (k1 + (fuel - k1))%nat at 1 by lia.
      rewrite Hrun1. destruct (fuel - k1)%nat; simpl; apply Hrun2; lia.
    + apply Hmember; [|done]. by apply Hkeep2.
    + intros n Hn. by apply Hkeep2, Hkeep1.
    + intros ptr. by rewrite Hcap2, Hcap1.
    + intros ptr. destruct (Hch2 ptr) as [->|]; [|by right].
      destruct (Hch1 ptr) as [->|(x & -> & Hx)]; [by left|].
      right. by exists c, x.
Qed.

(** *** The captures of the requested outputs *)

Lemma init_captures_idx (outputs : edge_list) :
  ∀ idx exec_info,
    (init_captures outputs idx exec_info).2 = (idx + length outputs)%nat.
Proof.
  induction outputs as [|edge outputs IH]; intros idx e; simpl; [lia|].
  rewrite IH. lia.
Qed.

Lemma init_captures_needed (outputs : edge_list) :
  ∀ idx (exec_info : gmap NodePtr ExecInfo) ptr info,
    exec_info !! ptr = Some info →
    ∃ info', (init_captures outputs idx exec_info).1 !! ptr = Some info'
             ∧ needed_ info' = needed_ info.
Proof.
  induction outputs as [|edge outputs IH]; intros idx e ptr info Hinfo;
    simpl; [eauto|].
  destruct (decide (ptr = function edge)) as [->|Hne].
  - edestruct IH as (info' & Hinfo' & Hneeded);
      [apply lookup_insert_eq|].
    exists info'. split; [done|]. rewrite Hneeded, Hinfo. done.
  - apply IH. by rewrite lookup_insert_ne.
Qed.

Lemma init_captures_captures (outputs : edge_list) :
  ∀ idx exec_info ptr,
    captures_at (init_captures outputs idx exec_info).1 ptr
    = extend_captures (captures_at exec_info ptr)
                      (requested_captures outputs idx ptr).
Proof.
  induction outputs as [|edge outputs IH]; intros idx e ptr; simpl; [done|].
  rewrite IH. unfold captures_at at 1.
  destruct (decide (function edge = ptr)) as [<-|Hne].
  - rewrite lookup_insert_eq. simpl.
    assert (default [] (captures_ (default ExecInfo_default
                                           (e !! function edge)))
            = default [] (captures_at e (function edge))) as ->.
    { unfold captures_at. by destruct (e !! function edge). }
    unfold extend_captures.
    destruct (requested_captures outputs (S idx) (function edge));
      [done|]. simpl. by rewrite <- app_assoc.
  - by rewrite lookup_insert_ne.
Qed.

Lemma init_captures_not_needed (outputs : edge_list) :
  ∀ idx (exec_info : gmap NodePtr ExecInfo) ptr,
    needed_ <$> (init_captures outputs idx exec_info).1 !! ptr = Some true →
    needed_ <$> exec_info !! ptr = Some true.
Proof.
  induction outputs as [|edge outputs IH]; intros idx e ptr; simpl; [done|].
  intros Hneeded. apply IH in Hneeded.
  destruct (decide (function edge = ptr)) as [<-|Hne].
  - rewrite lookup_insert_eq in Hneeded. simpl in Hneeded.
    by destruct (e !! function edge).
  - by rewrite lookup_insert_ne in Hneeded.
Qed.

Lemma requested_captures_elem (outputs : edge_list) :
  ∀ idx ptr capture,
    capture ∈ requested_captures outputs idx ptr
    ↔ ∃ (i : nat) edge, outputs !! i = Some edge ∧ function edge = ptr
                        ∧ capture = mkCapture (input_nr edge) (idx + i).
Proof.
  induction outputs as [|edge outputs IH]; intros idx ptr capture; simpl.
  { rewrite elem_of_nil. naive_solver. }
  rewrite elem_of_app, IH. split.
  - intros [Hhead|(i & edge' & Hedge' & Hptr & ->)].
    + destruct (decide (function edge = ptr)) as [Heq|];
        [|by apply elem_of_nil in Hhead].
      apply list_elem_of_singleton in Hhead as ->.
      exists 0%nat, edge. by rewrite Nat.add_0_r.
    + exists (S i), edge'. split; [done|]. split; [done|]. f_equal. lia.
  - intros ([|i] & edge' & Hedge' & Hptr & ->); simpl in Hedge'.
    + injection Hedge' as ->. left. rewrite decide_True by done.
      rewrite Nat.add_0_r. left.
    + right. exists i, edge'. split; [done|]. split; [done|]. f_equal. lia.
Qed.

Lemma requested_captures_NoDup (outputs : edge_list) :
  ∀ idx ptr, NoDup (output_idx_ <$> requested_captures outputs idx ptr).
Proof.
  induction outputs as [|edge outputs IH]; intros idx ptr; simpl;
    [constructor|].
  destruct (decide (function edge = ptr)); simpl; [|apply IH].
  constructor; [|apply IH]. intros Hin.
  apply list_elem_of_fmap in Hin as (capture & Hidx & Hin).
  apply requested_captures_elem in Hin as (i & edge' & _ & _ & ->).
  simpl in Hidx. lia.
Qed.

Lemma requested_captures_range (outputs : edge_list) (ptr : NodePtr) :
  Forall (λ c, (output_idx_ c < length outputs)%nat)
         (requested_captures outputs 0 ptr).
Proof.
  apply Forall_forall. intros capture Hin.
  apply requested_captures_elem in Hin as (i & edge & Hedge & _ & ->).
  simpl. by apply lookup_lt_Some in Hedge.
Qed.

Lemma captured_requested (exec_info : gmap NodePtr ExecInfo)
    (outputs : edge_list) (ptr : NodePtr) :
  captures_at exec_info ptr
  = extend_captures None (requested_captures outputs 0 ptr) →
  captured exec_info ptr = true ↔ ptr ∈ function <$> outputs.
Proof.
  unfold captured. intros ->. unfold extend_captures.
  destruct (requested_captures outputs 0 ptr) as [|capture vec] eqn:Hreq.
  - split; [done|]. intros (edge & -> & Hedge)%list_elem_of_fmap.
    apply list_elem_of_lookup in Hedge as (i & Hedge).
    assert (Hin : mkCapture (input_nr edge) (0 + i)
                  ∈ requested_captures outputs 0 (function edge)).
    { apply requested_captures_elem. eauto. }
    rewrite Hreq in Hin. by apply elem_of_nil in Hin.
  - split; [intros _|done].
    assert (Hin : capture ∈ requested_captures outputs 0 ptr)
      by (rewrite Hreq; left).
    apply requested_captures_elem in Hin as (i & edge & Hedge & <- & _).
    apply list_elem_of_fmap. exists edge. split; [done|].
    by eapply list_elem_of_lookup_2.
Qed.

(** *** [init_to_execute] *)

Lemma init_to_execute_returns {L : TensorLib} (outputs : edge_list)
    (task : GraphTask) :
  Forall (λ edge, is_valid edge = true) (next_edges root) →
  ∃ fuel0 exec_info,
    (∀ fuel, (fuel0 ≤ fuel)%nat →
       init_to_execute next_edges fuel root outputs task
       = Ret (with_exec_info exec_info
                (with_captured_vars
                   (resize (length outputs) (captured_vars_ task)) task)))
    ∧ needed_ <$> exec_info !! Some root = Some true
    ∧ (∀ n, tc (λ n c, c ∈ successors_of n) root n → computed exec_info n)
    ∧ (∀ ptr, captures_at exec_info ptr
              = extend_captures (captures_at (exec_info_ task) ptr)
                                (requested_captures outputs 0 ptr))
    ∧ (needed_ <$> exec_info_ task !! None ≠ Some true →
       needed_ <$> exec_info !! None ≠ Some true).
Proof.
  intros Hvalid. unfold init_to_execute.
  set (e0 := assign_needed (Some root) true (exec_info_ task)).
  destruct (init_captures outputs 0 e0) as [e1 output_idx] eqn:Hcaptures.
  assert (Hidx : output_idx = length outputs).
  { pose proof (init_captures_idx outputs 0 e0) as H.
    by rewrite Hcaptures in H. }
  assert (He1 : e1 = (init_captures outputs 0 e0).1) by by rewrite Hcaptures.
  destruct (roots_run (next_edges root)) with (seen := (∅ : gset Node))
      (exec_info := e1) as (k & e' & Hrun & Hfin & _ & Hcap & Hch).
  { apply Forall_forall. intros edge Hedge.
    rewrite Forall_forall in Hvalid. specialize (Hvalid edge Hedge).
    unfold is_valid in Hvalid. destruct (function edge) as [c|] eqn:Hc; [|done].
    exists c. split; [done|]. unfold successors.
    apply list_elem_of_omap. eauto. }
  { intros n Hn. set_solver. }
  exists k, e'. split; [|split; [|split; [|split]]].
  - intros fuel Hfuel. rewrite (Hrun fuel Hfuel). by rewrite Hidx.
  - destruct (Hch (Some root)) as [->|(c & x & Hc & [= <-] & Hx)].
    + destruct (init_captures_needed outputs 0 e0 (Some root)
                  (set_needed true
                     (default ExecInfo_default (exec_info_ task !! Some root))))
        as (info' & Hinfo' & Hneeded).
      { subst e0. unfold assign_needed. apply lookup_insert_eq. }
      rewrite He1, Hinfo'. simpl. by rewrite Hneeded.
    + exfalso.
      pose proof (Hacyclic root c (rtc_refl _ _) Hc).
      assert (reachable next_edges root c) by by apply rtc_once.
      pose proof (acyclic_rank_below c root ltac:(done) Hx). lia.
  - intros n Hn. destruct Hn as [root c Hc|root c n Hc Hn].
    + apply (Hfin c); [|done]. unfold successors in Hc. done.
    + apply (Hfin c); [done|]. by apply tc_rtc.
  - intros ptr. rewrite Hcap, He1, init_captures_captures. subst e0.
    by rewrite captures_at_assign_needed.
  - intros Hnull Hneeded. apply Hnull.
    destruct (Hch None) as [Heq|(c & x & _ & [=] & _)].
    rewrite Heq, He1 in Hneeded. apply init_captures_not_needed in Hneeded.
    subst e0. by rewrite lookup_assign_needed_ne in Hneeded.
Qed.

(** *** What the flags mean *)

Lemma lookup_should_execute_true (exec_info : gmap NodePtr ExecInfo)
    (ptr : NodePtr) :
  lookup_should_execute exec_info ptr = true
  ↔ needed_ <$> exec_info !! ptr = Some true ∨ captured exec_info ptr = true.
Proof.
  unfold lookup_should_execute, captured, captures_at, should_execute.
  destruct (exec_info !! ptr) as [[needed captures]|]; simpl; [|naive_solver].
  destruct needed; simpl; [naive_solver|].
  destruct captures as [[|capture vec]|]; naive_solver.
Qed.

Lemma any_should_execute_true (exec_info : gmap NodePtr ExecInfo)
    (edges : edge_list) :
  any_should_execute exec_info edges = true
  ↔ ∃ edge, edge ∈ edges
            ∧ lookup_should_execute exec_info (function edge) = true.
Proof.
  unfold any_should_execute. rewrite existsb_exists.
  by setoid_rewrite list_elem_of_In.
Qed.

Lemma needed_leads_to_capture (exec_info : gmap NodePtr ExecInfo) (r : nat) :
  needed_ <$> exec_info !! None ≠ Some true →
  ∀ n, (rank n < r)%nat → reachable next_edges root n →
    finished exec_info n →
    needed_ <$> exec_info !! Some n = Some true →
    leads_to_capture next_edges exec_info n.
Proof.
  intros Hnull. induction r as [|r IH]; intros n Hrank Hn Hfin Hneeded; [lia|].
  destruct (Hfin n) as (info & Hinfo & Hflag); [done|].
  rewrite Hinfo in Hneeded. injection Hneeded as Hneeded.
  rewrite Hneeded in Hflag. symmetry in Hflag.
  apply any_should_execute_true in Hflag as (edge & Hedge & Hexec).
  apply lookup_should_execute_true in Hexec as [Hexec|Hexec]; cycle 1.
  { exists n, edge. split; [apply rtc_refl|done]. }
  destruct (function edge) as [c|] eqn:Hc; [|done].
  assert (Hsucc : c ∈ successors_of n).
  { unfold successors. apply list_elem_of_omap. eauto. }
  pose proof (Hacyclic n c Hn Hsucc).
  destruct (IH c) as (m & edge' & Hm & Hedge' & Hcap);
    [lia|by eapply rtc_r|by eapply finished_successor|done|].
  exists m, edge'. split; [|done]. by eapply rtc_l.
Qed.

Lemma leads_to_capture_needed (exec_info : gmap NodePtr ExecInfo) (n : Node) :
  leads_to_capture next_edges exec_info n → finished exec_info n →
  needed_ <$> exec_info !! Some n = Some true.
Proof.
  intros (m & edge & Hm & Hedge & Hcap).
  induction Hm as [n|n c m Hc Hm IH]; intros Hfin.
  - destruct (Hfin n) as (info & Hinfo & Hflag); [done|].
    rewrite Hinfo. simpl. f_equal. rewrite Hflag.
    apply any_should_execute_true. exists edge. split; [done|].
    apply lookup_should_execute_true. by right.
  - specialize (IH Hedge (finished_successor _ _ _ Hfin Hc)).
    destruct (Hfin n) as (info & Hinfo & Hflag); [done|].
    rewrite Hinfo. simpl. f_equal. rewrite Hflag.
    unfold successors in Hc.
    apply list_elem_of_omap in Hc as (edge' & Hedge' & Hfn).
    apply any_should_execute_true. exists edge'. split; [done|].
    apply lookup_should_execute_true. left. by rewrite Hfn.
Qed.

(** A node below the graph root is needed exactly when an edge that leaves
    it, or a node below it, leads to a requested output, for an [exec_info_]
    that [init_to_execute] fills from empty. *)
Lemma needed_iff_requested (outputs : edge_list)
    (exec_info : gmap NodePtr ExecInfo) :
  (∀ n, tc (λ n c, c ∈ successors_of n) root n → computed exec_info n) →
  (∀ ptr, captures_at exec_info ptr
          = extend_captures None (requested_captures outputs 0 ptr)) →
  needed_ <$> exec_info !! None ≠ Some true →
  ∀ n, tc (λ n c, c ∈ successors_of n) root n →
    needed_ <$> exec_info !! Some n = Some true
    ↔ ∃ m edge, reachable next_edges n m ∧ edge ∈ next_edges m
                ∧ function edge ∈ function <$> outputs.
Proof.
  intros Hcomputed Hcaptures Hnull n Hn.
  assert (Hfin : finished exec_info n).
  { intros m Hm. apply Hcomputed. by eapply tc_rtc_r. }
  assert (Hleads : leads_to_capture next_edges exec_info n
                   ↔ ∃ m edge, reachable next_edges n m ∧ edge ∈ next_edges m
                               ∧ function edge ∈ function <$> outputs).
  { unfold leads_to_capture.
    by setoid_rewrite (captured_requested exec_info outputs _ (Hcaptures _)). }
  rewrite <- Hleads. split.
  - apply (needed_leads_to_capture exec_info (S (rank n))); [done|lia| |done].
    by apply tc_rtc.
  - intros H. by apply leads_to_capture_needed.
Qed.

End NeededFacts.

(** ** Nodes that are not needed *)

Section SkipFacts.
Context {L : TensorLib}.
Variable can_checkpoint : GraphTask → bool.
Variable anomaly_enabled : bool.
Variable InputBuffer_device : InputBuffer → Device.

(** The capture loop writes every capture whose index is in range. *)
Lemma write_captures_writes (inputs : InputBuffer) (capture_vec : list Capture) :
  ∀ captured_vars : variable_list,
    Forall (λ c, (output_idx_ c < length captured_vars)%nat) capture_vec →
    ∃ vars,
      write_captures capture_vec inputs captured_vars = Some vars
      ∧ length vars = length captured_vars
      ∧ (∀ i : nat, i ∉ output_idx_ <$> capture_vec →
                    vars !! i = captured_vars !! i)
      ∧ (NoDup (output_idx_ <$> capture_vec) →
         ∀ c, c ∈ capture_vec →
              vars !! output_idx_ c
              = Some (InputBuffer_get inputs (input_idx_ c))).
Proof.
  induction capture_vec as [|capture vec IH] using rev_ind;
    intros captured_vars Hrange.
  { exists captured_vars. split; [done|]. split; [done|]. split; [done|].
    intros _ c Hc. by apply elem_of_nil in Hc. }
  apply Forall_app in Hrange as [Hvec Hcapture].
  rewrite Forall_singleton in Hcapture.
  destruct (IH captured_vars Hvec) as (vars & Hvars & Hlen & Hother & Hwritten).
  exists (<[output_idx_ capture :=
              InputBuffer_get inputs (input_idx_ capture)]> vars).
  split; [|split; [|split]].
  - unfold write_captures in *. rewrite foldl_app, Hvars. simpl.
    rewrite decide_True by lia. done.
  - by rewrite length_insert.
  - intros i Hi. rewrite fmap_app, not_elem_of_app in Hi.
    destruct Hi as [Hi Hne]. simpl in Hne.
    rewrite list_elem_of_singleton in Hne.
    rewrite list_lookup_insert_ne by done. by apply Hother.
  - rewrite fmap_app. simpl. intros Hnodup c Hc.
    apply NoDup_app in Hnodup as (Hnodup & Hfresh & _).
    destruct (decide (output_idx_ c = output_idx_ capture)) as [Heq|Hne].
    + apply elem_of_app in Hc as [Hc|Hc].
      * exfalso. apply (Hfresh (output_idx_ c)).
        -- apply list_elem_of_fmap. eauto.
        -- rewrite Heq. left.
      * apply list_elem_of_singleton in Hc as ->.
        apply list_lookup_insert_eq. lia.
    + rewrite list_lookup_insert_ne by done.
      apply elem_of_app in Hc as [Hc|Hc]; [by apply Hwritten|].
      by apply list_elem_of_singleton in Hc as ->.
Qed.

Lemma with_captured_vars_id (g : GraphTask) :
  with_captured_vars (captured_vars_ g) g = g.
Proof. by destruct g. Qed.

(** [evaluate_function] on a node whose entry is not needed: the captures
    are written and nothing else happens. *)
Lemma evaluate_function_skips gid func inputs (s : State) g info :
  graph_tasks (engine s) !! gid = Some g →
  exec_info_ g ≠ ∅ →
  exec_info_ g !! Some func = Some info →
  needed_ info = false →
  Forall (λ c, (output_idx_ c < length (captured_vars_ g))%nat)
         (default [] (captures_ info)) →
  ∃ vars,
    write_captures (default [] (captures_ info)) inputs (captured_vars_ g)
    = Some vars
    ∧ evaluate_function can_checkpoint anomaly_enabled InputBuffer_device
                        gid func inputs s
      = (put_graph_task gid (with_captured_vars vars g) s, Ret ()).
Proof.
  intros Hg Hnonempty Hinfo Hneeded Hrange.
  destruct (write_captures_writes inputs _ _ Hrange) as (vars & Hvars & _).
  exists vars. split; [done|].
  unfold evaluate_function, capture_inputs. comp_unfold. rewrite Hg.
  rewrite bool_decide_eq_false_2 by done. rewrite Hinfo, Hneeded.
  destruct (captures_ info) as [capture_vec|]; simpl in *.
  - by rewrite Hvars.
  - injection Hvars as <-. by rewrite with_captured_vars_id.
Qed.

(** The routing loop leaves [exec_info_] alone. *)
Lemma route_output_exec_info queues num_inputs gid output next :
  preserves (unchanged (λ st : Routing, exec_info_ st.1))
    (route_output InputBuffer_device queues num_inputs gid output next).
Proof.
  unfold route_output, decrement_dependency, modify_task, push_node_task.
  repeat preserves_step; intros; by destruct_and?.
Qed.

Lemma route_outputs_exec_info queues num_inputs gid outputs :
  ∀ edges,
    preserves (unchanged (λ st : Routing, exec_info_ st.1))
      (route_outputs InputBuffer_device queues num_inputs gid outputs edges).
Proof.
  induction outputs as [|output outputs IH]; intros edges; simpl;
    [preserves_step|].
  destruct edges as [|next edges]; [preserves_step|].
  preserves_step; [apply route_output_exec_info|apply IH].
Qed.

Lemma capture_inputs_skip func inputs (g g' : GraphTask) (skip : bool) :
  exec_info_ g ≠ ∅ →
  needed_ <$> exec_info_ g !! Some func ≠ Some true →
  capture_inputs func inputs g = (g', Ret skip) → skip = true.
Proof.
  intros Hnonempty Hneeded. unfold capture_inputs. comp_unfold.
  rewrite bool_decide_eq_false_2 by done.
  destruct (exec_info_ g !! Some func) as [[needed captures]|]; [|done].
  simpl in *. destruct needed; [done|].
  destruct captures as [capture_vec|]; [|by intros [= <- <-]].
  destruct (write_captures _ _ _); [|done]. by intros [= <- <-].
Qed.

Section Skipped.
Variable gid : GraphTaskId.
Variable fn : Node.

Local Abbreviation was_applied :=
  (λ trace : list Event, bool_decide (fn ∈ applied gid trace)).
Local Abbreviation is_apply := (λ ev : Event, ev = ev_apply gid fn).

Lemma was_applied_quiet (trace : list Event) (ev : Event) :
  ¬ is_apply ev → was_applied (trace ++ [ev]) = was_applied trace.
Proof.
  intros Hquiet. cbv beta in *. apply bool_decide_ext.
  unfold applied. rewrite omap_app.
  rewrite elem_of_app. simpl.
  destruct ev as [g ptr|g n]; simpl;
    [rewrite elem_of_nil; naive_solver|].
  destruct (decide (g = gid)) as [->|]; simpl;
    [|rewrite elem_of_nil; naive_solver].
  rewrite list_elem_of_singleton. naive_solver.
Qed.

Lemma skipped_view (s s' : State) :
  view gid exec_info_ was_applied s' = view gid exec_info_ was_applied s →
  inv_rel (skipped gid fn) s s'.
Proof.
  unfold view. intros [= Happlied Hinfo] [(g & Hg & Hnonempty & Hneeded) Hnot].
  rewrite Hg in Hinfo. simpl in Hinfo.
  destruct (graph_tasks (engine s') !! gid) as [g'|] eqn:Hg'; [|done].
  injection Hinfo as Hinfo. split.
  - exists g'. by rewrite Hinfo.
  - intros Hin. apply Hnot.
    apply (bool_decide_eq_true_1 (fn ∈ applied gid (trace_ (engine s)))).
    rewrite <- Happlied. by apply bool_decide_eq_true_2.
Qed.

Lemma evaluate_function_skipped gid0 func inputs :
  preserves (inv_rel (skipped gid fn))
    (evaluate_function can_checkpoint anomaly_enabled InputBuffer_device
                       gid0 func inputs).
Proof.
  destruct (decide (ev_apply gid0 func = ev_apply gid fn)) as [[= -> ->]|Hne].
  - intros s s' o Hrun Hskipped.
    pose proof Hskipped as [(g & Hg & Hnonempty & Hneeded) Hnot].
    unfold evaluate_function in Hrun.
    unfold mbind at 1, Comp_bind at 1 in Hrun.
    destruct (on_graph_task gid (capture_inputs fn inputs) s)
      as [s1 o1] eqn:Hcapture.
    assert (Hs1 : skipped gid fn s1).
    { revert Hskipped. apply skipped_view.
      eapply (on_graph_task_view gid exec_info_ was_applied
                (unchanged (view gid exec_info_ was_applied)));
        [done|apply capture_inputs_keeps; done|exact Hcapture]. }
    unfold on_graph_task in Hcapture. rewrite Hg in Hcapture.
    destruct (capture_inputs fn inputs g) as [g' o'] eqn:Hcap.
    injection Hcapture as <- <-.
    destruct o' as [skip| | | |]; try (injection Hrun as <- <-; done).
    apply capture_inputs_skip in Hcap as ->; [|done..].
    by injection Hrun as <- <-.
  - apply (evaluate_function_view can_checkpoint anomaly_enabled
             InputBuffer_device gid exec_info_ was_applied is_apply).
    + apply was_applied_quiet.
    + done.
    + done.
    + apply _.
    + apply skipped_view.
    + done.
    + intros outputs.
      apply (route_view InputBuffer_device gid exec_info_ was_applied
               is_apply);
        [apply was_applied_quiet|apply _|apply skipped_view|done|].
      intros queues num_inputs edges. apply route_outputs_exec_info.
Qed.

Lemma thread_main_task_skipped reentrant task :
  preserves (inv_rel (skipped gid fn))
    (thread_main_task can_checkpoint anomaly_enabled InputBuffer_device
                      reentrant task).
Proof.
  apply (thread_main_task_view can_checkpoint anomaly_enabled
           InputBuffer_device gid exec_info_ was_applied is_apply).
  - apply was_applied_quiet.
  - done.
  - done.
  - done.
  - done.
  - apply _.
  - apply skipped_view.
  - apply evaluate_function_skipped.
Qed.

Lemma worker_steps_skipped (s s' : State) :
  rtc (worker_step can_checkpoint anomaly_enabled InputBuffer_device) s s' →
  skipped gid fn s → skipped gid fn s'.
Proof.
  induction 1 as [|s1 s2 s3 Hstep _ IH]; [done|].
  destruct Hstep as (t & reentrant & task & o & Hstep).
  intros Hskipped. apply IH.
  apply thread_main_task_skipped in Hstep. by apply Hstep.
Qed.

End Skipped.

End SkipFacts.

Section NeededTheorem.
Context {L : TensorLib}.
Variable can_checkpoint : GraphTask → bool.
Variable anomaly_enabled : bool.
Variable InputBuffer_device : InputBuffer → Device.

(** C1: on an acyclic graph whose root has valid edges, [init_to_execute]
    returns with enough fuel; it marks the graph root as needed, gives every
    node below the root the flag "some successor satisfies
    [should_execute]", records for every pointer the captures of the
    requested outputs, in their order, and resizes [captured_vars_] to the
    number of outputs; on a fresh [exec_info_] a node below the root is
    needed exactly when an edge that leaves it or a node below it leads to a
    requested output.  [evaluate_function] on a node whose flag is false
    writes the captured inputs into [captured_vars_] at their output
    indices and returns without calling the node or routing anything.  A
    node that [exec_info_] does not mark as needed is never applied, whatever
    iterations of the worker loops run. *)
Theorem needed_flags_and_skipped_nodes :
  (∀ next_edges root rank outputs (task : GraphTask),
     acyclic next_edges root rank →
     Forall (λ edge, is_valid edge = true) (next_edges root) →
     ∃ fuel0 exec_info,
       (∀ fuel, (fuel0 ≤ fuel)%nat →
          init_to_execute next_edges fuel root outputs task
          = Ret (with_exec_info exec_info
                   (with_captured_vars
                      (resize (length outputs) (captured_vars_ task)) task)))
       ∧ needed_ <$> exec_info !! Some root = Some true
       ∧ (∀ n, tc (λ n c, c ∈ successors next_edges n) root n →
               flag_computed next_edges exec_info n)
       ∧ (∀ ptr, captures_at exec_info ptr
                 = extend_captures (captures_at (exec_info_ task) ptr)
                                   (requested_captures outputs 0 ptr))
       ∧ (exec_info_ task = ∅ →
          ∀ n, tc (λ n c, c ∈ successors next_edges n) root n →
            needed_ <$> exec_info !! Some n = Some true
            ↔ ∃ m edge, reachable next_edges n m ∧ edge ∈ next_edges m
                        ∧ function edge ∈ function <$> outputs))
  ∧ (∀ (outputs : edge_list) (ptr : NodePtr),
       NoDup (output_idx_ <$> requested_captures outputs 0 ptr)
       ∧ ∀ capture,
           capture ∈ requested_captures outputs 0 ptr
           ↔ ∃ (i : nat) edge,
               outputs !! i = Some edge ∧ function edge = ptr
               ∧ capture = mkCapture (input_nr edge) i)
  ∧ (∀ gid func inputs (s : State) g info,
       graph_tasks (engine s) !! gid = Some g →
       exec_info_ g ≠ ∅ →
       exec_info_ g !! Some func = Some info →
       needed_ info = false →
       Forall (λ c, (output_idx_ c < length (captured_vars_ g))%nat)
              (default [] (captures_ info)) →
       ∃ vars,
         evaluate_function can_checkpoint anomaly_enabled InputBuffer_device
                           gid func inputs s
         = (put_graph_task gid (with_captured_vars vars g) s, Ret ())
         ∧ length vars = length (captured_vars_ g)
         ∧ (∀ i : nat, i ∉ output_idx_ <$> default [] (captures_ info) →
                       vars !! i = captured_vars_ g !! i)
         ∧ (NoDup (output_idx_ <$> default [] (captures_ info)) →
            ∀ c, c ∈ default [] (captures_ info) →
                 vars !! output_idx_ c
                 = Some (InputBuffer_get inputs (input_idx_ c))))
  ∧ (∀ gid fn (s s' : State),
       skipped gid fn s →
       rtc (worker_step can_checkpoint anomaly_enabled InputBuffer_device)
           s s' →
       skipped gid fn s').
Proof.
  split; [|split; [|split]].
  - intros next_edges root rank outputs task Hacyclic Hvalid.
    destruct (init_to_execute_returns next_edges root rank Hacyclic outputs
                task Hvalid)
      as (fuel0 & e & Hrun & Hroot & Hflags & Hcaptures & Hnull).
    exists fuel0, e. repeat (split; [done|]).
    intros Hempty. apply (needed_iff_requested next_edges root rank Hacyclic);
      [done| |].
    + intros ptr. rewrite Hcaptures. unfold captures_at.
      by rewrite Hempty, lookup_empty.
    + apply Hnull. by rewrite Hempty, lookup_empty.
  - intros outputs ptr. split; [apply requested_captures_NoDup|].
    intros capture. apply requested_captures_elem.
  - intros gid func inputs s g info Hg Hnonempty Hinfo Hneeded Hrange.
    destruct (evaluate_function_skips can_checkpoint anomaly_enabled
                InputBuffer_device gid func inputs s g info)
      as (vars & Hvars & Hrun); [done..|].
    destruct (write_captures_writes inputs _ _ Hrange)
      as (vars' & Hvars' & Hfacts).
    rewrite Hvars in Hvars'. injection Hvars' as <-.
    exists vars. by split.
  - intros gid fn s s' Hskipped Hsteps.
    by eapply worker_steps_skipped.
Qed.

End NeededTheorem.

(** On A → B → {C, D} with the output (B, 0) requested: the pass returns, B
    and C are not needed, the iteration on the task of B writes the input of
    B to the output index 0 without calling B, and C stays unapplied. *)
Lemma needed_flags_and_skipped_nodes_witness :
  (∃ fuel0 exec_info,
     (∀ fuel, (fuel0 ≤ fuel)%nat →
        init_to_execute SimpleGraph.next_edges fuel 0%nat
                        [Simple.edge_to Simple.B]
                        (GraphTask_new (L := Simple.tensors) false false 0 None)
        = Ret (with_exec_info exec_info
                 (with_captured_vars
                    [undefined_tensor (TensorLib := Simple.tensors)]
                    (GraphTask_new false false 0 None))))
     ∧ flag_computed SimpleGraph.next_edges exec_info Simple.B
     ∧ needed_ <$> exec_info !! Some Simple.B ≠ Some true
     ∧ captures_at exec_info (Some Simple.B) = Some [mkCapture 0 0])
  ∧ evaluate_function Simple.exec_info_empty false Simple.buffer_device
      0%nat Simple.B (inputs_ SimplePruned.task_of_B) SimplePruned.before_B
    = (put_graph_task 0%nat
         (with_captured_vars [Simple.scalar 10] SimplePruned.task_before_B)
         SimplePruned.before_B, Ret ())
  ∧ skipped 0%nat Simple.C SimplePruned.after_B.
Proof.
  destruct (needed_flags_and_skipped_nodes (L := Simple.tensors)
              Simple.exec_info_empty false Simple.buffer_device)
    as (Hinit & _ & Hskip & Hnever).
  assert (HA : tc (λ n c, c ∈ successors SimpleGraph.next_edges n)
                  0%nat Simple.A).
  { apply tc_once. vm_compute. left. }
  assert (HB : tc (λ n c, c ∈ successors SimpleGraph.next_edges n)
                  0%nat Simple.B).
  { eapply tc_r; [exact HA|]. vm_compute. left. }
  split; [|split].
  - destruct (Hinit SimpleGraph.next_edges 0%nat SimpleGraph.rank
                [Simple.edge_to Simple.B]
                (GraphTask_new (L := Simple.tensors) false false 0 None)
                SimpleGraph_acyclic)
      as (fuel0 & e & Hrun & _ & Hflags & Hcaptures & Hneeded).
    { vm_compute. repeat constructor. }
    exists fuel0, e. split; [exact Hrun|]. split; [by apply Hflags|].
    split; [|by rewrite Hcaptures].
    intros HneededB. apply (Hneeded eq_refl Simple.B HB) in HneededB.
    destruct HneededB as (m & edge & Hm & Hedge & Hout).
    apply list_elem_of_fmap in Hout as (out & Hfn & Hout).
    apply list_elem_of_singleton in Hout as ->. simpl in Hfn.
    assert (Hbelow : ∀ n, reachable SimpleGraph.next_edges Simple.B n →
              n = Simple.B ∨ n = Simple.C ∨ n = Simple.D).
    { intros n Hn.
      apply (rtc_ind_r (R := λ n c, c ∈ successors SimpleGraph.next_edges n)
               (λ n, n = Simple.B ∨ n = Simple.C ∨ n = Simple.D) Simple.B);
        [by left| |exact Hn].
      intros x y _ Hy [->|[->| ->]]; vm_compute in Hy.
      - apply elem_of_cons in Hy as [->|Hy]; [by right; left|].
        apply list_elem_of_singleton in Hy as ->. by right; right.
      - by apply elem_of_nil in Hy.
      - by apply elem_of_nil in Hy. }
    destruct (Hbelow m Hm) as [->|[->| ->]]; vm_compute in Hedge.
    + apply elem_of_cons in Hedge as [->|Hedge]; [done|].
      by apply list_elem_of_singleton in Hedge as ->.
    + by apply elem_of_nil in Hedge.
    + by apply elem_of_nil in Hedge.
  - destruct (Hskip 0%nat Simple.B (inputs_ SimplePruned.task_of_B)
                SimplePruned.before_B SimplePruned.task_before_B
                (mkExecInfo false (Some [mkCapture 0 0])))
      as (vars & Hrun & Hlen & _ & Hwritten).
    + vm_compute. reflexivity.
    + intros Hempty.
      assert (Hinfo : exec_info_ SimplePruned.task_before_B !! Some Simple.B
                      = Some (mkExecInfo false (Some [mkCapture 0 0])))
        by (vm_compute; reflexivity).
      rewrite Hempty in Hinfo.
      rewrite lookup_empty in Hinfo. discriminate Hinfo.
    + vm_compute. reflexivity.
    + reflexivity.
    + apply Forall_singleton. vm_compute. lia.
    + assert (Hvars : captured_vars_ SimplePruned.task_before_B
                      = [undefined_tensor (TensorLib := Simple.tensors)])
        by (vm_compute; reflexivity).
      rewrite Hvars in Hlen.
      specialize (Hwritten ltac:(apply NoDup_singleton)
                    (mkCapture 0 0) ltac:(left)).
      assert (vars = [Simple.scalar 10]) as <-; [|exact Hrun].
      clear Hrun. destruct vars as [|v [|v' vars]]; simpl in Hlen;
        [lia| |lia].
      simpl in Hwritten. injection Hwritten as ->. reflexivity.
  - apply (Hnever 0%nat Simple.C SimplePruned.before_B).
    + split; [|vm_compute; set_solver].
      exists SimplePruned.task_before_B.
      assert (Hinfo : exec_info_ SimplePruned.task_before_B !! Some Simple.C
                      = Some (mkExecInfo false None))
        by (vm_compute; reflexivity).
      split; [vm_compute; reflexivity|]. split; [|by rewrite Hinfo].
      intros Hempty. rewrite Hempty in Hinfo.
      rewrite lookup_empty in Hinfo. discriminate Hinfo.
    + apply rtc_once. exists (tls SimplePruned.before_B), false,
        SimplePruned.task_of_B,
        (thread_main_task Simple.exec_info_empty false Simple.buffer_device
           false SimplePruned.task_of_B SimplePruned.before_B).2.
      unfold SimplePruned.after_B.
      destruct SimplePruned.before_B as [t e]. simpl.
      by destruct (thread_main_task _ _ _ _ _ _).
Defined.

(** Requested outputs pruning, end to end: with the output (B, 0) requested
    on A → B → {C, D}, [execute] returns the input of B, and calls neither B
    nor C nor D. *)
Example execute_prunes_unneeded :
  let r := Simple.run_execute Simple.chain_fork 20 [Simple.edge_to Simple.A]
             [Simple.scalar 5] [Simple.edge_to Simple.B] in
  r.2 = Ret [Simple.scalar 10]
  ∧ applied 0%nat (trace_ (engine r.1)) = [0%nat; Simple.A]
  ∧ pushed 0%nat (trace_ (engine r.1)) = [0%nat; Simple.A; Simple.B].
Proof. vm_compute. repeat split; reflexivity. Qed.

(** * Further properties of the engine *)

(** * Further properties of the engine *)

(** ** Validation of gradients *)

Section ValidateMore.
Context {L : TensorLib}.
Variable input_metadata : Node → nat → InputMetadata.

Lemma validate_loop_first_throw n i edges grads e :
  validate_loop input_metadata n i edges grads = Throw e →
  (i + n ≤ length grads)%nat → (i + n ≤ length edges)%nat →
  ∃ j edge g,
    (i ≤ j < i + n)%nat ∧ edges !! j = Some edge ∧ grads !! j = Some g
    ∧ validate_at input_metadata j edge g = Throw e
    ∧ ∀ k edge' g', (i ≤ k < j)%nat → edges !! k = Some edge' →
        grads !! k = Some g' →
        is_throw (validate_at input_metadata k edge' g') = false.
Proof.
  revert i grads. induction n as [|n IH]; intros i grads; simpl; [done|].
  intros Hloop Hg He.
  destruct (lookup_lt_is_Some_2 edges i) as [edge Hedge]; [lia|].
  destruct (lookup_lt_is_Some_2 grads i) as [gi Hgi]; [lia|].
  rewrite Hedge, Hgi in Hloop.
  destruct (validate_at input_metadata i edge gi) as [g'|e'] eqn:Hv;
    simpl in Hloop.
  - apply IH in Hloop as (j & edge' & g & Hj & He' & Hg' & Hv' & Hfirst);
      [|rewrite length_insert; lia | lia].
    rewrite list_lookup_insert_ne in Hg' by lia.
    exists j, edge', g. split; [lia|]. do 3 (split; [done|]).
    intros k edge'' g'' Hk Hedge'' Hg''.
    destruct (decide (k = i)) as [->|Hne].
    + replace edge'' with edge by congruence.
      replace g'' with gi by congruence. by rewrite Hv.
    + apply (Hfirst k edge'' g''); [lia|done|].
      by rewrite list_lookup_insert_ne by done.
  - injection Hloop as ->. exists i, edge, gi. split; [lia|].
    do 3 (split; [done|]). intros k ? ? Hk. lia.
Qed.

(** X1: [validate_outputs] reports the count mismatch before it looks at any
    gradient; with matching counts the exception it throws is the one of the
    first index whose check fails; when it returns, the list has the length
    it had and the gradient at every invalid edge is returned as it was. *)
Theorem validate_outputs_first_error edges grads :
  (length grads ≠ length edges →
   validate_outputs input_metadata edges grads
   = Throw (invalid_number_of_gradients (length edges) (length grads)))
  ∧ (∀ e, length grads = length edges →
       validate_outputs input_metadata edges grads = Throw e →
       ∃ j edge g,
         edges !! j = Some edge ∧ grads !! j = Some g
         ∧ validate_at input_metadata j edge g = Throw e
         ∧ ∀ k edge' g', (k < j)%nat → edges !! k = Some edge' →
             grads !! k = Some g' →
             is_throw (validate_at input_metadata k edge' g') = false)
  ∧ (∀ grads', validate_outputs input_metadata edges grads = Ok grads' →
       length grads' = length grads
       ∧ ∀ i edge g, edges !! i = Some edge → is_valid edge = false →
           grads !! i = Some g → grads' !! i = Some g).
Proof.
  split; [|split].
  - intros Hlen. unfold validate_outputs.
    by rewrite bool_decide_eq_true_2.
  - intros e Hlen. unfold validate_outputs.
    rewrite bool_decide_eq_false_2 by (intros H; by apply H).
    intros Hloop.
    apply validate_loop_first_throw in Hloop
      as (j & edge & g & _ & Hedge & Hg & Hv & Hfirst); [|lia..].
    exists j, edge, g. do 3 (split; [done|]).
    intros k edge' g' Hk. apply Hfirst. lia.
  - intros grads' Hok.
    apply validate_outputs_ok in Hok as (_ & Hlen & Hall).
    split; [done|]. intros i edge g Hedge Hvalid Hg.
    destruct (Hall i g Hg) as (edge' & g' & Hedge' & Hg' & Hv).
    replace edge' with edge in * by congruence.
    unfold validate_at, is_valid in *.
    destruct (function edge); [done|]. by injection Hv as <-.
Qed.

Section Idempotent.
Context `{!TensorLibShapeLaws L}.

Lemma validate_at_idempotent i edge g g' :
  (∀ fn, function edge = Some fn →
     isFloatingType
       (options_dtype (md_options (input_metadata fn (input_nr edge))))
     = true) →
  validate_at input_metadata i edge g = Ok g' →
  validate_at input_metadata i edge g' = Ok g'.
Proof.
  intros Hfloat. unfold validate_at.
  destruct (function edge) as [fn|]; [|done].
  specialize (Hfloat fn eq_refl).
  set (metadata := input_metadata fn (input_nr edge)) in *.
  destruct (defined g) eqn:Hdef; [|by intros [= <-]; rewrite Hdef].
  intros Hv. destruct (defined g'); [|done].
  unfold validate_defined in *.
  destruct (validate_shape i metadata g) as [g1|] eqn:Hshape; [|done].
  simpl in Hv.
  destruct (validate_dtype metadata g1) as [g2|] eqn:Hdtype; [|done].
  simpl in Hv.
  destruct (is_compatible_type _ _) eqn:Hcompat; [|done].
  case_bool_decide as Hdevice; [|done]. injection Hv as <-.
  assert (Hsizes1 : sizes g1 = shape metadata).
  { unfold validate_shape in Hshape. case_bool_decide as Hs.
    - by injection Hshape as <-.
    - destruct (is_expandable_to _ _); [|done]. injection Hshape as <-.
      apply sum_to_sizes. }
  assert (Hg2 : sizes g2 = shape metadata
                ∧ isFloatingType (scalar_type g2) = true
                ∧ options_dtype (md_options metadata) = scalar_type g2).
  { unfold validate_dtype in Hdtype.
    destruct (isFloatingType (scalar_type g1)) eqn:Hf; [|done].
    case_bool_decide as Hd; injection Hdtype as <-.
    - done.
    - by rewrite to_sizes, to_scalar_type. }
  destruct Hg2 as (Hsizes2 & Hfloat2 & Hdtype2).
  unfold validate_shape. rewrite bool_decide_eq_true_2 by done. simpl.
  unfold validate_dtype. rewrite Hfloat2.
  rewrite bool_decide_eq_true_2 by done. simpl.
  rewrite Hcompat. by rewrite bool_decide_eq_true_2.
Qed.

Lemma validate_loop_fixed n i edges grads :
  (i + n ≤ length grads)%nat → (i + n ≤ length edges)%nat →
  (∀ j edge g, (i ≤ j < i + n)%nat → edges !! j = Some edge →
     grads !! j = Some g → validate_at input_metadata j edge g = Ok g) →
  validate_loop input_metadata n i edges grads = Ok grads.
Proof.
  revert i. induction n as [|n IH]; intros i Hg He Hfixed; [done|]. simpl.
  destruct (lookup_lt_is_Some_2 edges i) as [edge Hedge]; [lia|].
  destruct (lookup_lt_is_Some_2 grads i) as [gi Hgi]; [lia|].
  rewrite Hedge, Hgi. rewrite (Hfixed i edge gi) by (done || lia). simpl.
  rewrite list_insert_id by done. apply IH; [lia..|].
  intros j edge' g Hj. apply Hfixed. lia.
Qed.

(** X2: gradients that [validate_outputs] has returned pass it again
    unchanged, when the expected element types are floating-point types. *)
Theorem validate_outputs_idempotent edges grads grads' :
  (∀ edge fn, edge ∈ edges → function edge = Some fn →
     isFloatingType
       (options_dtype (md_options (input_metadata fn (input_nr edge))))
     = true) →
  validate_outputs input_metadata edges grads = Ok grads' →
  validate_outputs input_metadata edges grads' = Ok grads'.
Proof.
  intros Hfloat Hok.
  apply validate_outputs_ok in Hok as (Hlen & Hlen' & Hall).
  unfold validate_outputs.
  rewrite bool_decide_eq_false_2 by (intros H; apply H; lia).
  apply validate_loop_fixed; [lia..|].
  intros j edge g' _ Hedge Hg'.
  destruct (lookup_lt_is_Some_2 grads j) as [g Hg].
  { apply lookup_lt_Some in Hg'. lia. }
  destruct (Hall j g Hg) as (edge' & g'' & Hedge' & Hg'' & Hv).
  replace edge' with edge in * by congruence.
  replace g'' with g' in * by congruence.
  eapply validate_at_idempotent; [|exact Hv].
  intros fn Hfn. eapply Hfloat; [|done]. by eapply list_elem_of_lookup_2.
Qed.

End Idempotent.

End ValidateMore.

#[global] Instance Simple_tensors_shape_laws :
  TensorLibShapeLaws Simple.tensors.
Proof. split; reflexivity. Qed.

(** Two nodes that expect a [Float] scalar on the CPU.  Without gradients
    the count is reported; with an integer gradient followed by a gradient
    on another device the element type, at index 0, is; the integer gradient
    at a null edge is returned as it is. *)
Lemma validate_outputs_first_error_witness :
  let md := λ (_ : Node) (_ : nat), Simple.scalar_metadata in
  let edges := [Simple.edge_to Simple.A; Simple.edge_to Simple.B] in
  let g_int := Simple.mkTensor true [1] Simple.Int Simple.cpu false 7 in
  let g_cuda := Simple.mkTensor true [1] Simple.Float Simple.cuda0 false 7 in
  validate_outputs md edges [] = Throw (invalid_number_of_gradients 2 0)
  ∧ (∃ j edge g,
       edges !! j = Some edge ∧ [g_int; g_cuda] !! j = Some g
       ∧ validate_at md j edge g = Throw torch_check_failed
       ∧ ∀ k edge' g', (k < j)%nat → edges !! k = Some edge' →
           [g_int; g_cuda] !! k = Some g' →
           is_throw (validate_at md k edge' g') = false)
  ∧ (∃ grads',
       validate_outputs md [mkEdge None 0; Simple.edge_to Simple.A]
                        [g_int; Simple.scalar 7]
       = Ok grads'
       ∧ length grads' = 2%nat ∧ grads' !! 0%nat = Some g_int).
Proof.
  intros md edges g_int g_cuda.
  destruct (validate_outputs_first_error (L := Simple.tensors) md edges [])
    as (Hcount & _ & _).
  destruct (validate_outputs_first_error (L := Simple.tensors) md edges
              [g_int; g_cuda]) as (_ & Hfirst & _).
  destruct (validate_outputs_first_error (L := Simple.tensors) md
              [mkEdge None 0; Simple.edge_to Simple.A]
              [g_int; Simple.scalar 7]) as (_ & _ & Hok).
  split; [apply Hcount; simpl; lia|].
  split; [apply Hfirst; [reflexivity|vm_compute; reflexivity]|].
  eexists. split; [vm_compute; reflexivity|].
  edestruct Hok as [Hlen Hnull]; [vm_compute; reflexivity|].
  split; [exact Hlen|]. by apply (Hnull 0%nat (mkEdge None 0) g_int).
Defined.

(** A [Double] gradient of shape [2; 1] is summed and converted to the
    [Float] scalar that is expected, and the result passes again as it is. *)
Lemma validate_outputs_idempotent_witness :
  let md := λ (_ : Node) (_ : nat), Simple.scalar_metadata in
  let g := Simple.mkTensor true [2; 1] Simple.Double Simple.cpu false 7 in
  validate_outputs md [Simple.edge_to Simple.A] [g] = Ok [Simple.scalar 7]
  ∧ validate_outputs md [Simple.edge_to Simple.A] [Simple.scalar 7]
    = Ok [Simple.scalar 7].
Proof.
  intros md g.
  assert (Hok : validate_outputs md [Simple.edge_to Simple.A] [g]
                = Ok [Simple.scalar 7]) by (vm_compute; reflexivity).
  split; [exact Hok|].
  apply (validate_outputs_idempotent (L := Simple.tensors) md
           [Simple.edge_to Simple.A] [g]); [|exact Hok].
  intros edge fn _ _. reflexivity.
Defined.

(** ** Hooks *)

Section HookFacts.
Context {L : TensorLib}.

(** X3: the hooks of a node run in the order of their registration, each on
    the result of the one before: the hooks of a list followed by another are
    those of the first list, then those of the second on their result, and
    an exception of the first list is the exception of the whole, whatever
    hooks follow. *)
Theorem call_hooks_compose :
  (∀ hooks1 hooks2 (inputs : variable_list),
     call_pre_hooks (hooks1 ++ hooks2) inputs
     = (inputs' ← call_pre_hooks hooks1 inputs;
        call_pre_hooks hooks2 inputs'))
  ∧ (∀ hooks1 hooks2 (outputs inputs : variable_list),
       call_post_hooks (hooks1 ++ hooks2) outputs inputs
       = (outputs' ← call_post_hooks hooks1 outputs inputs;
          call_post_hooks hooks2 outputs' inputs))
  ∧ (∀ hooks1 hooks2 (inputs : variable_list) e,
       call_pre_hooks hooks1 inputs = Throw e →
       call_pre_hooks (hooks1 ++ hooks2) inputs = Throw e)
  ∧ (∀ hooks1 hooks2 (outputs inputs : variable_list) e,
       call_post_hooks hooks1 outputs inputs = Throw e →
       call_post_hooks (hooks1 ++ hooks2) outputs inputs = Throw e).
Proof.
  assert (Hpre : ∀ hooks1 hooks2 (inputs : variable_list),
            call_pre_hooks (hooks1 ++ hooks2) inputs
            = (inputs' ← call_pre_hooks hooks1 inputs;
               call_pre_hooks hooks2 inputs')).
  { induction hooks1 as [|hook hooks1 IH]; intros hooks2 inputs; [done|].
    simpl. destruct (hook inputs) as [inputs'|]; simpl; [apply IH|done]. }
  assert (Hpost : ∀ hooks1 hooks2 (outputs inputs : variable_list),
            call_post_hooks (hooks1 ++ hooks2) outputs inputs
            = (outputs' ← call_post_hooks hooks1 outputs inputs;
               call_post_hooks hooks2 outputs' inputs)).
  { induction hooks1 as [|hook hooks1 IH]; intros hooks2 outputs inputs;
      [done|].
    simpl. destruct (hook outputs inputs) as [outputs'|]; simpl;
      [apply IH|done]. }
  split; [done|]. split; [done|]. split.
  - intros hooks1 hooks2 inputs e He. by rewrite Hpre, He.
  - intros hooks1 hooks2 outputs inputs e He. by rewrite Hpost, He.
Qed.

End HookFacts.

(** A hook that throws hides the hook registered after it. *)
Lemma call_hooks_compose_witness :
  call_pre_hooks (L := Simple.tensors)
    ([λ _, Throw Simple.boom] ++ [λ inputs, Ok (inputs ++ inputs)])
    [Simple.scalar 1]
  = Throw Simple.boom
  ∧ call_post_hooks (L := Simple.tensors)
      ([λ _ _, Throw Simple.boom] ++ [λ outputs _, Ok (take 1 outputs)])
      [Simple.scalar 1] []
    = Throw Simple.boom.
Proof.
  destruct (call_hooks_compose (L := Simple.tensors)) as (_ & _ & Hpre & Hpost).
  split; [by apply Hpre|by apply Hpost].
Defined.

(** ** The ready queues *)

Section ReadyQueueFacts.
Context {L : TensorLib}.

Local Abbreviation heap_of queue s :=
  (default [] (ready_queues (engine s) !! queue)).

(** X4: [ReadyQueue::pop] waits exactly when the heap is empty; otherwise it
    returns one task of the heap and leaves the others, and touches neither
    another queue nor a graph task nor the thread-locals.  [push] without
    the increment adds the item to the heap; [push] with the increment for a
    graph task that has expired fails the internal assertion before the heap
    is touched, and for a live graph task adds one to its
    [outstanding_tasks_] and the item to the heap.  A task pushed on an empty
    queue is the task popped next. *)
Theorem ReadyQueue_push_pop queue (s : State) :
  (ReadyQueue_empty queue (engine s) = true →
   ReadyQueue_pop queue s = (s, Blocked))
  ∧ (ReadyQueue_empty queue (engine s) = false →
     ∃ task s',
       ReadyQueue_pop queue s = (s', Ret task)
       ∧ heap_of queue s ≡ₚ task :: heap_of queue s'
       ∧ (∀ queue', queue' ≠ queue →
            ready_queues (engine s') !! queue'
            = ready_queues (engine s) !! queue')
       ∧ graph_tasks (engine s') = graph_tasks (engine s)
       ∧ tls s' = tls s)
  ∧ (∀ item,
       ReadyQueue_push queue item false s
       = (with_engine (heap_push queue item (engine s)) s, Ret ())
       ∧ ReadyQueue_size queue (heap_push queue item (engine s))
         = S (ReadyQueue_size queue (engine s)))
  ∧ (∀ item,
       lock (graph_tasks (engine s)) (base_ item) = None →
       ReadyQueue_push queue item true s = (s, Exn internal_assert_failed))
  ∧ (∀ item gid g,
       base_ item = Some gid → graph_tasks (engine s) !! gid = Some g →
       ∃ s',
         ReadyQueue_push queue item true s = (s', Ret ())
         ∧ graph_tasks (engine s')
           = <[gid := with_outstanding_tasks
                        ((outstanding_tasks_ g + 1) mod 2 ^ 64) g]>
               (graph_tasks (engine s))
         ∧ heap_of queue s' = heap_of queue s ++ [item])
  ∧ (∀ item inc s',
       ReadyQueue_empty queue (engine s) = true →
       ReadyQueue_push queue item inc s = (s', Ret ()) →
       ∃ s'', ReadyQueue_pop queue s' = (s'', Ret item)
              ∧ ReadyQueue_empty queue (engine s'') = true).
Proof.
  assert (Hempty : ∀ s0 : State,
            ReadyQueue_empty queue (engine s0) = true → heap_of queue s0 = []).
  { intros s0. unfold ReadyQueue_empty. by destruct (heap_of queue s0). }
  split; [|split; [|split; [|split; [|split]]]].
  - intros He. apply Hempty in He. unfold ReadyQueue_pop. by rewrite He.
  - intros He. unfold ReadyQueue_pop, ReadyQueue_empty in *.
    destruct (heap_pop_is_Some (graph_tasks (engine s)) (heap_of queue s))
      as [[task heap'] Hpop]; [by destruct (heap_of queue s)|].
    rewrite Hpop. eexists _, _. split; [done|]. simpl.
    rewrite lookup_insert_eq. simpl.
    apply heap_pop_lookup in Hpop as (i & Hi & ->).
    split; [by apply delete_Permutation|]. split; [|done].
    intros queue' Hne. by rewrite lookup_insert_ne.
  - intros item. split; [done|]. unfold ReadyQueue_size, heap_push. simpl.
    rewrite lookup_insert_eq. simpl. rewrite length_app. simpl. lia.
  - intros item Hlock. unfold ReadyQueue_push, lock in *. comp_unfold.
    destruct (base_ item) as [gid|]; simpl in *; [|done]. by rewrite Hlock.
  - intros item gid g Hbase Hg. unfold ReadyQueue_push. comp_unfold.
    rewrite Hbase, Hg. simpl. rewrite Hg. simpl.
    eexists. split; [done|]. simpl. split; [done|].
    by rewrite lookup_insert_eq.
  - intros item inc s' He Hpush.
    assert (Hheap : heap_of queue s' = [item]).
    { apply Hempty in He. unfold ReadyQueue_push in Hpush. comp_unfold.
      destruct inc.
      - destruct (base_ item) as [gid|]; [|done].
        destruct (graph_tasks (engine s) !! gid) as [g|] eqn:Hg; [|done].
        simpl in Hpush. rewrite Hg in Hpush. simpl in Hpush.
        injection Hpush as <-. simpl. rewrite lookup_insert_eq. simpl.
        by rewrite He.
      - injection Hpush as <-. simpl. rewrite lookup_insert_eq. simpl.
        by rewrite He. }
    unfold ReadyQueue_pop. rewrite Hheap. simpl.
    eexists. split; [done|]. unfold ReadyQueue_empty. simpl.
    by rewrite lookup_insert_eq.
Qed.

End ReadyQueueFacts.

(** On a fresh engine a pop waits, a push that counts for a graph task that
    does not exist fails, and a task pushed is the task popped. *)
Lemma ReadyQueue_push_pop_witness :
  let s := mkState ThreadLocals_init (Engine_new Simple.chain_fork) in
  let item := mkNodeTask None (Some Simple.A) [] false in
  ReadyQueue_pop 0%nat s = (s, Blocked)
  ∧ ReadyQueue_push 0%nat (mkNodeTask (Some 7%nat) None [] false) true s
    = (s, Exn internal_assert_failed)
  ∧ ∃ s' s'', ReadyQueue_push 0%nat item false s = (s', Ret ())
              ∧ ReadyQueue_pop 0%nat s' = (s'', Ret item)
              ∧ ReadyQueue_empty 0%nat (engine s'') = true.
Proof.
  intros s item.
  destruct (ReadyQueue_push_pop (L := Simple.tensors) 0%nat s)
    as (Hblocks & _ & Hpush & Hexpired & _ & Hround).
  split; [by apply Hblocks|]. split; [by apply Hexpired|].
  destruct (Hpush item) as [Hrun _].
  destruct (Hround item false _ eq_refl Hrun) as (s'' & Hpop & Hempty).
  eexists _, s''. split; [exact Hrun|]. by split.
Defined.

(** ** The counts and the buffers of a graph task *)

Section CountFacts.
Context {L : TensorLib}.
Variable can_checkpoint : GraphTask → bool.
Variable anomaly_enabled : bool.
Variable InputBuffer_device : InputBuffer → Device.

Lemma route_output_counts queues num_inputs gid output next
    (g : GraphTask) (pushes : list (QueueId * NodeTask)) g' pushes' o :
  route_output InputBuffer_device queues num_inputs gid output next
               (g, pushes) = ((g', pushes'), o) →
  counts_positive g →
  counts_positive g'
  ∧ (o = Ret () → buffers_counted g → buffers_counted g').
Proof.
  unfold route_output.
  destruct (function next) as [next_fn|]; [|by intros [= <- <- <-]].
  unfold decrement_dependency, modify_task, push_node_task. comp_unfold.
  simpl. intros Hrun Hpos.
  destruct (dependencies_ g !! next_fn) as [count|] eqn:Hcount;
    [|by injection Hrun as <- <- <-].
  assert (Hcount_pos := Hpos _ _ Hcount).
  assert (Hpos_delete : ∀ g0 : GraphTask,
            dependencies_ g0 = delete next_fn (dependencies_ g) →
            counts_positive g0).
  { intros g0 Hdeps n z. rewrite Hdeps. intros Hz.
    apply lookup_delete_Some in Hz as [_ Hz]. eauto. }
  assert (Hpos_insert : ∀ g0 : GraphTask,
            count - 1 ≠ 0 →
            dependencies_ g0 = <[next_fn := count - 1]> (dependencies_ g) →
            counts_positive g0).
  { intros g0 Hne Hdeps n z. rewrite Hdeps. intros Hz.
    apply lookup_insert_Some in Hz as [[_ <-]|[_ Hz]]; [lia|eauto]. }
  assert (Hbuf_delete : ∀ g0 : GraphTask,
            dependencies_ g0 = delete next_fn (dependencies_ g) →
            (∀ n, is_Some (not_ready_ g0 !! n) →
                  n ≠ next_fn ∧ is_Some (not_ready_ g !! n)) →
            buffers_counted g → buffers_counted g0).
  { intros g0 Hdeps Hnr Hbuf n Hn. apply Hnr in Hn as [Hne Hn].
    rewrite Hdeps, lookup_delete_ne by done. by apply Hbuf. }
  assert (Hbuf_insert : ∀ g0 : GraphTask,
            dependencies_ g0 = <[next_fn := count - 1]> (dependencies_ g) →
            (∀ n, is_Some (not_ready_ g0 !! n) →
                  n = next_fn ∨ is_Some (not_ready_ g !! n)) →
            buffers_counted g → buffers_counted g0).
  { intros g0 Hdeps Hnr Hbuf n Hn. rewrite Hdeps.
    destruct (decide (n = next_fn)) as [->|Hne].
    - rewrite lookup_insert_eq. eauto.
    - rewrite lookup_insert_ne by done. apply Hbuf.
      by destruct (Hnr n Hn). }
  destruct (decide (count - 1 = 0)) as [Hzero|Hnonzero]; simpl in Hrun.
  - destruct (not_ready_ g !! next_fn) as [buffer|] eqn:Hnr.
    + destruct (ready_queue _ _ _) as [queue|]; simpl in Hrun;
        injection Hrun as <- <- <-; simpl; (split; [by apply Hpos_delete|]);
        [|done].
      intros _. apply Hbuf_delete; [done|]. simpl. intros n Hn.
      destruct (decide (n = next_fn)) as [->|Hne].
      * rewrite lookup_delete_eq in Hn. by destruct Hn.
      * rewrite lookup_delete_ne in Hn by done.
        by rewrite lookup_insert_ne in Hn by done.
    + destruct (negb (bool_decide (exec_info_ g = ∅))
                && negb (lookup_should_execute (exec_info_ g) (Some next_fn)));
        simpl in Hrun.
      { injection Hrun as <- <- <-. split; [by apply Hpos_delete|].
        intros _. apply Hbuf_delete; [done|]. simpl. intros n Hn.
        split; [|done]. intros ->. rewrite Hnr in Hn. by destruct Hn. }
      destruct (ready_queue _ _ _) as [queue|]; simpl in Hrun;
        injection Hrun as <- <- <-; simpl; (split; [by apply Hpos_delete|]);
        [|done].
      intros _. apply Hbuf_delete; [done|]. simpl. intros n Hn.
      split; [|done]. intros ->. rewrite Hnr in Hn. by destruct Hn.
  - destruct (not_ready_ g !! next_fn) as [buffer|] eqn:Hnr.
    + injection Hrun as <- <- <-. simpl.
      split; [by apply Hpos_insert|]. intros _.
      apply Hbuf_insert; [done|]. simpl. intros n Hn.
      destruct (decide (n = next_fn)) as [->|Hne]; [by left|].
      right. by rewrite lookup_insert_ne in Hn by done.
    + destruct (negb (bool_decide (exec_info_ g = ∅))
                && negb (lookup_should_execute (exec_info_ g) (Some next_fn)));
        simpl in Hrun; injection Hrun as <- <- <-; simpl;
        (split; [by apply Hpos_insert|]); intros _;
        (apply Hbuf_insert; [done|]); simpl; intros n Hn.
      * by right.
      * destruct (decide (n = next_fn)) as [->|Hne]; [by left|].
        right. by rewrite lookup_insert_ne in Hn by done.
Qed.

Lemma route_outputs_counts queues num_inputs gid outputs :
  ∀ edges (g : GraphTask) (pushes : list (QueueId * NodeTask)) g' pushes' o,
    route_outputs InputBuffer_device queues num_inputs gid outputs edges
                  (g, pushes) = ((g', pushes'), o) →
    counts_positive g →
    counts_positive g'
    ∧ (o = Ret () → buffers_counted g → buffers_counted g').
Proof.
  induction outputs as [|output outputs IH];
    intros edges g pushes g' pushes' o; simpl.
  { by intros [= <- <- <-]. }
  destruct edges as [|next edges]; [by intros [= <- <- <-]|].
  unfold mbind at 1, Comp_bind at 1.
  destruct (route_output _ _ _ _ _ _ _) as [[g1 pushes1] o1] eqn:Hhead.
  intros Hrun Hpos.
  apply route_output_counts in Hhead as [Hpos1 Hbuf1]; [|done].
  destruct o1 as [[]| | | |]; try (injection Hrun as <- <- <-; by split).
  apply IH in Hrun as [Hpos' Hbuf']; [|done].
  split; [done|]. intros Ho Hbuf. by apply Hbuf', Hbuf1.
Qed.

Lemma compute_dependencies_loop_positive next_edges fuel :
  ∀ queue seen (dependencies dependencies' : gmap Node Z),
    compute_dependencies_loop next_edges fuel queue seen dependencies
    = Some dependencies' →
    (∀ n z, dependencies !! n = Some z → 0 < z) →
    ∀ n z, dependencies' !! n = Some z → 0 < z.
Proof.
  induction fuel as [|fuel IH]; intros queue seen deps deps'; simpl.
  - destruct queue; [|done]. by intros [= <-].
  - destruct queue as [|fn queue]; [by intros [= <-]|].
    destruct (foldl compute_dependencies_edge (queue, seen, deps)
                    (next_edges fn)) as [[queue1 seen1] deps1] eqn:Hfold.
    intros Hloop Hpos. eapply IH; [exact Hloop|].
    by eapply compute_dependencies_edges_positive.
Qed.

Lemma route_counts gid func outputs (s s' : State) o (g : GraphTask) :
  route InputBuffer_device gid func outputs s = (s', o) →
  graph_tasks (engine s) !! gid = Some g →
  counts_positive g →
  ∃ g', graph_tasks (engine s') !! gid = Some g'
        ∧ counts_positive g'
        ∧ (o = Ret () → buffers_counted g → buffers_counted g').
Proof.
  unfold route. intros Hrun Hg Hpos. rewrite Hg in Hrun.
  destruct (route_outputs _ _ _ _ _ _ _) as [[g' pushes] o'] eqn:Hroute.
  injection Hrun as <- <-. exists g'. simpl.
  rewrite commit_pushes_graph_tasks. simpl. rewrite lookup_insert_eq.
  split; [done|]. by eapply route_outputs_counts.
Qed.

Section Positive.
Variable gid : GraphTaskId.

(** The counts of the graph task, if it is alive, are positive. *)
Local Abbreviation positive :=
  (λ s : State, ∀ g, graph_tasks (engine s) !! gid = Some g →
                     counts_positive g).

Lemma positive_view (s s' : State) :
  view gid dependencies_ (λ _, ()) s' = view gid dependencies_ (λ _, ()) s →
  inv_rel positive s s'.
Proof.
  unfold view. intros [= Hdeps] Hpos g' Hg'. rewrite Hg' in Hdeps.
  destruct (graph_tasks (engine s) !! gid) as [g|] eqn:Hg; [|done].
  injection Hdeps as Hdeps. unfold counts_positive. rewrite Hdeps.
  by apply Hpos.
Qed.

Lemma route_positive gid0 func outputs :
  preserves (inv_rel positive) (route InputBuffer_device gid0 func outputs).
Proof.
  intros s s' o Hrun Hpos g' Hg'.
  destruct (decide (gid0 = gid)) as [->|Hne].
  - destruct (graph_tasks (engine s) !! gid) as [g|] eqn:Hg.
    + destruct (route_counts _ _ _ _ _ _ _ Hrun Hg (Hpos g eq_refl))
        as (g'' & Hg'' & Hpos'' & _).
      by replace g' with g'' by congruence.
    + unfold route in Hrun. rewrite Hg in Hrun. injection Hrun as <- <-.
      by rewrite Hg in Hg'.
  - apply Hpos. unfold route in Hrun.
    destruct (graph_tasks (engine s) !! gid0) as [g0|];
      [|by injection Hrun as <- <-].
    destruct (route_outputs _ _ _ _ _ _ _) as [[g0' pushes] o'].
    injection Hrun as <- <-. simpl in Hg'.
    rewrite commit_pushes_graph_tasks in Hg'. simpl in Hg'.
    by rewrite lookup_insert_ne in Hg' by done.
Qed.

Lemma thread_main_task_positive reentrant task :
  preserves (inv_rel positive)
    (thread_main_task can_checkpoint anomaly_enabled InputBuffer_device
                      reentrant task).
Proof.
  eapply thread_main_task_view with (gid := gid) (p := dependencies_)
    (pt := λ _ : list Event, ()) (loud := λ _ : Event, False);
    try done; [auto|apply _|apply positive_view|].
  intros gid0 func inputs.
  eapply evaluate_function_view with (gid := gid) (p := dependencies_)
    (pt := λ _ : list Event, ()) (loud := λ _ : Event, False);
    try done; [apply _|apply positive_view|auto|].
  intros outputs. apply route_positive.
Qed.

End Positive.

Lemma evaluate_function_counts gid func inputs (s s' : State)
    (g : GraphTask) :
  evaluate_function can_checkpoint anomaly_enabled InputBuffer_device
                    gid func inputs s = (s', Ret ()) →
  graph_tasks (engine s) !! gid = Some g →
  counts_positive g → buffers_counted g →
  ∃ g', graph_tasks (engine s') !! gid = Some g'
        ∧ counts_positive g' ∧ buffers_counted g'.
Proof.
  intros Hrun Hg Hpos Hbuf.
  set (p := λ g0 : GraphTask, (dependencies_ g0, not_ready_ g0)).
  set (R := unchanged (view gid p (λ _, ()))).
  assert (HR : ∀ s0 s1 : State,
            view gid p (λ _, ()) s1 = view gid p (λ _, ()) s0 →
                 R s0 s1) by done.
  assert (Hsame : ∀ s1 : State, R s s1 →
            ∃ g1, graph_tasks (engine s1) !! gid = Some g1
                  ∧ counts_positive g1 ∧ buffers_counted g1).
  { intros s1. unfold R, unchanged, view. rewrite Hg. simpl.
    intros [= Hp]. destruct (graph_tasks (engine s1) !! gid) as [g1|]; [|done].
    injection Hp as Hdeps Hnr. exists g1. split; [done|].
    unfold counts_positive, buffers_counted. by rewrite Hdeps, Hnr. }
  unfold evaluate_function in Hrun.
  apply bind_returns in Hrun as (skip & s1 & Hcapture & Hrun).
  assert (Hs1 : R s s1).
  { eapply (on_graph_task_view gid p (λ _, ()) R); [done| |exact Hcapture].
    by apply capture_inputs_keeps. }
  destruct skip; [injection Hrun as <-; by apply Hsame|].
  apply bind_returns in Hrun as (e & s1' & He & Hrun).
  injection He as <- <-.
  apply bind_returns in Hrun as (outputs & s2 & Hcall & Hrun).
  assert (Hs2 : R s s2).
  { etrans; [exact Hs1|].
    eapply (call_function_view can_checkpoint gid p (λ _, ()) (λ _, False)
              ltac:(done) R);
      [done| |exact Hcall]. auto. }
  destruct outputs as [|output outputs].
  - apply Hsame. etrans; [exact Hs2|].
    destruct (node_stream _); [|by injection Hrun as <-].
    eapply (on_graph_task_view gid p (λ _, ()) R); [done| |exact Hrun].
    by apply modify_keeps.
  - apply bind_returns in Hrun as ([] & s3 & Hnan & Hrun).
    assert (s3 = s2) as ->.
    { destruct anomaly_enabled; [|by injection Hnan as <-].
      unfold lift_result in Hnan. destruct (check_nan _ _ _);
        comp_unfold; by simplify_eq. }
    destruct (Hsame s2 Hs2) as (g2 & Hg2 & Hpos2 & Hbuf2).
    destruct (route_counts _ _ _ _ _ _ _ Hrun Hg2 Hpos2)
      as (g' & Hg' & Hpos' & Hbuf').
    exists g'. auto.
Qed.

(** X5: counting the dependencies leaves positive counts, and so do the
    routing of outputs and every iteration of a worker loop: a count that
    reaches zero is erased, never stored.  When the routing loop returns,
    and when [evaluate_function] returns, every node with a buffer in
    [not_ready_] still has a count: it waits for an input. *)
Theorem counts_stay_positive :
  (∀ next_edges fuel root (task task' : GraphTask),
     compute_dependencies next_edges fuel root task = Some task' →
     counts_positive task → counts_positive task')
  ∧ (∀ queues num_inputs gid outputs edges (g : GraphTask)
       (pushes : list (QueueId * NodeTask)) g' pushes' o,
       route_outputs InputBuffer_device queues num_inputs gid outputs edges
                     (g, pushes) = ((g', pushes'), o) →
       counts_positive g →
       counts_positive g'
       ∧ (o = Ret () → buffers_counted g → buffers_counted g'))
  ∧ (∀ gid func inputs (s s' : State) g,
       evaluate_function can_checkpoint anomaly_enabled InputBuffer_device
                         gid func inputs s = (s', Ret ()) →
       graph_tasks (engine s) !! gid = Some g →
       counts_positive g → buffers_counted g →
       ∃ g', graph_tasks (engine s') !! gid = Some g'
             ∧ counts_positive g' ∧ buffers_counted g')
  ∧ (∀ gid (s s' : State),
       (∀ g, graph_tasks (engine s) !! gid = Some g → counts_positive g) →
       rtc (worker_step can_checkpoint anomaly_enabled InputBuffer_device)
           s s' →
       ∀ g', graph_tasks (engine s') !! gid = Some g' → counts_positive g').
Proof.
  split; [|split; [|split]].
  - intros next_edges fuel root task task'. unfold compute_dependencies.
    destruct (compute_dependencies_loop _ _ _ _ _) as [deps|] eqn:Hloop;
      [|done].
    intros [= <-] Hpos n z. simpl.
    by eapply compute_dependencies_loop_positive.
  - intros. by eapply route_outputs_counts.
  - intros. by eapply evaluate_function_counts.
  - intros gid s s' Hpos Hsteps. revert Hpos.
    induction Hsteps as [|s1 s2 s3 Hstep _ IH]; [done|].
    destruct Hstep as (t & reentrant & task & o & Hstep).
    intros Hpos. apply IH.
    apply (thread_main_task_positive gid) in Hstep. by apply Hstep.
Qed.

End CountFacts.

(** On A → B → {C, D}: the counts computed for a fresh graph task are
    positive, and they stay so when the output of the graph root is routed
    to A, which leaves no buffer behind. *)
Lemma counts_stay_positive_witness :
  let fresh := GraphTask_new (L := Simple.tensors) false false 0
                             (Some 0%nat) in
  ∃ task' g' pushes',
    compute_dependencies SimpleGraph.next_edges 20 0%nat fresh = Some task'
    ∧ counts_positive task'
    ∧ route_outputs Simple.buffer_device [] (λ _, 1%nat) 0%nat
        [Simple.scalar 5] [Simple.edge_to Simple.A] (task', [])
      = ((g', pushes'), Ret ())
    ∧ counts_positive g' ∧ buffers_counted g'.
Proof.
  intros fresh.
  destruct (counts_stay_positive (L := Simple.tensors) Simple.exec_info_empty
              false Simple.buffer_device) as (Hcompute & Hroute & _ & _).
  destruct (compute_dependencies SimpleGraph.next_edges 20 0%nat fresh)
    as [task'|] eqn:Htask; [|by vm_compute in Htask].
  assert (Hpos : counts_positive task').
  { apply (Hcompute _ _ _ _ _ Htask). intros n z. unfold fresh. simpl.
    by rewrite lookup_empty. }
  assert (Hbuf : buffers_counted task').
  { vm_compute in Htask. injection Htask as <-. intros n [b Hb]. done. }
  destruct (route_outputs Simple.buffer_device [] (λ _, 1%nat) 0%nat
              [Simple.scalar 5] [Simple.edge_to Simple.A] (task', []))
    as [[g' pushes'] o] eqn:Hrun.
  assert (o = Ret ()) as ->.
  { vm_compute in Htask. injection Htask as <-. vm_compute in Hrun.
    by injection Hrun as <- <- <-. }
  exists task', g', pushes'. split; [done|]. split; [done|].
  split; [done|].
  destruct (Hroute _ _ _ _ _ _ _ _ _ _ Hrun Hpos) as [Hpos' Hbuf'].
  split; [done|]. by apply Hbuf'.
Defined.

(** ** The counter of outstanding tasks *)

Section BalanceFacts.
Context {L : TensorLib}.
Variable can_checkpoint : GraphTask → bool.
Variable anomaly_enabled : bool.
Variable InputBuffer_device : InputBuffer → Device.
Variable gid : GraphTaskId.

Local Abbreviation weight :=
  (λ task : NodeTask, if counts_for gid task then 1%nat else 0%nat).

(** The counter of the graph task minus the number of its tasks in the
    queues, as a 64-bit unsigned number. *)
Definition balance (s : State) : option Z :=
  g ← graph_tasks (engine s) !! gid;
  Some ((outstanding_tasks_ g - Z.of_nat (queued gid (engine s))) mod 2 ^ 64).

Lemma queued_insert (e : Engine) (queue : QueueId) (heap : list NodeTask) :
  (queued gid (with_ready_queues (<[queue := heap]> (ready_queues e)) e)
   + tasks_of gid (default [] (ready_queues e !! queue)))%nat
  = (queued gid e + tasks_of gid heap)%nat.
Proof.
  unfold queued. simpl.
  destruct (ready_queues e !! queue) as [old|] eqn:Hold; simpl.
  - rewrite <- (insert_delete_eq (ready_queues e)).
    rewrite (sum_list_with_Permutation_proper _ _ _
               (map_to_list_insert _ queue heap (lookup_delete_eq _ _))).
    rewrite <- (sum_list_with_Permutation_proper _ _ _
                  (map_to_list_delete _ queue old Hold)).
    simpl. lia.
  - rewrite (sum_list_with_Permutation_proper _ _ _
               (map_to_list_insert _ queue heap Hold)).
    simpl. lia.
Qed.

Lemma queued_heap_push (e : Engine) (queue : QueueId) (item : NodeTask) :
  queued gid (heap_push queue item e) = (queued gid e + weight item)%nat.
Proof.
  pose proof (queued_insert e queue
                (default [] (ready_queues e !! queue) ++ [item])) as H.
  unfold heap_push. unfold tasks_of in H.
  rewrite sum_list_with_app in H. simpl in H. lia.
Qed.

Lemma queued_pop queue (s s' : State) task :
  ReadyQueue_pop queue s = (s', Ret task) →
  queued gid (engine s) = (queued gid (engine s') + weight task)%nat.
Proof.
  unfold ReadyQueue_pop.
  destruct (heap_pop _ _) as [[task' heap']|] eqn:Hpop; [|done].
  intros [= <- <-]. simpl.
  apply heap_pop_lookup in Hpop as (i & Hi & ->).
  pose proof (queued_insert (engine s) queue
                (delete i (default [] (ready_queues (engine s) !! queue))))
    as H.
  assert (Hperm : tasks_of gid (default [] (ready_queues (engine s) !! queue))
                  = (weight task'
                     + tasks_of gid
                         (delete i (default []
                                      (ready_queues (engine s) !! queue))))%nat).
  { unfold tasks_of.
    by rewrite (sum_list_with_Permutation_proper _ _ _
                  (delete_Permutation _ _ _ Hi)). }
  lia.
Qed.

Local Abbreviation same_balance := (unchanged balance).

Lemma balance_same (s s' : State) :
  ready_queues (engine s') = ready_queues (engine s) →
  outstanding_tasks_ <$> graph_tasks (engine s') !! gid
  = outstanding_tasks_ <$> graph_tasks (engine s) !! gid →
  balance s' = balance s.
Proof.
  intros Hqueues Htasks. unfold balance, queued. rewrite Hqueues.
  destruct (graph_tasks (engine s') !! gid) as [g'|],
    (graph_tasks (engine s) !! gid) as [g|]; simplify_eq/=; [|done].
  by rewrite Htasks.
Qed.

Ltac balance_solve :=
  intros; apply balance_same; simpl; done.

Lemma on_graph_task_balance {A : Type} gid0 (m : Comp GraphTask A) :
  preserves (unchanged outstanding_tasks_) m →
  preserves same_balance (on_graph_task gid0 m).
Proof.
  intros Hm. apply preserves_on_graph_task; [apply _|].
  intros s g g' o Hg Hrun. apply balance_same; [done|]. simpl.
  destruct (decide (gid0 = gid)) as [->|Hne].
  - rewrite lookup_insert_eq, Hg. simpl. f_equal. by apply Hm in Hrun.
  - by rewrite lookup_insert_ne.
Qed.

Lemma modify_outstanding (h : GraphTask → GraphTask) :
  (∀ g, outstanding_tasks_ (h g) = outstanding_tasks_ g) →
  preserves (unchanged outstanding_tasks_) (modify h).
Proof. intros Hh. apply preserves_modify. intros g. apply Hh. Qed.

Lemma capture_inputs_outstanding func inputs :
  preserves (unchanged outstanding_tasks_) (capture_inputs func inputs).
Proof. unfold capture_inputs. repeat preserves_step; done. Qed.

Lemma set_exception_outstanding e :
  preserves (unchanged outstanding_tasks_) (set_exception e).
Proof. unfold set_exception. repeat preserves_step; done. Qed.

Lemma balance_incr (s : State) gid0 (g0 : GraphTask) queue item :
  graph_tasks (engine s) !! gid0 = Some g0 →
  base_ item = Some gid0 → isShutdownTask_ item = false →
  ∀ e', graph_tasks e' = <[gid0 := count_push g0]> (graph_tasks (engine s)) →
        ready_queues e' = ready_queues (heap_push queue item (engine s)) →
        balance (with_engine e' s) = balance s.
Proof.
  intros Hg0 Hbase Hshutdown e' Htasks Hqueues.
  assert (Hqueued : queued gid e'
                    = (queued gid (engine s) + weight item)%nat).
  { rewrite <- (queued_heap_push (engine s) queue item). unfold queued.
    by rewrite Hqueues. }
  unfold balance. simpl. rewrite Htasks, Hqueued.
  unfold counts_for. rewrite Hbase, Hshutdown. simpl.
  destruct (decide (gid0 = gid)) as [->|Hne].
  - rewrite lookup_insert_eq, Hg0. simpl. f_equal.
    rewrite bool_decide_eq_true_2 by done. unfold uint64_incr.
    rewrite Zminus_mod_idemp_l. f_equal. simpl. lia.
  - rewrite lookup_insert_ne by done.
    rewrite bool_decide_eq_false_2 by congruence.
    by rewrite Nat.add_0_r.
Qed.

Lemma ReadyQueue_push_balance queue item :
  isShutdownTask_ item = false →
  preserves same_balance (ReadyQueue_push queue item true).
Proof.
  intros Hshutdown s s' o. unfold ReadyQueue_push. comp_unfold.
  destruct (base_ item) as [gid0|] eqn:Hbase; [|by intros [= <- <-]].
  destruct (graph_tasks (engine s) !! gid0) as [g0|] eqn:Hg0;
    [|by intros [= <- <-]].
  simpl. rewrite Hg0. simpl. intros [= <- <-].
  by apply (balance_incr s gid0 g0 queue item).
Qed.

(** The tasks that the routing loop collects name the graph task, and the
    counter has grown by their number. *)
Lemma route_output_pushes queues num_inputs gid0 output next
    (g : GraphTask) (pushes : list (QueueId * NodeTask)) g' pushes' o :
  route_output InputBuffer_device queues num_inputs gid0 output next
               (g, pushes) = ((g', pushes'), o) →
  ∃ new, pushes' = pushes ++ new
         ∧ Forall (λ push, base_ push.2 = Some gid0
                           ∧ isShutdownTask_ push.2 = false) new
         ∧ outstanding_tasks_ g' mod 2 ^ 64
           = (outstanding_tasks_ g + Z.of_nat (length new)) mod 2 ^ 64.
Proof.
  assert (Hnone : ∀ g0 : GraphTask,
            outstanding_tasks_ g0 = outstanding_tasks_ g →
            ∃ new, pushes = pushes ++ new
                   ∧ Forall (λ push, base_ push.2 = Some gid0
                                     ∧ isShutdownTask_ push.2 = false) new
                   ∧ outstanding_tasks_ g0 mod 2 ^ 64
                     = (outstanding_tasks_ g + Z.of_nat (length new))
                       mod 2 ^ 64).
  { intros g0 Hg0. exists []. rewrite app_nil_r, Hg0. simpl.
    by rewrite Z.add_0_r. }
  assert (Hone : ∀ (g0 : GraphTask) queue fn buffer,
            outstanding_tasks_ g0 = uint64_incr (outstanding_tasks_ g) →
            ∃ new, pushes ++ [(queue, mkNodeTask (Some gid0) (Some fn) buffer
                                                 false)]
                   = pushes ++ new
                   ∧ Forall (λ push, base_ push.2 = Some gid0
                                     ∧ isShutdownTask_ push.2 = false) new
                   ∧ outstanding_tasks_ g0 mod 2 ^ 64
                     = (outstanding_tasks_ g + Z.of_nat (length new))
                       mod 2 ^ 64).
  { intros g0 queue fn buffer Hg0. eexists [_]. split; [done|].
    split; [by constructor|]. rewrite Hg0. unfold uint64_incr. simpl.
    by rewrite Z.mod_mod. }
  unfold route_output.
  destruct (function next) as [next_fn|];
    [|intros [= <- <- <-]; by apply Hnone].
  unfold decrement_dependency, modify_task, push_node_task. comp_unfold.
  simpl.
  destruct (dependencies_ g !! next_fn) as [count|];
    [|intros [= <- <- <-]; by apply Hnone].
  destruct (decide (count - 1 = 0)); simpl;
    destruct (not_ready_ g !! next_fn) as [buffer|]; simpl;
    try destruct (negb (bool_decide (exec_info_ g = ∅))
                  && negb (lookup_should_execute (exec_info_ g)
                                                 (Some next_fn)));
    simpl; try destruct (ready_queue _ _ _) as [queue|]; simpl;
    intros [= <- <- <-];
    first [by apply Hnone | by apply Hone].
Qed.

Lemma route_outputs_pushes queues num_inputs gid0 outputs :
  ∀ edges (g : GraphTask) (pushes : list (QueueId * NodeTask)) g' pushes' o,
    route_outputs InputBuffer_device queues num_inputs gid0 outputs edges
                  (g, pushes) = ((g', pushes'), o) →
    ∃ new, pushes' = pushes ++ new
           ∧ Forall (λ push, base_ push.2 = Some gid0
                             ∧ isShutdownTask_ push.2 = false) new
           ∧ outstanding_tasks_ g' mod 2 ^ 64
             = (outstanding_tasks_ g + Z.of_nat (length new)) mod 2 ^ 64.
Proof.
  assert (Hnone : ∀ (g : GraphTask) (pushes : list (QueueId * NodeTask)),
            ∃ new, pushes = pushes ++ new
                   ∧ Forall (λ push, base_ push.2 = Some gid0
                                     ∧ isShutdownTask_ push.2 = false) new
                   ∧ outstanding_tasks_ g mod 2 ^ 64
                     = (outstanding_tasks_ g + Z.of_nat (length new))
                       mod 2 ^ 64).
  { intros g pushes. exists []. rewrite app_nil_r. simpl.
    by rewrite Z.add_0_r. }
  induction outputs as [|output outputs IH];
    intros edges g pushes g' pushes' o; simpl.
  { intros [= <- <- <-]. apply Hnone. }
  destruct edges as [|next edges]; [intros [= <- <- <-]; apply Hnone|].
  unfold mbind at 1, Comp_bind at 1.
  destruct (route_output _ _ _ _ _ _ _) as [[g1 pushes1] o1] eqn:Hhead.
  apply route_output_pushes in Hhead as (new1 & -> & Hnew1 & Hcount1).
  intros Hrun.
  assert (Htail : ∃ new, pushes' = (pushes ++ new1) ++ new
            ∧ Forall (λ push, base_ push.2 = Some gid0
                              ∧ isShutdownTask_ push.2 = false) new
            ∧ outstanding_tasks_ g' mod 2 ^ 64
              = (outstanding_tasks_ g1 + Z.of_nat (length new)) mod 2 ^ 64).
  { destruct o1 as [[]| | | |]; try (injection Hrun as <- <- <-; apply Hnone).
    by apply IH in Hrun. }
  destruct Htail as (new2 & -> & Hnew2 & Hcount2).
  exists (new1 ++ new2). rewrite app_assoc. split; [done|].
  split; [by apply Forall_app|]. rewrite Hcount2, length_app.
  rewrite <- Zplus_mod_idemp_l, Hcount1, Zplus_mod_idemp_l.
  f_equal. lia.
Qed.

Lemma queued_commit gid0 (pushes : list (QueueId * NodeTask)) :
  ∀ e : Engine,
    queued gid (commit_pushes gid0 pushes e)
    = (queued gid e + sum_list_with (λ push, weight push.2) pushes)%nat.
Proof.
  unfold commit_pushes.
  induction pushes as [|push pushes IH]; intros e; simpl; [lia|].
  rewrite IH. unfold record_event.
  change (queued gid (with_trace ?t ?e0)) with (queued gid e0).
  rewrite queued_heap_push. lia.
Qed.

Lemma route_balance gid0 func outputs :
  preserves same_balance (route InputBuffer_device gid0 func outputs).
Proof.
  intros s s' o. unfold route.
  destruct (graph_tasks (engine s) !! gid0) as [g|] eqn:Hg;
    [|by intros [= <- <-]].
  destruct (route_outputs _ _ _ _ _ _ _) as [[g' pushes] o'] eqn:Hroute.
  intros [= <- <-].
  apply route_outputs_pushes in Hroute as (new & Hnew & Hall & Hcount).
  simpl in Hnew. subst new.
  unfold unchanged, balance. simpl.
  rewrite commit_pushes_graph_tasks, queued_commit. simpl.
  change (queued gid (with_graph_tasks ?m ?e0)) with (queued gid e0).
  destruct (decide (gid0 = gid)) as [->|Hne].
  - rewrite lookup_insert_eq, Hg. simpl. f_equal.
    assert (Hsum : sum_list_with (λ push : QueueId * NodeTask, weight push.2)
                                 pushes = length pushes).
    { clear Hcount. induction Hall as [|push pushes [Hbase Hsd] _ IH];
        [done|]. simpl. unfold counts_for.
      rewrite Hbase, Hsd, bool_decide_eq_true_2 by done. simpl.
      f_equal. apply IH. }
    rewrite Hsum, <- Zminus_mod_idemp_l, Hcount, Zminus_mod_idemp_l.
    f_equal. lia.
  - rewrite lookup_insert_ne by done.
    assert (Hsum : sum_list_with (λ push : QueueId * NodeTask, weight push.2)
                                 pushes = 0%nat).
    { clear Hcount. induction Hall as [|push pushes [Hbase Hsd] _ IH];
        [done|]. simpl. unfold counts_for.
      rewrite Hbase, bool_decide_eq_false_2 by congruence. simpl.
      apply IH. }
    by rewrite Hsum, Nat.add_0_r.
Qed.

Lemma call_function_balance gid0 func inputs :
  preserves same_balance (call_function can_checkpoint gid0 func inputs).
Proof. unfold call_function. repeat preserves_step; balance_solve. Qed.

Lemma evaluate_function_balance gid0 func inputs :
  preserves same_balance
    (evaluate_function can_checkpoint anomaly_enabled InputBuffer_device
                       gid0 func inputs).
Proof.
  unfold evaluate_function.
  repeat lazymatch goal with
         | |- preserves _ (on_graph_task _ _) =>
             apply on_graph_task_balance;
               first [apply capture_inputs_outstanding
                     |by apply modify_outstanding]
         | |- preserves _ (call_function _ _ _ _) =>
             apply call_function_balance
         | |- preserves _ (route _ _ _ _) => apply route_balance
         | _ => preserves_step
         end.
Qed.

Lemma mark_graph_task_completed_balance gid0 :
  preserves same_balance (mark_graph_task_completed gid0).
Proof.
  unfold mark_graph_task_completed, graph_task_exec_post_processing.
  repeat lazymatch goal with
         | |- preserves _ (on_graph_task _ _) =>
             apply on_graph_task_balance; by apply modify_outstanding
         | _ => preserves_step
         end.
Qed.

Lemma thread_main_completion_balance gid0 :
  preserves same_balance (thread_main_completion gid0).
Proof.
  unfold thread_main_completion.
  repeat lazymatch goal with
         | |- preserves _ (mark_graph_task_completed _) =>
             apply mark_graph_task_completed_balance
         | |- preserves _ (ReadyQueue_push _ _ _) =>
             by apply ReadyQueue_push_balance
         | _ => preserves_step
         end.
Qed.

Lemma balance_reduced (s : State) b :
  balance s = Some b → b mod 2 ^ 64 = b.
Proof.
  unfold balance. destruct (graph_tasks (engine s) !! gid); [|done].
  intros [= <-]. apply Z.mod_mod. lia.
Qed.

(** The body of the loop, when it returns, takes the popped task off the
    balance. *)
Lemma thread_main_task_balance reentrant task (s s' : State) control :
  thread_main_task can_checkpoint anomaly_enabled InputBuffer_device
                   reentrant task s = (s', Ret control) →
  balance s'
  = (λ b, (b - Z.of_nat (weight task)) mod 2 ^ 64) <$> balance s.
Proof.
  assert (Hsame : ∀ s0 : State,
            balance s0
            = (λ b, (b - Z.of_nat 0) mod 2 ^ 64) <$> balance s0).
  { intros s0. destruct (balance s0) as [b|] eqn:Hb; [|done]. simpl.
    f_equal. rewrite Z.sub_0_r. symmetry. by eapply balance_reduced. }
  unfold thread_main_task, counts_for.
  destruct (isShutdownTask_ task) eqn:Hshutdown.
  { intros [= <- <-]. rewrite andb_false_r. apply Hsame. }
  rewrite andb_true_r. intros Hrun.
  apply bind_returns in Hrun as (e & s0 & He & Hrun).
  injection He as <- <-.
  destruct (base_ task) as [gid0|] eqn:Hbase; cycle 1.
  { apply bind_returns in Hrun as ([] & s1 & Hassert & Hrun).
    injection Hrun as <- <-. unfold internal_assert in Hassert.
    destruct (negb reentrant); comp_unfold; simplify_eq.
    rewrite bool_decide_eq_false_2 by done. apply Hsame. }
  destruct (graph_tasks (engine s) !! gid0) as [g0|] eqn:Hg0; cycle 1.
  { apply bind_returns in Hrun as ([] & s1 & Hassert & Hrun).
    injection Hrun as <- <-. unfold internal_assert in Hassert.
    destruct (negb reentrant); comp_unfold; simplify_eq.
    case_bool_decide as Hgid; [|apply Hsame].
    injection Hgid as ->. unfold balance. by rewrite Hg0. }
  apply bind_returns in Hrun as ([] & s1 & Hbody & Hrun).
  apply bind_returns in Hrun as ([] & s2 & Hdecr & Hrun).
  assert (Hs1 : balance s1 = balance s).
  { destruct (fn_ task) as [fn|]; [|by injection Hbody as <-].
    destruct (negb (has_error_ g0)); [|by injection Hbody as <-].
    eapply (preserves_try_catch same_balance); [| |exact Hbody].
    - apply evaluate_function_balance.
    - intros e. unfold thread_on_exception.
      apply on_graph_task_balance, set_exception_outstanding. }
  apply thread_main_completion_balance in Hrun. rewrite Hrun.
  unfold on_graph_task in Hdecr.
  destruct (graph_tasks (engine s1) !! gid0) as [g1|] eqn:Hg1; [|done].
  injection Hdecr as <-. rewrite <- Hs1. unfold balance. simpl.
  change (queued gid (with_graph_tasks ?m ?e0)) with (queued gid e0).
  destruct (decide (gid0 = gid)) as [->|Hne].
  - rewrite lookup_insert_eq, Hg1. simpl. f_equal.
    rewrite bool_decide_eq_true_2 by done. unfold uint64_decr.
    rewrite Zminus_mod_idemp_l, Zminus_mod_idemp_l. f_equal. lia.
  - rewrite lookup_insert_ne by done.
    rewrite bool_decide_eq_false_2 by congruence. apply Hsame.
Qed.

Lemma ReadyQueue_pop_balance queue (s s' : State) task :
  ReadyQueue_pop queue s = (s', Ret task) →
  balance s'
  = (λ b, (b + Z.of_nat (weight task)) mod 2 ^ 64) <$> balance s.
Proof.
  intros Hpop. pose proof (queued_pop queue s s' task Hpop) as Hqueued.
  unfold ReadyQueue_pop in Hpop.
  destruct (heap_pop _ _) as [[task' heap']|]; [|done].
  injection Hpop as <- <-. unfold balance in *. simpl in *.
  change (queued gid (with_ready_queues ?m ?e0))
    with (queued gid (with_ready_queues m e0)) in *.
  destruct (graph_tasks (engine s) !! gid) as [g|]; [|done]. simpl. f_equal.
  rewrite Hqueued, Zplus_mod_idemp_l. f_equal. lia.
Qed.

Lemma balanced_balance (s0 : State) :
  balanced gid s0 ↔ (balance s0 = None ∨ balance s0 = Some 0).
Proof.
  unfold balanced, balance.
  destruct (graph_tasks (engine s0) !! gid) as [g|]; simpl;
    [|split; [by left|done]].
  split.
  - intros Hg. right. f_equal.
    rewrite Zminus_mod, (Hg g eq_refl), Z.sub_diag. done.
  - intros [|[= Hb]] g' [= <-]; [done|].
    replace (outstanding_tasks_ g)
      with ((outstanding_tasks_ g - Z.of_nat (queued gid (engine s0)))
            + Z.of_nat (queued gid (engine s0))) at 1 by lia.
    by rewrite Zplus_mod, Hb, Z.add_0_l, Z.mod_mod.
Qed.

Lemma worker_iteration_balanced queue reentrant (s s' : State) control :
  worker_iteration can_checkpoint anomaly_enabled InputBuffer_device
                   queue reentrant s = (s', Ret control) →
  balanced gid s → balanced gid s'.
Proof.
  unfold worker_iteration. intros Hrun Hbalanced.
  apply bind_returns in Hrun as (task & s1 & Hpop & Hrun).
  apply ReadyQueue_pop_balance in Hpop.
  apply thread_main_task_balance in Hrun. rewrite Hpop in Hrun.
  apply balanced_balance.
  apply balanced_balance in Hbalanced as [Hb|Hb]; rewrite Hb in Hrun;
    simpl in Hrun; [by left|right].
  rewrite Hrun. f_equal. rewrite Z.add_0_l, Zminus_mod_idemp_l.
  by rewrite Z.sub_diag.
Qed.

Lemma thread_main_loop_balanced fuel graph_task reentrant :
  ∀ s s' : State,
    thread_main_loop can_checkpoint anomaly_enabled InputBuffer_device
                     fuel graph_task reentrant s = (s', Ret ()) →
    balanced gid s → balanced gid s'.
Proof.
  induction fuel as [|fuel IH]; intros s s'; simpl; [done|].
  intros Hrun Hbalanced.
  apply bind_returns in Hrun as (again & s0 & Hagain & Hrun).
  assert (s0 = s) as ->.
  { destruct reentrant; [|by injection Hagain as <-].
    destruct graph_task as [gid0|]; [|done]. comp_unfold.
    destruct (graph_tasks (engine s) !! gid0); by simplify_eq. }
  destruct again; [|by injection Hrun as <-].
  apply bind_returns in Hrun as (t & s0 & Ht & Hrun).
  injection Ht as <- <-.
  destruct (local_ready_queue (tls s)) as [queue|]; [|done].
  apply bind_returns in Hrun as (task & s1 & Hpop & Hrun).
  apply bind_returns in Hrun as (control & s2 & Htask & Hrun).
  assert (Hs2 : balanced gid s2).
  { apply (worker_iteration_balanced queue reentrant s s2 control);
      [|done]. unfold worker_iteration. by rewrite (bind_eq _ _ _ _ _ Hpop). }
  destruct control; [by eapply IH|by injection Hrun as <-].
Qed.

(** X6: an iteration of a worker loop that returns leaves the counter of
    outstanding tasks of every live graph task equal, as a 64-bit unsigned
    number, to the number of its tasks in the ready queues, and so does the
    worker loop when it returns: the tasks that the routing loop pushes and
    the wake-up task are counted when they are pushed, and the popped task
    is taken off once its body is done, also when the node has thrown. *)
Theorem outstanding_tasks_balanced :
  (∀ queue reentrant (s s' : State) control,
     worker_iteration can_checkpoint anomaly_enabled InputBuffer_device
                      queue reentrant s = (s', Ret control) →
     balanced gid s → balanced gid s')
  ∧ (∀ fuel graph_task reentrant (s s' : State),
       thread_main_loop can_checkpoint anomaly_enabled InputBuffer_device
                        fuel graph_task reentrant s = (s', Ret ()) →
       balanced gid s → balanced gid s').
Proof.
  split.
  - apply worker_iteration_balanced.
  - intros. by eapply thread_main_loop_balanced.
Qed.

End BalanceFacts.

(** The driver of A → B → {C, D} with the output (B, 0) requested, about to
    pop the task of B: the counter is 1 and the task of B is the one task in
    the queues; the iteration on it returns with the counter at 0 and the
    queues empty. *)
Lemma outstanding_tasks_balanced_witness :
  let s := SimplePruned.before_B in
  let r := worker_iteration Simple.exec_info_empty false Simple.buffer_device
                            0%nat false s in
  balanced 0%nat s ∧ queued 0%nat (engine s) = 1%nat
  ∧ r.2 = Ret loop_break
  ∧ balanced 0%nat r.1 ∧ queued 0%nat (engine r.1) = 0%nat.
Proof.
  intros s r.
  destruct (outstanding_tasks_balanced (L := Simple.tensors)
              Simple.exec_info_empty false Simple.buffer_device 0%nat)
    as [Hiteration _].
  assert (Hs : balanced 0%nat s).
  { intros g Hg.
    assert (Htask : graph_tasks (engine s) !! (0%nat : GraphTaskId)
                    = Some SimplePruned.task_before_B)
      by (vm_compute; reflexivity).
    assert (g = SimplePruned.task_before_B) as -> by congruence.
    vm_compute. reflexivity. }
  assert (Hr : r.2 = Ret loop_break) by (vm_compute; reflexivity).
  split; [exact Hs|]. split; [vm_compute; reflexivity|].
  split; [exact Hr|]. split; [|vm_compute; reflexivity].
  apply (Hiteration 0%nat false s r.1 loop_break); [|exact Hs].
  rewrite <- Hr. apply surjective_pairing.
Defined.

(** ** [checkpoint_valid] across the call of a node *)

Section CheckpointFacts.
Context {L : TensorLib}.
Variable can_checkpoint : GraphTask → bool.

(** X7: [call_function] lowers [checkpoint_valid] to
    [can_checkpoint() && checkpoint_valid] for the call of the node and
    assigns the previous value back once the outputs are validated: it
    leaves the thread-locals as they were when it returns, it never turns
    [checkpoint_valid] from false to true and touches no other thread-local,
    and when the node throws, the flag stays lowered, since no guard restores
    it. *)
Theorem call_function_checkpoint_valid gid func inputs (s : State) :
  (∀ s' outputs,
     call_function can_checkpoint gid func inputs s = (s', Ret outputs) →
     tls s' = tls s)
  ∧ (∀ s' o,
       call_function can_checkpoint gid func inputs s = (s', o) →
       set_checkpoint_valid (checkpoint_valid (tls s)) (tls s') = tls s
       ∧ (checkpoint_valid (tls s') = true →
          checkpoint_valid (tls s) = true))
  ∧ (∀ g inputs' e,
       graph_tasks (engine s) !! gid = Some g →
       call_pre_hooks (node_pre_hooks (nodes (engine s) func))
                      (InputBuffer_variables inputs) = Ok inputs' →
       node_apply (nodes (engine s) func) inputs' = Throw e →
       ∃ s', call_function can_checkpoint gid func inputs s = (s', Exn e)
             ∧ checkpoint_valid (tls s')
               = can_checkpoint g && checkpoint_valid (tls s)
             ∧ trace_ (engine s')
               = trace_ (engine s) ++ [ev_apply gid func]).
Proof.
  assert (Hid : ∀ t : ThreadLocals,
            set_checkpoint_valid (checkpoint_valid t) t = t)
    by (by intros []).
  assert (Hany : ∀ s' o,
            call_function can_checkpoint gid func inputs s = (s', o) →
            (set_checkpoint_valid (checkpoint_valid (tls s)) (tls s') = tls s
             ∧ (checkpoint_valid (tls s') = true →
                checkpoint_valid (tls s) = true))
            ∧ (∀ outputs, o = Ret outputs → tls s' = tls s)).
  { intros s' o. unfold call_function. comp_unfold.
    destruct (graph_tasks (engine s) !! gid) as [g|]; simpl;
      [|intros [= <- <-]; by rewrite Hid].
    assert (Hlowered :
              set_checkpoint_valid (checkpoint_valid (tls s))
                (set_checkpoint_valid
                   (can_checkpoint g && checkpoint_valid (tls s)) (tls s))
              = tls s
              ∧ (can_checkpoint g && checkpoint_valid (tls s) = true →
                 checkpoint_valid (tls s) = true)).
    { split; [by destruct (tls s)|].
      by intros [_ ?]%andb_true_iff. }
    destruct (call_pre_hooks _ _) as [inputs'|]; simpl;
      [|intros [= <- <-]; simpl; split; [exact Hlowered|done]].
    destruct (node_apply _ inputs') as [outputs|]; simpl;
      [|intros [= <- <-]; simpl; split; [exact Hlowered|done]].
    destruct (validate_outputs _ _ _) as [outputs'|]; simpl;
      [|intros [= <- <-]; simpl; split; [exact Hlowered|done]].
    destruct (node_post_hooks _); [|destruct (call_post_hooks _ _ _)];
      intros [= <- <-]; simpl; by destruct (tls s). }
  split; [|split].
  - intros s' outputs Hrun. by eapply Hany.
  - intros s' o Hrun. by eapply Hany.
  - intros g inputs' e Hg Hpre Happly. unfold call_function. comp_unfold.
    rewrite Hg. simpl. rewrite Hpre. simpl. rewrite Happly. simpl.
    eexists. split; [done|]. done.
Qed.

End CheckpointFacts.

(** In the graph A → {B, C} in which B throws, for a graph task that cannot
    checkpoint: the call of C returns with the thread-locals as they were,
    and the call of B throws and leaves [checkpoint_valid] at false. *)
Lemma call_function_checkpoint_valid_witness :
  let s := Simple.failed_state in
  is_checkpoint_valid (tls s) = true
  ∧ (∃ s', call_function (λ _, false) 0%nat Simple.C [Some (Simple.scalar 1)]
                         s = (s', Ret [])
           ∧ tls s' = tls s)
  ∧ ∃ s', call_function (λ _, false) 0%nat Simple.B [Some (Simple.scalar 1)]
                        s = (s', Exn Simple.boom)
          ∧ is_checkpoint_valid (tls s') = false.
Proof.
  intros s.
  destruct (call_function_checkpoint_valid (L := Simple.tensors) (λ _, false)
              0%nat Simple.C [Some (Simple.scalar 1)] s) as (Hret & _ & _).
  destruct (call_function_checkpoint_valid (L := Simple.tensors) (λ _, false)
              0%nat Simple.B [Some (Simple.scalar 1)] s) as (_ & _ & Hthrow).
  split; [reflexivity|]. split.
  - eexists. split; [vm_compute; reflexivity|].
    eapply Hret. vm_compute. reflexivity.
  - destruct (Hthrow Simple.failed_task [Simple.scalar 1] Simple.boom)
      as (s' & Hrun & Hflag & _); [reflexivity..|].
    exists s'. split; [exact Hrun|]. exact Hflag.
Defined.

(** ** Completion of a graph task *)

Section CompletionMore.
Context {L : TensorLib}.
Variable can_checkpoint : GraphTask → bool.
Variable anomaly_enabled : bool.
Variable InputBuffer_device : InputBuffer → Device.


Lemma mark_graph_task_completed_pending gid (s : State) (g : GraphTask) :
  graph_tasks (engine s) !! gid = Some g →
  completed (future_result_ g) = false →
  not_ready_ g = ∅ →
  mark_graph_task_completed gid s
  = (put_graph_task gid
       (with_future_result
          (match run_callbacks (final_callbacks_ (engine s)) with
           | Ok _ => Completed (captured_vars_ g)
           | Throw e => Errored e
           end) g) s, Ret ()).
Proof.
  intros Hg Hfuture Hnr.
  unfold mark_graph_task_completed, graph_task_exec_post_processing,
    try_catch.
  comp_unfold. rewrite Hg. simpl. rewrite Hfuture. rewrite Hg. simpl.
  rewrite Hnr, bool_decide_eq_true_2 by done. simpl.
  destruct (run_callbacks _) as [[]|e]; simpl; rewrite Hg; simpl;
    by rewrite ?Hg.
Qed.


End CompletionMore.


(** ** Completion of a graph task by another worker *)


Section WakeUpFacts.
Context {L : TensorLib}.
Variable can_checkpoint : GraphTask → bool.
Variable anomaly_enabled : bool.
Variable InputBuffer_device : InputBuffer → Device.

(** The dummy task that wakes the owner of a graph task. *)
Local Abbreviation wake_up gid :=
  (mkNodeTask (Some gid) None (InputBuffer_new 0) false).

(** X9: a worker that is not the owner and finds the last task of a graph
    task done completes the future with the captured variables and pushes a
    dummy task on the CPU queue of the graph task, which counts as one
    outstanding task; the owner, waiting on that queue, pops the dummy task,
    takes it off the counter and leaves its loop, and the graph task is then
    as it was before the completion but for its future. *)
Theorem owner_woken_after_completion gid queue (s : State) (g : GraphTask)
    (owner : ThreadLocals) :
  graph_tasks (engine s) !! gid = Some g →
  outstanding_tasks_ g = 0 →
  future_result_ g = Pending →
  not_ready_ g = ∅ →
  run_callbacks (final_callbacks_ (engine s)) = Ok () →
  owner_ g = CPU_DEVICE →
  cpu_ready_queue_ g = Some queue →
  worker_device (tls s) ≠ CPU_DEVICE →
  ReadyQueue_empty queue (engine s) = true →
  worker_device owner = CPU_DEVICE →
  let g' := with_future_result (Completed (captured_vars_ g)) g in
  ∃ s1 s2,
    thread_main_completion gid s = (s1, Ret loop_continue)
    ∧ graph_tasks (engine s1) !! gid
      = Some (with_outstanding_tasks 1 g')
    ∧ ready_queues (engine s1) !! queue = Some [wake_up gid]
    ∧ worker_iteration can_checkpoint anomaly_enabled InputBuffer_device
                       queue false (with_tls owner s1)
      = (s2, Ret loop_break)
    ∧ graph_tasks (engine s2) !! gid = Some g'
    ∧ ready_queues (engine s2) !! queue = Some []
    ∧ applied gid (trace_ (engine s2)) = applied gid (trace_ (engine s)).
Proof.
  intros Hg Hout Hfuture Hnr Hcb Howner Hqueue Hworker Hempty Howner_device g'.
  assert (Hheap : default [] (ready_queues (engine s) !! queue) = []).
  { unfold ReadyQueue_empty in Hempty.
    by destruct (default [] (ready_queues (engine s) !! queue)). }
  assert (Hg' : with_outstanding_tasks 0 g' = g').
  { subst g'. destruct g. simpl in *. by subst. }
  eexists _, _.
  split.
  { unfold thread_main_completion.
    erewrite bind_eq; [|unfold get_graph_task; by rewrite Hg].
    unfold graph_task_completed. rewrite Hout. simpl.
    erewrite bind_eq; cycle 1.
    { erewrite bind_eq;
        [|apply mark_graph_task_completed_pending;
          [done|by rewrite Hfuture|done]].
      rewrite Hcb. comp_unfold. simpl.
      by rewrite bool_decide_eq_false_2. }
    unfold ReadyQueue_push, ready_queue_by_index. comp_unfold. simpl.
    rewrite lookup_insert_eq. simpl. rewrite Howner.
    rewrite bool_decide_eq_true_2 by congruence. simpl.
    rewrite Hqueue. comp_unfold. simpl.
    rewrite lookup_insert_eq. simpl. rewrite lookup_insert_eq. simpl.
    reflexivity. }
  simpl. rewrite !lookup_insert_eq, !insert_insert_eq.
  split.
  { f_equal. unfold count_push, uint64_incr. simpl. rewrite Hout. done. }
  rewrite Hheap. split; [done|].
  split.
  { unfold worker_iteration, ReadyQueue_pop. comp_unfold. simpl.
    rewrite lookup_insert_eq. simpl. rewrite Hheap. simpl.
    unfold thread_main_task. simpl. comp_unfold. simpl.
    rewrite lookup_insert_eq. simpl. rewrite lookup_insert_eq. simpl.
    unfold thread_main_completion, mark_graph_task_completed,
      graph_task_completed. comp_unfold. simpl.
    rewrite lookup_insert_eq. simpl. rewrite Hout. simpl.
    rewrite lookup_insert_eq. simpl.
    rewrite bool_decide_eq_true_2 by done. reflexivity. }
  simpl. rewrite !lookup_insert_eq.
  split.
  { f_equal. unfold decrement_outstanding_tasks, count_push, uint64_decr,
      uint64_incr. simpl. rewrite Hout. simpl. exact Hg'. }
  split; [done|]. by rewrite applied_push.
Qed.

End WakeUpFacts.

(** A device worker completes graph task 0 of a CPU driver whose queue is
    empty. *)
Lemma owner_woken_after_completion_witness :
  let g := with_owner CPU_DEVICE
             (with_captured_vars [Simple.scalar 7]
                (GraphTask_new false false 0 (Some 0%nat))) in
  let s := mkState (set_worker_device 0 ThreadLocals_init)
             (with_graph_tasks {[ 0%nat := g ]}
                (Engine_new Simple.failing)) in
  let owner := set_local_ready_queue (Some 0%nat)
                 (set_worker_device CPU_DEVICE ThreadLocals_init) in
  (graph_tasks (engine s) !! 0%nat = Some g
   ∧ outstanding_tasks_ g = 0
   ∧ worker_device (tls s) ≠ CPU_DEVICE
   ∧ ReadyQueue_empty 0%nat (engine s) = true)
  ∧ ∃ s1 s2,
      thread_main_completion 0%nat s = (s1, Ret loop_continue)
      ∧ worker_iteration Simple.exec_info_empty false Simple.buffer_device
                         0%nat false (with_tls owner s1)
        = (s2, Ret loop_break)
      ∧ graph_tasks (engine s2) !! 0%nat
        = Some (with_future_result (Completed [Simple.scalar 7]) g).
Proof.
  intros g s owner.
  assert (Hworker : worker_device (tls s) ≠ CPU_DEVICE)
    by (vm_compute; discriminate).
  split; [by repeat split|].
  destruct (owner_woken_after_completion Simple.exec_info_empty false
              Simple.buffer_device 0%nat 0%nat s g owner eq_refl eq_refl
              eq_refl eq_refl eq_refl eq_refl eq_refl Hworker eq_refl
              eq_refl)
    as (s1 & s2 & Hcompletion & _ & _ & Hiteration & Hg & _).
  exists s1, s2. split; [exact Hcompletion|]. split; [exact Hiteration|].
  exact Hg.
Defined.

(** ** What [execute] leaves behind *)

Section ExecuteCallbacks.
Context {L : TensorLib}.
Variable can_checkpoint : GraphTask → bool.
Variable anomaly_enabled : bool.
Variable InputBuffer_device : InputBuffer → Device.
Variable num_devices : nat.

Local Abbreviation execute_ :=
  (execute can_checkpoint anomaly_enabled InputBuffer_device num_devices).

Lemma make_graph_task_fresh keep_graph create_graph (s s' : State) o :
  make_graph_task keep_graph create_graph s = (s', o) →
  (∃ g, o = Ret (next_graph_task (engine s))
        ∧ graph_tasks (engine s')
          = <[next_graph_task (engine s) := g]> (graph_tasks (engine s)))
  ∨ ((∀ gid, o ≠ Ret gid) ∧ graph_tasks (engine s') = graph_tasks (engine s)).
Proof.
  unfold make_graph_task, new_ready_queue, init_local_ready_queue,
    new_graph_task. comp_unfold.
  destruct (bool_decide (worker_device (tls s) ≠ NO_DEVICE)); simpl.
  - intros [= <- <-]. left. eexists. split; [done|]. done.
  - destruct (local_ready_queue (tls s)); simpl.
    + intros [= <- <-]. right. done.
    + intros [= <- <-]. left. eexists. split; [done|]. done.
Qed.

(** X10: [execute] validates the gradients of the roots before it touches
    the engine: when the validation throws, the state is as before, the
    queued callbacks included.  When it passes, the callbacks queued before
    the call are dropped without being run, also in a reentrant call, so
    that the call behaves as on an engine without them; and whenever the
    call returns or throws, no callback is left and the graph task it made
    is released. *)
Theorem execute_discards_callbacks fuel graph_root roots inputs keep_graph
    create_graph outputs (s : State) :
  let validated :=
    validate_outputs (λ n, node_input_metadata (nodes (engine s) n))
                     roots inputs in
  (∀ e, validated = Throw e →
     execute_ fuel graph_root roots inputs keep_graph create_graph outputs s
     = (s, Exn e))
  ∧ (is_throw validated = false →
     execute_ fuel graph_root roots inputs keep_graph create_graph outputs s
     = execute_ fuel graph_root roots inputs keep_graph create_graph outputs
                (clear_callbacks s))
  ∧ (∀ s' o,
       is_throw validated = false →
       execute_ fuel graph_root roots inputs keep_graph create_graph outputs s
       = (s', o) →
       (∃ v, o = Ret v) ∨ (∃ e, o = Exn e) →
       final_callbacks_ (engine s') = []
       ∧ (graph_tasks (engine s) !! next_graph_task (engine s) = None →
          graph_tasks (engine s') !! next_graph_task (engine s) = None)).
Proof.
  intros validated. subst validated. unfold execute.
  split; [|split].
  - intros e He. comp_unfold. by rewrite He.
  - intros Hok. comp_unfold. simpl.
    destruct (validate_outputs _ roots inputs) as [inputs'|]; [|done].
    simpl. done.
  - intros s' o Hok. comp_unfold.
    destruct (validate_outputs _ roots inputs) as [inputs'|]; [|done].
    simpl. unfold finally at 1.
    destruct (make_graph_task keep_graph create_graph (clear_callbacks s))
      as [s1 o1] eqn:Hmake.
    apply make_graph_task_fresh in Hmake as [(g & -> & Hs1)|[Hne Hs1]].
    + simpl. unfold finally.
      destruct (analyse_graph _ _ _ _ _ _ s1) as [s2 o2].
      assert (Hreleased : ∀ (s0 : State) o0,
                (∃ v, o = Ret v) ∨ (∃ e, o = Exn e) →
                match o0 with
                | Ret a =>
                    (clear_callbacks
                       (release_graph_task (next_graph_task (engine s)) s0),
                     Ret a)
                | Exn e =>
                    (clear_callbacks
                       (release_graph_task (next_graph_task (engine s)) s0),
                     Exn e)
                | Blocked => (s0, Blocked)
                | Undefined => (s0, Undefined)
                | OutOfFuel => (s0, OutOfFuel)
                end = (s', o) →
                final_callbacks_ (engine s') = []
                ∧ (graph_tasks (engine s) !! next_graph_task (engine s) = None
                   → graph_tasks (engine s') !! next_graph_task (engine s)
                     = None)).
      { intros s0 o0 Ho. destruct o0; intros [= <- <-];
          try (by destruct Ho as [[v [=]]|[e [=]]]);
          simpl; (split; [done|]); intros _; apply lookup_delete_eq. }
      destruct o2 as [[]| | | |].
      * destruct (execute_with_graph_task _ _ _ _ _ _ _ s2) as [s3 o3].
        intros Hrun Ho. apply (Hreleased s3 o3 Ho).
        by destruct o3.
      * intros Hrun Ho. by apply (Hreleased s2 (Exn e) Ho).
      * intros Hrun Ho. by apply (Hreleased s2 Blocked Ho).
      * intros Hrun Ho. by apply (Hreleased s2 Undefined Ho).
      * intros Hrun Ho. by apply (Hreleased s2 OutOfFuel Ho).
    + destruct o1 as [gid| | | |]; [by destruct (Hne gid)|..];
        intros [= <- <-]; intros [[v [=]]|[e' [=]]].
      simpl. split; [done|]. by rewrite Hs1.
Qed.

End ExecuteCallbacks.

(** A callback queued before the call would throw; the call returns the
    gradient all the same and leaves neither callback nor graph task. *)
Lemma execute_discards_callbacks_witness :
  let run := execute Simple.exec_info_empty false Simple.buffer_device 0 20
               0%nat [Simple.edge_to Simple.A] [Simple.scalar 5] false false
               [Simple.edge_to Simple.B] in
  let s0 := mkState ThreadLocals_init
              (queue_callback (Throw Simple.boom)
                 (Engine_new Simple.chain_fork)) in
  final_callbacks_ (engine s0) = [Throw Simple.boom]
  ∧ (run s0).2 = Ret [Simple.scalar 10]
  ∧ run s0 = run (clear_callbacks s0)
  ∧ final_callbacks_ (engine (run s0).1) = []
  ∧ graph_tasks (engine (run s0).1) !! 0%nat = None.
Proof.
  intros run s0.
  assert (Hret : (run s0).2 = Ret [Simple.scalar 10])
    by (vm_compute; reflexivity).
  assert (Hrun : run s0 = ((run s0).1, Ret [Simple.scalar 10]))
    by (rewrite <- Hret; apply surjective_pairing).
  destruct (execute_discards_callbacks Simple.exec_info_empty false
              Simple.buffer_device 0 20 0%nat [Simple.edge_to Simple.A]
              [Simple.scalar 5] false false [Simple.edge_to Simple.B] s0)
    as (_ & Hclear & Hleft).
  split; [reflexivity|]. split; [exact Hret|].
  split; [exact (Hclear eq_refl)|].
  destruct (Hleft _ _ eq_refl Hrun (or_introl (ex_intro _ _ eq_refl)))
    as [Hcallbacks Hreleased].
  split; [exact Hcallbacks|]. exact (Hreleased eq_refl).
Defined.

(** ** The queues and the threads of the devices *)

Section DeviceQueues.
Context {L : TensorLib}.
Variable num_devices : nat.

Lemma fresh_queues_lookup (queues : list QueueId)
    (m : gmap QueueId (list NodeTask)) q :
  foldl (λ m queue, <[queue := []]> m) m queues !! q
  = if decide (q ∈ queues) then Some [] else m !! q.
Proof.
  revert m. induction queues as [|q' queues IH]; intros m; cbn [foldl].
  { rewrite decide_False by set_solver. done. }
  rewrite IH. destruct (decide (q ∈ queues)) as [Hin|Hin].
  - rewrite decide_True by set_solver. done.
  - destruct (decide (q = q')) as [->|Hne].
    + rewrite decide_True by set_solver. apply lookup_insert_eq.
    + rewrite decide_False by set_solver. by apply lookup_insert_ne.
Qed.

Lemma vector_at_seq (start len : nat) (i : Z) :
  vector_at (seq start len) i
  = if decide (0 ≤ i < Z.of_nat len) then Ok (start + Z.to_nat i)%nat
    else Throw out_of_range.
Proof.
  unfold vector_at. destruct (decide (0 ≤ i)) as [Hi|Hi].
  - destruct (decide (i < Z.of_nat len)) as [Hlt|Hge].
    + rewrite decide_True by lia. rewrite lookup_seq_lt by lia. done.
    + rewrite decide_False by lia. rewrite lookup_seq_ge by lia. done.
  - rewrite decide_False by lia. done.
Qed.

(** X11: the first [call_once] on [start_device_threads] makes one empty
    queue and one thread per device index, and a second one changes
    nothing.  From then on the queue that [ready_queue_by_index] and
    [ready_queue] find for a device index below the number of devices is the
    queue of the thread started for that index, and different indices have
    different queues; any other index but the one of the CPU is out of
    range.  The queues that existed are left as they were.  On a machine
    without devices [ready_queue_size] keeps returning 0. *)
Theorem device_queues_lookup (s : State) (g : GraphTask) :
  start_device_threads_flag_ (engine s) = false →
  ∃ s',
    call_once_start_device_threads num_devices s = (s', Ret ())
    ∧ call_once_start_device_threads num_devices s' = (s', Ret ())
    ∧ (∀ i : nat, (i < num_devices)%nat →
         ∃ queue,
           ready_queue_by_index (device_ready_queues_ (engine s')) g
                                (Z.of_nat i) = Ok queue
           ∧ (∀ ty, ty ≠ kCPU →
                ready_queue (device_ready_queues_ (engine s')) g
                            (mkDevice ty (Z.of_nat i)) = Ok queue)
           ∧ device_thread (Z.of_nat i) queue ∈ spawned_ (engine s')
           ∧ ReadyQueue_empty queue (engine s') = true
           ∧ ∀ j : nat,
               ready_queue_by_index (device_ready_queues_ (engine s')) g
                                    (Z.of_nat j) = Ok queue → j = i)
    ∧ (∀ i, i ≠ CPU_DEVICE → i < 0 ∨ Z.of_nat num_devices ≤ i →
         ready_queue_by_index (device_ready_queues_ (engine s')) g i
         = Throw out_of_range
         ∧ ∀ ty, ty ≠ kCPU →
             ready_queue (device_ready_queues_ (engine s')) g (mkDevice ty i)
             = Throw out_of_range)
    ∧ (∀ queue, (queue < next_ready_queue (engine s))%nat →
         ready_queues (engine s') !! queue = ready_queues (engine s) !! queue)
    ∧ (num_devices = 0%nat →
       ∀ device, ready_queue_size g device (engine s') = Ok 0%nat).
Proof.
  intros Hflag. eexists. split.
  { unfold call_once_start_device_threads, modify_engine, modify.
    by rewrite Hflag. }
  split; [done|]. simpl.
  split; [|split; [|split]].
  - intros i Hi. exists (next_ready_queue (engine s) + i)%nat.
    assert (Hat : vector_at (seq (next_ready_queue (engine s)) num_devices)
                            (Z.of_nat i)
                  = Ok (next_ready_queue (engine s) + i)%nat).
    { rewrite vector_at_seq, decide_True by lia. by rewrite Nat2Z.id. }
    split; [|split; [|split; [|split]]].
    + unfold ready_queue_by_index.
      rewrite decide_False by (unfold CPU_DEVICE; lia). exact Hat.
    + intros ty Hty. unfold ready_queue. simpl.
      rewrite decide_False by done. exact Hat.
    + apply elem_of_app. right. apply list_elem_of_lookup. exists i.
      rewrite list_lookup_imap, lookup_seq_lt by done. done.
    + unfold ReadyQueue_empty. simpl. rewrite fresh_queues_lookup.
      rewrite decide_True; [done|]. apply elem_of_seq. lia.
    + intros j. unfold ready_queue_by_index.
      rewrite decide_False by (unfold CPU_DEVICE; lia).
      rewrite vector_at_seq. destruct (decide _); [|done].
      rewrite Nat2Z.id. intros [= Hj]. lia.
  - intros i Hcpu Hrange. split.
    + unfold ready_queue_by_index. rewrite decide_False by done.
      rewrite vector_at_seq, decide_False by lia. done.
    + intros ty Hty. unfold ready_queue. simpl.
      rewrite decide_False by done.
      rewrite vector_at_seq, decide_False by lia. done.
  - intros queue Hqueue. rewrite fresh_queues_lookup.
    rewrite decide_False; [done|]. rewrite elem_of_seq. lia.
  - intros -> device. unfold ready_queue_size. simpl. done.
Qed.

End DeviceQueues.

Section DeviceThreads.
Context {L : TensorLib}.
Variable can_checkpoint : GraphTask → bool.
Variable anomaly_enabled : bool.
Variable InputBuffer_device : InputBuffer → Device.
Variable num_devices : nat.

Local Abbreviation thread_init_ :=
  (thread_init can_checkpoint anomaly_enabled InputBuffer_device).
Local Abbreviation thread_main_loop_ :=
  (thread_main_loop can_checkpoint anomaly_enabled InputBuffer_device).

Lemma thread_main_loop_waits fuel (s : State) queue :
  local_ready_queue (tls s) = Some queue →
  ReadyQueue_empty queue (engine s) = true →
  thread_main_loop_ (S fuel) None false s = (s, Blocked).
Proof.
  intros Hlocal Hempty. simpl. comp_unfold. rewrite Hlocal.
  unfold ReadyQueue_pop, ReadyQueue_empty in *.
  by destruct (default [] (ready_queues (engine s) !! queue)).
Qed.

Lemma thread_main_loop_shutdown fuel (s : State) queue :
  local_ready_queue (tls s) = Some queue →
  ready_queues (engine s) !! queue
  = Some [mkNodeTask None None (InputBuffer_new 0) true] →
  thread_main_loop_ (S fuel) None false s
  = (with_engine
       (with_ready_queues (<[queue := []]> (ready_queues (engine s)))
                          (engine s)) s, Ret ()).
Proof.
  intros Hlocal Hheap. simpl. comp_unfold. rewrite Hlocal.
  unfold ReadyQueue_pop. rewrite Hheap. simpl. done.
Qed.

Lemma filter_eq_NoDup (queues : list QueueId) queue :
  NoDup queues → queue ∈ queues → filter (λ x, x = queue) queues = [queue].
Proof.
  induction 1 as [|q queues Hq Hnodup IH]; [set_solver|].
  intros Hin. destruct (decide (q = queue)) as [->|Hne].
  - rewrite filter_cons_True by done. f_equal.
    apply filter_eq_not_elem_of. done.
  - rewrite filter_cons_False by done. apply IH. set_solver.
Qed.

(** X12: the thread that [start_device_threads] starts for a device takes
    the index of the device as its [worker_device] and the queue of the
    device as its [local_ready_queue], and waits on that queue, which is
    empty.  When the destructor of the engine has run, the waiting thread
    pops a shutdown task and returns.  [thread_init] for the CPU fails its
    internal assertion before it touches the thread-locals. *)
Theorem device_thread_lifecycle (e : Engine) (i fuel : nat) :
  (i < num_devices)%nat →
  let started := start_device_threads num_devices e in
  let queue : QueueId := (next_ready_queue e + i)%nat in
  let waiting :=
    set_local_ready_queue (Some queue)
      (set_worker_device (Z.of_nat i) ThreadLocals_init) in
  device_thread (Z.of_nat i) queue ∈ spawned_ started
  ∧ thread_init_ (S fuel) (Z.of_nat i) queue
                 (mkState ThreadLocals_init started)
    = (mkState waiting started, Blocked)
  ∧ (∃ s', thread_main_loop_ (S fuel) None false
             (mkState waiting (Engine_destroy started)) = (s', Ret ())
           ∧ tls s' = waiting
           ∧ ReadyQueue_empty queue (engine s') = true)
  ∧ ∀ (s : State) queue',
      thread_init_ fuel CPU_DEVICE queue' s = (s, Exn internal_assert_failed).
Proof.
  intros Hi started queue waiting.
  assert (Hqueue : queue ∈ seq (next_ready_queue e) num_devices).
  { apply elem_of_seq. unfold queue. lia. }
  assert (Hempty : ready_queues started !! queue = Some []).
  { unfold started, start_device_threads. simpl.
    rewrite fresh_queues_lookup. by rewrite decide_True. }
  split; [|split; [|split]].
  - unfold started, start_device_threads. simpl.
    apply elem_of_app. right. apply list_elem_of_lookup. exists i.
    rewrite list_lookup_imap, lookup_seq_lt by done. done.
  - unfold thread_init, thread_main, set_device, init_local_ready_queue.
    erewrite bind_eq; cycle 1.
    { unfold internal_assert.
      by rewrite bool_decide_eq_true_2 by (unfold CPU_DEVICE; lia). }
    remember (thread_main_loop_ (S fuel) None false) as loop eqn:Hloop.
    comp_unfold. simpl. subst loop.
    change (with_tls _ (with_tls _ _)) with (mkState waiting started).
    apply (thread_main_loop_waits _ _ queue); [done|].
    unfold ReadyQueue_empty. cbn [engine]. by rewrite Hempty.
  - assert (Hall : forallb (λ queue, ReadyQueue_empty queue started)
                     (device_ready_queues_ started) = true).
    { apply forallb_forall. intros q Hq. apply list_elem_of_In in Hq.
      unfold ReadyQueue_empty, started, start_device_threads in *.
      simpl in *. rewrite fresh_queues_lookup. by rewrite decide_True. }
    assert (Hheap : ready_queues (Engine_destroy started) !! queue
                    = Some [mkNodeTask None None (InputBuffer_new 0) true]).
    { unfold Engine_destroy. rewrite noBackward_fold, Hall. simpl.
      rewrite push_shutdown_fold_lookup.
      rewrite decide_True by done. rewrite Hempty.
      rewrite filter_eq_NoDup; [done|apply NoDup_seq|done]. }
    eexists. split; [by apply (thread_main_loop_shutdown _ _ queue)|].
    split; [done|]. unfold ReadyQueue_empty. simpl.
    by rewrite lookup_insert_eq.
  - intros s queue'. unfold thread_init. comp_unfold. simpl. done.
Qed.

End DeviceThreads.

(** An engine with two devices: the queue of device 1 is queue 1, and index
    2 is out of range. *)
Lemma device_queues_lookup_witness :
  let s := mkState ThreadLocals_init (Engine_new Simple.chain_fork) in
  let g := GraphTask_new false false 0 None in
  start_device_threads_flag_ (engine s) = false
  ∧ ∃ s',
      call_once_start_device_threads 2 s = (s', Ret ())
      ∧ ready_queue_by_index (device_ready_queues_ (engine s')) g 1
        = Ok 1%nat
      ∧ ready_queue_by_index (device_ready_queues_ (engine s')) g 2
        = Throw out_of_range.
Proof.
  intros s g. split; [reflexivity|].
  destruct (device_queues_lookup 2 s g eq_refl)
    as (s' & Hstart & _ & _ & Hrange & _).
  exists s'. split; [exact Hstart|].
  injection Hstart as <-. split; [reflexivity|].
  apply (Hrange 2); [discriminate|]. right. simpl. lia.
Defined.

(** The thread of device 1 of an engine with two devices. *)
Lemma device_thread_lifecycle_witness :
  let started := start_device_threads 2 (Engine_new Simple.chain_fork) in
  let waiting :=
    set_local_ready_queue (Some 1%nat)
      (set_worker_device 1 ThreadLocals_init) in
  (1 < 2)%nat
  ∧ thread_init Simple.exec_info_empty false Simple.buffer_device 1 1
                1%nat (mkState ThreadLocals_init started)
    = (mkState waiting started, Blocked)
  ∧ ∃ s', thread_main_loop Simple.exec_info_empty false Simple.buffer_device
            1 None false (mkState waiting (Engine_destroy started))
          = (s', Ret ()).
Proof.
  intros started waiting.
  assert (Hlt : (1 < 2)%nat) by lia.
  destruct (device_thread_lifecycle Simple.exec_info_empty false
              Simple.buffer_device 2 (Engine_new Simple.chain_fork) 1 0 Hlt)
    as (_ & Hinit & (s' & Hloop & _) & _).
  split; [exact Hlt|]. split; [exact Hinit|].
  exists s'. exact Hloop.
Defined.

(** ** The thread-locals of a worker *)

Section WorkerLocals.
Context {L : TensorLib}.
Variable can_checkpoint : GraphTask → bool.
Variable anomaly_enabled : bool.
Variable InputBuffer_device : InputBuffer → Device.
Context {T : Type} (f : ThreadLocals → T).
Hypothesis f_checkpoint : ∀ v t, f (set_checkpoint_valid v t) = f t.

Local Abbreviation same_locals := (unchanged (λ s : State, f (tls s))).

Ltac same_locals_solve :=
  intros; unfold unchanged, put_graph_task;
  cbn [engine tls with_engine with_tls];
  rewrite ?f_checkpoint; done.

Lemma ReadyQueue_push_locals queue item inc :
  preserves same_locals (ReadyQueue_push queue item inc).
Proof. unfold ReadyQueue_push. repeat preserves_step; same_locals_solve. Qed.

Lemma ReadyQueue_pop_locals queue :
  preserves same_locals (ReadyQueue_pop queue).
Proof.
  intros s s' o. unfold ReadyQueue_pop.
  destruct (heap_pop _ _) as [[task heap]|]; intros [= <- <-];
    same_locals_solve.
Qed.

Lemma call_function_locals gid func inputs :
  preserves same_locals (call_function can_checkpoint gid func inputs).
Proof. unfold call_function. repeat preserves_step; same_locals_solve. Qed.

Lemma route_locals gid func outputs :
  preserves same_locals (route InputBuffer_device gid func outputs).
Proof.
  intros s s' o. unfold route.
  destruct (graph_tasks (engine s) !! gid) as [g|]; [|intros [= <- <-]; done].
  destruct (route_outputs _ _ _ _ _ _) as [[g' pushes] o'].
  intros [= <- <-]. done.
Qed.

Lemma evaluate_function_locals gid func inputs :
  preserves same_locals
    (evaluate_function can_checkpoint anomaly_enabled InputBuffer_device
                       gid func inputs).
Proof.
  unfold evaluate_function. repeat preserves_step;
    try apply call_function_locals; try apply route_locals;
    same_locals_solve.
Qed.

Lemma mark_graph_task_completed_locals gid :
  preserves same_locals (mark_graph_task_completed gid).
Proof.
  unfold mark_graph_task_completed, graph_task_exec_post_processing.
  repeat preserves_step; same_locals_solve.
Qed.

Lemma thread_main_completion_locals gid :
  preserves same_locals (thread_main_completion gid).
Proof.
  unfold thread_main_completion. repeat preserves_step;
    try apply mark_graph_task_completed_locals;
    try apply ReadyQueue_push_locals; same_locals_solve.
Qed.

Lemma thread_main_task_locals reentrant task :
  preserves same_locals
    (thread_main_task can_checkpoint anomaly_enabled InputBuffer_device
                      reentrant task).
Proof.
  unfold thread_main_task, thread_on_exception. repeat preserves_step;
    try apply evaluate_function_locals;
    try apply thread_main_completion_locals; same_locals_solve.
Qed.

Lemma thread_main_loop_locals fuel graph_task reentrant :
  preserves same_locals
    (thread_main_loop can_checkpoint anomaly_enabled InputBuffer_device
                      fuel graph_task reentrant).
Proof.
  induction fuel as [|fuel IH]; simpl; [preserves_step|].
  repeat preserves_step; try apply ReadyQueue_pop_locals;
    try apply thread_main_task_locals; try apply IH; same_locals_solve.
Qed.

Lemma thread_main_locals fuel graph_task reentrant :
  preserves same_locals
    (thread_main can_checkpoint anomaly_enabled InputBuffer_device
                 fuel graph_task reentrant).
Proof.
  unfold thread_main. repeat preserves_step;
    try apply thread_main_loop_locals; same_locals_solve.
Qed.

Lemma future_wait_locals gid : preserves same_locals (future_wait gid).
Proof. unfold future_wait. repeat preserves_step; same_locals_solve. Qed.

End WorkerLocals.

Section DriveLocals.
Context {L : TensorLib}.
Variable can_checkpoint : GraphTask → bool.
Variable anomaly_enabled : bool.
Variable InputBuffer_device : InputBuffer → Device.

Local Abbreviation thread_main_ :=
  (thread_main can_checkpoint anomaly_enabled InputBuffer_device).
Local Abbreviation drive_inline_ :=
  (drive_inline can_checkpoint anomaly_enabled InputBuffer_device).
Local Abbreviation drive_from_caller_ :=
  (drive_from_caller can_checkpoint anomaly_enabled InputBuffer_device).

(** What a worker loop leaves of the thread-locals of its thread. *)
Local Abbreviation kept t :=
  (worker_device t, local_ready_queue t, current_depth t, total_depth t).

Lemma thread_main_kept fuel graph_task reentrant (s s' : State) o :
  thread_main_ fuel graph_task reentrant s = (s', o) →
  kept (tls s') = kept (tls s).
Proof.
  intros Hrun.
  by apply (thread_main_locals can_checkpoint anomaly_enabled
              InputBuffer_device (λ t, kept t)) in Hrun.
Qed.


(** X14: the caller that drives a graph task resets its thread-locals as
    soon as its worker loop returns, before it looks at the future: when the
    graph task has failed, [execute_with_graph_task] throws the error of the
    future with [worker_device] back at [NO_DEVICE] and no
    [local_ready_queue], as when it returns the gradients.  When the worker
    loop itself throws, the exception leaves the caller marked as the CPU
    worker with its queue in place. *)
Theorem drive_from_caller_thread_locals fuel gid (s : State)
    (g : GraphTask) :
  graph_tasks (engine s) !! gid = Some g →
  let started :=
    put_graph_task gid (with_owner CPU_DEVICE g)
      (with_tls (set_worker_device CPU_DEVICE (tls s)) s) in
  ∀ s1 o1,
    thread_main_ fuel None false started = (s1, o1) →
    (o1 = Ret () →
     ∃ s' o,
       drive_from_caller_ fuel gid s = (s', o)
       ∧ engine s' = engine s1
       ∧ worker_device (tls s') = NO_DEVICE
       ∧ local_ready_queue (tls s') = None
       ∧ ∀ g1, graph_tasks (engine s1) !! gid = Some g1 →
           o = match future_result_ g1 with
               | Pending => Blocked
               | Completed value => Ret value
               | Errored e => Exn e
               end)
    ∧ (∀ e, o1 = Exn e →
         drive_from_caller_ fuel gid s = (s1, Exn e)
         ∧ worker_device (tls s1) = CPU_DEVICE
         ∧ local_ready_queue (tls s1) = local_ready_queue (tls s)).
Proof.
  intros Hg started s1 o1 Hrun.
  pose proof (thread_main_kept _ _ _ _ _ _ Hrun) as Hkept.
  simpl in Hkept. injection Hkept as Hwd Hq Hcur Htot.
  assert (Henter : ∀ k : unit → Comp State variable_list,
            (set_device CPU_DEVICE;;
             t ← get_tls;
             on_graph_task gid (modify (with_owner (worker_device t)));;
             u ← thread_main_ fuel None false; k u) s
            = match o1 with
              | Ret u => k u s1
              | Exn e => (s1, Exn e)
              | Blocked => (s1, Blocked)
              | Undefined => (s1, Undefined)
              | OutOfFuel => (s1, OutOfFuel)
              end).
  { intros k. unfold set_device, modify_tls, modify, get_tls, on_graph_task,
      mbind, Comp_bind. simpl. rewrite Hg.
    change (put_graph_task gid _ _) with started. by rewrite Hrun. }
  split.
  - intros ->. unfold drive_from_caller.
    rewrite (Henter (λ _, _)).
    unfold modify_tls, modify, mbind, Comp_bind. simpl.
    destruct (future_wait gid _) as [s' o] eqn:Hwait.
    exists s', o. split; [done|].
    pose proof (future_wait_state _ _ _ _ Hwait) as ->. simpl.
    do 3 (split; [done|]).
    intros g1 Hg1. revert Hwait. unfold future_wait, get_graph_task,
      mbind, Comp_bind. simpl. rewrite Hg1.
    destruct (future_result_ g1); by intros [= <-].
  - intros e ->. unfold drive_from_caller.
    by rewrite (Henter (λ _, _)).
Qed.

End DriveLocals.


(** The caller of [execute] on the graph in which B throws: the error of B
    is thrown, and the thread is no worker any more. *)
Lemma drive_from_caller_thread_locals_witness :
  let s :=
    ((gid ← make_graph_task false false;
      analyse_graph 20 gid 0%nat [Simple.edge_to Simple.A] [Simple.scalar 5]
                    [];;
      push_graph_root 0 gid 0%nat)
       (mkState ThreadLocals_init (Engine_new Simple.failing))).1 in
  let run := drive_from_caller Simple.exec_info_empty false
                               Simple.buffer_device 20 0%nat s in
  is_Some (graph_tasks (engine s) !! 0%nat)
  ∧ run.2 = Exn Simple.boom
  ∧ worker_device (tls run.1) = NO_DEVICE
  ∧ local_ready_queue (tls run.1) = None.
Proof.
  intros s run.
  assert (Hsome : is_Some (graph_tasks (engine s) !! 0%nat))
    by (vm_compute; by eexists).
  split; [exact Hsome|]. destruct Hsome as [g Hg].
  assert (Hret : run.2 = Exn Simple.boom) by (vm_compute; reflexivity).
  split; [exact Hret|].
  edestruct (drive_from_caller_thread_locals Simple.exec_info_empty false
               Simple.buffer_device 20 0%nat s g Hg) as [Hreturns _];
    [apply surjective_pairing|].
  destruct Hreturns as (s' & o & Hrun & _ & Hwd & Hq & _).
  { clear Hret. injection Hg as <-. vm_compute. reflexivity. }
  unfold run. rewrite Hrun. split; [exact Hwd|exact Hq].
Defined.

(** ** The threads of the pool *)

Section ThreadPoolFacts.
Context {L : TensorLib}.
Variable can_checkpoint : GraphTask → bool.
Variable anomaly_enabled : bool.
Variable InputBuffer_device : InputBuffer → Device.

Local Abbreviation turn_ :=
  (reentrant_thread_turn can_checkpoint anomaly_enabled InputBuffer_device).
Local Abbreviation thread_main_ :=
  (thread_main can_checkpoint anomaly_enabled InputBuffer_device).

(** The engine once a thread has taken the first graph task of the pool. *)
Local Abbreviation taken pool rest waiting e :=
  (with_thread_pool_shared
     (Some (mkThreadPoolShared rest
              (pred (if waiting : bool then num_workers_ pool
                     else S (num_workers_ pool))))) e).

Lemma reentrant_thread_turn_live fuel parent waiting (s : State) pool gid
    rest (g : GraphTask) :
  thread_pool_shared_ (engine s) = Some pool →
  graphtasks_queue_ pool = gid :: rest →
  graph_tasks (engine s) !! gid = Some g →
  turn_ fuel parent waiting s
  = match local_ready_queue (tls s) with
    | None =>
        thread_main_ fuel (Some gid) true
          (mkState
             (set_total_depth (reentrant_depth_ g)
                (set_local_ready_queue parent
                   (set_worker_device (owner_ g) (tls s))))
             (taken pool rest waiting (engine s)))
    | Some _ =>
        (mkState (set_worker_device (owner_ g) (tls s))
                 (taken pool rest waiting (engine s)),
         Exn internal_assert_failed)
    end.
Proof.
  intros Hpool Hqueue Hg. unfold reentrant_thread_turn.
  unfold get_engine at 1. unfold mbind at 1, Comp_bind at 1.
  rewrite Hpool, Hqueue, Hg.
  unfold set_device, init_local_ready_queue, modify_engine, modify_tls,
    modify, get_tls, internal_assert, mbind, Comp_bind. simpl.
  destruct (local_ready_queue (tls s)); simpl; done.
Qed.

Lemma thread_main_returns_queue fuel graph_task reentrant (s s' : State) :
  thread_main_ fuel graph_task reentrant s = (s', Ret ()) →
  local_ready_queue (tls s') = local_ready_queue (tls s)
  ∧ local_ready_queue (tls s) ≠ None.
Proof.
  intros Hrun. split.
  - by apply (thread_main_locals can_checkpoint anomaly_enabled
                InputBuffer_device local_ready_queue) in Hrun.
  - intros Hnone. revert Hrun. unfold thread_main.
    unfold internal_assert, get_tls, mbind, Comp_bind.
    destruct (negb _); simpl; [|done]. by rewrite Hnone.
Qed.

(** X15: a turn of a thread of the pool that finds no graph task leaves the
    thread waiting and counted in [num_workers_], and a graph task added
    while it waits creates no thread.  A turn takes the graph task added
    first; an expired one is skipped.  A thread that has no
    [local_ready_queue] takes the device of the owner, the queue of its
    parent and the depth of the graph task, and runs the worker loop.  When
    its turn returns, the queue of the parent is still its
    [local_ready_queue]: the next live graph task the thread takes fails the
    internal assertion of [init_local_ready_queue], after the graph task has
    left the queue of the pool and before anything of it is run. *)
Theorem pool_thread_serves_once (fuel : nat) (parent : option QueueId)
    (waiting : bool) (s : State) (pool : ThreadPoolShared) :
  thread_pool_shared_ (engine s) = Some pool →
  (graphtasks_queue_ pool = [] →
   let workers := if waiting then num_workers_ pool
                  else S (num_workers_ pool) in
   let idle := with_thread_pool_shared
                 (Some (mkThreadPoolShared [] workers)) (engine s) in
   turn_ fuel parent waiting s = (with_engine idle s, Blocked)
   ∧ ∀ t gid,
       waiting = false →
       add_thread_pool_task gid (mkState t idle)
       = (mkState t (with_thread_pool_shared
                       (Some (mkThreadPoolShared [gid] workers)) idle),
          Ret ()))
  ∧ (∀ gid rest,
       graphtasks_queue_ pool = gid :: rest →
       graph_tasks (engine s) !! gid = None →
       turn_ fuel parent waiting s
       = (with_engine (taken pool rest waiting (engine s)) s, Ret ()))
  ∧ (∀ gid rest g,
       graphtasks_queue_ pool = gid :: rest →
       graph_tasks (engine s) !! gid = Some g →
       local_ready_queue (tls s) = None →
       turn_ fuel parent waiting s
       = thread_main_ fuel (Some gid) true
           (mkState
              (set_total_depth (reentrant_depth_ g)
                 (set_local_ready_queue parent
                    (set_worker_device (owner_ g) (tls s))))
              (taken pool rest waiting (engine s))))
  ∧ (∀ gid rest g s',
       graphtasks_queue_ pool = gid :: rest →
       graph_tasks (engine s) !! gid = Some g →
       turn_ fuel parent waiting s = (s', Ret ()) →
       local_ready_queue (tls s') = parent ∧ parent ≠ None
       ∧ ∀ e2 pool2 gid2 rest2 (g2 : GraphTask) waiting2,
           thread_pool_shared_ e2 = Some pool2 →
           graphtasks_queue_ pool2 = gid2 :: rest2 →
           graph_tasks e2 !! gid2 = Some g2 →
           turn_ fuel parent waiting2 (mkState (tls s') e2)
           = (mkState (set_worker_device (owner_ g2) (tls s'))
                      (taken pool2 rest2 waiting2 e2),
              Exn internal_assert_failed))
  ∧ (∀ gid rest g s' turns pool2 gid2 rest2 (g2 : GraphTask),
       graphtasks_queue_ pool = gid :: rest →
       graph_tasks (engine s) !! gid = Some g →
       turn_ fuel parent waiting s = (s', Ret ()) →
       thread_pool_shared_ (engine s') = Some pool2 →
       graphtasks_queue_ pool2 = gid2 :: rest2 →
       graph_tasks (engine s') !! gid2 = Some g2 →
       reentrant_thread_init can_checkpoint anomaly_enabled
         InputBuffer_device (S (S turns)) fuel parent waiting s
       = (mkState (set_worker_device (owner_ g2) (tls s'))
                  (taken pool2 rest2 false (engine s')),
          Exn internal_assert_failed)).
Proof.
  intros Hpool.
  assert (Honce : ∀ gid rest g s',
            graphtasks_queue_ pool = gid :: rest →
            graph_tasks (engine s) !! gid = Some g →
            turn_ fuel parent waiting s = (s', Ret ()) →
            local_ready_queue (tls s') = parent ∧ parent ≠ None
            ∧ ∀ e2 pool2 gid2 rest2 (g2 : GraphTask) waiting2,
                thread_pool_shared_ e2 = Some pool2 →
                graphtasks_queue_ pool2 = gid2 :: rest2 →
                graph_tasks e2 !! gid2 = Some g2 →
                turn_ fuel parent waiting2 (mkState (tls s') e2)
                = (mkState (set_worker_device (owner_ g2) (tls s'))
                           (taken pool2 rest2 waiting2 e2),
                   Exn internal_assert_failed)).
  { intros gid rest g s' Hqueue Hg.
    rewrite (reentrant_thread_turn_live _ _ _ _ _ _ _ _ Hpool Hqueue Hg).
    destruct (local_ready_queue (tls s)) eqn:Hlocal; [done|].
    intros Hrun. apply thread_main_returns_queue in Hrun as [Hq Hsome].
    simpl in Hq, Hsome. split; [done|]. split; [done|].
    intros e2 pool2 gid2 rest2 g2 waiting2 Hpool2 Hqueue2 Hg2.
    rewrite (reentrant_thread_turn_live _ _ _ _ pool2 gid2 rest2 g2);
      [|done..].
    simpl. rewrite Hq. by destruct parent. }
  split; [|split; [|split; [|split]]].
  - intros Hqueue workers idle. split.
    + unfold reentrant_thread_turn, get_engine, modify_engine, modify, block,
        mbind, Comp_bind. by rewrite Hpool, Hqueue.
    + intros t gid ->. unfold add_thread_pool_task, get_engine, get_tls,
        modify_engine, modify, mbind, Comp_bind. simpl.
      done.
  - intros gid rest Hqueue Hg.
    unfold reentrant_thread_turn, get_engine, modify_engine, modify,
      mbind, Comp_bind. by rewrite Hpool, Hqueue, Hg.
  - intros gid rest g Hqueue Hg Hlocal.
    rewrite (reentrant_thread_turn_live _ _ _ _ _ _ _ _ Hpool Hqueue Hg).
    by rewrite Hlocal.
  - exact Honce.
  - intros gid rest g s' turns pool2 gid2 rest2 g2 Hqueue Hg Hrun
      Hpool2 Hqueue2 Hg2.
    destruct (Honce gid rest g s' Hqueue Hg Hrun) as (_ & _ & Hsecond).
    cbn [reentrant_thread_init].
    rewrite (bind_eq _ _ _ _ _ Hrun).
    specialize (Hsecond (engine s') pool2 gid2 rest2 g2 false Hpool2
                  Hqueue2 Hg2).
    replace (mkState (tls s') (engine s')) with s' in Hsecond
      by (by destruct s').
    unfold mbind, Comp_bind. by rewrite Hsecond.
Qed.

End ThreadPoolFacts.

(** A worker at depth 100 has handed graph task 0 to the pool and waits for
    it.  A fresh thread of the pool runs the graph task; the same thread
    fails on a second graph task. *)
Lemma pool_thread_serves_once_witness :
  let s := mkState ThreadLocals_init
             (engine (SimpleReentrant.run_reentrant 100 100).1) in
  let served :=
    reentrant_thread_turn Simple.exec_info_empty false Simple.buffer_device
                          20 (Some 0%nat) false s in
  (graphtasks_queue_ <$> thread_pool_shared_ (engine s)) = Some [0%nat]
  ∧ is_Some (graph_tasks (engine s) !! 0%nat)
  ∧ served.2 = Ret ()
  ∧ (future_result_ <$> graph_tasks (engine served.1) !! 0%nat)
    = Some (Completed [Simple.scalar 10])
  ∧ local_ready_queue (tls served.1) = Some 0%nat
  ∧ (reentrant_thread_turn Simple.exec_info_empty false Simple.buffer_device
       20 (Some 0%nat) false (mkState (tls served.1) (engine s))).2
    = Exn internal_assert_failed.
Proof.
  intros s served.
  split; [vm_compute; reflexivity|].
  assert (Hsome : is_Some (graph_tasks (engine s) !! 0%nat))
    by (vm_compute; by eexists).
  split; [exact Hsome|]. destruct Hsome as [g Hg].
  assert (Hret : served.2 = Ret ()) by (vm_compute; reflexivity).
  split; [exact Hret|]. split; [vm_compute; reflexivity|].
  assert (Hqueue : match thread_pool_shared_ (engine s) with
                   | Some pool => graphtasks_queue_ pool
                   | None => []
                   end = [0%nat]) by (vm_compute; reflexivity).
  destruct (thread_pool_shared_ (engine s)) as [pool|] eqn:Hpool;
    [|discriminate Hqueue].
  destruct (pool_thread_serves_once Simple.exec_info_empty false
              Simple.buffer_device 20 (Some 0%nat) false s pool Hpool)
    as (_ & _ & _ & Honce & _).
  destruct (Honce 0%nat [] g served.1 Hqueue Hg) as (Hlocal & _ & Hsecond).
  { rewrite <- Hret. apply surjective_pairing. }
  split; [exact Hlocal|].
  by rewrite (Hsecond (engine s) pool 0%nat [] g false Hpool Hqueue Hg).
Defined.

(** ** The result of a graph task is written once *)

Section LatchFacts.
Context {L : TensorLib}.
Variable can_checkpoint : GraphTask → bool.
Variable anomaly_enabled : bool.
Variable InputBuffer_device : InputBuffer → Device.
Variable gid : GraphTaskId.

Local Abbreviation result_of :=
  (λ g : GraphTask, (future_result_ g, has_error_ g)).
Local Abbreviation no_trace := (λ _ : list Event, ()).
Local Abbreviation silent := (λ _ : Event, False).

Definition latch_rel : relation State := λ s s',
  ∀ g, graph_tasks (engine s) !! gid = Some g →
    ∃ g', graph_tasks (engine s') !! gid = Some g' ∧ latched g g'.

Lemma latched_refl (g : GraphTask) : latched g g.
Proof. unfold latched. tauto. Qed.

Lemma latched_trans (g1 g2 g3 : GraphTask) :
  latched g1 g2 → latched g2 g3 → latched g1 g3.
Proof.
  unfold latched. intros (Hf1 & He1 & Hi1) (Hf2 & He2 & Hi2).
  split; [|split].
  - intros Hc. rewrite Hf2; [by apply Hf1|]. rewrite Hf1; done.
  - auto.
  - auto.
Qed.

#[local] Instance latch_rel_preorder : PreOrder latch_rel.
Proof.
  split.
  - intros s g Hg. exists g. split; [done|apply latched_refl].
  - intros s1 s2 s3 H12 H23 g1 Hg1.
    destruct (H12 g1 Hg1) as (g2 & Hg2 & Hl12).
    destruct (H23 g2 Hg2) as (g3 & Hg3 & Hl23).
    exists g3. split; [done|]. by eapply latched_trans.
Qed.

Lemma latch_view (s s' : State) :
  view gid result_of no_trace s' = view gid result_of no_trace s →
  latch_rel s s'.
Proof.
  unfold view. intros [= Hview] g Hg. rewrite Hg in Hview.
  destruct (graph_tasks (engine s') !! gid) as [g'|]; [|done].
  exists g'. split; [done|]. simpl in Hview. injection Hview as Hf He.
  unfold latched. rewrite Hf, He. tauto.
Qed.

Lemma latch_put (s : State) gid0 (g g' : GraphTask) :
  graph_tasks (engine s) !! gid0 = Some g → latched g g' →
  latch_rel s (put_graph_task gid0 g' s).
Proof.
  intros Hg Hlatched g0 Hg0. unfold put_graph_task. simpl.
  destruct (decide (gid0 = gid)) as [->|Hne].
  - rewrite lookup_insert_eq. exists g'. split; [done|]. congruence.
  - rewrite lookup_insert_ne by done. exists g0. split; [done|].
    apply latched_refl.
Qed.

Lemma set_exception_latch e (g g' : GraphTask) o :
  set_exception e g = (g', o) → latched g g'.
Proof.
  unfold set_exception, latched. comp_unfold.
  destruct (has_error_ g) eqn:Herr; simpl.
  { intros [= <- <-]. rewrite Herr. tauto. }
  destruct (completed (future_result_ g)) eqn:Hc; simpl.
  - destruct (hasError (future_result_ g)); intros [= <- <-]; simpl;
      rewrite Hc; tauto.
  - intros [= <- <-]. simpl. split; [done|]. split; [done|]. done.
Qed.

Lemma mark_graph_task_completed_latch gid0 :
  preserves latch_rel (mark_graph_task_completed gid0).
Proof.
  intros s s' o. unfold mark_graph_task_completed,
    graph_task_exec_post_processing. comp_unfold.
  destruct (graph_tasks (engine s) !! gid0) as [g|] eqn:Hg;
    [|intros [= <- <-]; reflexivity].
  destruct (completed (future_result_ g)) eqn:Hc;
    [intros [= <- <-]; reflexivity|].
  simpl. rewrite Hg. simpl.
  assert (Hwrite : ∀ v, completed v = true →
            latch_rel s (put_graph_task gid0 (with_future_result v g) s)).
  { intros v Hv. apply (latch_put _ _ g); [done|].
    unfold latched. simpl. rewrite Hc. split; [done|]. split; [done|].
    done. }
  destruct (negb (bool_decide (not_ready_ g = ∅))); simpl.
  { rewrite Hg. intros [= <- <-]. by apply Hwrite. }
  destruct (run_callbacks _) as [[]|e]; simpl; rewrite Hg; simpl;
    rewrite ?Hg; intros [= <- <-]; by apply Hwrite.
Qed.

Lemma route_output_result queues num_inputs gid0 output next :
  preserves (unchanged (λ st : Routing, result_of st.1))
    (route_output InputBuffer_device queues num_inputs gid0 output next).
Proof.
  unfold route_output, decrement_dependency, modify_task, push_node_task.
  repeat preserves_step; intros; by destruct_and?.
Qed.

Lemma route_outputs_result queues num_inputs gid0 outputs :
  ∀ edges,
    preserves (unchanged (λ st : Routing, result_of st.1))
      (route_outputs InputBuffer_device queues num_inputs gid0 outputs edges).
Proof.
  induction outputs as [|output outputs IH]; intros edges; simpl;
    [preserves_step|].
  destruct edges as [|next edges]; [preserves_step|].
  preserves_step; [apply route_output_result|apply IH].
Qed.

Lemma evaluate_function_latch gid0 func inputs :
  preserves latch_rel
    (evaluate_function can_checkpoint anomaly_enabled InputBuffer_device
                       gid0 func inputs).
Proof.
  eapply evaluate_function_view with (gid := gid) (p := result_of)
    (pt := no_trace) (loud := silent);
    try done; [apply _|apply latch_view|auto|].
  intros outputs.
  eapply route_view with (gid := gid) (p := result_of)
    (pt := no_trace) (loud := silent);
    try done; [apply _|apply latch_view|auto|].
  intros queues num_inputs edges. apply route_outputs_result.
Qed.

Lemma ReadyQueue_push_latch queue item inc :
  preserves latch_rel (ReadyQueue_push queue item inc).
Proof.
  eapply ReadyQueue_push_view with (gid := gid) (p := result_of)
    (pt := no_trace) (loud := silent);
    try done; [apply _|apply latch_view|auto].
Qed.

Lemma thread_main_completion_latch gid0 :
  preserves latch_rel (thread_main_completion gid0).
Proof.
  unfold thread_main_completion. repeat preserves_step;
    try apply mark_graph_task_completed_latch;
    try apply ReadyQueue_push_latch; reflexivity.
Qed.

Lemma thread_main_task_latch reentrant task :
  preserves latch_rel
    (thread_main_task can_checkpoint anomaly_enabled InputBuffer_device
                      reentrant task).
Proof.
  unfold thread_main_task, thread_on_exception. repeat preserves_step;
    try apply evaluate_function_latch;
    try apply thread_main_completion_latch;
    try reflexivity.
  - intros s0 g1 g2 o Hg1 Hrun. apply (latch_put _ _ g1); [done|].
    by eapply set_exception_latch.
  - intros s0 g1 g2 o Hg1 [= <- <-]. apply (latch_put _ _ g1); [done|].
    unfold latched, decrement_outstanding_tasks. simpl. tauto.
Qed.

(** X16: the result of a graph task is written once.  Along any iterations
    of worker loops of any threads, a future that holds gradients or an
    error keeps what it holds: neither an error thrown later nor the
    completion of the graph task overwrites it.  An error that is latched
    stays latched, and when every latched error has come with a result in
    the future, so it is afterwards. *)
Theorem graph_task_result_written_once (s s' : State) (g : GraphTask) :
  rtc (worker_step can_checkpoint anomaly_enabled InputBuffer_device) s s' →
  graph_tasks (engine s) !! gid = Some g →
  ∃ g',
    graph_tasks (engine s') !! gid = Some g'
    ∧ (completed (future_result_ g) = true →
       future_result_ g' = future_result_ g)
    ∧ (has_error_ g = true → has_error_ g' = true)
    ∧ ((has_error_ g = true → completed (future_result_ g) = true) →
       has_error_ g' = true → completed (future_result_ g') = true).
Proof.
  intros Hsteps. revert g.
  change (latch_rel s s').
  induction Hsteps as [s|s1 s2 s3 Hstep _ IH]; [reflexivity|].
  etrans; [|exact IH].
  destruct Hstep as (t & reentrant & task & o & Hrun).
  apply thread_main_task_latch in Hrun.
  intros g Hg. by apply Hrun.
Qed.

End LatchFacts.

(** The driver of the graph task in which B has thrown pops the tasks of B
    and of C: the graph task is then complete, and its future still holds
    the error of B. *)
Lemma graph_task_result_written_once_witness :
  let t := tls Simple.failed_state in
  let step := thread_main_task Simple.exec_info_empty false
                               Simple.buffer_device false in
  let task fn := mkNodeTask (Some 0%nat) (Some fn) [Some (Simple.scalar 1)]
                            false in
  let s1 := (step (task Simple.B) (with_tls t Simple.failed_state)).1 in
  let s2 := (step (task Simple.C) (with_tls t s1)).1 in
  (graph_tasks (engine Simple.failed_state) !! 0%nat
   = Some Simple.failed_task
   ∧ completed (future_result_ Simple.failed_task) = true)
  ∧ (outstanding_tasks_ <$> graph_tasks (engine s2) !! 0%nat) = Some 0
  ∧ ∃ g', graph_tasks (engine s2) !! 0%nat = Some g'
          ∧ future_result_ g' = Errored Simple.boom.
Proof.
  intros t step task s1 s2.
  split; [split; reflexivity|].
  split; [vm_compute; reflexivity|].
  assert (Hsteps : rtc (worker_step Simple.exec_info_empty false
                                    Simple.buffer_device)
                       Simple.failed_state s2).
  { eapply rtc_l; [|apply rtc_once].
    - exists t, false, (task Simple.B).
      eexists. apply surjective_pairing.
    - exists t, false, (task Simple.C).
      eexists. apply surjective_pairing. }
  destruct (graph_task_result_written_once Simple.exec_info_empty false
              Simple.buffer_device 0%nat Simple.failed_state s2
              Simple.failed_task Hsteps eq_refl)
    as (g' & Hg' & Hfuture & _).
  exists g'. split; [exact Hg'|]. exact (Hfuture eq_refl).
Defined.

(** ** Tasks enqueued from outside the engine *)

Section BlockedTaskFacts.
Context {L : TensorLib}.
Variable num_devices : nat.


End BlockedTaskFacts.


(** ** Graph tasks that exit on the first error *)

Section ExitOnErrorFacts.
Context {L : TensorLib}.
Variable can_checkpoint : GraphTask → bool.
Variable anomaly_enabled : bool.
Variable InputBuffer_device : InputBuffer → Device.

Local Abbreviation verdict_of :=
  (λ g : GraphTask,
     (has_error_ g, future_result_ g, exit_on_error_ g)).

Lemma route_output_verdict queues num_inputs gid0 output next :
  preserves (unchanged (λ st : Routing, verdict_of st.1))
    (route_output InputBuffer_device queues num_inputs gid0 output next).
Proof.
  unfold route_output, decrement_dependency, modify_task, push_node_task.
  repeat preserves_step; intros; by destruct_and?.
Qed.

Lemma route_outputs_verdict queues num_inputs gid0 outputs :
  ∀ edges,
    preserves (unchanged (λ st : Routing, verdict_of st.1))
      (route_outputs InputBuffer_device queues num_inputs gid0 outputs edges).
Proof.
  induction outputs as [|output outputs IH]; intros edges; simpl;
    [preserves_step|].
  destruct edges as [|next edges]; [preserves_step|].
  preserves_step; [apply route_output_verdict|apply IH].
Qed.

Lemma evaluate_function_verdict gid gid0 func inputs :
  preserves (unchanged (view gid verdict_of (λ _ : list Event, ())))
    (evaluate_function can_checkpoint anomaly_enabled InputBuffer_device
                       gid0 func inputs).
Proof.
  eapply evaluate_function_view with (gid := gid) (p := verdict_of)
    (pt := λ _ : list Event, ()) (loud := λ _ : Event, False);
    try done; [apply _|auto|].
  intros outputs.
  eapply route_view with (gid := gid) (p := verdict_of)
    (pt := λ _ : list Event, ()) (loud := λ _ : Event, False);
    try done; [apply _|auto|].
  intros queues num_inputs edges. apply route_outputs_verdict.
Qed.

(** X18: on a graph task with [exit_on_error_], the first node that throws
    ends the run of the CPU worker at once: the error is latched and
    becomes the result of the future, the counter of outstanding tasks goes
    down by the one task, the worker leaves its loop, and the tasks that
    are left in the queues stay there. *)
Theorem exit_on_error_ends_run reentrant gid fn inputs (s s1 : State)
    (g : GraphTask) e :
  graph_tasks (engine s) !! gid = Some g →
  has_error_ g = false →
  exit_on_error_ g = true →
  future_result_ g = Pending →
  worker_device (tls s) = CPU_DEVICE →
  evaluate_function can_checkpoint anomaly_enabled InputBuffer_device
                    gid fn inputs s = (s1, Exn e) →
  ∃ g1,
    graph_tasks (engine s1) !! gid = Some g1
    ∧ thread_main_task can_checkpoint anomaly_enabled InputBuffer_device
        reentrant (mkNodeTask (Some gid) (Some fn) inputs false) s
      = (put_graph_task gid
           (with_outstanding_tasks
              ((outstanding_tasks_ g1 - 1) mod 2 ^ 64)
              (with_future_result (Errored e) (with_has_error true g1)))
           s1,
         Ret loop_break).
Proof.
  intros Hg Herr Hexit Hfuture Hworker Hrun.
  pose proof (evaluate_function_verdict gid _ _ _ _ _ _ Hrun) as Hview.
  pose proof (evaluate_function_locals can_checkpoint anomaly_enabled
                InputBuffer_device worker_device ltac:(done) _ _ _ _ _ _ Hrun)
    as Hdevice.
  unfold unchanged in Hview, Hdevice. unfold view in Hview.
  rewrite Hg in Hview. simpl in Hview. injection Hview as Hview.
  destruct (graph_tasks (engine s1) !! gid) as [g1|] eqn:Hg1; [|done].
  injection Hview as Herr1 Hfuture1 Hexit1.
  rewrite Herr in Herr1. rewrite Hfuture in Hfuture1.
  rewrite Hexit in Hexit1. rewrite Hworker in Hdevice.
  exists g1. split; [done|].
  unfold thread_main_task, thread_on_exception, thread_main_completion,
    mark_graph_task_completed, set_exception, graph_task_completed.
  comp_unfold. simpl. rewrite Hg. rewrite Herr. simpl. rewrite Hrun.
  rewrite Hg1. simpl. rewrite Herr1, Hfuture1. simpl.
  rewrite !lookup_insert_eq. simpl. rewrite !lookup_insert_eq. simpl.
  rewrite Hexit1. rewrite orb_true_r. simpl.
  rewrite !lookup_insert_eq. simpl.
  rewrite Hdevice, bool_decide_eq_true_2 by done.
  unfold put_graph_task, decrement_outstanding_tasks, uint64_decr. simpl.
  rewrite !insert_insert_eq. done.
Qed.

End ExitOnErrorFacts.

(** The driver of a graph task that exits on error, with the tasks of B,
    which throws, and of C outstanding, runs the task of B: the driver
    leaves its loop with the task of C still counted. *)
Lemma exit_on_error_ends_run_witness :
  let g :=
    {| outstanding_tasks_ := 2; keep_graph_ := false; grad_mode_ := false;
       has_error_ := false; exit_on_error_ := true;
       future_result_ := Pending; not_ready_ := ∅; dependencies_ := ∅;
       exec_info_ := ∅; captured_vars_ := []; leaf_streams := [];
       reentrant_depth_ := 0; owner_ := CPU_DEVICE;
       cpu_ready_queue_ := Some 0%nat |} in
  let task fn := mkNodeTask (Some 0%nat) (Some fn) [Some (Simple.scalar 1)]
                            false in
  let s :=
    mkState
      (set_local_ready_queue (Some 0%nat)
         (set_worker_device CPU_DEVICE ThreadLocals_init))
      (with_ready_queues {[ 0%nat := [task Simple.C] ]}
         (with_graph_tasks {[ 0%nat := g ]} (Engine_new Simple.failing))) in
  let run := thread_main_task Simple.exec_info_empty false
                              Simple.buffer_device false (task Simple.B) s in
  (evaluate_function Simple.exec_info_empty false Simple.buffer_device
     0%nat Simple.B [Some (Simple.scalar 1)] s).2 = Exn Simple.boom
  ∧ run.2 = Ret loop_break
  ∧ (future_result_ <$> graph_tasks (engine run.1) !! 0%nat)
    = Some (Errored Simple.boom)
  ∧ (outstanding_tasks_ <$> graph_tasks (engine run.1) !! 0%nat) = Some 1
  ∧ ready_queues (engine run.1) !! 0%nat = Some [task Simple.C].
Proof.
  intros g task s run.
  assert (Hthrows : (evaluate_function Simple.exec_info_empty false
                       Simple.buffer_device 0%nat Simple.B
                       [Some (Simple.scalar 1)] s).2 = Exn Simple.boom)
    by (vm_compute; reflexivity).
  split; [exact Hthrows|].
  destruct (exit_on_error_ends_run Simple.exec_info_empty false
              Simple.buffer_device false 0%nat Simple.B
              [Some (Simple.scalar 1)] s
              (evaluate_function Simple.exec_info_empty false
                 Simple.buffer_device 0%nat Simple.B
                 [Some (Simple.scalar 1)] s).1 g Simple.boom
              eq_refl eq_refl eq_refl eq_refl eq_refl) as (g1 & _ & Hrun).
  { rewrite <- Hthrows. apply surjective_pairing. }
  split; [exact (f_equal snd Hrun)|].
  repeat split; vm_compute; reflexivity.
Defined.

(** ** The task of the graph root *)

Section GraphRootFacts.
Context {L : TensorLib}.
Variable num_devices : nat.
Variable gid : GraphTaskId.

Lemma queued_empty_queue (e : Engine) (queue : QueueId) :
  (queued gid (with_ready_queues (<[queue := []]> (ready_queues e)) e)
   ≤ queued gid e)%nat.
Proof. pose proof (queued_insert gid e queue []) as H. simpl in H. lia. Qed.

Lemma queued_fresh_queues (queues : list QueueId) :
  ∀ e : Engine,
    (queued gid
       (with_ready_queues
          (foldl (λ m queue, <[queue := []]> m) (ready_queues e) queues) e)
     ≤ queued gid e)%nat.
Proof.
  induction queues as [|queue queues IH]; intros e; cbn [foldl].
  { by destruct e. }
  etrans; [|apply (queued_empty_queue e queue)].
  pose proof (IH (with_ready_queues (<[queue := []]> (ready_queues e)) e))
    as Hqueues.
  unfold queued in *. exact Hqueues.
Qed.

Lemma queued_start_device_threads (e : Engine) :
  (queued gid (start_device_threads num_devices e) ≤ queued gid e)%nat.
Proof.
  etrans; [|apply (queued_fresh_queues
                     (seq (next_ready_queue e) num_devices) e)].
  done.
Qed.

Lemma make_graph_task_counts keep_graph create_graph (s s1 : State) gid0 :
  make_graph_task keep_graph create_graph s = (s1, Ret gid0) →
  gid0 = next_graph_task (engine s)
  ∧ (queued gid (engine s1) ≤ queued gid (engine s))%nat
  ∧ ∃ g, graph_tasks (engine s1) !! gid0 = Some g
         ∧ outstanding_tasks_ g = 0.
Proof.
  unfold make_graph_task, new_ready_queue, init_local_ready_queue,
    new_graph_task. comp_unfold.
  destruct (bool_decide (worker_device (tls s) ≠ NO_DEVICE)); simpl.
  - intros [= <- <-]. simpl. split; [done|]. split; [done|].
    rewrite lookup_insert_eq. by eexists.
  - destruct (local_ready_queue (tls s)); simpl; [done|].
    intros [= <- <-]. simpl. split; [done|].
    split; [apply queued_empty_queue|].
    rewrite lookup_insert_eq. by eexists.
Qed.

Lemma analyse_graph_counts fuel gid0 graph_root roots inputs outputs
    (s s' : State) (g : GraphTask) :
  analyse_graph fuel gid0 graph_root roots inputs outputs s = (s', Ret ()) →
  graph_tasks (engine s) !! gid0 = Some g →
  ready_queues (engine s') = ready_queues (engine s)
  ∧ start_device_threads_flag_ (engine s')
    = start_device_threads_flag_ (engine s)
  ∧ ∃ g', graph_tasks (engine s') !! gid0 = Some g'
          ∧ outstanding_tasks_ g' = outstanding_tasks_ g
          ∧ cpu_ready_queue_ g' = cpu_ready_queue_ g.
Proof.
  intros Hrun Hg. revert Hrun. unfold analyse_graph, compute_dependencies.
  comp_unfold. simpl. rewrite Hg. simpl.
  destruct (compute_dependencies_loop _ _ _ _ _) as [dependencies|];
    simpl; [|done].
  destruct outputs as [|output outputs].
  { intros [= <-]. simpl. rewrite lookup_insert_eq.
    do 2 (split; [done|]). by eexists. }
  unfold put_graph_task at 1. simpl. rewrite lookup_insert_eq.
  unfold init_to_execute.
  destruct (init_captures _ _ _) as [exec_info output_idx].
  destruct (init_to_execute_roots _ _ _ _ _) as [exec_info'| | | |];
    intros [= <-]. simpl. rewrite lookup_insert_eq.
  do 2 (split; [done|]). by eexists.
Qed.

(** X19: the graph task that [execute] makes starts with the task of its
    graph root counted: when no task in the queues names the new graph task
    yet, then after [execute_with_graph_task] has pushed the graph root the
    counter of outstanding tasks is 1 and the task of the root is the one
    task of the graph task in the queues. *)
Theorem execute_counts_graph_root keep_graph create_graph fuel graph_root
    roots inputs outputs (s s' : State) :
  gid = next_graph_task (engine s) →
  queued gid (engine s) = 0%nat →
  (gid0 ← make_graph_task keep_graph create_graph;
   analyse_graph fuel gid0 graph_root roots inputs outputs;;
   push_graph_root num_devices gid0 graph_root) s = (s', Ret ()) →
  balanced gid s'
  ∧ queued gid (engine s') = 1%nat
  ∧ ∃ g queue,
      graph_tasks (engine s') !! gid = Some g
      ∧ outstanding_tasks_ g = 1
      ∧ cpu_ready_queue_ g = Some queue
      ∧ mkNodeTask (Some gid) (Some graph_root) (InputBuffer_new 0) false
        ∈ default [] (ready_queues (engine s') !! queue).
Proof.
  intros Hgid Hqueued Hrun.
  apply bind_returns in Hrun as (gid0 & s1 & Hmake & Hrun).
  apply make_graph_task_counts in Hmake as (-> & Hq1 & g1 & Hg1 & Hout1).
  rewrite <- Hgid in *.
  apply bind_returns in Hrun as ([] & s2 & Hanalyse & Hrun).
  destruct (analyse_graph_counts _ _ _ _ _ _ _ _ _ Hanalyse Hg1)
    as (Hq2 & _ & g2 & Hg2 & Hout2 & Hcpu2).
  assert (Hqueued2 : queued gid (engine s2) = 0%nat).
  { unfold queued in *. rewrite Hq2. lia. }
  revert Hrun. unfold push_graph_root, call_once_start_device_threads,
    ready_queue, cpu_device, ReadyQueue_push. comp_unfold. simpl.
  set (e3 := if start_device_threads_flag_ (engine s2) then engine s2
             else with_start_device_threads_flag true
                    (start_device_threads num_devices (engine s2))).
  assert (Hg3 : graph_tasks e3 !! gid = Some g2).
  { unfold e3. by destruct (start_device_threads_flag_ (engine s2)). }
  assert (Hqueued3 : queued gid e3 = 0%nat).
  { unfold e3. destruct (start_device_threads_flag_ (engine s2)); [done|].
    pose proof (queued_start_device_threads (engine s2)) as Hle.
    unfold queued in *. simpl in *. lia. }
  rewrite Hg3. simpl.
  destruct (cpu_ready_queue_ g2) as [queue|] eqn:Hcpu; simpl; [|done].
  rewrite Hg3. simpl. rewrite Hg3. simpl.
  intros [= <-]. simpl.
  set (e4 := heap_push queue _ _).
  assert (Hcount : queued gid e4 = 1%nat).
  { unfold e4. rewrite queued_heap_push. unfold counts_for. simpl.
    rewrite bool_decide_eq_true_2 by done. simpl.
    unfold queued in *. simpl. rewrite Hqueued3. done. }
  assert (Hg4 : graph_tasks e4 !! gid = Some (count_push g2)).
  { unfold e4, heap_push, record_event. simpl. apply lookup_insert_eq. }
  assert (Hout4 : outstanding_tasks_ (count_push g2) = 1).
  { unfold count_push, uint64_incr. simpl. by rewrite Hout2, Hout1. }
  split; [|split].
  - intros g. cbn [engine with_engine]. rewrite Hg4. intros [= <-].
    by rewrite Hout4, Hcount.
  - exact Hcount.
  - exists (count_push g2), queue. split; [exact Hg4|].
    split; [exact Hout4|]. split; [done|].
    unfold e4, heap_push. simpl. rewrite lookup_insert_eq. simpl.
    apply elem_of_app. right. by apply list_elem_of_singleton.
Qed.

End GraphRootFacts.

(** The first [execute] of an engine, up to the push of the graph root. *)
Lemma execute_counts_graph_root_witness :
  let s := mkState ThreadLocals_init (Engine_new Simple.chain_fork) in
  let run :=
    (gid0 ← make_graph_task false false;
     analyse_graph 20 gid0 0%nat [Simple.edge_to Simple.A] [Simple.scalar 5]
                   [Simple.edge_to Simple.B];;
     push_graph_root 0 gid0 0%nat) s in
  queued 0%nat (engine s) = 0%nat
  ∧ run.2 = Ret ()
  ∧ balanced 0%nat run.1
  ∧ queued 0%nat (engine run.1) = 1%nat.
Proof.
  intros s run.
  assert (Hqueued : queued 0%nat (engine s) = 0%nat)
    by (vm_compute; reflexivity).
  assert (Hret : run.2 = Ret ()) by (vm_compute; reflexivity).
  split; [exact Hqueued|]. split; [exact Hret|].
  destruct (execute_counts_graph_root (L := Simple.tensors)
              0 0%nat false false 20 0%nat
              [Simple.edge_to Simple.A] [Simple.scalar 5]
              [Simple.edge_to Simple.B] s run.1 eq_refl Hqueued)
    as (Hbalanced & Hone & _).
  { rewrite <- Hret. apply surjective_pairing. }
  split; [exact Hbalanced|exact Hone].
Defined.

(** ** The scan for NaN in anomaly mode *)

Section AnomalyFacts.
Context {L : TensorLib}.
Variable can_checkpoint : GraphTask → bool.
Variable InputBuffer_device : InputBuffer → Device.

Local Abbreviation has_nan :=
  (λ output : Tensor, defined output && isnan_any output).

Lemma check_nan_first func (outputs : variable_list) :
  ∀ i : nat,
    match check_nan func i outputs with
    | Ok _ => ∀ j output, outputs !! j = Some output → has_nan output = false
    | Throw e =>
        ∃ (j : nat) output,
          e = returned_nan func (i + j)
          ∧ outputs !! j = Some output ∧ has_nan output = true
          ∧ ∀ (k : nat) output',
              (k < j)%nat → outputs !! k = Some output' →
              has_nan output' = false
    end.
Proof.
  induction outputs as [|output outputs IH]; intros i; simpl; [done|].
  destruct (defined output && isnan_any output) eqn:Hnan.
  - exists 0%nat, output. rewrite Nat.add_0_r. repeat split; [done|]. lia.
  - specialize (IH (S i)). destruct (check_nan func (S i) outputs) as [[]|e].
    + intros [|j] output'; simpl; [by intros [= <-]|apply IH].
    + destruct IH as (j & output' & -> & Hj & Hnan' & Hfirst).
      exists (S j), output'. split; [f_equal; lia|].
      split; [done|]. split; [done|].
      intros [|k] output''; simpl; [by intros _ [= <-]|].
      intros Hk. apply Hfirst. lia.
Qed.

(** X20: in anomaly mode [evaluate_function] scans the outputs of the node
    before it routes any of them: it throws for the first output that is
    defined and holds a NaN, naming its index, with the state as
    [call_function] left it; when no defined output holds a NaN the call
    is the one without anomaly mode, which routes the outputs. *)
Theorem anomaly_mode_first_nan gid func inputs (s s0 s1 : State)
    (outputs : variable_list) :
  on_graph_task gid (capture_inputs func inputs) s = (s0, Ret false) →
  call_function can_checkpoint gid func inputs s0 = (s1, Ret outputs) →
  outputs ≠ [] →
  evaluate_function can_checkpoint false InputBuffer_device gid func inputs s
  = route InputBuffer_device gid func outputs s1
  ∧ (∀ (j : nat) output,
       outputs !! j = Some output → has_nan output = true →
       (∀ (k : nat) output',
          (k < j)%nat → outputs !! k = Some output' →
          has_nan output' = false) →
       evaluate_function can_checkpoint true InputBuffer_device
                         gid func inputs s
       = (s1, Exn (returned_nan func j)))
  ∧ ((∀ (j : nat) output,
        outputs !! j = Some output → has_nan output = false) →
     evaluate_function can_checkpoint true InputBuffer_device
                       gid func inputs s
     = route InputBuffer_device gid func outputs s1).
Proof.
  intros Hcapture Hcall Hsome.
  assert (Heval : ∀ anomaly_enabled,
            evaluate_function can_checkpoint anomaly_enabled
                              InputBuffer_device gid func inputs s
            = ((if anomaly_enabled then lift_result (check_nan func 0 outputs)
                else mret ());;
               route InputBuffer_device gid func outputs) s1).
  { intros anomaly_enabled. unfold evaluate_function.
    rewrite (bind_eq _ _ _ _ _ Hcapture). simpl.
    unfold get_engine at 1. unfold mbind at 1, Comp_bind at 1.
    rewrite (bind_eq _ _ _ _ _ Hcall).
    by destruct outputs. }
  split; [by rewrite Heval|].
  pose proof (check_nan_first func outputs 0) as Hscan.
  split.
  - intros j output Hj Hnan Hfirst. rewrite Heval.
    destruct (check_nan func 0 outputs) as [[]|e].
    { by rewrite (Hscan j output Hj) in Hnan. }
    destruct Hscan as (j' & output' & -> & Hj' & Hnan' & Hfirst').
    assert (j' = j) as ->.
    { destruct (Nat.lt_trichotomy j j') as [Hlt|[->|Hgt]]; [|done|].
      - by rewrite (Hfirst' j output Hlt Hj) in Hnan.
      - by rewrite (Hfirst j' output' Hgt Hj') in Hnan'. }
    done.
  - intros Hnone. rewrite Heval.
    destruct (check_nan func 0 outputs) as [[]|e]; [done|].
    destruct Hscan as (j' & output' & _ & Hj' & Hnan' & _).
    by rewrite (Hnone j' output' Hj') in Hnan'.
Qed.

End AnomalyFacts.

(** The node whose second output holds a NaN: the scan names index 1, and
    the node has been applied. *)
Lemma anomaly_mode_first_nan_witness :
  let L := SimpleAnomaly.nan_tensors in
  let s : State (L := L) := SimpleAnomaly.nan_state in
  let inputs : InputBuffer (L := L) := [Some (Simple.scalar 5)] in
  let run := evaluate_function (L := L) (λ _, true) true (λ _, Simple.cpu)
                               0%nat Simple.A inputs s in
  run.2 = Exn (returned_nan Simple.A 1)
  ∧ trace_ (engine run.1) = [ev_apply 0%nat Simple.A].
Proof.
  intros L s inputs run.
  pose (s0 := (on_graph_task (L := L) 0%nat
                 (capture_inputs (L := L) Simple.A inputs) s).1).
  pose (s1 := (call_function (L := L) (λ _, true) 0%nat Simple.A inputs
                 s0).1).
  destruct (anomaly_mode_first_nan (L := L) (λ _, true) (λ _, Simple.cpu)
              0%nat Simple.A inputs s s0 s1
              [Simple.scalar 1; Simple.scalar (-1)])
    as (_ & Hnan & _); [vm_compute; reflexivity..|discriminate|].
  assert (Hrun : run = (s1, Exn (returned_nan Simple.A 1))).
  { apply (Hnan 1%nat (Simple.scalar (-1))); [reflexivity..|].
    intros [|k] output' Hk; [|lia]. by intros [= <-]. }
  split; [exact (f_equal snd Hrun)|].
  rewrite Hrun. vm_compute. reflexivity.
Defined.

(** ** Leaving the worker loop *)

Section LeaveFacts.
Context {L : TensorLib}.
Variable can_checkpoint : GraphTask → bool.
Variable anomaly_enabled : bool.
Variable InputBuffer_device : InputBuffer → Device.

Local Abbreviation thread_main_task_ :=
  (thread_main_task can_checkpoint anomaly_enabled InputBuffer_device).
Local Abbreviation thread_main_loop_ :=
  (thread_main_loop can_checkpoint anomaly_enabled InputBuffer_device).

Lemma mark_graph_task_completed_done gid (s s1 : State) o (g : GraphTask) :
  mark_graph_task_completed gid s = (s1, o) →
  graph_tasks (engine s) !! gid = Some g →
  o = Ret () ∧ tls s1 = tls s
  ∧ ∃ g1, graph_tasks (engine s1) !! gid = Some g1
          ∧ completed (future_result_ g1) = true
          ∧ graph_task_completed g1 = graph_task_completed g.
Proof.
  intros Hrun Hg. revert Hrun.
  unfold mark_graph_task_completed, graph_task_exec_post_processing.
  comp_unfold. rewrite Hg.
  destruct (completed (future_result_ g)) eqn:Hc.
  { intros [= <- <-]. do 2 (split; [done|]). by exists g. }
  simpl. rewrite Hg. simpl.
  destruct (negb (bool_decide (not_ready_ g = ∅))); simpl.
  { rewrite Hg. intros [= <- <-]. do 2 (split; [done|]). simpl.
    rewrite lookup_insert_eq. by eexists. }
  destruct (run_callbacks _) as [[]|e]; simpl; rewrite Hg; simpl;
    rewrite ?Hg; intros [= <- <-]; (do 2 (split; [done|])); simpl;
    rewrite lookup_insert_eq; by eexists.
Qed.



End LeaveFacts.


(** ** The number of gradients that [execute] returns *)

Section ResultLength.
Context {L : TensorLib}.
Variable can_checkpoint : GraphTask → bool.
Variable anomaly_enabled : bool.
Variable InputBuffer_device : InputBuffer → Device.
Variable num_devices : nat.
Variable n : nat.
Variable gid : GraphTaskId.

Definition sized (s : State) : Prop :=
  ∀ g, graph_tasks (engine s) !! gid = Some g → returns_gradients n g.

Local Abbreviation keeps_size := (preserves (inv_rel sized)).

Lemma sized_same (s s' : State) :
  graph_tasks (engine s') !! gid = graph_tasks (engine s) !! gid →
  inv_rel sized s s'.
Proof. intros Hsame Hsized g Hg. apply Hsized. by rewrite <- Hsame. Qed.

Lemma sized_put (s : State) gid0 (g g' : GraphTask) :
  graph_tasks (engine s) !! gid0 = Some g →
  (returns_gradients n g → returns_gradients n g') →
  inv_rel sized s (put_graph_task gid0 g' s).
Proof.
  intros Hg Hkeeps Hsized g0. unfold put_graph_task. simpl.
  destruct (decide (gid0 = gid)) as [->|Hne].
  - rewrite lookup_insert_eq. intros [= <-]. by apply Hkeeps, Hsized.
  - rewrite lookup_insert_ne by done. apply Hsized.
Qed.

Ltac size_solve :=
  intros;
  first [ by (apply sized_same; simpl)
        | eapply sized_put; [eassumption|];
          unfold returns_gradients, modify in *; simplify_eq/=; done ].

Lemma write_captures_length (inputs : InputBuffer) capture_vec :
  ∀ vars vars' : variable_list,
    write_captures capture_vec inputs vars = Some vars' →
    length vars' = length vars.
Proof.
  unfold write_captures.
  induction capture_vec as [|capture vec IH] using rev_ind;
    intros vars vars'; [by intros [= <-]|].
  rewrite foldl_app. simpl.
  destruct (foldl _ _ vec) as [vars1|] eqn:Hvec; simpl; [|done].
  destruct (decide _); [|done]. intros [= <-].
  rewrite length_insert. by apply IH.
Qed.

Lemma capture_inputs_size func inputs (g g' : GraphTask) o :
  capture_inputs func inputs g = (g', o) →
  returns_gradients n g → returns_gradients n g'.
Proof.
  unfold capture_inputs. comp_unfold.
  destruct (bool_decide _); [by intros [= <- <-]|].
  destruct (exec_info_ g !! Some func) as [info|]; [|by intros [= <- <-]].
  destruct (captures_ info) as [capture_vec|]; [|by intros [= <- <-]].
  destruct (write_captures _ _ _) as [vars|] eqn:Hwrite;
    [|by intros [= <- <-]].
  apply write_captures_length in Hwrite.
  intros [= <- <-] [Hlen Hfuture]. split; [simpl; lia|done].
Qed.

Lemma set_exception_size e (g g' : GraphTask) o :
  set_exception e g = (g', o) →
  returns_gradients n g → returns_gradients n g'.
Proof.
  unfold set_exception. comp_unfold.
  destruct (has_error_ g); [by intros [= <- <-]|]. simpl.
  destruct (completed (future_result_ g)); simpl.
  - destruct (hasError _); by intros [= <- <-].
  - intros [= <- <-] [Hlen _]. by split.
Qed.

Lemma mark_graph_task_completed_size gid0 :
  keeps_size (mark_graph_task_completed gid0).
Proof.
  intros s s' o. unfold mark_graph_task_completed,
    graph_task_exec_post_processing. comp_unfold.
  destruct (graph_tasks (engine s) !! gid0) as [g|] eqn:Hg;
    [|intros [= <- <-]; reflexivity].
  destruct (completed (future_result_ g)) eqn:Hc;
    [intros [= <- <-]; reflexivity|].
  simpl. rewrite Hg. simpl.
  destruct (negb (bool_decide (not_ready_ g = ∅))); simpl.
  { rewrite Hg. intros [= <- <-]. apply (sized_put _ _ g); [done|].
    intros [Hlen _]. by split. }
  destruct (run_callbacks _) as [[]|e]; simpl; rewrite Hg; simpl;
    rewrite ?Hg; intros [= <- <-]; (apply (sized_put _ _ g); [done|]);
    intros [Hlen _]; (split; [done|]); simpl; [|done].
  by intros value [= <-].
Qed.

Lemma route_output_size queues num_inputs gid0 output next :
  preserves
    (unchanged (λ st : Routing, (captured_vars_ st.1, future_result_ st.1)))
    (route_output InputBuffer_device queues num_inputs gid0 output next).
Proof.
  unfold route_output, decrement_dependency, modify_task, push_node_task.
  repeat preserves_step; intros; by destruct_and?.
Qed.

Lemma route_outputs_size queues num_inputs gid0 outputs :
  ∀ edges,
    preserves
      (unchanged (λ st : Routing, (captured_vars_ st.1, future_result_ st.1)))
      (route_outputs InputBuffer_device queues num_inputs gid0 outputs edges).
Proof.
  induction outputs as [|output outputs IH]; intros edges; simpl;
    [preserves_step|].
  destruct edges as [|next edges]; [preserves_step|].
  preserves_step; [apply route_output_size|apply IH].
Qed.

Lemma route_size gid0 func outputs :
  keeps_size (route InputBuffer_device gid0 func outputs).
Proof.
  intros s s' o. unfold route.
  destruct (graph_tasks (engine s) !! gid0) as [g|] eqn:Hg;
    [|intros [= <- <-]; reflexivity].
  destruct (route_outputs _ _ _ _ _ _ _) as [[g' pushes] o'] eqn:Hroute.
  intros [= <- <-]. apply route_outputs_size in Hroute.
  unfold unchanged in Hroute. simpl in Hroute. injection Hroute as Hc Hf.
  etrans; [apply (sized_put s gid0 g g' Hg)|].
  { unfold returns_gradients. by rewrite Hc, Hf. }
  apply sized_same. simpl. by rewrite commit_pushes_graph_tasks.
Qed.

Lemma ReadyQueue_push_size queue item inc :
  keeps_size (ReadyQueue_push queue item inc).
Proof.
  unfold ReadyQueue_push, count_push. repeat preserves_step; size_solve.
Qed.

Lemma ReadyQueue_pop_size queue : keeps_size (ReadyQueue_pop queue).
Proof.
  intros s s' o. unfold ReadyQueue_pop.
  destruct (heap_pop _ _) as [[task heap]|]; intros [= <- <-]; size_solve.
Qed.

Lemma call_function_size gid0 func inputs :
  keeps_size (call_function can_checkpoint gid0 func inputs).
Proof. unfold call_function. repeat preserves_step; size_solve. Qed.

Lemma evaluate_function_size gid0 func inputs :
  keeps_size
    (evaluate_function can_checkpoint anomaly_enabled InputBuffer_device
                       gid0 func inputs).
Proof.
  unfold evaluate_function. repeat preserves_step;
    try apply call_function_size; try apply route_size; try size_solve.
  intros s g g' o Hg Hrun. apply (sized_put _ _ g); [done|].
  by eapply capture_inputs_size.
Qed.

Lemma thread_main_completion_size gid0 :
  keeps_size (thread_main_completion gid0).
Proof.
  unfold thread_main_completion. repeat preserves_step;
    try apply mark_graph_task_completed_size;
    try apply ReadyQueue_push_size; size_solve.
Qed.

Lemma thread_main_task_size reentrant task :
  keeps_size
    (thread_main_task can_checkpoint anomaly_enabled InputBuffer_device
                      reentrant task).
Proof.
  unfold thread_main_task, thread_on_exception, decrement_outstanding_tasks.
  repeat preserves_step;
    try apply evaluate_function_size;
    try apply thread_main_completion_size; try size_solve.
  intros s0 g1 g2 o Hg1 Hrun. apply (sized_put _ _ g1); [done|].
  by eapply set_exception_size.
Qed.

Lemma thread_main_loop_size fuel graph_task reentrant :
  keeps_size
    (thread_main_loop can_checkpoint anomaly_enabled InputBuffer_device
                      fuel graph_task reentrant).
Proof.
  induction fuel as [|fuel IH]; simpl; [preserves_step|].
  repeat preserves_step; try apply ReadyQueue_pop_size;
    try apply thread_main_task_size; try apply IH; size_solve.
Qed.

Lemma thread_main_size fuel graph_task reentrant :
  keeps_size
    (thread_main can_checkpoint anomaly_enabled InputBuffer_device
                 fuel graph_task reentrant).
Proof.
  unfold thread_main. repeat preserves_step;
    try apply thread_main_loop_size; size_solve.
Qed.

Lemma future_wait_size gid0 : keeps_size (future_wait gid0).
Proof. unfold future_wait. repeat preserves_step; size_solve. Qed.

Lemma execute_with_graph_task_size fuel gid0 graph_root :
  keeps_size
    (execute_with_graph_task can_checkpoint anomaly_enabled
       InputBuffer_device num_devices fuel gid0 graph_root).
Proof.
  unfold execute_with_graph_task, push_graph_root,
    call_once_start_device_threads, drive_from_caller, drive_from_pool,
    drive_inline, add_thread_pool_task, set_device.
  repeat preserves_step;
    try apply thread_main_size; try apply ReadyQueue_push_size;
    try apply future_wait_size; try size_solve.
  intros s. apply sized_same. simpl.
  by destruct (start_device_threads_flag_ (engine s)).
Qed.

End ResultLength.

Section ExecuteResult.
Context {L : TensorLib}.
Variable can_checkpoint : GraphTask → bool.
Variable anomaly_enabled : bool.
Variable InputBuffer_device : InputBuffer → Device.
Variable num_devices : nat.

Lemma make_graph_task_empty keep_graph create_graph (s s' : State) gid :
  make_graph_task keep_graph create_graph s = (s', Ret gid) →
  ∃ g, graph_tasks (engine s') !! gid = Some g
       ∧ captured_vars_ g = [] ∧ future_result_ g = Pending.
Proof.
  unfold make_graph_task, init_local_ready_queue, new_ready_queue,
    new_graph_task. comp_unfold. simpl.
  destruct (bool_decide (worker_device (tls s) ≠ NO_DEVICE)); simpl.
  - intros [= <- <-]. simpl. rewrite lookup_insert_eq. by eexists.
  - destruct (bool_decide (local_ready_queue (tls s) = None)); simpl;
      [|done].
    intros [= <- <-]. simpl. rewrite lookup_insert_eq. by eexists.
Qed.

Lemma analyse_graph_size fuel gid graph_root roots inputs outputs
    (s s' : State) (g : GraphTask) :
  analyse_graph fuel gid graph_root roots inputs outputs s = (s', Ret ()) →
  graph_tasks (engine s) !! gid = Some g →
  captured_vars_ g = [] → future_result_ g = Pending →
  sized (length outputs) gid s'.
Proof.
  intros Hrun Hg Hcaptured Hfuture. revert Hrun.
  unfold analyse_graph, compute_dependencies.
  comp_unfold. simpl. rewrite Hg. simpl.
  destruct (compute_dependencies_loop _ _ _ _ _) as [dependencies|];
    simpl; [|done].
  destruct outputs as [|output outputs].
  { intros [= <-] g'. simpl. rewrite lookup_insert_eq. intros [= <-].
    split; simpl; [by rewrite Hcaptured|by rewrite Hfuture]. }
  unfold put_graph_task at 1. simpl. rewrite lookup_insert_eq.
  unfold init_to_execute.
  pose proof (init_captures_idx (output :: outputs) 0
                (assign_needed (Some graph_root) true
                   (exec_info_ (with_dependencies dependencies g))))
    as Hidx.
  destruct (init_captures _ _ _) as [exec_info output_idx].
  simpl in Hidx. subst output_idx.
  destruct (init_to_execute_roots _ _ _ _ _) as [exec_info'| | | |];
    intros [= <-] g'. simpl. rewrite lookup_insert_eq. intros [= <-].
  split; simpl; [|by rewrite Hfuture].
  unfold resize. rewrite Hcaptured. simpl. by rewrite length_replicate.
Qed.

Lemma execute_with_graph_task_returns fuel gid graph_root (s s' : State)
    value :
  execute_with_graph_task can_checkpoint anomaly_enabled InputBuffer_device
    num_devices fuel gid graph_root s = (s', Ret value) →
  ∃ g, graph_tasks (engine s') !! gid = Some g
       ∧ future_result_ g = Completed value.
Proof.
  assert (Hwait : ∀ s0 : State,
            future_wait gid s0 = (s', Ret value) →
            ∃ g, graph_tasks (engine s') !! gid = Some g
                 ∧ future_result_ g = Completed value).
  { intros s0. unfold future_wait, get_graph_task, mbind, Comp_bind.
    destruct (graph_tasks (engine s0) !! gid) as [g|] eqn:Hg; [|done].
    destruct (future_result_ g) eqn:Hfuture; [done| |done].
    intros [= <- <-]. by exists g. }
  intros Hrun. unfold execute_with_graph_task in Hrun.
  apply bind_returns in Hrun as (? & s1 & _ & Hrun).
  apply bind_returns in Hrun as (t & s2 & _ & Hrun).
  apply bind_returns in Hrun as (e & s3 & _ & Hrun).
  destruct (decide _).
  - unfold drive_from_caller in Hrun.
    do 6 (apply bind_returns in Hrun as (? & ? & _ & Hrun)).
    by eapply Hwait.
  - apply bind_returns in Hrun as (? & s4 & _ & Hrun).
    destruct (decide _).
    + unfold drive_from_pool in Hrun.
      apply bind_returns in Hrun as (? & ? & _ & Hrun). by eapply Hwait.
    + unfold drive_inline in Hrun.
      do 7 (apply bind_returns in Hrun as (? & ? & _ & Hrun)).
      by eapply Hwait.
Qed.

(** X22: when [execute] returns, it returns one gradient for each output
    that was requested, and none when no output was requested: the vector
    of captured variables is given that size before the graph task runs,
    the capture loop writes into it without resizing it, and the future is
    completed with it. *)
Theorem execute_returns_one_gradient_per_output fuel graph_root roots inputs
    keep_graph create_graph outputs (s s' : State) value :
  execute can_checkpoint anomaly_enabled InputBuffer_device num_devices
          fuel graph_root roots inputs keep_graph create_graph outputs s
  = (s', Ret value) →
  length value = length outputs.
Proof.
  intros Hrun. unfold execute in Hrun.
  apply bind_returns in Hrun as (e & s0 & _ & Hrun).
  apply bind_returns in Hrun as (inputs' & s1 & _ & Hrun).
  apply bind_returns in Hrun as (? & s2 & _ & Hrun).
  apply finally_returns in Hrun as (s3 & Hrun & _).
  apply bind_returns in Hrun as (gid & s4 & Hmake & Hrun).
  apply make_graph_task_empty in Hmake as (g & Hg & Hcaptured & Hfuture).
  apply finally_returns in Hrun as (s5 & Hrun & _).
  apply bind_returns in Hrun as ([] & s6 & Hanalyse & Hrun).
  pose proof (analyse_graph_size _ _ _ _ _ _ _ _ _ Hanalyse Hg Hcaptured
                Hfuture) as Hsized.
  pose proof (execute_with_graph_task_size can_checkpoint anomaly_enabled
                InputBuffer_device num_devices (length outputs) gid
                _ _ _ _ _ _ Hrun Hsized) as Hsized'.
  apply execute_with_graph_task_returns in Hrun as (g' & Hg' & Hvalue).
  destruct (Hsized' g' Hg') as [_ Hlength]. by apply Hlength.
Qed.

End ExecuteResult.

(** [execute] on A → B → {C, D} with one output requested returns one
    gradient. *)
Lemma execute_returns_one_gradient_per_output_witness :
  let run := execute Simple.exec_info_empty false Simple.buffer_device 0 20
               0%nat [Simple.edge_to Simple.A] [Simple.scalar 5] false false
               [Simple.edge_to Simple.B] in
  let s0 := mkState ThreadLocals_init (Engine_new Simple.chain_fork) in
  (run s0).2 = Ret [Simple.scalar 10]
  ∧ length [Simple.scalar 10] = length [Simple.edge_to Simple.B].
Proof.
  intros run s0.
  assert (Hret : (run s0).2 = Ret [Simple.scalar 10])
    by (vm_compute; reflexivity).
  assert (Hrun : run s0 = ((run s0).1, Ret [Simple.scalar 10]))
    by (rewrite <- Hret; apply surjective_pairing).
  split; [exact Hret|].
  exact (execute_returns_one_gradient_per_output Simple.exec_info_empty
           false Simple.buffer_device 0 20 0%nat [Simple.edge_to Simple.A]
           [Simple.scalar 5] false false [Simple.edge_to Simple.B]
           s0 (run s0).1 [Simple.scalar 10] Hrun).
Defined.

(** ** Every node of the graph is applied once *)

Section WeighFacts.
Context {L : TensorLib}.
Variable w : NodeTask → nat.

Lemma weigh_insert (e : Engine) (queue : QueueId) (heap : list NodeTask) :
  (weigh w (with_ready_queues (<[queue := heap]> (ready_queues e)) e)
   + sum_list_with w (default [] (ready_queues e !! queue)))%nat
  = (weigh w e + sum_list_with w heap)%nat.
Proof.
  unfold weigh. simpl.
  destruct (ready_queues e !! queue) as [old|] eqn:Hold; simpl.
  - rewrite <- (insert_delete_eq (ready_queues e)).
    rewrite (sum_list_with_Permutation_proper _ _ _
               (map_to_list_insert _ queue heap (lookup_delete_eq _ _))).
    rewrite <- (sum_list_with_Permutation_proper _ _ _
                  (map_to_list_delete _ queue old Hold)).
    simpl. lia.
  - rewrite (sum_list_with_Permutation_proper _ _ _
               (map_to_list_insert _ queue heap Hold)).
    simpl. lia.
Qed.

Lemma weigh_heap_push (e : Engine) (queue : QueueId) (item : NodeTask) :
  weigh w (heap_push queue item e) = (weigh w e + w item)%nat.
Proof.
  pose proof (weigh_insert e queue
                (default [] (ready_queues e !! queue) ++ [item])) as H.
  unfold heap_push. rewrite sum_list_with_app in H. simpl in H. lia.
Qed.

Lemma weigh_pop queue (s s' : State) task :
  ReadyQueue_pop queue s = (s', Ret task) →
  weigh w (engine s) = (weigh w (engine s') + w task)%nat.
Proof.
  unfold ReadyQueue_pop.
  destruct (heap_pop _ _) as [[task' heap']|] eqn:Hpop; [|done].
  intros [= <- <-]. simpl.
  apply heap_pop_lookup in Hpop as (i & Hi & ->).
  pose proof (weigh_insert (engine s) queue
                (delete i (default [] (ready_queues (engine s) !! queue))))
    as H.
  rewrite (sum_list_with_Permutation_proper w _ _
             (delete_Permutation _ _ _ Hi)) in H.
  simpl in H. lia.
Qed.

Lemma weigh_commit gid0 (pushes : list (QueueId * NodeTask)) :
  ∀ e : Engine,
    weigh w (commit_pushes gid0 pushes e)
    = (weigh w e + sum_list_with (λ push, w push.2) pushes)%nat.
Proof.
  unfold commit_pushes.
  induction pushes as [|push pushes IH]; intros e; simpl; [lia|].
  rewrite IH. unfold record_event.
  change (weigh w (with_trace ?t ?e0)) with (weigh w e0).
  rewrite weigh_heap_push. lia.
Qed.

Lemma weigh_same (e e' : Engine) :
  ready_queues e' = ready_queues e → weigh w e' = weigh w e.
Proof. unfold weigh. by intros ->. Qed.

End WeighFacts.

(** What the routing loop does to the counts along the successors of a
    node, in the order of the edges: every count is decremented, and a node
    whose count reaches zero loses its entry and is enqueued.  [None] when a
    successor has no count. *)
Fixpoint consume (dependencies : gmap Node Z) (successors : list Node)
  : option (gmap Node Z * list Node) :=
  match successors with
  | [] => Some (dependencies, [])
  | next_fn :: successors =>
      match dependencies !! next_fn with
      | Some count =>
          if decide (count - 1 = 0) then
            match consume (delete next_fn dependencies) successors with
            | Some (dependencies, enqueued) =>
                Some (dependencies, next_fn :: enqueued)
            | None => None
            end
          else consume (<[next_fn := count - 1]> dependencies) successors
      | None => None
      end
  end.

Lemma filter_eq_absent (n : Node) (l : list Node) :
  n ∉ l → filter (λ c, c = n) l = [].
Proof.
  induction l as [|x l IH]; [done|]. intros [Hne Hl]%not_elem_of_cons.
  rewrite filter_cons_False by (intros ->; done). auto.
Qed.

Lemma consume_counts (succs : list Node) :
  ∀ (deps deps' : gmap Node Z) new,
    consume deps succs = Some (deps', new) →
    (∀ n z, deps !! n = Some z → 0 < z) →
    (∀ n z, deps' !! n = Some z → 0 < z)
    ∧ (∀ n, default 0 (deps' !! n)
            = default 0 (deps !! n)
              - Z.of_nat (length (filter (λ c, c = n) succs)))
    ∧ NoDup new
    ∧ (∀ n, n ∈ new ↔ n ∈ succs ∧ deps' !! n = None)
    ∧ (∀ n, n ∈ succs → is_Some (deps !! n))
    ∧ (∀ n, n ∉ succs → deps' !! n = deps !! n).
Proof.
  induction succs as [|m succs IH]; intros deps deps' new; simpl.
  { intros [= <- <-] Hpos. split; [done|]. split; [intros n; lia|].
    split; [constructor|]. split; [|split; [|done]].
    - intros n. split; [by intros ?%elem_of_nil | by intros [?%elem_of_nil _]].
    - by intros n ?%elem_of_nil. }
  destruct (deps !! m) as [count|] eqn:Hm; [|done].
  destruct (decide (count - 1 = 0)) as [Hzero|Hnonzero].
  - destruct (consume (delete m deps) succs) as [[deps1 new1]|] eqn:Hrec;
      [|done].
    intros [= <- <-] Hpos.
    destruct (IH _ _ _ Hrec)
      as (Hpos' & Hcount & Hnodup & Hnew & Hsome & Hsame).
    { intros n z Hn. apply lookup_delete_Some in Hn as [_ Hn]. eauto. }
    assert (m ∉ succs) as Hfresh.
    { intros Hin. apply Hsome in Hin as [z Hz].
      by rewrite lookup_delete_eq in Hz. }
    assert (deps1 !! m = None) as Hgone.
    { rewrite Hsame by done. apply lookup_delete_eq. }
    split; [done|]. split; [|split; [|split; [|split]]].
    + intros n. rewrite filter_cons. destruct (decide (m = n)) as [->|Hne].
      * rewrite Hgone, Hm. simpl.
        rewrite filter_eq_absent by done. simpl. lia.
      * rewrite Hcount, lookup_delete_ne by done. done.
    + constructor; [|done]. intros Hin. apply Hnew in Hin as [? _]. done.
    + intros n. rewrite !elem_of_cons, Hnew. split.
      * intros [->|[? ?]]; [by split; [left|]|by split; [right|]].
      * intros [[->|?] ?]; [by left|by right].
    + intros n [->|Hin]%elem_of_cons; [by rewrite Hm|].
      apply Hsome in Hin as [z Hz].
      apply lookup_delete_Some in Hz as [_ Hz]. by rewrite Hz.
    + intros n [Hne Hnotin]%not_elem_of_cons.
      rewrite Hsame by done. by rewrite lookup_delete_ne.
  - intros Hrec Hpos.
    destruct (IH _ _ _ Hrec)
      as (Hpos' & Hcount & Hnodup & Hnew & Hsome & Hsame).
    { intros n z Hn. apply lookup_insert_Some in Hn as [[_ <-]|[_ Hn]];
        [|by eauto]. apply Hpos in Hm. lia. }
    split; [done|]. split; [|split; [done|split; [|split]]].
    + intros n. rewrite filter_cons. destruct (decide (m = n)) as [->|Hne].
      * rewrite Hcount, lookup_insert_eq, Hm. simpl. lia.
      * rewrite Hcount, lookup_insert_ne by done. done.
    + intros n. rewrite elem_of_cons, Hnew. split; [by intros [? ?]; auto|].
      intros [[->|?] Hnone]; [|done]. split; [|done].
      destruct (decide (m ∈ succs)) as [|Hnotin]; [done|].
      rewrite Hsame, lookup_insert_eq in Hnone by done. done.
    + intros n [->|Hin]%elem_of_cons; [by rewrite Hm|].
      apply Hsome in Hin as [z Hz].
      apply lookup_insert_Some in Hz as [[<- _]|[_ Hz]];
        [by rewrite Hm|by rewrite Hz].
    + intros n [Hne Hnotin]%not_elem_of_cons.
      rewrite Hsame by done. by rewrite lookup_insert_ne.
Qed.

Section ScheduleFacts.
Variable next_edges : Node → edge_list.

Local Abbreviation successors_of := (successors next_edges).
Local Abbreviation into := (edges_into next_edges).

(** The nodes of the graph: no node twice, and closed under the edges. *)
Variable visited : list Node.
Hypothesis visited_nodup : NoDup visited.
Hypothesis visited_closed :
  ∀ m c, m ∈ visited → c ∈ successors_of m → c ∈ visited.

(** The run of a graph task is on schedule, for the counts [deps] and the
    nodes enqueued and applied so far: the count of a node is the number of
    edges into it from the nodes that have not been applied; the nodes
    enqueued are the nodes of the graph without a count; no node is enqueued
    or applied twice; a node is applied after it is enqueued, and before the
    nodes its edges lead to. *)
Record schedule (deps : gmap Node Z) (enqueued done : list Node)
  : Prop := {
  sch_positive : ∀ n z, deps !! n = Some z → 0 < z;
  sch_count : ∀ n, default 0 (deps !! n)
                   = Z.of_nat (into n visited) - Z.of_nat (into n done);
  sch_enqueued : ∀ n, n ∈ enqueued ↔ n ∈ visited ∧ deps !! n = None;
  sch_enqueued_once : NoDup enqueued;
  sch_done_once : NoDup done;
  sch_done : ∀ n, n ∈ done → n ∈ enqueued;
  sch_order : ∀ i j m n,
    done !! i = Some m → done !! j = Some n → n ∈ successors_of m →
    (i < j)%nat
}.

Lemma edges_into_snoc n (sources : list Node) m :
  into n (sources ++ [m])
  = (into n sources + edges_between next_edges m n)%nat.
Proof. unfold edges_into. rewrite sum_list_with_app. simpl. lia. Qed.

Lemma edges_between_pos m n :
  n ∈ successors_of m → (0 < edges_between next_edges m n)%nat.
Proof.
  intros Hin. unfold edges_between.
  assert (n ∈ filter (λ c, c = n) (successors_of m)) as Hn
    by (by apply list_elem_of_filter).
  destruct (filter _ _); [by apply elem_of_nil in Hn|simpl; lia].
Qed.

Lemma sum_list_with_missing (f : Node → nat) (sources : list Node) m :
  NoDup sources → (∀ x, x ∈ sources → x ∈ visited) →
  m ∈ visited → m ∉ sources →
  (sum_list_with f sources + f m ≤ sum_list_with f visited)%nat.
Proof.
  intros Hnodup Hsub Hm Hnotin.
  assert (m :: sources ⊆+ visited) as Hsubm.
  { apply NoDup_submseteq; [by constructor|].
    intros x [->|?]%elem_of_cons; auto. }
  apply submseteq_Permutation in Hsubm as [k Hk].
  rewrite (sum_list_with_Permutation_proper f _ _ Hk).
  rewrite sum_list_with_app. simpl. lia.
Qed.

(** The nodes with an edge into an enqueued node have been applied. *)
Lemma schedule_closed deps enqueued done m n :
  schedule deps enqueued done →
  n ∈ enqueued → m ∈ visited → n ∈ successors_of m → m ∈ done.
Proof.
  intros Hsch Hn Hm Hedge.
  destruct (decide (m ∈ done)) as [|Hnotin]; [done|exfalso].
  pose proof (sch_count _ _ _ Hsch n) as Hcount.
  apply (sch_enqueued _ _ _ Hsch) in Hn as [_ Hnone].
  rewrite Hnone in Hcount. simpl in Hcount.
  assert (∀ x, x ∈ done → x ∈ visited) as Hsub.
  { intros x Hx.
    by apply (sch_enqueued _ _ _ Hsch), (sch_done _ _ _ Hsch). }
  pose proof (sum_list_with_missing (λ x, edges_between next_edges x n)
                done m (sch_done_once _ _ _ Hsch) Hsub Hm Hnotin) as Hle.
  pose proof (edges_between_pos _ _ Hedge).
  unfold edges_into in Hcount. lia.
Qed.

(** The step of the schedule: an enqueued node is applied and its outputs
    are routed. *)
Lemma schedule_step deps enqueued done n deps' new :
  schedule deps enqueued done →
  n ∈ enqueued → n ∉ done →
  consume deps (successors_of n) = Some (deps', new) →
  schedule deps' (enqueued ++ new) (done ++ [n]).
Proof.
  intros Hsch Hn Hfresh Hconsume.
  destruct (consume_counts _ _ _ _ Hconsume (sch_positive _ _ _ Hsch))
    as (Hpos & Hcount & Hnodup & Hnew & Hsome & Hsame).
  assert (n ∈ visited) as Hvisited
    by (by apply (sch_enqueued _ _ _ Hsch) in Hn as [? _]).
  split.
  - done.
  - intros x. rewrite Hcount, (sch_count _ _ _ Hsch), edges_into_snoc.
    unfold edges_between. lia.
  - intros x. rewrite elem_of_app, Hnew, (sch_enqueued _ _ _ Hsch). split.
    + intros [[Hx Hnone]|[Hx Hnone]].
      * split; [done|]. rewrite Hsame; [done|].
        intros Hin. apply Hsome in Hin as [z Hz]. congruence.
      * split; [by eapply visited_closed|done].
    + intros [Hx Hnone].
      destruct (decide (x ∈ successors_of n)) as [|Hnotin]; [by right|].
      left. split; [done|]. by rewrite <- Hsame.
  - apply NoDup_app. split; [apply (sch_enqueued_once _ _ _ Hsch)|].
    split; [|done]. intros x Hx Hx'.
    apply (sch_enqueued _ _ _ Hsch) in Hx as [_ Hnone].
    apply Hnew in Hx' as [Hin _]. apply Hsome in Hin as [z Hz]. congruence.
  - apply NoDup_app. split; [apply (sch_done_once _ _ _ Hsch)|].
    split; [|apply NoDup_singleton].
    intros x Hx ->%list_elem_of_singleton. done.
  - intros x [Hx| ->%list_elem_of_singleton]%elem_of_app; apply elem_of_app.
    + left. by apply (sch_done _ _ _ Hsch).
    + by left.
  - intros i j m c Hi Hj Hedge.
    apply lookup_snoc_Some in Hi as [[Hlt Hi]|[-> <-]];
      apply lookup_snoc_Some in Hj as [[Hlt' Hj]|[-> <-]].
    + by eapply (sch_order _ _ _ Hsch).
    + done.
    + exfalso. apply Hfresh.
      eapply schedule_closed; [done| |done|done].
      apply (sch_done _ _ _ Hsch). by eapply list_elem_of_lookup_2.
    + exfalso. apply Hfresh. by eapply schedule_closed.
Qed.

Lemma sum_list_with_support (f : Node → nat) (sources : list Node) :
  NoDup sources → (∀ x, x ∈ visited → (0 < f x)%nat → x ∈ sources) →
  (sum_list_with f visited ≤ sum_list_with f sources)%nat.
Proof.
  intros Hnodup Hsupport.
  assert (∀ l : list Node,
            sum_list_with f l
            = sum_list_with f (filter (λ x, (0 < f x)%nat) l)) as Hfilter.
  { induction l as [|x l IH]; [done|]. rewrite filter_cons.
    destruct (decide (0 < f x)%nat); simpl; lia. }
  rewrite (Hfilter visited).
  assert (filter (λ x, (0 < f x)%nat) visited ⊆+ sources) as Hsub.
  { apply NoDup_submseteq; [by apply NoDup_filter|].
    intros x [? ?]%list_elem_of_filter. auto. }
  apply submseteq_Permutation in Hsub as [k Hk].
  rewrite (sum_list_with_Permutation_proper f _ _ Hk), sum_list_with_app.
  lia.
Qed.

Lemma edges_between_successor m n :
  (0 < edges_between next_edges m n)%nat → n ∈ successors_of m.
Proof.
  unfold edges_between. intros Hpos.
  destruct (filter (λ c, c = n) (successors_of m)) as [|c l] eqn:Hfilter;
    [simpl in Hpos; lia|].
  assert (c ∈ filter (λ c, c = n) (successors_of m)) as Hc
    by (rewrite Hfilter; left).
  by apply list_elem_of_filter in Hc as [-> ?].
Qed.

Section Rooted.
Variable root : Node.
Variable rank : Node → nat.
Hypothesis Hacyclic : acyclic next_edges root rank.
Hypothesis visited_reachable : ∀ n, n ∈ visited ↔ reachable next_edges root n.

(** The schedule when the graph root is enqueued, for the counts that
    [compute_dependencies] gives. *)
Lemma schedule_init (deps : gmap Node Z) :
  (∀ n, deps !! n
        = if decide (into n visited = 0%nat) then None
          else Some (Z.of_nat (into n visited))) →
  schedule deps [root] [].
Proof.
  intros Hdeps. split.
  - intros n z. rewrite Hdeps. destruct (decide _); [done|].
    intros [= <-]. lia.
  - intros n. rewrite Hdeps. destruct (decide _) as [->|]; simpl; lia.
  - intros n. rewrite list_elem_of_singleton, Hdeps. split.
    + intros ->. split; [apply visited_reachable, rtc_refl|].
      rewrite (edges_into_root next_edges root rank visited Hacyclic);
        [done|]. intros n. apply visited_reachable.
    + intros [Hn Hnone]. destruct (decide _) as [Hzero|]; [|done].
      apply visited_reachable in Hn.
      apply rtc_inv_r in Hn as [->|(m & Hm & Hedge)]; [done|exfalso].
      pose proof (sum_list_with_in m (λ x, edges_between next_edges x n)
                    visited) as Hle.
      pose proof (edges_between_pos _ _ Hedge).
      unfold edges_into in Hzero.
      assert (m ∈ visited) as Hin by (by apply visited_reachable).
      specialize (Hle Hin). simpl in Hle. lia.
  - apply NoDup_singleton.
  - constructor.
  - by intros n ?%elem_of_nil.
  - intros i j m n Hi. by rewrite lookup_nil in Hi.
Qed.

(** When every enqueued node has been applied, every node of the graph has
    been applied. *)
Lemma schedule_complete deps enqueued done :
  schedule deps enqueued done →
  (∀ n, n ∈ enqueued → n ∈ done) →
  ∀ n, n ∈ visited → n ∈ done.
Proof.
  intros Hsch Hdrained.
  assert (∀ k n, (rank root - rank n < k)%nat → n ∈ visited → n ∈ done)
    as Hall; [|by eauto].
  induction k as [|k IH]; intros n Hk Hn; [lia|].
  destruct (deps !! n) as [z|] eqn:Hz;
    [|by apply Hdrained, (sch_enqueued _ _ _ Hsch)].
  exfalso. pose proof (sch_positive _ _ _ Hsch _ _ Hz).
  pose proof (sch_count _ _ _ Hsch n) as Hcount.
  rewrite Hz in Hcount. simpl in Hcount.
  pose proof (sum_list_with_support (λ x, edges_between next_edges x n)
                done (sch_done_once _ _ _ Hsch)) as Hle.
  unfold edges_into in Hcount.
  assert (sum_list_with (λ x, edges_between next_edges x n) visited
          ≤ sum_list_with (λ x, edges_between next_edges x n) done)%nat;
    [|lia].
  apply Hle. intros m Hm Hedge%edges_between_successor.
  apply IH; [|done].
  apply visited_reachable in Hm.
  pose proof (Hacyclic _ _ Hm Hedge).
  pose proof (acyclic_rank_le next_edges root rank m Hacyclic Hm). lia.
Qed.

End Rooted.

End ScheduleFacts.

Section RoutingSchedule.
Context {L : TensorLib}.
Variable can_checkpoint : GraphTask → bool.
Variable anomaly_enabled : bool.
Variable InputBuffer_device : InputBuffer → Device.
Variable gid : GraphTaskId.

(** The tasks of the nodes of the graph task. *)
Definition node_task (task : NodeTask) : Prop :=
  base_ task = Some gid ∧ isShutdownTask_ task = false
  ∧ is_Some (fn_ task).

(** With nothing to prune, the routing loop does to the counts what
    [consume] says, and pushes a task for each node that [consume]
    enqueues. *)
Lemma omap_function_cons (next : Edge) (edges : edge_list) :
  omap function (next :: edges)
  = match function next with
    | Some next_fn => next_fn :: omap function edges
    | None => omap function edges
    end.
Proof. done. Qed.

Lemma route_outputs_consume queues num_inputs :
  ∀ outputs edges (g : GraphTask) (pushes : list (QueueId * NodeTask))
    g' pushes',
    route_outputs InputBuffer_device queues num_inputs gid outputs edges
                  (g, pushes) = ((g', pushes'), Ret ()) →
    length outputs = length edges →
    exec_info_ g = ∅ →
    ∃ new,
      pushes' = pushes ++ new
      ∧ consume (dependencies_ g) (omap function edges)
        = Some (dependencies_ g', pushed_nodes new)
      ∧ Forall (λ push, node_task push.2) new.
Proof.
  induction outputs as [|output outputs IH];
    intros [|next edges] g pushes g' pushes' Hrun Hlength Hempty;
    try done.
  { injection Hrun as <- <-. exists []. by rewrite app_nil_r. }
  injection Hlength as Hlength. cbn [route_outputs] in Hrun.
  apply bind_returns in Hrun as ([] & [g1 pushes1] & Hedge & Hrest).
  pose proof (route_output_exec_info InputBuffer_device queues num_inputs
                gid output next _ _ _ Hedge) as Hinfo.
  unfold unchanged in Hinfo. simpl in Hinfo.
  apply route_output_cases in Hedge.
  destruct (function next) as [next_fn|] eqn:Hfn.
  - destruct (dependencies_ g !! next_fn) as [count|] eqn:Hcount;
      [|by destruct Hedge as (_ & _ & ?)].
    destruct Hedge as (Hdeps & _ & Hpushes & Hiff).
    destruct (IH _ _ _ _ _ Hrest Hlength) as (new & -> & Hconsume & Hnew);
      [congruence|].
    rewrite Hdeps in Hconsume.
    destruct (decide (count - 1 = 0)) as [Hzero|Hnonzero].
    + destruct Hpushes as [->|(queue & buffer & -> & _)].
      { exfalso. specialize (Hiff Hzero eq_refl).
        destruct Hiff as [_ Hiff]. apply Hiff; [|done]. by right; left. }
      exists ((queue, mkNodeTask (Some gid) (Some next_fn) buffer false)
              :: new).
      split; [by rewrite <- app_assoc|].
      rewrite omap_function_cons, Hfn. cbn [consume].
      rewrite Hcount, decide_True, Hconsume by done.
      split; [done|]. constructor; [|done].
      split; [done|]. split; [done|]. by eexists.
    + destruct Hpushes as [->|(queue & buffer & _ & ?)]; [|done].
      exists new. split; [done|]. split; [|done].
      rewrite omap_function_cons, Hfn. cbn [consume].
      by rewrite Hcount, decide_False.
  - destruct Hedge as (-> & -> & _).
    destruct (IH _ _ _ _ _ Hrest Hlength Hempty) as (new & -> & ? & ?).
    exists new. split; [done|]. split; [|done].
    by rewrite omap_function_cons, Hfn.
Qed.

Lemma call_post_hooks_length hooks :
  ∀ outputs inputs outputs',
    (∀ hook outputs inputs outputs',
       hook ∈ hooks → hook outputs inputs = Ok outputs' →
       length outputs' = length outputs) →
    call_post_hooks hooks outputs inputs = Ok outputs' →
    length outputs' = length outputs.
Proof.
  induction hooks as [|hook hooks IH]; intros outputs inputs outputs' Hkeep;
    simpl.
  { by intros [= ->]. }
  destruct (hook outputs inputs) as [outputs1|] eqn:Hhook; [|done]. simpl.
  intros Hrest. apply IH in Hrest.
  - rewrite Hrest. eapply Hkeep; [left|done].
  - intros ? ? ? ? ?. apply Hkeep. by right.
Qed.

(** A call of a node that returns: the call is recorded, the node gives
    one output for each of its edges, and the graph tasks and the queues
    are as before. *)
Lemma call_function_returns gid0 func inputs (s s' : State) outputs :
  call_function can_checkpoint gid0 func inputs s = (s', Ret outputs) →
  hooks_keep_length (nodes (engine s) func) →
  graph_tasks (engine s') = graph_tasks (engine s)
  ∧ ready_queues (engine s') = ready_queues (engine s)
  ∧ nodes (engine s') = nodes (engine s)
  ∧ device_ready_queues_ (engine s') = device_ready_queues_ (engine s)
  ∧ trace_ (engine s') = trace_ (engine s) ++ [ev_apply gid0 func]
  ∧ length outputs = length (node_next_edges (nodes (engine s) func)).
Proof.
  unfold call_function. intros Hrun Hkeep. comp_unfold.
  destruct (graph_tasks (engine s) !! gid0) as [g|]; [|done].
  simpl in Hrun.
  destruct (call_pre_hooks _ _) as [inputs'|]; [|done]. simpl in Hrun.
  destruct (node_apply _ _) as [outputs0|]; [|done]. simpl in Hrun.
  destruct (validate_outputs _ _ _) as [outputs1|] eqn:Hvalidate; [|done].
  simpl in Hrun. apply validate_outputs_ok in Hvalidate as (Hl0 & Hl1 & _).
  destruct (node_post_hooks (nodes (engine s) func)) as [|hook hooks]
    eqn:Hhooks.
  - injection Hrun as <- <-. simpl. repeat split; congruence.
  - destruct (call_post_hooks _ _ _) as [outputs2|] eqn:Hpost; [|done].
    injection Hrun as <- <-. simpl. repeat split; try done.
    apply call_post_hooks_length in Hpost; [congruence|].
    unfold hooks_keep_length in Hkeep. rewrite Hhooks in Hkeep. done.
Qed.

(** A node of a graph task without pruning is evaluated: the call is
    recorded, the counts of its successors are consumed and the nodes that
    become ready are pushed. *)
Lemma evaluate_function_scheduled func inputs (s s' : State)
    (g : GraphTask) :
  graph_tasks (engine s) !! gid = Some g →
  exec_info_ g = ∅ →
  hooks_keep_length (nodes (engine s) func) →
  evaluate_function can_checkpoint anomaly_enabled InputBuffer_device
                    gid func inputs s = (s', Ret ()) →
  ∃ g' new,
    graph_tasks (engine s') !! gid = Some g'
    ∧ consume (dependencies_ g)
              (omap function (node_next_edges (nodes (engine s) func)))
      = Some (dependencies_ g', pushed_nodes new)
    ∧ Forall (λ push, node_task push.2) new
    ∧ trace_ (engine s')
      = trace_ (engine s)
        ++ ev_apply gid func :: map (λ push, ev_push gid (fn_ push.2)) new
    ∧ (∀ w, weigh w (engine s')
            = (weigh w (engine s)
               + sum_list_with (λ push, w push.2) new)%nat)
    ∧ exec_info_ g' = exec_info_ g
    ∧ future_result_ g' = future_result_ g
    ∧ has_error_ g' = has_error_ g.
Proof.
  intros Hg Hempty Hkeep Hrun. unfold evaluate_function in Hrun.
  apply bind_returns in Hrun as (skip & s1 & Hcapture & Hrun).
  assert (s1 = put_graph_task gid g s ∧ skip = false) as [-> ->].
  { unfold on_graph_task, capture_inputs in Hcapture.
    rewrite Hg in Hcapture. comp_unfold.
    rewrite bool_decide_eq_true_2 in Hcapture by done.
    by injection Hcapture as <- <-. }
  apply bind_returns in Hrun as (e & s1 & [= <- <-] & Hrun).
  apply bind_returns in Hrun as (outputs & s2 & Hcall & Hrun).
  apply call_function_returns in Hcall
    as (Htasks & Hqueues & Hnodes & Hdevices & Htrace & Hlength);
    [|done].
  simpl in Htasks, Hqueues, Hnodes, Hdevices, Htrace, Hlength.
  destruct outputs as [|output outputs].
  - assert (∃ g', graph_tasks (engine s') !! gid = Some g'
                  ∧ dependencies_ g' = dependencies_ g
                  ∧ exec_info_ g' = exec_info_ g
                  ∧ future_result_ g' = future_result_ g
                  ∧ has_error_ g' = has_error_ g
                  ∧ ready_queues (engine s') = ready_queues (engine s)
                  ∧ trace_ (engine s')
                    = trace_ (engine s) ++ [ev_apply gid func])
      as (g' & Hg' & Hdeps & ? & ? & ? & Hqueues' & Htrace').
    { destruct (node_stream _) as [stream|].
      - unfold on_graph_task in Hrun. rewrite Htasks in Hrun.
        rewrite lookup_insert_eq in Hrun. comp_unfold.
        injection Hrun as <-. eexists. split; [apply lookup_insert_eq|].
        simpl. repeat split; congruence.
      - injection Hrun as <-. exists g. rewrite Htasks.
        split; [apply lookup_insert_eq|]. repeat split; congruence. }
    exists g', []. split; [done|].
    destruct (node_next_edges (nodes (engine s) func)); [|done].
    rewrite Hdeps. repeat split; try done.
    intros w. rewrite (weigh_same w _ _ Hqueues'). simpl. lia.
  - apply bind_returns in Hrun as ([] & s3 & Hnan & Hrun).
    assert (s3 = s2) as ->.
    { destruct anomaly_enabled; [|by injection Hnan].
      unfold lift_result in Hnan. destruct (check_nan _ _ _); [|done].
      by injection Hnan. }
    unfold route in Hrun. rewrite Htasks, lookup_insert_eq in Hrun.
    destruct (route_outputs _ _ _ _ _ _ _) as [[g' pushes] o] eqn:Hroute.
    injection Hrun as <- ->.
    pose proof (route_outputs_exec_info InputBuffer_device _ _ _ _ _ _ _ _
                  Hroute) as Hinfo.
    pose proof (route_outputs_result InputBuffer_device _ _ _ _ _ _ _ _
                  Hroute) as Hresult.
    unfold unchanged in Hinfo, Hresult. simpl in Hinfo, Hresult.
    injection Hresult as Hfuture Herror.
    apply route_outputs_consume in Hroute as (new & Hnew & Hconsume & Hall);
      [|by rewrite Hnodes|done].
    simpl in Hnew. subst pushes. rewrite Hnodes in Hconsume.
    exists g', new. cbn [engine with_engine].
    rewrite commit_pushes_graph_tasks, commit_pushes_trace. simpl.
    rewrite lookup_insert_eq, Htrace, <- app_assoc.
    repeat split; try done.
    intros w. rewrite weigh_commit. f_equal.
    apply weigh_same. simpl. done.
Qed.

End RoutingSchedule.

(** *** A latched error comes with a failed future *)

Section ErrorFuture.
Context {L : TensorLib}.
Variable can_checkpoint : GraphTask → bool.
Variable anomaly_enabled : bool.
Variable InputBuffer_device : InputBuffer → Device.
Variable gid : GraphTaskId.

Local Abbreviation result_of :=
  (λ g : GraphTask, (future_result_ g, has_error_ g)).
Local Abbreviation no_trace := (λ _ : list Event, ()).
Local Abbreviation silent := (λ _ : Event, False).

(** The graph task that has latched an error has a future that holds an
    error. *)
Definition error_in_future (s : State) : Prop :=
  ∀ g, graph_tasks (engine s) !! gid = Some g →
       has_error_ g = true → hasError (future_result_ g) = true.

Local Abbreviation keeps_error := (inv_rel error_in_future).

Lemma error_future_view (s s' : State) :
  view gid result_of no_trace s' = view gid result_of no_trace s →
  keeps_error s s'.
Proof.
  unfold view. intros [= Hview] Hs g' Hg' Herr. rewrite Hg' in Hview.
  destruct (graph_tasks (engine s) !! gid) as [g|] eqn:Hg; [|done].
  simpl in Hview. injection Hview as Hf He. rewrite Hf.
  apply (Hs g); congruence.
Qed.

Lemma error_future_put (s : State) gid0 (g g' : GraphTask) :
  graph_tasks (engine s) !! gid0 = Some g →
  ((has_error_ g = true → hasError (future_result_ g) = true) →
   has_error_ g' = true → hasError (future_result_ g') = true) →
  keeps_error s (put_graph_task gid0 g' s).
Proof.
  intros Hg Hstep Hs g1. unfold put_graph_task. simpl.
  destruct (decide (gid0 = gid)) as [->|Hne].
  - rewrite lookup_insert_eq. intros [= <-]. apply Hstep, Hs, Hg.
  - rewrite lookup_insert_ne by done. apply Hs.
Qed.

Lemma set_exception_error_future e (g g' : GraphTask) :
  set_exception e g = (g', Ret ()) →
  (has_error_ g = true → hasError (future_result_ g) = true) →
  has_error_ g' = true → hasError (future_result_ g') = true.
Proof.
  unfold set_exception. comp_unfold.
  destruct (has_error_ g) eqn:Herr; simpl.
  { intros [= <-]. rewrite Herr. auto. }
  destruct (completed (future_result_ g)) eqn:Hc; simpl.
  - destruct (hasError (future_result_ g)) eqn:He; intros [= <-]; simpl.
    by rewrite He.
  - by intros [= <-].
Qed.

Lemma mark_graph_task_completed_error_future gid0 :
  preserves keeps_error (mark_graph_task_completed gid0).
Proof.
  intros s s' o. unfold mark_graph_task_completed,
    graph_task_exec_post_processing. comp_unfold.
  destruct (graph_tasks (engine s) !! gid0) as [g|] eqn:Hg;
    [|intros [= <- <-]; reflexivity].
  destruct (completed (future_result_ g)) eqn:Hc;
    [intros [= <- <-]; reflexivity|].
  simpl. rewrite Hg. simpl.
  assert (Hwrite : ∀ v,
            keeps_error s (put_graph_task gid0 (with_future_result v g) s)).
  { intros v. apply (error_future_put _ _ g); [done|]. simpl.
    intros Hs Herr. specialize (Hs Herr).
    destruct (future_result_ g); done. }
  destruct (negb (bool_decide (not_ready_ g = ∅))); simpl.
  { rewrite Hg. intros [= <- <-]. by apply Hwrite. }
  destruct (run_callbacks _) as [[]|e]; simpl; rewrite Hg; simpl;
    rewrite ?Hg; intros [= <- <-]; by apply Hwrite.
Qed.

Lemma evaluate_function_error_future gid0 func inputs :
  preserves keeps_error
    (evaluate_function can_checkpoint anomaly_enabled InputBuffer_device
                       gid0 func inputs).
Proof.
  eapply evaluate_function_view with (gid := gid) (p := result_of)
    (pt := no_trace) (loud := silent);
    try done; [apply _|apply error_future_view|auto|].
  intros outputs.
  eapply route_view with (gid := gid) (p := result_of)
    (pt := no_trace) (loud := silent);
    try done; [apply _|apply error_future_view|auto|].
  intros queues num_inputs edges. apply route_outputs_result.
Qed.

Lemma ReadyQueue_push_error_future queue item inc :
  preserves keeps_error (ReadyQueue_push queue item inc).
Proof.
  eapply ReadyQueue_push_view with (gid := gid) (p := result_of)
    (pt := no_trace) (loud := silent);
    try done; [apply _|apply error_future_view|auto].
Qed.

Lemma thread_main_completion_error_future gid0 :
  preserves keeps_error (thread_main_completion gid0).
Proof.
  unfold thread_main_completion. repeat preserves_step;
    try apply mark_graph_task_completed_error_future;
    try apply ReadyQueue_push_error_future; reflexivity.
Qed.

(** The body of the worker loop, when it returns. *)
Lemma thread_main_task_error_future reentrant task (s s' : State) control :
  thread_main_task can_checkpoint anomaly_enabled InputBuffer_device
                   reentrant task s = (s', Ret control) →
  error_in_future s → error_in_future s'.
Proof.
  unfold thread_main_task. intros Hrun Hs.
  destruct (isShutdownTask_ task); [by injection Hrun as <- _|].
  apply bind_returns in Hrun as (e & s0 & [= <- <-] & Hrun).
  assert (∀ s1 control1,
            (internal_assert (negb reentrant);; mret loop_continue) s
            = (s1, Ret control1) → s1 = s) as Hassert.
  { intros s1 control1. unfold internal_assert. comp_unfold.
    destruct (negb reentrant); [|done]. by intros [= <- _]. }
  destruct (base_ task) as [gid0|];
    [|by rewrite (Hassert _ _ Hrun)].
  destruct (graph_tasks (engine s) !! gid0) as [g0|] eqn:Hg0;
    [|by rewrite (Hassert _ _ Hrun)].
  apply bind_returns in Hrun as ([] & s1 & Hpre & Hrun).
  assert (error_in_future s1) as Hs1.
  { destruct (fn_ task) as [fn|]; [|by injection Hpre as <-].
    destruct (has_error_ g0); simpl in Hpre; [by injection Hpre as <-|].
    unfold try_catch in Hpre.
    destruct (evaluate_function _ _ _ _ _ _ s) as [sx [[]|e| | |]]
      eqn:Heval; try done.
    - injection Hpre as <-.
      by eapply (evaluate_function_error_future _ _ _ _ _ _ Heval).
    - apply evaluate_function_error_future in Heval.
      unfold thread_on_exception, on_graph_task in Hpre.
      destruct (graph_tasks (engine sx) !! gid0) as [gx|] eqn:Hgx;
        [|done].
      destruct (set_exception e gx) as [gx' ox] eqn:Hset.
      injection Hpre as <- ->.
      eapply (error_future_put _ _ gx); [done| |by apply Heval].
      by eapply set_exception_error_future. }
  assert (preserves keeps_error
            (on_graph_task gid0 (modify decrement_outstanding_tasks);;
             thread_main_completion gid0)) as Htail.
  { repeat preserves_step; try apply thread_main_completion_error_future.
    intros s2 g1 g2 o Hg1 [= <- <-]. by apply (error_future_put _ _ g1). }
  exact (Htail _ _ _ Hrun Hs1).
Qed.

End ErrorFuture.

(** *** The weight of the queues across the operations of a worker *)

Section QueueWeights.
Context {L : TensorLib}.
Variable can_checkpoint : GraphTask → bool.
Variable anomaly_enabled : bool.
Variable InputBuffer_device : InputBuffer → Device.
Variable w : NodeTask → nat.

Local Abbreviation same_queues :=
  (unchanged (λ s : State, ready_queues (engine s))).
Local Abbreviation same_weight :=
  (unchanged (λ s : State, weigh w (engine s))).

Ltac queues_solve :=
  intros; unfold unchanged, put_graph_task, record_event; simpl; done.

Lemma same_queues_weight {A : Type} (m : Comp State A) :
  preserves same_queues m → preserves same_weight m.
Proof.
  apply preserves_weaken. intros s s' Hqueues. unfold unchanged in *.
  by apply weigh_same.
Qed.

Lemma on_graph_task_queues {A : Type} gid0 (m : Comp GraphTask A) :
  preserves same_queues (on_graph_task gid0 m).
Proof. preserves_step. queues_solve. Qed.

Lemma call_function_queues gid0 func inputs :
  preserves same_queues (call_function can_checkpoint gid0 func inputs).
Proof. unfold call_function. repeat preserves_step; queues_solve. Qed.

Lemma mark_graph_task_completed_queues gid0 :
  preserves same_queues (mark_graph_task_completed gid0).
Proof.
  unfold mark_graph_task_completed, graph_task_exec_post_processing.
  repeat preserves_step; queues_solve.
Qed.

Lemma ReadyQueue_push_weight queue item inc :
  w item = 0%nat → preserves same_weight (ReadyQueue_push queue item inc).
Proof.
  intros Hitem. unfold ReadyQueue_push. repeat preserves_step;
    try (intros; unfold unchanged; by apply weigh_same).
  intros s. unfold unchanged. cbn [engine with_engine].
  rewrite weigh_heap_push. lia.
Qed.

Lemma ReadyQueue_pop_returns queue (s s' : State) task :
  ReadyQueue_pop queue s = (s', Ret task) →
  tls s' = tls s
  ∧ graph_tasks (engine s') = graph_tasks (engine s)
  ∧ trace_ (engine s') = trace_ (engine s)
  ∧ nodes (engine s') = nodes (engine s)
  ∧ ∀ w0, weigh w0 (engine s) = (weigh w0 (engine s') + w0 task)%nat.
Proof.
  intros Hpop. repeat split; try (intros w0; by eapply weigh_pop).
  all: unfold ReadyQueue_pop in Hpop;
    destruct (heap_pop _ _) as [[task' heap']|]; [|done];
    by injection Hpop as <- _.
Qed.

Section OfGraphTask.
Variable gid0 : GraphTaskId.
Hypothesis weightless :
  ∀ task, base_ task = Some gid0 → isShutdownTask_ task = false →
          w task = 0%nat.

Lemma route_weight func outputs :
  preserves same_weight (route InputBuffer_device gid0 func outputs).
Proof.
  intros s s' o. unfold route.
  destruct (graph_tasks (engine s) !! gid0) as [g|];
    [|intros [= <- <-]; reflexivity].
  destruct (route_outputs _ _ _ _ _ _ _) as [[g' pushes] o'] eqn:Hroute.
  intros [= <- <-]. unfold unchanged. cbn [engine with_engine].
  apply route_outputs_pushes in Hroute as (new & -> & Hnew & _).
  rewrite weigh_commit. simpl.
  assert (sum_list_with (λ push : QueueId * NodeTask, w push.2) new
          = 0%nat) as ->.
  { induction Hnew as [|push new [Hbase Hshutdown] _ IH]; simpl; [done|].
    rewrite IH, weightless; done. }
  rewrite Nat.add_0_r. by apply weigh_same.
Qed.

Lemma evaluate_function_weight func inputs :
  preserves same_weight
    (evaluate_function can_checkpoint anomaly_enabled InputBuffer_device
                       gid0 func inputs).
Proof.
  unfold evaluate_function. repeat preserves_step;
    try apply route_weight;
    try (apply same_queues_weight;
         first [apply on_graph_task_queues | apply call_function_queues]);
    reflexivity.
Qed.

End OfGraphTask.

Lemma thread_main_completion_weight gid0 :
  w (mkNodeTask (Some gid0) None (InputBuffer_new 0) false) = 0%nat →
  preserves same_weight (thread_main_completion gid0).
Proof.
  intros Hwake. unfold thread_main_completion. repeat preserves_step;
    try (apply same_queues_weight, mark_graph_task_completed_queues);
    try (by apply ReadyQueue_push_weight);
    reflexivity.
Qed.

(** The sum of two weights. *)
Lemma weigh_plus (w1 w2 : NodeTask → nat) (e : Engine) :
  (∀ task, w task = (w1 task + w2 task)%nat) →
  weigh w e = (weigh w1 e + weigh w2 e)%nat.
Proof.
  intros Hsum. unfold weigh.
  induction (map_to_list (ready_queues e)) as [|[queue heap] entries IH];
    [done|].
  simpl. rewrite IH.
  assert (sum_list_with w heap
          = (sum_list_with w1 heap + sum_list_with w2 heap)%nat) as ->;
    [|lia].
  induction heap as [|task heap IHheap]; [done|]. simpl.
  rewrite IHheap, Hsum. lia.
Qed.

Lemma thread_main_task_weight reentrant task :
  (isShutdownTask_ task = false →
   ∀ gid0 task', base_ task = Some gid0 → base_ task' = Some gid0 →
                 isShutdownTask_ task' = false → w task' = 0%nat) →
  preserves same_weight
    (thread_main_task can_checkpoint anomaly_enabled InputBuffer_device
                      reentrant task).
Proof.
  intros Hweightless. unfold thread_main_task, thread_on_exception.
  destruct (isShutdownTask_ task); [preserves_step|].
  specialize (Hweightless eq_refl).
  repeat preserves_step;
    try (apply evaluate_function_weight; by eauto);
    try (apply thread_main_completion_weight; by eauto);
    try (apply same_queues_weight, on_graph_task_queues);
    reflexivity.
Qed.

End QueueWeights.

(** *** The completion check at the end of a turn *)

Section CompletionCases.
Context {L : TensorLib}.
Variable can_checkpoint : GraphTask → bool.

(** Either the graph task is not completed, and the check leaves the
    future and the queues as they are; or it is, and the future holds a
    result afterwards: the one it held before, if it held one. *)
Lemma thread_main_completion_cases gid (s s' : State) control
    (g : GraphTask) :
  thread_main_completion gid s = (s', Ret control) →
  graph_tasks (engine s) !! gid = Some g →
  ∃ g', graph_tasks (engine s') !! gid = Some g'
        ∧ ((graph_task_completed g = false
            ∧ future_result_ g' = future_result_ g
            ∧ ready_queues (engine s') = ready_queues (engine s))
           ∨ (graph_task_completed g = true
              ∧ completed (future_result_ g') = true
              ∧ (completed (future_result_ g) = true →
                 future_result_ g' = future_result_ g))).
Proof.
  intros Hrun Hg. unfold thread_main_completion in Hrun.
  apply bind_returns in Hrun as (g0 & s0 & Hget & Hrun).
  unfold get_graph_task in Hget. rewrite Hg in Hget.
  injection Hget as <- <-.
  destruct (graph_task_completed g) eqn:Hcompleted.
  - apply bind_returns in Hrun as (stop & s1 & Hstop & Hrun).
    apply bind_returns in Hstop as ([] & s2 & Hmark & Hstop).
    pose proof (mark_graph_task_completed_latch can_checkpoint gid gid
                  _ _ _ Hmark g Hg) as (g1 & Hg1 & Hlatched).
    apply mark_graph_task_completed_done with (g := g) in Hmark
      as (_ & _ & g1' & Hg1' & Hdone & _); [|done].
    rewrite Hg1 in Hg1'. injection Hg1' as <-.
    assert (s1 = s2) as ->.
    { unfold get_tls in Hstop. comp_unfold. by injection Hstop as <- _. }
    pose proof (latch_rel_preorder can_checkpoint gid) as Hpreorder.
    assert (latch_rel gid s2 s') as Hrest.
    { destruct stop; [injection Hrun as <- _; reflexivity|].
      assert (preserves (latch_rel gid)
                (local_graph_task ← get_graph_task gid;
                 t ← get_tls;
                 (if bool_decide (owner_ local_graph_task ≠ worker_device t)
                     && true
                  then
                    e ← get_engine;
                    queue ← lift_result
                      (ready_queue_by_index (device_ready_queues_ e)
                         local_graph_task (owner_ local_graph_task));
                    ReadyQueue_push queue
                      (mkNodeTask (Some gid) None (InputBuffer_new 0) false)
                      true
                  else mret ());;
                 mret loop_continue)) as Htail.
      { repeat preserves_step;
          try apply (ReadyQueue_push_latch can_checkpoint); reflexivity. }
      exact (Htail _ _ _ Hrun). }
    destruct (Hrest g1 Hg1) as (g' & Hg' & Hlatched').
    exists g'. split; [done|]. right. split; [done|].
    destruct Hlatched as (Hkeep & _), Hlatched' as (Hkeep' & _).
    split; [by rewrite Hkeep'|]. intros Hc. rewrite Hkeep' by done. auto.
  - exists g. comp_unfold. simpl in Hrun. rewrite Hg in Hrun.
    rewrite andb_false_r in Hrun. injection Hrun as <- _.
    split; [done|]. by left.
Qed.

End CompletionCases.

(** *** The schedule of a graph task across a turn of a worker *)

Section TurnSchedule.
Context {L : TensorLib}.
Variable can_checkpoint : GraphTask → bool.
Variable anomaly_enabled : bool.
Variable InputBuffer_device : InputBuffer → Device.
Variable next_edges : Node → edge_list.
Variable visited : list Node.
Variable gid : GraphTaskId.
Variable root : Node.
Variable rank : Node → nat.
Hypothesis Hacyclic : acyclic next_edges root rank.
Hypothesis visited_nodup : NoDup visited.
Hypothesis visited_reachable :
  ∀ n, n ∈ visited ↔ reachable next_edges root n.
Hypothesis visited_bound : Z.of_nat (length visited) < 2 ^ 64.

Local Abbreviation enqueued_in s := (pushed gid (trace_ (engine s))).
Local Abbreviation applied_in s := (applied gid (trace_ (engine s))).

(** The weights that count, in the queues, the tasks of one node of the
    graph task, the tasks of its nodes, its wake-up tasks, and the tasks of
    other graph tasks. *)
Definition node_weight (n : Node) (task : NodeTask) : nat :=
  if bool_decide (node_task gid task ∧ fn_ task = Some n) then 1%nat
  else 0%nat.

Definition nodes_weight (task : NodeTask) : nat :=
  if bool_decide (node_task gid task) then 1%nat else 0%nat.

Definition wake_weight (task : NodeTask) : nat :=
  if bool_decide (base_ task = Some gid ∧ isShutdownTask_ task = false
                  ∧ fn_ task = None) then 1%nat
  else 0%nat.

Definition foreign_weight (task : NodeTask) : nat :=
  if bool_decide (isShutdownTask_ task = false ∧ base_ task ≠ Some gid)
  then 1%nat else 0%nat.

(** The graph task, which has latched no error, is on schedule: its counts
    and its trace are; the queues hold one task for each node that is
    enqueued and not applied; no wake-up task is queued while the future is
    pending; and the future holds gradients only when every node of the
    graph has been applied. *)
Record on_schedule (s : State) (g : GraphTask) : Prop := {
  os_schedule : schedule next_edges visited (dependencies_ g)
                         (enqueued_in s) (applied_in s);
  os_node : ∀ n, weigh (node_weight n) (engine s)
                 = if decide (n ∈ enqueued_in s ∧ n ∉ applied_in s)
                   then 1%nat else 0%nat;
  os_nodes : (weigh nodes_weight (engine s) + length (applied_in s)
              = length (enqueued_in s))%nat;
  os_wake : future_result_ g = Pending →
            weigh wake_weight (engine s) = 0%nat;
  os_completed : ∀ value, future_result_ g = Completed value →
                          ∀ n, n ∈ visited → n ∈ applied_in s
}.

(** The invariant of the turns of the workers: the graph task runs the
    whole graph [next_edges], whose nodes keep the number of their outputs
    in their post hooks; the queues hold no task of another graph task; the
    counter of outstanding tasks is balanced; a latched error comes with a
    failed future; and without one the graph task is on schedule. *)
Definition scheduled (s : State) : Prop :=
  ∃ g,
    graph_tasks (engine s) !! gid = Some g
    ∧ exec_info_ g = ∅
    ∧ (∀ n, node_next_edges (nodes (engine s) n) = next_edges n)
    ∧ (∀ n, hooks_keep_length (nodes (engine s) n))
    ∧ weigh foreign_weight (engine s) = 0%nat
    ∧ error_in_future gid s
    ∧ balanced gid s
    ∧ (has_error_ g = false → on_schedule s g).

Lemma applied_app (trace1 trace2 : list Event) :
  applied gid (trace1 ++ trace2) = applied gid trace1 ++ applied gid trace2.
Proof. unfold applied. apply omap_app. Qed.

Lemma applied_commit gid0 (pushes : list (QueueId * NodeTask)) :
  applied gid (map (λ push, ev_push gid0 (fn_ push.2)) pushes) = [].
Proof. induction pushes as [|push pushes IH]; [done|]. simpl. done. Qed.

Lemma pushed_apply gid0 fn : pushed gid [ev_apply gid0 fn] = [].
Proof. done. Qed.

Lemma applied_apply fn : applied gid [ev_apply gid fn] = [fn].
Proof. unfold applied. simpl. by rewrite decide_True. Qed.

Lemma pushed_nodes_cons queue (task : NodeTask)
    (new : list (QueueId * NodeTask)) :
  pushed_nodes ((queue, task) :: new)
  = match fn_ task with
    | Some fn => fn :: pushed_nodes new
    | None => pushed_nodes new
    end.
Proof. done. Qed.

(** What the tasks pushed for ready nodes weigh. *)
Lemma pushed_nodes_length (new : list (QueueId * NodeTask)) :
  Forall (λ push, node_task gid push.2) new →
  length (pushed_nodes new) = length new
  ∧ sum_list_with (λ push, nodes_weight push.2) new = length new
  ∧ sum_list_with (λ push, wake_weight push.2) new = 0%nat
  ∧ ∀ n, sum_list_with (λ push, node_weight n push.2) new
         = length (filter (λ c, c = n) (pushed_nodes new)).
Proof.
  induction 1 as [|[queue task] new (Hbase & Hshutdown & [fn Hfn]) _ IH];
    [done|].
  destruct IH as (IH1 & IH2 & IH3 & IH4).
  rewrite pushed_nodes_cons. cbn [snd] in Hbase, Hshutdown, Hfn.
  rewrite Hfn. remember (pushed_nodes new) as nodes_new.
  cbn [sum_list_with length snd]. rewrite IH1, IH2, IH3.
  unfold nodes_weight, wake_weight, node_task.
  rewrite bool_decide_eq_true_2 by (rewrite Hfn; eauto).
  rewrite bool_decide_eq_false_2 by (rewrite Hfn; by intros (_ & _ & ?)).
  repeat split; try done.
  intros n. rewrite IH4, filter_cons. unfold node_weight, node_task.
  destruct (decide (fn = n)) as [->|Hne].
  - rewrite bool_decide_eq_true_2 by (rewrite Hfn; eauto). done.
  - rewrite bool_decide_eq_false_2; [done|].
    rewrite Hfn. intros [_ [= ?]]. done.
Qed.

Lemma filter_eq_length_NoDup (n : Node) (l : list Node) :
  NoDup l →
  length (filter (λ c, c = n) l) = if decide (n ∈ l) then 1%nat else 0%nat.
Proof.
  induction 1 as [|x l Hx _ IH]; [done|]. rewrite filter_cons.
  destruct (decide (x = n)) as [->|Hne]; simpl.
  - rewrite filter_eq_absent by done.
    by rewrite decide_True by left.
  - rewrite IH. destruct (decide (n ∈ l)) as [Hin|Hnotin].
    + by rewrite decide_True by (by right).
    + rewrite decide_False; [done|].
      intros [->|?]%elem_of_cons; done.
Qed.

Lemma visited_closed m c :
  m ∈ visited → c ∈ successors next_edges m → c ∈ visited.
Proof.
  rewrite !visited_reachable. apply reachable_successor.
Qed.

(** What the completion check leaves of the schedule: the counts, the
    flags and the nodes of the trace. *)
Local Abbreviation schedule_of :=
  (λ g : GraphTask, (dependencies_ g, exec_info_ g, has_error_ g)).
Local Abbreviation nodes_of :=
  (λ trace : list Event, (applied gid trace, pushed gid trace)).
Local Abbreviation names_node :=
  (λ ev : Event, match ev with ev_push _ None => False | _ => True end).
Local Abbreviation same_schedule :=
  (unchanged (view gid schedule_of nodes_of)).

Lemma nodes_of_quiet (trace : list Event) ev :
  ¬ names_node ev → nodes_of (trace ++ [ev]) = nodes_of trace.
Proof.
  destruct ev as [gid0 [fn|]|gid0 fn]; try (intros []; done). intros _.
  by rewrite applied_push, pushed_app, app_nil_r.
Qed.

Lemma thread_main_completion_schedule gid0 :
  preserves same_schedule (thread_main_completion gid0).
Proof.
  eapply thread_main_completion_view with (gid := gid)
    (p := schedule_of) (pt := nodes_of) (loud := names_node);
    try done; [apply nodes_of_quiet|auto|apply _].
Qed.

Lemma queued_split (e : Engine) :
  queued gid e = (weigh nodes_weight e + weigh wake_weight e)%nat.
Proof.
  change (queued gid e)
    with (weigh (λ task, if counts_for gid task then 1%nat else 0%nat) e).
  apply weigh_plus. intros task.
  unfold counts_for, nodes_weight, wake_weight, node_task.
  destruct (isShutdownTask_ task) eqn:Hshutdown.
  { rewrite andb_false_r.
    rewrite !bool_decide_eq_false_2; [done| |]; by intros (_ & ? & _). }
  rewrite andb_true_r.
  destruct (decide (base_ task = Some gid)) as [Hbase|Hbase].
  - rewrite (bool_decide_eq_true_2 _ Hbase).
    destruct (fn_ task) as [fn|] eqn:Hfn.
    + rewrite bool_decide_eq_true_2 by eauto.
      by rewrite bool_decide_eq_false_2 by (by intros (_ & _ & ?)).
    + rewrite bool_decide_eq_false_2
        by (intros (_ & _ & [? ?]); done).
      by rewrite bool_decide_eq_true_2.
  - rewrite (bool_decide_eq_false_2 _ Hbase).
    rewrite !bool_decide_eq_false_2; [done| |]; by intros (? & _).
Qed.

(** A graph task on schedule with nothing outstanding, whose future is
    pending, has applied every node of the graph. *)
Lemma on_schedule_drained (s : State) (g : GraphTask) :
  on_schedule s g →
  outstanding_tasks_ g mod 2 ^ 64
  = Z.of_nat (queued gid (engine s)) mod 2 ^ 64 →
  outstanding_tasks_ g = 0 →
  future_result_ g = Pending →
  ∀ n, n ∈ visited → n ∈ applied_in s.
Proof.
  intros Hon Hbalanced Hzero Hpending.
  pose proof (os_schedule _ _ Hon) as Hsch.
  assert (enqueued_in s ⊆+ visited) as Hsub.
  { apply NoDup_submseteq; [apply (sch_enqueued_once _ _ _ _ _ Hsch)|].
    intros x Hx. by apply (sch_enqueued _ _ _ _ _ Hsch) in Hx as [? _]. }
  apply submseteq_length in Hsub.
  pose proof (os_nodes _ _ Hon) as Hnodes.
  rewrite queued_split, (os_wake _ _ Hon Hpending), Hzero in Hbalanced.
  rewrite Z.mod_0_l, Z.mod_small in Hbalanced by lia.
  assert (applied_in s ⊆+ enqueued_in s) as Hdone.
  { apply NoDup_submseteq; [apply (sch_done_once _ _ _ _ _ Hsch)|].
    apply (sch_done _ _ _ _ _ Hsch). }
  apply submseteq_length_Permutation in Hdone; [|lia].
  eapply (schedule_complete next_edges visited visited_nodup root rank);
    [done|done|done|].
  intros x Hx. by rewrite Hdone.
Qed.

Lemma node_weight_wake gid0 n :
  node_weight n (mkNodeTask (Some gid0) None (InputBuffer_new 0) false)
  = 0%nat.
Proof.
  unfold node_weight. by rewrite bool_decide_eq_false_2 by (by intros [_ ?]).
Qed.

Lemma nodes_weight_wake gid0 :
  nodes_weight (mkNodeTask (Some gid0) None (InputBuffer_new 0) false)
  = 0%nat.
Proof.
  unfold nodes_weight, node_task.
  by rewrite bool_decide_eq_false_2 by (intros (_ & _ & [? ?]); done).
Qed.

(** The completion check keeps the graph task on schedule. *)
Lemma thread_main_completion_on_schedule (s s' : State) control
    (g : GraphTask) :
  thread_main_completion gid s = (s', Ret control) →
  graph_tasks (engine s) !! gid = Some g →
  has_error_ g = false →
  balanced gid s →
  on_schedule s g →
  ∃ g', graph_tasks (engine s') !! gid = Some g'
        ∧ has_error_ g' = false
        ∧ on_schedule s' g'.
Proof.
  intros Hrun Hg Herror Hbalanced Hon.
  pose proof (thread_main_completion_schedule _ _ _ _ Hrun) as Hview.
  unfold unchanged, view in Hview. rewrite Hg in Hview.
  destruct (thread_main_completion_cases can_checkpoint _ _ _ _ _ Hrun Hg)
    as (g' & Hg' & Hcases).
  rewrite Hg' in Hview. simpl in Hview.
  injection Hview as Happlied Hpushed Hdeps _ Herror'.
  exists g'. split; [done|]. split; [congruence|].
  assert (∀ w0 : NodeTask → nat,
            w0 (mkNodeTask (Some gid) None (InputBuffer_new 0) false)
            = 0%nat →
            weigh w0 (engine s') = weigh w0 (engine s)) as Hweights.
  { intros w0 Hw0.
    exact (thread_main_completion_weight w0 gid Hw0 _ _ _ Hrun). }
  split.
  - rewrite Hdeps, Happlied, Hpushed. apply (os_schedule _ _ Hon).
  - intros n. rewrite Happlied, Hpushed, Hweights
      by apply node_weight_wake. apply (os_node _ _ Hon).
  - rewrite Happlied, Hpushed, Hweights by apply nodes_weight_wake.
    apply (os_nodes _ _ Hon).
  - intros Hpending.
    destruct Hcases as [(_ & Hfuture & Hqueues)|(_ & Hcompleted & _)];
      [|by rewrite Hpending in Hcompleted].
    rewrite (weigh_same _ _ _ Hqueues). apply (os_wake _ _ Hon). congruence.
  - intros value Hvalue. rewrite Happlied.
    destruct Hcases as [(_ & Hfuture & _)|(Hcompleted & _ & Hkeep)].
    { apply (os_completed _ _ Hon value). congruence. }
    destruct (future_result_ g) as [|value0|e] eqn:Hfuture.
    + apply (on_schedule_drained s g); try done.
      * by apply Hbalanced.
      * unfold graph_task_completed in Hcompleted.
        rewrite Herror, andb_false_r, orb_false_r in Hcompleted.
        by apply bool_decide_eq_true_1 in Hcompleted.
    + apply (os_completed _ _ Hon value0). done.
    + specialize (Hkeep eq_refl). congruence.
Qed.

Lemma set_exception_has_error e (g g' : GraphTask) o :
  set_exception e g = (g', o) → has_error_ g' = true.
Proof.
  unfold set_exception. comp_unfold.
  destruct (has_error_ g) eqn:Herr; simpl; [by intros [= <- _]|].
  destruct (negb (completed (future_result_ g))); simpl;
    [by intros [= <- _]|].
  destruct (hasError (future_result_ g)); by intros [= <- _].
Qed.

(** A task of a node of the graph task is popped and the node is
    evaluated: the graph task stays on schedule, or latches an error. *)
Lemma evaluate_function_on_schedule queue (task : NodeTask) fn
    (s s0 s1 : State) (g : GraphTask) :
  ReadyQueue_pop queue s = (s0, Ret task) →
  isShutdownTask_ task = false → base_ task = Some gid →
  fn_ task = Some fn →
  graph_tasks (engine s) !! gid = Some g →
  exec_info_ g = ∅ →
  (∀ n, node_next_edges (nodes (engine s) n) = next_edges n) →
  (∀ n, hooks_keep_length (nodes (engine s) n)) →
  on_schedule s g →
  try_catch
    (evaluate_function can_checkpoint anomaly_enabled InputBuffer_device
                       gid fn (inputs_ task))
    (thread_on_exception gid) s0 = (s1, Ret ()) →
  ∃ g1, graph_tasks (engine s1) !! gid = Some g1
        ∧ (has_error_ g1 = true
           ∨ (has_error_ g1 = has_error_ g ∧ on_schedule s1 g1)).
Proof.
  intros Hpop Hshutdown Hbase Hfn Hg Hempty Hgraph Hhooks Hon Hrun.
  apply ReadyQueue_pop_returns in Hpop
    as (_ & Htasks & Htrace & Hnodes & Hweigh).
  unfold try_catch in Hrun.
  destruct (evaluate_function _ _ _ _ _ _ s0) as [sx [[]|e| | |]]
    eqn:Heval; try done.
  2:{ unfold thread_on_exception, on_graph_task in Hrun.
      destruct (graph_tasks (engine sx) !! gid) as [gx|]; [|done].
      destruct (set_exception e gx) as [gx' ox] eqn:Hset.
      injection Hrun as <- ->. exists gx'.
      split; [apply put_graph_task_lookup|]. left.
      by eapply set_exception_has_error. }
  injection Hrun as <-.
  apply evaluate_function_scheduled with (g := g) in Heval
    as (g1 & new & Hg1 & Hconsume & Hnew & Htrace1 & Hweigh1
        & _ & Hfuture & Herror);
    [|by rewrite Htasks|done|by rewrite Hnodes].
  exists g1. split; [done|]. right. split; [done|].
  rewrite Hnodes, Hgraph in Hconsume.
  pose proof (os_schedule _ _ Hon) as Hsch.
  assert (node_task gid task) as Htask by (split; [|split]; eauto).
  (* the node was enqueued and is not applied *)
  assert (fn ∈ enqueued_in s ∧ fn ∉ applied_in s) as [Henq Hfresh].
  { pose proof (os_node _ _ Hon fn) as Hnode.
    rewrite (Hweigh (node_weight fn)) in Hnode.
    unfold node_weight at 2 in Hnode.
    rewrite bool_decide_eq_true_2 in Hnode by done.
    destruct (decide _) as [?|_]; [done|lia]. }
  pose proof (schedule_step next_edges visited visited_closed
                _ _ _ _ _ _ Hsch Henq Hfresh Hconsume) as Hsch1.
  assert (enqueued_in sx = enqueued_in s ++ pushed_nodes new) as Henq1.
  { rewrite Htrace1, Htrace, pushed_app.
    change (ev_apply gid fn :: ?l) with ([ev_apply gid fn] ++ l).
    rewrite pushed_app, pushed_apply, pushed_commit, decide_True by done.
    done. }
  assert (applied_in sx = applied_in s ++ [fn]) as Happ1.
  { rewrite Htrace1, Htrace, applied_app.
    change (ev_apply gid fn :: ?l) with ([ev_apply gid fn] ++ l).
    by rewrite applied_app, applied_apply, applied_commit, app_nil_r. }
  destruct (pushed_nodes_length new Hnew)
    as (Hlength & Hnodes_weight & Hwake_weight & Hnode_weight).
  pose proof (sch_enqueued_once _ _ _ _ _ Hsch1) as Hnodup.
  apply NoDup_app in Hnodup as (_ & Hdisjoint & Hnodup).
  split.
  - by rewrite Henq1, Happ1.
  - intros n. rewrite Henq1, Happ1, Hweigh1, Hnode_weight.
    rewrite filter_eq_length_NoDup by done.
    pose proof (os_node _ _ Hon n) as Hnode.
    rewrite (Hweigh (node_weight n)) in Hnode.
    unfold node_weight at 2 in Hnode.
    pose proof (sch_done _ _ _ _ _ Hsch) as Hdone.
    destruct (decide (n = fn)) as [->|Hne].
    + rewrite bool_decide_eq_true_2 in Hnode by done.
      rewrite decide_True in Hnode by done.
      rewrite (decide_False (P := fn ∈ pushed_nodes new)) by auto.
      rewrite decide_False; [lia|].
      intros [_ Hnot]. apply Hnot, elem_of_app. right. left.
    + rewrite bool_decide_eq_false_2 in Hnode
        by (rewrite Hfn; intros [_ [= ?]]; done).
      rewrite Nat.add_0_r in Hnode. rewrite Hnode.
      destruct (decide (n ∈ pushed_nodes new)) as [Hin|Hnotin].
      * rewrite decide_False by (intros [Hn _]; by apply Hdisjoint in Hn).
        rewrite decide_True; [done|]. split; [apply elem_of_app; by right|].
        intros [Hn|Hn%list_elem_of_singleton]%elem_of_app; [|done].
        apply Hdone in Hn. by apply Hdisjoint in Hn.
      * destruct (decide (n ∈ enqueued_in s ∧ n ∉ applied_in s))
          as [[Hn Hn']|Hnot].
        -- rewrite decide_True; [done|].
           split; [apply elem_of_app; by left|].
           intros [?|?%list_elem_of_singleton]%elem_of_app; done.
        -- rewrite decide_False; [done|]. intros [Hn Hn']. apply Hnot.
           apply elem_of_app in Hn as [Hn|Hn]; [|done]. split; [done|].
           intros Hn''. apply Hn', elem_of_app. by left.
  - rewrite Henq1, Happ1, Hweigh1, Hnodes_weight, !length_app, Hlength.
    pose proof (os_nodes _ _ Hon) as Hnodes'.
    rewrite (Hweigh nodes_weight) in Hnodes'.
    unfold nodes_weight at 2 in Hnodes'.
    rewrite bool_decide_eq_true_2 in Hnodes' by done. simpl. lia.
  - intros Hpending. rewrite Hweigh1, Hwake_weight.
    pose proof (os_wake _ _ Hon) as Hwake.
    rewrite (Hweigh wake_weight) in Hwake.
    rewrite Hfuture in Hpending. specialize (Hwake Hpending). lia.
  - intros value Hvalue n Hn. rewrite Happ1. apply elem_of_app. left.
    apply (os_completed _ _ Hon value); [congruence|done].
Qed.

(** A task that is not the task of a node of the graph task is popped. *)
Lemma ReadyQueue_pop_on_schedule queue (task : NodeTask) (s s0 : State)
    (g : GraphTask) :
  ReadyQueue_pop queue s = (s0, Ret task) →
  ¬ node_task gid task →
  on_schedule s g → on_schedule s0 g.
Proof.
  intros Hpop Htask Hon.
  apply ReadyQueue_pop_returns in Hpop as (_ & _ & Htrace & _ & Hweigh).
  assert (nodes_weight task = 0%nat) as Hnodes.
  { unfold nodes_weight. by rewrite bool_decide_eq_false_2. }
  assert (∀ n, node_weight n task = 0%nat) as Hnode.
  { intros n. unfold node_weight.
    by rewrite bool_decide_eq_false_2 by (by intros [? _]). }
  split; rewrite ?Htrace.
  - apply (os_schedule _ _ Hon).
  - intros n. rewrite <- (os_node _ _ Hon n), (Hweigh (node_weight n)), Hnode.
    lia.
  - rewrite <- (os_nodes _ _ Hon), (Hweigh nodes_weight), Hnodes. lia.
  - intros Hpending. pose proof (os_wake _ _ Hon Hpending) as Hwake.
    rewrite (Hweigh wake_weight) in Hwake. lia.
  - apply (os_completed _ _ Hon).
Qed.

(** The schedule does not look at the counter of outstanding tasks. *)
Lemma on_schedule_put (s : State) gid0 (g g' : GraphTask) :
  dependencies_ g' = dependencies_ g →
  future_result_ g' = future_result_ g →
  on_schedule s g → on_schedule (put_graph_task gid0 g' s) g'.
Proof.
  intros Hdeps Hfuture Hon.
  split; unfold put_graph_task; cbn [engine with_engine trace_
    with_graph_tasks]; rewrite ?Hdeps, ?Hfuture;
    try rewrite (weigh_same _ _ (engine s)) by done.
  - apply (os_schedule _ _ Hon).
  - apply (os_node _ _ Hon).
  - apply (os_nodes _ _ Hon).
  - apply (os_wake _ _ Hon).
  - apply (os_completed _ _ Hon).
Qed.

Lemma thread_main_task_exec_info reentrant task :
  preserves (unchanged (view gid exec_info_ (λ _ : list Event, ())))
    (thread_main_task can_checkpoint anomaly_enabled InputBuffer_device
                      reentrant task).
Proof.
  apply (thread_main_task_view can_checkpoint anomaly_enabled
           InputBuffer_device gid exec_info_ (λ _ : list Event, ())
           (λ _ : Event, False)); try done; [auto|apply _|].
  intros gid0 func inputs.
  eapply evaluate_function_view with (gid := gid) (p := exec_info_)
    (pt := λ _ : list Event, ()) (loud := λ _ : Event, False);
    try done; [apply _|auto|].
  intros outputs.
  eapply route_view with (gid := gid) (p := exec_info_)
    (pt := λ _ : list Event, ()) (loud := λ _ : Event, False);
    try done; [apply _|auto|].
  intros queues num_inputs edges. apply route_outputs_exec_info.
Qed.

Lemma foreign_weight_zero (task : NodeTask) :
  foreign_weight task = 0%nat →
  isShutdownTask_ task = false → base_ task = Some gid.
Proof.
  unfold foreign_weight. intros Hweight Hshutdown.
  destruct (decide (base_ task = Some gid)) as [|Hne]; [done|].
  by rewrite bool_decide_eq_true_2 in Hweight.
Qed.

(** A turn of a worker keeps the invariant. *)
Lemma worker_iteration_scheduled queue reentrant (s s' : State) control :
  worker_iteration can_checkpoint anomaly_enabled InputBuffer_device
                   queue reentrant s = (s', Ret control) →
  scheduled s → scheduled s'.
Proof.
  intros Hrun (g & Hg & Hempty & Hgraph & Hhooks & Hforeign & Herr & Hbal
               & Hon).
  pose proof (worker_iteration_balanced _ _ _ _ _ _ _ _ _ Hrun Hbal)
    as Hbal'.
  unfold worker_iteration in Hrun.
  apply bind_returns in Hrun as (task & s0 & Hpop & Htask).
  pose proof (ReadyQueue_pop_returns _ _ _ _ Hpop)
    as (_ & Htasks & Htrace & Hnodes & Hweigh).
  pose proof (Hweigh foreign_weight) as Hforeign0.
  rewrite Hforeign in Hforeign0.
  assert (graph_tasks (engine s0) !! gid = Some g) as Hg0
    by (by rewrite Htasks).
  (* what the body of the loop keeps, whatever the task *)
  pose proof (thread_main_task_exec_info _ _ _ _ _ Htask) as Hview.
  unfold unchanged, view in Hview. rewrite Hg0 in Hview.
  destruct (graph_tasks (engine s') !! gid) as [g'|] eqn:Hg'; [|done].
  simpl in Hview. injection Hview as Hempty'.
  pose proof (thread_main_task_frame can_checkpoint anomaly_enabled
                InputBuffer_device nodes (λ _ _, eq_refl) (λ _ _, eq_refl)
                (λ _ _, eq_refl) _ _ _ _ _ Htask) as Hnodes'.
  unfold unchanged in Hnodes'.
  assert (weigh foreign_weight (engine s') = 0%nat) as Hforeign'.
  { assert (isShutdownTask_ task = false →
            ∀ gid0 task', base_ task = Some gid0 → base_ task' = Some gid0 →
              isShutdownTask_ task' = false →
              foreign_weight task' = 0%nat) as Hweightless.
    { intros Hshutdown gid0 task' Hbase Hbase' Hshutdown'.
      rewrite foreign_weight_zero in Hbase by (done || lia).
      injection Hbase as <-. unfold foreign_weight.
      by rewrite bool_decide_eq_false_2 by (by intros [_ ?]). }
    pose proof (thread_main_task_weight can_checkpoint anomaly_enabled
                  InputBuffer_device foreign_weight _ _ Hweightless
                  _ _ _ Htask) as Hsame.
    unfold unchanged in Hsame. lia. }
  assert (error_in_future gid s') as Herr'.
  { eapply thread_main_task_error_future; [done|].
    intros g1. rewrite Htasks. apply Herr. }
  destruct (thread_main_task_latch _ _ _ gid _ _ _ _ _ Htask g Hg0)
    as (g'' & Hg'' & _ & Hlatched & _).
  rewrite Hg' in Hg''. injection Hg'' as <-.
  exists g'. split; [done|]. split; [congruence|].
  split; [by intros n; rewrite Hnodes', Hnodes|].
  split; [by intros n; rewrite Hnodes', Hnodes|].
  split; [done|]. split; [done|]. split; [done|].
  intros Hok.
  assert (has_error_ g = false) as Hok0.
  { destruct (has_error_ g); [|done]. rewrite Hlatched in Hok; done. }
  specialize (Hon Hok0).
  unfold thread_main_task in Htask.
  destruct (isShutdownTask_ task) eqn:Hshutdown.
  { injection Htask as <- _. rewrite Hg0 in Hg'. injection Hg' as <-.
    eapply ReadyQueue_pop_on_schedule; [done| |done].
    intros (_ & ? & _). congruence. }
  apply bind_returns in Htask as (e & s1 & [= <- <-] & Htask).
  rewrite foreign_weight_zero in Htask by (done || lia).
  rewrite Hg0 in Htask.
  apply bind_returns in Htask as ([] & s1 & Hpre & Htask).
  apply bind_returns in Htask as ([] & s2 & Hdecrement & Htask).
  (* the node of the task is evaluated *)
  assert (∃ g1, graph_tasks (engine s1) !! gid = Some g1
                ∧ (has_error_ g1 = true
                   ∨ (has_error_ g1 = false ∧ on_schedule s1 g1)))
    as (g1 & Hg1 & Hcases).
  { destruct (fn_ task) as [fn|] eqn:Hfn.
    - rewrite Hok0 in Hpre. simpl in Hpre.
      eapply evaluate_function_on_schedule in Hpre
        as (g1 & Hg1 & Hcases); try done;
        [|by apply foreign_weight_zero; [lia|]].
      exists g1. split; [done|]. rewrite Hok0 in Hcases. done.
    - injection Hpre as <-. exists g. split; [done|]. right.
      split; [done|].
      eapply ReadyQueue_pop_on_schedule; [done| |done].
      intros (_ & _ & [? ?]). congruence. }
  unfold on_graph_task in Hdecrement. rewrite Hg1 in Hdecrement.
  comp_unfold. injection Hdecrement as <-.
  pose proof (thread_main_completion_schedule _ _ _ _ Htask) as Hsame.
  unfold unchanged, view in Hsame.
  rewrite put_graph_task_lookup, Hg' in Hsame. simpl in Hsame.
  injection Hsame as _ _ _ _ Hsame.
  destruct Hcases as [Hfailed|[Hok1 Hon1]]; [congruence|].
  destruct (thread_main_completion_on_schedule _ _ _ _ Htask
              (put_graph_task_lookup _ _ _) Hok1) as (g2 & Hg2 & _ & Hon2).
  - apply balanced_balance.
    rewrite <- (thread_main_completion_balance gid gid _ _ _ Htask).
    by apply balanced_balance.
  - by apply (on_schedule_put _ _ g1).
  - rewrite Hg' in Hg2. by injection Hg2 as <-.
Qed.

(** The invariant does not look at the thread-locals. *)
Lemma scheduled_tls t (s : State) : scheduled s → scheduled (with_tls t s).
Proof.
  intros (g & Hg & Hempty & Hgraph & Hhooks & Hforeign & Herr & Hbal & Hon).
  exists g. split; [done|]. split; [done|]. split; [done|].
  split; [done|]. split; [done|]. split; [done|]. split; [done|].
  intros Hok.
  destruct (Hon Hok) as [Hsch Hnode Hnodes Hwake Hcompleted].
  by split.
Qed.

End TurnSchedule.

(** *** The schedule when the graph root is pushed *)

Section IdleQueues.
Context {L : TensorLib}.

Local Abbreviation idle e := (weigh (λ _ : NodeTask, 1%nat) e = 0%nat).

(** With no task in the queues, every weight of the queues is zero. *)
Lemma weigh_idle (w : NodeTask → nat) (e : Engine) :
  idle e → weigh w e = 0%nat.
Proof.
  unfold weigh.
  induction (map_to_list (ready_queues e)) as [|[queue heap] entries IH];
    [done|].
  simpl. destruct heap as [|task heap]; simpl; [|lia].
  intros Hidle. by apply IH.
Qed.

Lemma idle_empty_queue (e : Engine) (queue : QueueId) :
  idle e → idle (with_ready_queues (<[queue := []]> (ready_queues e)) e).
Proof.
  intros Hidle.
  pose proof (weigh_insert (λ _, 1%nat) e queue []) as Hinsert.
  simpl in Hinsert. lia.
Qed.

Lemma idle_fresh_queues (queues : list QueueId) :
  ∀ e : Engine,
    idle e →
    idle (with_ready_queues
            (foldl (λ m queue, <[queue := []]> m) (ready_queues e) queues)
            e).
Proof.
  induction queues as [|queue queues IH]; intros e Hidle; simpl.
  - exact Hidle.
  - apply (idle_empty_queue _ queue) in Hidle.
    apply IH in Hidle. exact Hidle.
Qed.

Lemma idle_start_device_threads num_devices (e : Engine) :
  idle e → idle (start_device_threads num_devices e).
Proof.
  intros Hidle. unfold start_device_threads.
  apply (idle_fresh_queues (seq (next_ready_queue e) num_devices)) in Hidle.
  exact Hidle.
Qed.

(** The push of the graph root, with no task in the queues before. *)
Lemma push_graph_root_returns num_devices gid graph_root (s s1 : State)
    (g : GraphTask) :
  push_graph_root num_devices gid graph_root s = (s1, Ret ()) →
  graph_tasks (engine s) !! gid = Some g →
  idle (engine s) →
  graph_tasks (engine s1) = <[gid := count_push g]> (graph_tasks (engine s))
  ∧ trace_ (engine s1)
    = trace_ (engine s) ++ [ev_push gid (Some graph_root)]
  ∧ nodes (engine s1) = nodes (engine s)
  ∧ ∀ w, weigh w (engine s1)
         = w (mkNodeTask (Some gid) (Some graph_root) (InputBuffer_new 0)
                         false).
Proof.
  intros Hrun Hg Hidle. unfold push_graph_root in Hrun.
  apply bind_returns in Hrun as ([] & sa & Hstart & Hrun).
  assert (graph_tasks (engine sa) = graph_tasks (engine s)
          ∧ trace_ (engine sa) = trace_ (engine s)
          ∧ nodes (engine sa) = nodes (engine s)
          ∧ idle (engine sa)) as (Htasks & Htrace & Hnodes & Hidle').
  { unfold call_once_start_device_threads, modify_engine, modify in Hstart.
    injection Hstart as <-. simpl.
    destruct (start_device_threads_flag_ (engine s)); [done|].
    repeat split; try done.
    by apply (idle_start_device_threads num_devices) in Hidle. }
  apply bind_returns in Hrun as (e & sb & [= <- <-] & Hrun).
  apply bind_returns in Hrun as (g0 & sb & Hget & Hrun).
  unfold get_graph_task in Hget. rewrite Htasks, Hg in Hget.
  injection Hget as <- <-.
  apply bind_returns in Hrun as (queue & sb & Hqueue & Hrun).
  assert (sb = sa) as ->.
  { unfold lift_result in Hqueue. destruct (ready_queue _ _ _); [|done].
    by injection Hqueue as <- _. }
  unfold ReadyQueue_push in Hrun. comp_unfold. simpl in Hrun.
  rewrite Htasks, Hg in Hrun. simpl in Hrun. rewrite Htasks, Hg in Hrun.
  injection Hrun as <-. cbn [engine with_engine].
  split; [by rewrite <- Htasks|]. split; [by rewrite <- Htrace|].
  split; [done|]. intros w. rewrite weigh_heap_push.
  rewrite (weigh_same w (engine sa)) by done.
  by rewrite (weigh_idle w _ Hidle').
Qed.

End IdleQueues.

Section Completeness.
Context {L : TensorLib}.
Variable can_checkpoint : GraphTask → bool.
Variable anomaly_enabled : bool.
Variable InputBuffer_device : InputBuffer → Device.
Variable num_devices : nat.
Variable next_edges : Node → edge_list.
Variable root : Node.
Variable rank : Node → nat.
Hypothesis Hacyclic : acyclic next_edges root rank.

(** When the worklist loop of [compute_dependencies] returns, it has
    visited the nodes reachable from the root. *)
Lemma compute_dependencies_loop_visited :
  ∀ fuel visited queue seen (dependencies dependencies' : gmap Node Z),
    worklist_inv next_edges root visited queue seen dependencies →
    compute_dependencies_loop next_edges fuel queue seen dependencies
    = Some dependencies' →
    ∃ visited' seen',
      worklist_inv next_edges root visited' [] seen' dependencies'.
Proof.
  induction fuel as [|fuel IH];
    intros visited [|fn queue] seen dependencies dependencies' Hinv;
    simpl; try done; try (intros [= <-]; by eauto).
  destruct (foldl _ _ _) as [[queue' seen'] dependencies1] eqn:Hfold.
  apply IH with (visited := fn :: visited).
  by eapply worklist_inv_step.
Qed.

Lemma compute_dependencies_visited fuel (task task' : GraphTask) :
  compute_dependencies next_edges fuel root task = Some task' →
  dependencies_ task = ∅ →
  ∃ visited,
    NoDup visited
    ∧ (∀ n, n ∈ visited ↔ reachable next_edges root n)
    ∧ ∀ n, dependencies_ task' !! n
           = if decide (edges_into next_edges n visited = 0%nat) then None
             else Some (Z.of_nat (edges_into next_edges n visited)).
Proof.
  unfold compute_dependencies. intros Hrun Hempty. rewrite Hempty in Hrun.
  destruct (compute_dependencies_loop _ _ _ _ _) as [dependencies|]
    eqn:Hloop; [|done].
  injection Hrun as <-.
  apply compute_dependencies_loop_visited with (visited := []) in Hloop
    as (visited & seen & Hinv); [|apply worklist_inv_init].
  exists visited. by apply worklist_inv_final in Hinv.
Qed.

Section Visited.
Variable visited : list Node.
Variable gid : GraphTaskId.
Hypothesis visited_nodup : NoDup visited.
Hypothesis visited_reachable :
  ∀ n, n ∈ visited ↔ reachable next_edges root n.
Hypothesis visited_bound : Z.of_nat (length visited) < 2 ^ 64.

Local Abbreviation scheduled_ := (scheduled next_edges visited gid).
Local Abbreviation root_task :=
  (mkNodeTask (Some gid) (Some root) (InputBuffer_new 0) false).

(** The push of the graph root puts the graph task on schedule. *)
Lemma push_graph_root_scheduled (s s1 : State) (g : GraphTask) :
  graph_tasks (engine s) !! gid = Some g →
  exec_info_ g = ∅ → has_error_ g = false →
  future_result_ g = Pending → outstanding_tasks_ g = 0 →
  (∀ n, dependencies_ g !! n
        = if decide (edges_into next_edges n visited = 0%nat) then None
          else Some (Z.of_nat (edges_into next_edges n visited))) →
  (∀ n, node_next_edges (nodes (engine s) n) = next_edges n) →
  (∀ n, hooks_keep_length (nodes (engine s) n)) →
  weigh (λ _, 1%nat) (engine s) = 0%nat →
  applied gid (trace_ (engine s)) = [] →
  pushed gid (trace_ (engine s)) = [] →
  push_graph_root num_devices gid root s = (s1, Ret ()) →
  scheduled_ s1.
Proof.
  intros Hg Hempty Herror Hfuture Houtstanding Hdeps Hgraph Hhooks Hidle
    Happlied Hpushed Hrun.
  apply push_graph_root_returns with (g := g) in Hrun
    as (Htasks & Htrace & Hnodes & Hweigh); [|done|done].
  assert (graph_tasks (engine s1) !! gid = Some (count_push g)) as Hg1
    by (rewrite Htasks; apply lookup_insert_eq).
  assert (node_task gid root_task) as Htask
    by (split; [|split]; eauto).
  exists (count_push g). split; [done|]. split; [done|].
  split; [by intros n; rewrite Hnodes|].
  split; [by intros n; rewrite Hnodes|].
  split.
  { rewrite Hweigh. unfold foreign_weight.
    by rewrite bool_decide_eq_false_2 by (by intros [_ ?]). }
  split.
  { intros g1. rewrite Hg1. intros [= <-]. simpl. congruence. }
  split.
  { intros g1. rewrite Hg1. intros [= <-]. simpl.
    rewrite Houtstanding.
    change (queued gid (engine s1))
      with (weigh (λ task, if counts_for gid task then 1%nat else 0%nat)
                  (engine s1)).
    rewrite Hweigh. unfold counts_for. simpl.
    by rewrite bool_decide_eq_true_2. }
  intros _.
  assert (pushed gid (trace_ (engine s1)) = [root]) as Hpushed1.
  { rewrite Htrace, pushed_app, Hpushed. unfold pushed. simpl.
    by rewrite decide_True. }
  assert (applied gid (trace_ (engine s1)) = []) as Happlied1
    by (by rewrite Htrace, applied_push).
  split; rewrite ?Hpushed1, ?Happlied1, ?Hweigh.
  - simpl. by apply (schedule_init next_edges visited root rank).
  - intros n. rewrite Hweigh. unfold node_weight.
    destruct (decide (n = root)) as [->|Hne].
    + rewrite bool_decide_eq_true_2 by done.
      rewrite decide_True; [done|]. split; [left|by intros ?%elem_of_nil].
    + rewrite bool_decide_eq_false_2 by (intros [_ [= ?]]; done).
      rewrite decide_False; [done|].
      by intros [?%list_elem_of_singleton _].
  - unfold nodes_weight. by rewrite bool_decide_eq_true_2.
  - intros _. unfold wake_weight.
    by rewrite bool_decide_eq_false_2 by (by intros (_ & _ & ?)).
  - simpl. rewrite Hfuture. done.
Qed.

(** The turns of the workers keep the graph task on schedule. *)
Lemma worker_turns_scheduled (s s' : State) :
  rtc (worker_turn can_checkpoint anomaly_enabled InputBuffer_device) s s' →
  scheduled_ s → scheduled_ s'.
Proof.
  induction 1 as [|s1 s2 s3 (t & queue & reentrant & control & Hrun) _ IH];
    [done|].
  intros Hs1. apply IH.
  eapply (worker_iteration_scheduled can_checkpoint anomaly_enabled
            InputBuffer_device next_edges visited gid root rank);
    [done|done|done|done|exact Hrun|by apply scheduled_tls].
Qed.

(** What a state of the invariant says about the nodes applied. *)
Lemma scheduled_applied (s : State) :
  scheduled_ s →
  ∃ g,
    graph_tasks (engine s) !! gid = Some g
    ∧ (has_error_ g = false →
       NoDup (applied gid (trace_ (engine s)))
       ∧ (∀ n, n ∈ applied gid (trace_ (engine s)) →
               reachable next_edges root n)
       ∧ (∀ i j m n,
            applied gid (trace_ (engine s)) !! i = Some m →
            applied gid (trace_ (engine s)) !! j = Some n →
            n ∈ successors next_edges m → (i < j)%nat))
    ∧ (∀ value, future_result_ g = Completed value →
         has_error_ g = false
         ∧ ∀ n, reachable next_edges root n →
                n ∈ applied gid (trace_ (engine s))).
Proof.
  intros (g & Hg & _ & _ & _ & _ & Herr & _ & Hon).
  exists g. split; [done|]. split.
  - intros Hok. specialize (Hon Hok).
    pose proof (os_schedule _ _ _ _ _ Hon) as Hsch.
    split; [apply (sch_done_once _ _ _ _ _ Hsch)|].
    split; [|apply (sch_order _ _ _ _ _ Hsch)].
    intros n Hn%(sch_done _ _ _ _ _ Hsch).
    apply (sch_enqueued _ _ _ _ _ Hsch) in Hn as [Hn _].
    by apply visited_reachable.
  - intros value Hvalue.
    assert (has_error_ g = false) as Hok.
    { destruct (has_error_ g) eqn:Hfailed; [|done].
      specialize (Herr g Hg Hfailed). by rewrite Hvalue in Herr. }
    split; [done|]. intros n Hn%visited_reachable.
    by apply (os_completed _ _ _ _ _ (Hon Hok) value).
Qed.

End Visited.

End Completeness.

(** *** Every node of the graph is applied once *)

Section AppliedOnce.
Context {L : TensorLib}.
Variable can_checkpoint : GraphTask → bool.
Variable anomaly_enabled : bool.
Variable InputBuffer_device : InputBuffer → Device.
Variable num_devices : nat.

(** X23: every node of the graph is applied once, after the nodes with an
    edge into it.  Take a graph task without pruning ([exec_info_] is empty)
    whose counts are those that [compute_dependencies] gives for an acyclic
    graph of fewer than 2^64 nodes, in an engine with no task in its queues,
    and let the graph root be pushed and the workers of any threads take
    turns, each of which pops a task and returns from the body of the worker
    loop.  As long as no error is latched, no node has been applied twice,
    every node applied is reachable from the graph root, and a node is
    applied before the nodes its edges lead to.  Once the future of the
    graph task holds gradients, no error is latched and every node reachable
    from the graph root has been applied. *)
Theorem every_node_applied_once rank (universe : gset Node) fuel gid
    graph_root (s s1 s' : State) (g : GraphTask) :
  let next_edges := λ n, node_next_edges (nodes (engine s) n) in
  acyclic next_edges graph_root rank →
  (∀ n, reachable next_edges graph_root n → n ∈ universe) →
  Z.of_nat (size universe) < 2 ^ 64 →
  (∀ n, hooks_keep_length (nodes (engine s) n)) →
  graph_tasks (engine s) !! gid = Some g →
  compute_dependencies next_edges fuel graph_root (with_dependencies ∅ g)
  = Some g →
  exec_info_ g = ∅ →
  has_error_ g = false →
  future_result_ g = Pending →
  outstanding_tasks_ g = 0 →
  weigh (λ _, 1%nat) (engine s) = 0%nat →
  applied gid (trace_ (engine s)) = [] →
  pushed gid (trace_ (engine s)) = [] →
  push_graph_root num_devices gid graph_root s = (s1, Ret ()) →
  rtc (worker_turn can_checkpoint anomaly_enabled InputBuffer_device) s1 s' →
  ∃ g',
    graph_tasks (engine s') !! gid = Some g'
    ∧ (has_error_ g' = false →
       NoDup (applied gid (trace_ (engine s')))
       ∧ (∀ n, n ∈ applied gid (trace_ (engine s')) →
               reachable next_edges graph_root n)
       ∧ (∀ i j m n,
            applied gid (trace_ (engine s')) !! i = Some m →
            applied gid (trace_ (engine s')) !! j = Some n →
            n ∈ successors next_edges m → (i < j)%nat))
    ∧ (∀ value, future_result_ g' = Completed value →
         has_error_ g' = false
         ∧ ∀ n, reachable next_edges graph_root n →
                n ∈ applied gid (trace_ (engine s'))).
Proof.
  intros next_edges Hacyclic Huniverse Hsize Hhooks Hg Hcounts Hempty Herror
    Hfuture Houtstanding Hidle Happlied Hpushed Hpush Hturns.
  apply (compute_dependencies_visited next_edges graph_root rank Hacyclic)
    in Hcounts as (visited & Hnodup & Hreachable & Hdeps); [|done].
  assert (Z.of_nat (length visited) < 2 ^ 64) as Hbound.
  { assert (list_to_set visited ⊆ universe) as Hsub.
    { intros n Hn%elem_of_list_to_set. by apply Huniverse, Hreachable. }
    apply subseteq_size in Hsub.
    rewrite size_list_to_set in Hsub by done. lia. }
  eapply (scheduled_applied next_edges graph_root visited gid Hreachable).
  eapply (worker_turns_scheduled can_checkpoint anomaly_enabled
            InputBuffer_device next_edges graph_root rank Hacyclic visited
            gid Hnodup Hreachable Hbound); [exact Hturns|].
  by eapply (push_graph_root_scheduled num_devices next_edges graph_root
               rank Hacyclic visited gid Hreachable).
Qed.

End AppliedOnce.

(** The driver of A → B → {C, D} with no output requested: after the five
    turns that run the graph root, A, B, C and D, the future holds the
    (empty) gradients and the five nodes have been applied in that order. *)
Lemma every_node_applied_once_witness :
  let s := SimpleSchedule.analysed in
  let next_edges := λ n, node_next_edges (nodes (engine s) n) in
  (acyclic next_edges 0%nat SimpleGraph.rank
   ∧ graph_tasks (engine s) !! 0%nat = Some SimpleSchedule.graph_task
   ∧ compute_dependencies next_edges 20 0%nat
       (with_dependencies ∅ SimpleSchedule.graph_task)
     = Some SimpleSchedule.graph_task
   ∧ push_graph_root 0 0%nat 0%nat s = (SimpleSchedule.root_pushed, Ret ())
   ∧ rtc (worker_turn Simple.exec_info_empty false Simple.buffer_device)
         SimpleSchedule.root_pushed SimpleSchedule.after_D)
  ∧ applied 0%nat (trace_ (engine SimpleSchedule.after_D))
    = [0%nat; Simple.A; Simple.B; Simple.C; Simple.D]
  ∧ ∃ g',
      graph_tasks (engine SimpleSchedule.after_D) !! 0%nat = Some g'
      ∧ future_result_ g' = Completed []
      ∧ has_error_ g' = false
      ∧ ∀ n, reachable next_edges 0%nat n →
             n ∈ applied 0%nat (trace_ (engine SimpleSchedule.after_D)).
Proof.
  intros s next_edges.
  assert (nodes (engine s)
          = place_node 0%nat (GraphRoot [Simple.edge_to Simple.A]
                                        [Simple.scalar 5])
                       Simple.chain_fork) as Hnodes
    by (vm_compute; reflexivity).
  assert (acyclic next_edges 0%nat SimpleGraph.rank) as Hacyclic.
  { unfold next_edges. rewrite Hnodes. exact SimpleGraph_acyclic. }
  assert (∀ n, reachable next_edges 0%nat n →
               n ∈ descendants next_edges 4 0%nat) as Huniverse.
  { intros n Hn.
    apply (descendants_reachable next_edges 0%nat SimpleGraph.rank Hacyclic
             4%nat 0%nat n); [apply rtc_refl|done|exact Hn]. }
  assert (Z.of_nat (size (descendants next_edges 4 0%nat)) < 2 ^ 64)
    as Hsize by (vm_compute; reflexivity).
  assert (∀ n, hooks_keep_length (nodes (engine s) n)) as Hhooks.
  { intros n hook outputs inputs outputs' Hhook. exfalso. revert Hhook.
    rewrite Hnodes. unfold place_node, Simple.chain_fork.
    repeat destruct (decide _); simpl; apply not_elem_of_nil. }
  assert (graph_tasks (engine s) !! 0%nat
          = Some SimpleSchedule.graph_task) as Hg
    by (vm_compute; reflexivity).
  assert (compute_dependencies next_edges 20 0%nat
            (with_dependencies ∅ SimpleSchedule.graph_task)
          = Some SimpleSchedule.graph_task) as Hcounts
    by (vm_compute; reflexivity).
  assert (exec_info_ SimpleSchedule.graph_task = ∅) as Hempty
    by (vm_compute; reflexivity).
  assert (has_error_ SimpleSchedule.graph_task = false) as Herror
    by (vm_compute; reflexivity).
  assert (future_result_ SimpleSchedule.graph_task = Pending) as Hfuture
    by (vm_compute; reflexivity).
  assert (outstanding_tasks_ SimpleSchedule.graph_task = 0) as Houtstanding
    by (vm_compute; reflexivity).
  assert (weigh (λ _, 1%nat) (engine s) = 0%nat) as Hidle
    by (vm_compute; reflexivity).
  assert (applied 0%nat (trace_ (engine s)) = []) as Happlied
    by (vm_compute; reflexivity).
  assert (pushed 0%nat (trace_ (engine s)) = []) as Hpushed
    by (vm_compute; reflexivity).
  assert (push_graph_root 0 0%nat 0%nat s
          = (SimpleSchedule.root_pushed, Ret ())) as Hpush
    by (vm_compute; reflexivity).
  assert (∀ s0 control,
            worker_iteration Simple.exec_info_empty false
              Simple.buffer_device 0%nat false
              (with_tls (mkThreadLocals CPU_DEVICE true 0 0 (Some 0%nat)) s0)
            = (SimpleSchedule.turn s0, Ret control) →
            worker_turn Simple.exec_info_empty false Simple.buffer_device
                        s0 (SimpleSchedule.turn s0)) as Hturn.
  { intros s0 control Hrun.
    by exists (mkThreadLocals CPU_DEVICE true 0 0 (Some 0%nat)), 0%nat,
              false, control. }
  assert (rtc (worker_turn Simple.exec_info_empty false Simple.buffer_device)
              SimpleSchedule.root_pushed SimpleSchedule.after_D) as Hturns.
  { unfold SimpleSchedule.after_D.
    eapply rtc_l;
      [apply (Hturn _ loop_continue); vm_compute; reflexivity|].
    eapply rtc_l;
      [apply (Hturn _ loop_continue); vm_compute; reflexivity|].
    eapply rtc_l;
      [apply (Hturn _ loop_continue); vm_compute; reflexivity|].
    eapply rtc_l;
      [apply (Hturn _ loop_continue); vm_compute; reflexivity|].
    eapply rtc_l;
      [apply (Hturn _ loop_break); vm_compute; reflexivity|].
    apply rtc_refl. }
  split.
  { split; [exact Hacyclic|]. split; [exact Hg|]. split; [exact Hcounts|].
    split; [exact Hpush|exact Hturns]. }
  split; [vm_compute; reflexivity|].
  destruct (every_node_applied_once Simple.exec_info_empty false
              Simple.buffer_device 0 SimpleGraph.rank
              (descendants next_edges 4 0%nat) 20 0%nat 0%nat s
              SimpleSchedule.root_pushed SimpleSchedule.after_D
              SimpleSchedule.graph_task Hacyclic Huniverse Hsize Hhooks Hg
              Hcounts Hempty Herror Hfuture Houtstanding Hidle Happlied
              Hpushed Hpush Hturns) as (g' & Hg' & _ & Hcompleted).
  exists g'. split; [exact Hg'|].
  assert (∀ g0, graph_tasks (engine SimpleSchedule.after_D) !! 0%nat
                = Some g0 → future_result_ g0 = Completed []) as Hvalue.
  { intros g0. vm_compute. intros [= <-]. reflexivity. }
  specialize (Hvalue g' Hg').
  split; [exact Hvalue|]. exact (Hcompleted [] Hvalue).
Defined.

(** *** The schedule across [execute] *)

Section GraphExt.
Variables next_edges next_edges' : Node → edge_list.
Hypothesis same_edges : ∀ n, next_edges' n = next_edges n.

Lemma successors_ext n : successors next_edges' n = successors next_edges n.
Proof. unfold successors. by rewrite same_edges. Qed.

Lemma reachable_ext root n :
  reachable next_edges root n → reachable next_edges' root n.
Proof.
  unfold reachable. induction 1 as [|x y z Hxy _ IH]; [apply rtc_refl|].
  eapply rtc_l; [|exact IH]. simpl. by rewrite successors_ext.
Qed.

End GraphExt.

Lemma acyclic_ext (next_edges next_edges' : Node → edge_list) root rank :
  (∀ n, next_edges' n = next_edges n) →
  acyclic next_edges root rank → acyclic next_edges' root rank.
Proof.
  intros Hsame Hacyclic n c Hn Hc. apply (Hacyclic n c).
  - by apply (reachable_ext next_edges' next_edges).
  - by rewrite <- (successors_ext next_edges next_edges').
Qed.

Section ExecuteSchedule.
Context {L : TensorLib}.
Variable can_checkpoint : GraphTask → bool.
Variable anomaly_enabled : bool.
Variable InputBuffer_device : InputBuffer → Device.
Variable num_devices : nat.
Variable next_edges : Node → edge_list.
Variable root : Node.
Variable rank : Node → nat.
Hypothesis Hacyclic : acyclic next_edges root rank.
Variable visited : list Node.
Variable gid : GraphTaskId.
Hypothesis visited_nodup : NoDup visited.
Hypothesis visited_reachable :
  ∀ n, n ∈ visited ↔ reachable next_edges root n.
Hypothesis visited_bound : Z.of_nat (length visited) < 2 ^ 64.

Local Abbreviation scheduled_ := (scheduled next_edges visited gid).

(** The invariant looks at the node objects, the queues, the trace and
    the graph task only. *)
Lemma scheduled_update (s s' : State) :
  nodes (engine s') = nodes (engine s) →
  ready_queues (engine s') = ready_queues (engine s) →
  trace_ (engine s') = trace_ (engine s) →
  (∀ g, graph_tasks (engine s) !! gid = Some g →
     ∃ g', graph_tasks (engine s') !! gid = Some g'
           ∧ exec_info_ g' = exec_info_ g
           ∧ has_error_ g' = has_error_ g
           ∧ future_result_ g' = future_result_ g
           ∧ dependencies_ g' = dependencies_ g
           ∧ outstanding_tasks_ g' = outstanding_tasks_ g) →
  scheduled_ s → scheduled_ s'.
Proof.
  intros Hnodes Hqueues Htrace Htask
    (g & Hg & Hempty & Hgraph & Hhooks & Hforeign & Herr & Hbal & Hon).
  destruct (Htask g Hg)
    as (g' & Hg' & Hinfo & Herror & Hfuture & Hdeps & Houtstanding).
  exists g'. split; [done|]. split; [congruence|].
  split; [by intros n; rewrite Hnodes|].
  split; [by intros n; rewrite Hnodes|].
  split; [by rewrite (weigh_same _ _ _ Hqueues)|].
  split.
  { intros g1. rewrite Hg'. intros [= <-]. rewrite Herror, Hfuture.
    by apply Herr. }
  split.
  { intros g1. rewrite Hg'. intros [= <-]. rewrite Houtstanding.
    change (queued gid ?e)
      with (weigh (λ task, if counts_for gid task then 1%nat else 0%nat) e).
    rewrite (weigh_same _ _ _ Hqueues). by apply Hbal. }
  rewrite Herror. intros Hok.
  destruct (Hon Hok) as [Hsch Hnode Hnodes' Hwake Hcompleted].
  split; rewrite ?Htrace, ?Hdeps, ?Hfuture, ?(weigh_same _ _ _ Hqueues);
    try done.
  intros n. rewrite (weigh_same _ _ _ Hqueues). apply Hnode.
Qed.

Lemma thread_main_loop_scheduled fuel graph_task reentrant :
  ∀ s s' : State,
    thread_main_loop can_checkpoint anomaly_enabled InputBuffer_device
                     fuel graph_task reentrant s = (s', Ret ()) →
    scheduled_ s → scheduled_ s'.
Proof.
  induction fuel as [|fuel IH]; intros s s' Hrun Hs; [done|].
  cbn [thread_main_loop] in Hrun.
  apply bind_returns in Hrun as (again & s0 & Hagain & Hrun).
  assert (s0 = s) as ->.
  { destruct reentrant; [|by injection Hagain as <- _].
    destruct graph_task as [gid0|]; [|done].
    unfold get_graph_task in Hagain. comp_unfold.
    destruct (graph_tasks (engine s) !! gid0); [|done].
    by injection Hagain as <- _. }
  destruct again; [|by injection Hrun as <-].
  apply bind_returns in Hrun as (t & s0 & [= <- <-] & Hrun).
  destruct (local_ready_queue (tls s)) as [queue|]; [|done].
  apply bind_returns in Hrun as (task & s1 & Hpop & Hrun).
  apply bind_returns in Hrun as (control & s2 & Htask & Hrun).
  assert (scheduled_ s2) as Hs2.
  { eapply (worker_iteration_scheduled can_checkpoint anomaly_enabled
              InputBuffer_device next_edges visited gid root rank
              Hacyclic visited_nodup visited_reachable visited_bound
              queue reentrant s s2 control); [|done].
    unfold worker_iteration. by rewrite (bind_eq _ _ _ _ _ Hpop). }
  destruct control; [by eapply IH|by injection Hrun as <-].
Qed.

Lemma thread_main_scheduled fuel graph_task reentrant (s s' : State) :
  thread_main can_checkpoint anomaly_enabled InputBuffer_device
              fuel graph_task reentrant s = (s', Ret ()) →
  scheduled_ s → scheduled_ s'.
Proof.
  unfold thread_main. intros Hrun Hs.
  apply bind_returns in Hrun as ([] & s0 & Hassert & Hrun).
  assert (s0 = s) as ->.
  { unfold internal_assert in Hassert. comp_unfold.
    destruct (negb _); [|done]. by injection Hassert as <-. }
  apply bind_returns in Hrun as (t & s0 & [= <- <-] & Hrun).
  apply bind_returns in Hrun as ([] & s0 & Hassert' & Hrun).
  assert (s0 = s) as ->.
  { unfold internal_assert in Hassert'. comp_unfold.
    destruct (local_ready_queue _); [|done]. by injection Hassert' as <-. }
  by eapply thread_main_loop_scheduled.
Qed.

(** The drivers of [execute_with_graph_task] keep the invariant. *)
Lemma future_wait_scheduled (s s' : State) value :
  future_wait gid s = (s', Ret value) →
  scheduled_ s →
  scheduled_ s'
  ∧ ∃ g, graph_tasks (engine s') !! gid = Some g
         ∧ future_result_ g = Completed value.
Proof.
  intros Hrun Hs. pose proof (future_wait_state _ _ _ _ Hrun) as ->.
  split; [done|]. unfold future_wait, get_graph_task in Hrun. comp_unfold.
  destruct (graph_tasks (engine s) !! gid) as [g|]; [|done].
  destruct (future_result_ g) eqn:Hfuture; try done.
  injection Hrun as <-. by exists g.
Qed.

Lemma with_owner_scheduled v (s s' : State) :
  on_graph_task gid (modify (with_owner v)) s = (s', Ret ()) →
  scheduled_ s → scheduled_ s'.
Proof.
  unfold on_graph_task. intros Hrun Hs.
  destruct (graph_tasks (engine s) !! gid) as [g|] eqn:Hg; [|done].
  comp_unfold. injection Hrun as <-.
  eapply (scheduled_update s); [done|done|done| |done].
  intros g0. rewrite Hg. intros [= <-]. exists (with_owner v g).
  split; [apply put_graph_task_lookup|done].
Qed.

Lemma execute_with_graph_task_scheduled fuel (s s1 s' : State) value :
  push_graph_root num_devices gid root s = (s1, Ret ()) →
  scheduled_ s1 →
  execute_with_graph_task can_checkpoint anomaly_enabled InputBuffer_device
    num_devices fuel gid root s = (s', Ret value) →
  scheduled_ s'
  ∧ ∃ g, graph_tasks (engine s') !! gid = Some g
         ∧ future_result_ g = Completed value.
Proof.
  intros Hpush Hs1 Hrun. unfold execute_with_graph_task in Hrun.
  rewrite (bind_eq _ _ _ _ _ Hpush) in Hrun.
  apply bind_returns in Hrun as (t & s2 & [= <- <-] & Hrun).
  apply bind_returns in Hrun as (e & s2 & [= <- <-] & Hrun).
  destruct (decide (worker_device (tls s1) = NO_DEVICE)).
  - unfold drive_from_caller, set_device, modify_tls, modify in Hrun.
    apply bind_returns in Hrun as ([] & s2 & [= <-] & Hrun).
    apply bind_returns in Hrun as (t & s3 & [= <- <-] & Hrun).
    apply bind_returns in Hrun as ([] & s3 & Howner & Hrun).
    apply with_owner_scheduled in Howner; [|by apply scheduled_tls].
    apply bind_returns in Hrun as ([] & s4 & Hmain & Hrun).
    apply thread_main_scheduled in Hmain; [|done].
    apply bind_returns in Hrun as ([] & s5 & [= <-] & Hrun).
    apply bind_returns in Hrun as ([] & s6 & [= <-] & Hrun).
    eapply future_wait_scheduled; [done|].
    by do 2 apply scheduled_tls.
  - apply bind_returns in Hrun as ([] & s2 & Howner & Hrun).
    apply with_owner_scheduled in Howner; [|done].
    destruct (decide (max_recursion_depth_ (engine s1)
                      ≤ current_depth (tls s1))).
    + unfold drive_from_pool in Hrun.
      apply bind_returns in Hrun as ([] & s3 & Hpool & Hrun).
      eapply future_wait_scheduled; [done|].
      unfold add_thread_pool_task in Hpool. comp_unfold.
      destruct (thread_pool_shared_ (engine s2)); [|done].
      simpl in Hpool.
      eapply (scheduled_update s2); [| | | |exact Howner];
        destruct (bool_decide _); injection Hpool as <-; simpl; eauto 10.
    + unfold drive_inline, modify_tls, modify in Hrun.
      apply bind_returns in Hrun as ([] & s3 & [= <-] & Hrun).
      apply bind_returns in Hrun as ([] & s4 & [= <-] & Hrun).
      apply bind_returns in Hrun as ([] & s5 & Hmain & Hrun).
      apply thread_main_scheduled in Hmain;
        [|by do 2 apply scheduled_tls].
      apply bind_returns in Hrun as ([] & s6 & [= <-] & Hrun).
      apply bind_returns in Hrun as ([] & s7 & [= <-] & Hrun).
      apply bind_returns in Hrun as (g & s8 & Hget & Hrun).
      apply bind_returns in Hrun as ([] & s9 & Hassert & Hrun).
      eapply future_wait_scheduled; [done|].
      assert (s8 = with_tls
                     (set_total_depth
                        (total_depth (tls (with_tls
                           (set_current_depth (current_depth (tls s5) - 1)
                                              (tls s5)) s5)) - 1)
                        (tls (with_tls
                           (set_current_depth (current_depth (tls s5) - 1)
                                              (tls s5)) s5)))
                     (with_tls
                        (set_current_depth (current_depth (tls s5) - 1)
                                           (tls s5)) s5)) as ->.
      { unfold get_graph_task in Hget.
        destruct (graph_tasks _ !! gid); [|done]. by injection Hget as <- _. }
      assert (s9 = with_tls
                     (set_total_depth
                        (total_depth (tls (with_tls
                           (set_current_depth (current_depth (tls s5) - 1)
                                              (tls s5)) s5)) - 1)
                        (tls (with_tls
                           (set_current_depth (current_depth (tls s5) - 1)
                                              (tls s5)) s5)))
                     (with_tls
                        (set_current_depth (current_depth (tls s5) - 1)
                                           (tls s5)) s5)) as ->.
      { unfold internal_assert in Hassert. comp_unfold.
        destruct (completed _); [|done]. by injection Hassert as <-. }
      by do 2 apply scheduled_tls.
Qed.

End ExecuteSchedule.

Section ExecuteApplies.
Context {L : TensorLib}.
Variable can_checkpoint : GraphTask → bool.
Variable anomaly_enabled : bool.
Variable InputBuffer_device : InputBuffer → Device.
Variable num_devices : nat.

(** The graph task that [execute] builds. *)
Lemma make_graph_task_returns keep_graph create_graph (s s1 : State) gid :
  make_graph_task keep_graph create_graph s = (s1, Ret gid) →
  gid = next_graph_task (engine s)
  ∧ nodes (engine s1) = nodes (engine s)
  ∧ trace_ (engine s1) = trace_ (engine s)
  ∧ (weigh (λ _, 1%nat) (engine s) = 0%nat →
     weigh (λ _, 1%nat) (engine s1) = 0%nat)
  ∧ ∃ reentrant_depth cpu_ready_queue,
      graph_tasks (engine s1) !! gid
      = Some (GraphTask_new keep_graph create_graph reentrant_depth
                            cpu_ready_queue).
Proof.
  unfold make_graph_task, init_local_ready_queue, new_ready_queue,
    new_graph_task. comp_unfold. simpl.
  destruct (bool_decide (worker_device (tls s) ≠ NO_DEVICE)); simpl.
  - intros [= <- <-]. simpl. rewrite lookup_insert_eq.
    repeat split; try done. by eauto.
  - destruct (bool_decide (local_ready_queue (tls s) = None)); simpl;
      [|done].
    intros [= <- <-]. simpl. rewrite lookup_insert_eq.
    repeat split; try done; [|by eauto].
    intros Hidle.
    by apply (idle_empty_queue _ (next_ready_queue (engine s))) in Hidle.
Qed.

(** The analysis of the graph when no output is requested. *)
Lemma analyse_graph_returns fuel gid graph_root roots inputs
    (s s1 : State) (g : GraphTask) :
  analyse_graph fuel gid graph_root roots inputs [] s = (s1, Ret ()) →
  graph_tasks (engine s) !! gid = Some g →
  nodes (engine s1)
  = place_node graph_root (GraphRoot roots inputs) (nodes (engine s))
  ∧ ready_queues (engine s1) = ready_queues (engine s)
  ∧ trace_ (engine s1) = trace_ (engine s)
  ∧ ∃ dependencies,
      graph_tasks (engine s1) !! gid
      = Some (with_dependencies dependencies g)
      ∧ compute_dependencies
          (λ n, node_next_edges (nodes (engine s1) n)) fuel graph_root g
        = Some (with_dependencies dependencies g).
Proof.
  intros Hrun Hg. revert Hrun.
  unfold analyse_graph, compute_dependencies.
  comp_unfold. simpl. rewrite Hg. simpl.
  destruct (compute_dependencies_loop _ _ _ _ _) as [dependencies|]
    eqn:Hloop; simpl; [|done].
  intros [= <-]. simpl. rewrite lookup_insert_eq, Hloop.
  repeat split; try done. by exists dependencies.
Qed.

(** X24: [execute] without requested outputs applies every node of the
    graph once.  When [execute] is called with no output edges on an engine
    with no task in its queues, for a graph that is acyclic under the graph
    root and has fewer than 2^64 nodes (whose post hooks keep the number of
    outputs), and it returns normally, then the nodes applied for its graph
    task are exactly the nodes reachable from the graph root, each applied
    once, and every node is applied before the nodes its edges lead to. *)
Theorem execute_applies_every_node rank (universe : gset Node) fuel
    graph_root roots inputs keep_graph create_graph (s s' : State) value :
  let gid := next_graph_task (engine s) in
  let next_edges := λ n, if decide (n = graph_root) then roots
                         else node_next_edges (nodes (engine s) n) in
  acyclic next_edges graph_root rank →
  (∀ n, reachable next_edges graph_root n → n ∈ universe) →
  Z.of_nat (size universe) < 2 ^ 64 →
  (∀ n, hooks_keep_length (nodes (engine s) n)) →
  weigh (λ _, 1%nat) (engine s) = 0%nat →
  applied gid (trace_ (engine s)) = [] →
  pushed gid (trace_ (engine s)) = [] →
  execute can_checkpoint anomaly_enabled InputBuffer_device num_devices
          fuel graph_root roots inputs keep_graph create_graph [] s
  = (s', Ret value) →
  NoDup (applied gid (trace_ (engine s')))
  ∧ (∀ n, n ∈ applied gid (trace_ (engine s'))
          ↔ reachable next_edges graph_root n)
  ∧ (∀ i j m n,
       applied gid (trace_ (engine s')) !! i = Some m →
       applied gid (trace_ (engine s')) !! j = Some n →
       n ∈ successors next_edges m → (i < j)%nat).
Proof.
  intros gid next_edges Hacyclic Huniverse Hsize Hhooks Hidle Happlied
    Hpushed Hrun.
  unfold execute in Hrun.
  apply bind_returns in Hrun as (e & s0 & [= <- <-] & Hrun).
  apply bind_returns in Hrun as (inputs' & s0 & Hvalidate & Hrun).
  assert (s0 = s) as ->.
  { unfold lift_result in Hvalidate. destruct (validate_outputs _ _ _);
      [|done]. by injection Hvalidate as <- _. }
  apply bind_returns in Hrun as ([] & sc & [= <-] & Hrun).
  apply finally_returns in Hrun as (sf & Hrun & ->).
  apply bind_returns in Hrun as (gid0 & sm & Hmake & Hrun).
  apply finally_returns in Hrun as (se & Hrun & ->).
  apply bind_returns in Hrun as ([] & sa & Hanalyse & Hrun).
  apply make_graph_task_returns in Hmake
    as (Hgid & Hnodes_m & Htrace_m & Hidle_m & depth & queue & Hgm).
  simpl in Hgid, Hnodes_m, Htrace_m, Hidle_m. subst gid0. fold gid in Hgm.
  fold gid in Hanalyse, Hrun.
  apply analyse_graph_returns with (g := GraphTask_new keep_graph
    create_graph depth queue) in Hanalyse
    as (Hnodes_a & Hqueues_a & Htrace_a & deps & Hga & Hcounts); [|done].
  set (placed := λ n, node_next_edges (nodes (engine sa) n)) in *.
  assert (∀ n, placed n = next_edges n) as Hsame.
  { intros n. unfold placed, next_edges. rewrite Hnodes_a, Hnodes_m.
    unfold place_node. by destruct (decide (n = graph_root)). }
  assert (∀ n, next_edges n = placed n) as Hsame' by done.
  pose proof (acyclic_ext next_edges placed graph_root rank Hsame Hacyclic)
    as Hacyclic'.
  apply (compute_dependencies_visited placed graph_root rank Hacyclic')
    in Hcounts as (visited & Hnodup & Hreachable & Hdeps); [|done].
  assert (Z.of_nat (length visited) < 2 ^ 64) as Hbound.
  { assert (list_to_set visited ⊆ universe) as Hsub.
    { intros n Hn%elem_of_list_to_set. apply Huniverse.
      apply (reachable_ext placed next_edges Hsame'). by apply Hreachable. }
    apply subseteq_size in Hsub.
    rewrite size_list_to_set in Hsub by done. lia. }
  pose proof Hrun as Hpush. unfold execute_with_graph_task in Hpush.
  apply bind_returns in Hpush as ([] & s1 & Hpush & _).
  assert (scheduled placed visited gid s1) as Hs1.
  { eapply (push_graph_root_scheduled num_devices placed graph_root rank
              Hacyclic' visited gid Hreachable sa s1
              (with_dependencies deps
                 (GraphTask_new keep_graph create_graph depth queue)));
      try done.
    - intros n. rewrite Hnodes_a, Hnodes_m. unfold place_node.
      destruct (decide (n = graph_root)); [|apply Hhooks].
      by intros hook outputs inputs0 outputs' ?%elem_of_nil.
    - by rewrite (weigh_same _ _ _ Hqueues_a); apply Hidle_m.
    - by rewrite Htrace_a, Htrace_m.
    - by rewrite Htrace_a, Htrace_m. }
  destruct (execute_with_graph_task_scheduled can_checkpoint anomaly_enabled
              InputBuffer_device num_devices placed graph_root rank
              Hacyclic' visited gid Hnodup Hreachable Hbound fuel sa s1 se
              value Hpush Hs1 Hrun) as (Hse & g & Hg & Hvalue).
  destruct (scheduled_applied placed graph_root visited gid Hreachable
              se Hse) as (g' & Hg' & Hrunning & Hcompleted).
  rewrite Hg in Hg'. injection Hg' as <-.
  destruct (Hcompleted value Hvalue) as (Hok & Hall).
  destruct (Hrunning Hok) as (Hnodup' & Hwithin & Horder).
  cbn [engine with_engine clear_callbacks release_graph_task trace_
       with_final_callbacks with_graph_tasks].
  split; [done|]. split.
  - intros n. split.
    + intros Hn. apply (reachable_ext placed next_edges Hsame'). auto.
    + intros Hn. apply Hall. by apply (reachable_ext next_edges placed Hsame).
  - intros i j m n Hi Hj Hedge. apply (Horder i j m n Hi Hj).
    by rewrite (successors_ext next_edges placed Hsame).
Qed.

End ExecuteApplies.

(** [execute] on A → B → {C, D} with no output requested, on a fresh engine:
    it returns, and the graph root, A, B, C and D have been applied, in
    that order. *)
Lemma execute_applies_every_node_witness :
  let s := mkState ThreadLocals_init (Engine_new Simple.chain_fork) in
  let run := execute Simple.exec_info_empty false Simple.buffer_device 0 20
               0%nat [Simple.edge_to Simple.A] [Simple.scalar 5] false false
               [] s in
  let next_edges := λ n, if decide (n = 0%nat) then [Simple.edge_to Simple.A]
                         else node_next_edges (nodes (engine s) n) in
  (acyclic next_edges 0%nat SimpleGraph.rank
   ∧ weigh (λ _, 1%nat) (engine s) = 0%nat
   ∧ run.2 = Ret [])
  ∧ applied 0%nat (trace_ (engine run.1))
    = [0%nat; Simple.A; Simple.B; Simple.C; Simple.D]
  ∧ NoDup (applied 0%nat (trace_ (engine run.1)))
  ∧ ∀ n, n ∈ applied 0%nat (trace_ (engine run.1))
         ↔ reachable next_edges 0%nat n.
Proof.
  intros s run next_edges.
  assert (acyclic next_edges 0%nat SimpleGraph.rank) as Hacyclic.
  { apply (acyclic_ext SimpleGraph.next_edges); [|exact SimpleGraph_acyclic].
    intros n. unfold next_edges, SimpleGraph.next_edges, place_node.
    repeat destruct (decide _); reflexivity || contradiction. }
  assert (∀ n, reachable next_edges 0%nat n →
               n ∈ descendants next_edges 4 0%nat) as Huniverse.
  { intros n Hn.
    apply (descendants_reachable next_edges 0%nat SimpleGraph.rank Hacyclic
             4%nat 0%nat n); [apply rtc_refl|done|exact Hn]. }
  assert (Z.of_nat (size (descendants next_edges 4 0%nat)) < 2 ^ 64)
    as Hsize by (vm_compute; reflexivity).
  assert (∀ n, hooks_keep_length (nodes (engine s) n)) as Hhooks.
  { intros n hook outputs inputs outputs' Hhook. exfalso. revert Hhook.
    simpl. unfold Simple.chain_fork.
    repeat destruct (decide _); simpl; apply not_elem_of_nil. }
  assert (weigh (λ _, 1%nat) (engine s) = 0%nat) as Hidle
    by (vm_compute; reflexivity).
  assert (applied (next_graph_task (engine s)) (trace_ (engine s)) = [])
    as Happlied by (vm_compute; reflexivity).
  assert (pushed (next_graph_task (engine s)) (trace_ (engine s)) = [])
    as Hpushed by (vm_compute; reflexivity).
  assert (execute Simple.exec_info_empty false Simple.buffer_device 0 20
            0%nat [Simple.edge_to Simple.A] [Simple.scalar 5] false false
            [] s = (run.1, Ret [])) as Hrun
    by (vm_compute; reflexivity).
  split.
  { split; [exact Hacyclic|]. split; [exact Hidle|].
    exact (f_equal snd Hrun). }
  split; [vm_compute; reflexivity|].
  destruct (execute_applies_every_node Simple.exec_info_empty false
              Simple.buffer_device 0 SimpleGraph.rank
              (descendants next_edges 4 0%nat) 20 0%nat
              [Simple.edge_to Simple.A] [Simple.scalar 5] false false
              s run.1 [] Hacyclic Huniverse Hsize Hhooks Hidle Happlied
              Hpushed Hrun) as (Hnodup & Hall & _).
  split; [exact Hnodup|exact Hall].
Defined.
